(** * VC4C middle-end: a shallow embedding of parts of [Method.cpp],
    [KernelMetaData.h], [normalization/MemoryAccess.cpp] and
    [optimization/Eliminator.cpp], with the properties checked on it.

    Conventions.  Unsigned machine integers are numbers in [Z] (or [N]) with
    the wrap-around of the C++ type written out ([wrap32], [wrapSize]).
    Objects that the C++ code compares by address (instructions, basic
    blocks) carry an explicit address field.  Stateful methods take the
    state they read and return the state they leave. *)

From Stdlib Require Import String.
From Stdlib Require Import ZArith NArith List Bool Lia Arith.
From Stdlib Require DecimalString DecimalN.
Import ListNotations.

(* ===================================================================== *)
(** * KernelMetaData.h *)
(* ===================================================================== *)

Module KernelMetaData.

Local Open Scope N_scope.

(** [uint32_t] arithmetic. *)
Definition wrap32 (n : N) : N := n mod 2 ^ 32.

(** [std::array<uint32_t, 3>] *)
Record array3 : Type := Array3 { dimX : N; dimY : N; dimZ : N }.

Definition elements (a : array3) : list N := [dimX a; dimY a; dimZ a].

Record KernelMetaData : Type := {
  uniformsUsed : N;                (* the Bitfield<uint64_t> value *)
  workGroupSizes : array3;
  workGroupSizeHints : array3;
  mergedWorkItemsFactor : N        (* uint8_t *)
}.

(** [std::any_of(begin, end, [](uint32_t u) { return u > 0; })] *)
Definition any_positive (l : list N) : bool := existsb (fun u => 0 <? u) l.

(** [std::accumulate(begin, end, 1u, std::multiplies<uint32_t>{})] *)
Definition accumulate_mul (l : list N) : N :=
  fold_left (fun acc u => wrap32 (acc * u)) l 1.

Definition getFixedWorkGroupSize (md : KernelMetaData) : option N :=
  if any_positive (elements (workGroupSizes md))
  then Some (accumulate_mul (elements (workGroupSizes md)))
  else None.

Section WithConfig.

(** [NUM_QPUS] is a constant of [config.h]. *)
Variable NUM_QPUS : N.

Definition getMaximumWorkGroupSize (md : KernelMetaData) : N :=
  match getFixedWorkGroupSize md with
  | Some fixedSize => fixedSize
  | None => wrap32 (NUM_QPUS * N.max (mergedWorkItemsFactor md) 1)
  end.

Definition getMaximumInstancesCount (md : KernelMetaData) : N :=
  let factor := N.max (mergedWorkItemsFactor md) 1 in
  match getFixedWorkGroupSize md with
  | Some fixedSize =>
      wrap32 (fixedSize / factor + (if fixedSize mod factor =? 0 then 0 else 1))
  | None => NUM_QPUS
  end.

End WithConfig.

Definition allZero (a : array3) : bool :=
  (dimX a =? 0) && (dimY a =? 0) && (dimZ a =? 0).

Definition someZero (a : array3) : bool :=
  (dimX a =? 0) || (dimY a =? 0) || (dimZ a =? 0).

End KernelMetaData.

(* ===================================================================== *)
(** * Method.cpp: the stack layout *)
(* ===================================================================== *)

Module StackLayout.

Local Open Scope Z_scope.

(** [std::size_t] is taken to be 64 bits wide. *)
Definition SIZE_MODULUS : Z := 2 ^ 64.

Definition wrapSize (z : Z) : Z := z mod SIZE_MODULUS.

(** The fields of [StackAllocation] the layout reads and writes. *)
Record StackAllocation : Type := {
  name : string;
  size : Z;
  alignment : Z;
  offset : Z;
  isLowered : bool
}.

Definition setOffset (s : StackAllocation) (o : Z) : StackAllocation :=
  {| name := name s; size := size s; alignment := alignment s;
     offset := o; isLowered := isLowered s |}.

(** [if((stackBaseOffset + currentOffset) % alignment != 0)
       currentOffset += alignment - ((stackBaseOffset + currentOffset) % alignment);]
    The C++ remainder by zero is undefined; here [x mod 0 = x]. *)
Definition alignOffset (stackBaseOffset currentOffset align : Z) : Z :=
  if negb (wrapSize (stackBaseOffset + currentOffset) mod align =? 0)
  then wrapSize (currentOffset
                 + wrapSize (align - wrapSize (stackBaseOffset + currentOffset) mod align))
  else currentOffset.

(** One of the two [for(auto& stackAllocation : stackAllocations)] loops of
    [calculateStackOffsets]: the first one skips the lowered allocations
    ([lowered = false]), the second one skips the others ([lowered = true]).
    Returns the allocations as the loop leaves them and [currentOffset]. *)
Fixpoint layoutPass (lowered : bool) (stackBaseOffset currentOffset : Z)
    (l : list StackAllocation) : list StackAllocation * Z :=
  match l with
  | [] => ([], currentOffset)
  | s :: rest =>
      if Bool.eqb (isLowered s) lowered then
        let aligned := alignOffset stackBaseOffset currentOffset (alignment s) in
        let (rest', final) :=
          layoutPass lowered stackBaseOffset (wrapSize (aligned + size s)) rest in
        (setOffset s aligned :: rest', final)
      else
        let (rest', final) := layoutPass lowered stackBaseOffset currentOffset rest in
        (s :: rest', final)
  end.

(** [Method::getStackBaseOffset]; [globalDataOffset] is
    [module.getGlobalDataOffset(nullptr).value()]. *)
Definition getStackBaseOffset (globalDataOffset : Z) (l : list StackAllocation) : Z :=
  let baseOffset := globalDataOffset in
  let maxAlignment := match l with [] => 1 | first :: _ => alignment first end in
  let baseOffset :=
    if negb (baseOffset mod maxAlignment =? 0)
    then wrapSize (baseOffset + wrapSize (maxAlignment - baseOffset mod maxAlignment))
    else baseOffset in
  if negb (baseOffset mod 8 =? 0)
  then wrapSize (baseOffset + wrapSize (8 - baseOffset mod 8))
  else baseOffset.

(** [Method::calculateStackOffsets] *)
Definition calculateStackOffsets (globalDataOffset : Z) (l : list StackAllocation)
  : list StackAllocation :=
  let stackBaseOffset := getStackBaseOffset globalDataOffset l in
  let (l1, currentOffset) := layoutPass false stackBaseOffset 0 l in
  fst (layoutPass true stackBaseOffset currentOffset l1).

(** The loop of [calculateStackSize] that looks for the allocation with the
    highest end; [max] is the pointer [const StackAllocation* max]. *)
Fixpoint findHighest (max : option StackAllocation) (l : list StackAllocation)
  : option StackAllocation :=
  match l with
  | [] => max
  | s :: rest =>
      if isLowered s then findHighest max rest
      else match max with
           | None => findHighest (Some s) rest
           | Some m =>
               if wrapSize (m.(offset) + m.(size)) <? wrapSize (s.(offset) + s.(size))
               then findHighest (Some s) rest
               else findHighest max rest
           end
  end.

(** [Method::calculateStackSize] *)
Definition calculateStackSize (l : list StackAllocation) : Z :=
  match l with
  | [] => 0
  | first :: _ =>
      match findHighest None l with
      | None => 0
      | Some max =>
          if isLowered max then 0
          else
            let stackSize := wrapSize (max.(offset) + max.(size)) in
            let maxAlignment := alignment first in
            let stackSize :=
              if negb (stackSize mod maxAlignment =? 0)
              then wrapSize (stackSize + wrapSize (maxAlignment - stackSize mod maxAlignment))
              else stackSize in
            if negb (stackSize mod 8 =? 0)
            then wrapSize (stackSize + wrapSize (8 - stackSize mod 8))
            else stackSize
      end
  end.

(** ** Vocabulary of the statements *)

(** A well-formed allocation: a size and a positive alignment. *)
Definition wellFormed (s : StackAllocation) : Prop :=
  0 <= size s /\ 0 < alignment s.

(** The space the greedy layout can need at most. *)
Definition budget (l : list StackAllocation) : Z :=
  fold_right (fun s acc => size s + alignment s + acc) 0 l.

(** The smallest multiple of [a] that is at least [x]. *)
Definition roundUp (a x : Z) : Z := ((x + a - 1) / a) * a.

(** The highest [offset + size] among the allocations that are not lowered
    (0 when there is none). *)
Definition highestEnd (l : list StackAllocation) : Z :=
  fold_right (fun s acc => if isLowered s then acc else Z.max (offset s + size s) acc) 0 l.

(** The largest alignment present (1 when there is no allocation). *)
Definition largestAlignment (l : list StackAllocation) : Z :=
  fold_right (fun s acc => Z.max (alignment s) acc) 1 l.

(** The container [stackAllocations] is declared outside of [Method.cpp];
    [calculateStackSize] and [getStackBaseOffset] read the largest alignment
    off its first element ([maxAlignment = stackAllocations.begin()->alignment]),
    that is, they rely on the container keeping the allocation with the
    largest alignment first. *)
Definition largestAlignmentFirst (l : list StackAllocation) : Prop :=
  match l with
  | [] => True
  | first :: _ => Forall (fun s => alignment s <= alignment first) l
  end.

(** Two address ranges [offset, offset + size) do not overlap. *)
Definition disjointRanges (a b : StackAllocation) : Prop :=
  offset a + size a <= offset b \/ offset b + size b <= offset a.

(** The allocations handled by one pass ([isLowered = lowered]) lie one after
    the other between [lo] and [hi], each at an aligned position. *)
Fixpoint chained (lowered : bool) (base lo : Z) (l : list StackAllocation) (hi : Z)
  : Prop :=
  match l with
  | [] => lo <= hi
  | s :: rest =>
      if Bool.eqb (isLowered s) lowered
      then lo <= offset s
           /\ (base + offset s) mod alignment s = 0
           /\ chained lowered base (offset s + size s) rest hi
      else chained lowered base lo rest hi
  end.

(** What a pass leaves untouched: everything but the offsets it assigns. *)
Definition sameButOffset (lowered : bool) (a a' : StackAllocation) : Prop :=
  name a' = name a /\ size a' = size a /\ alignment a' = alignment a
  /\ isLowered a' = isLowered a
  /\ (isLowered a <> lowered -> a' = a).

Definition budgetOf (lowered : bool) (l : list StackAllocation) : Z :=
  fold_right (fun s acc => if Bool.eqb (isLowered s) lowered
                           then size s + alignment s + acc else acc) 0 l.

(** ** The highest end and the largest alignment *)

Definition endInRange (s : StackAllocation) : Prop :=
  isLowered s = false -> 0 <= offset s + size s < SIZE_MODULUS.

Definition endOf (max : option StackAllocation) : Z :=
  match max with Some m => offset m + size m | None => 0 end.

(** ** Examples *)

(** The allocations of the testable property of the specification, sizes
    and alignments (4,4), (1,1), (16,16); the second one is lowered. *)
Definition exampleAllocations : list StackAllocation :=
  [ {| name := "a"; size := 4; alignment := 4; offset := 0; isLowered := false |};
    {| name := "b"; size := 1; alignment := 1; offset := 0; isLowered := true |};
    {| name := "c"; size := 16; alignment := 16; offset := 0; isLowered := false |} ].

(** The same allocations in the order of the container, laid out. *)
Definition exampleLaidOut : list StackAllocation :=
  [ {| name := "c"; size := 16; alignment := 16; offset := 0; isLowered := false |};
    {| name := "a"; size := 4; alignment := 4; offset := 16; isLowered := false |};
    {| name := "b"; size := 1; alignment := 1; offset := 20; isLowered := true |} ].

End StackLayout.

(* ===================================================================== *)
(** * The intermediate representation *)
(* ===================================================================== *)

Module IR.

(** The part of a [DataType] the modelled code compares. *)
Record DataType : Type := { scalarBitCount : nat; typeVectorWidth : nat }.

Definition DataType_eqb (a b : DataType) : bool :=
  Nat.eqb (scalarBitCount a) (scalarBitCount b)
  && Nat.eqb (typeVectorWidth a) (typeVectorWidth b).

Definition TYPE_INT32 : DataType := {| scalarBitCount := 32; typeVectorWidth := 1 |}.

Definition TYPE_BOOL : DataType := {| scalarBitCount := 1; typeVectorWidth := 1 |}.

Definition TYPE_LABEL : DataType := {| scalarBitCount := 0; typeVectorWidth := 1 |}.

(** [BuiltinLocal::Type], the enumerators of [Method::findOrCreateBuiltin]. *)
Inductive BuiltinType : Type :=
  | WORK_DIMENSIONS | LOCAL_SIZES | LOCAL_IDS
  | NUM_GROUPS_X | NUM_GROUPS_Y | NUM_GROUPS_Z
  | GROUP_ID_X | GROUP_ID_Y | GROUP_ID_Z | GROUP_IDS
  | GLOBAL_OFFSET_X | GLOBAL_OFFSET_Y | GLOBAL_OFFSET_Z
  | GLOBAL_DATA_ADDRESS | UNIFORM_ADDRESS
  | MAX_GROUP_ID_X | MAX_GROUP_ID_Y | MAX_GROUP_ID_Z.

(** The variants of [Local] ([is<Parameter>()], [as<BuiltinLocal>()], ...). *)
Inductive LocalKind : Type :=
  | PlainLocal
  | ParameterLocal (readOnly : bool)
  | GlobalLocal (isConstant : bool)
  | StackAllocationLocal
  | BuiltinLocal (builtinType : BuiltinType).

(** A [Local]; its identity is its name. *)
Record Local : Type := {
  localName : string;
  localType : DataType;
  localKind : LocalKind
}.

Definition sameLocal (a b : Local) : bool := String.eqb (localName a) (localName b).

Definition isParameter (l : Local) : bool :=
  match localKind l with ParameterLocal _ => true | _ => false end.

(** The hardware registers the modelled code names, and the others. *)
Inductive Register : Type :=
  | REG_UNIFORM | REG_ACC5 | REG_REPLICATE_QUAD | REG_REPLICATE_ALL
  | OtherRegister (number : nat).

Definition Register_eqb (a b : Register) : bool :=
  match a, b with
  | REG_UNIFORM, REG_UNIFORM | REG_ACC5, REG_ACC5
  | REG_REPLICATE_QUAD, REG_REPLICATE_QUAD
  | REG_REPLICATE_ALL, REG_REPLICATE_ALL => true
  | OtherRegister n, OtherRegister k => Nat.eqb n k
  | _, _ => false
  end.

(** A [Value]: a reference to a local (with the type asked for), a
    register, a literal or the undefined marker. *)
Inductive Value : Type :=
  | LocalValue (l : Local) (t : DataType)
  | RegisterValue (r : Register)
  | LiteralValue (literal : Z)
  | UndefinedValue.

Definition checkLocal (v : Value) : option Local :=
  match v with LocalValue l _ => Some l | _ => None end.

Definition hasLocal (v : Value) (l : Local) : bool :=
  match v with LocalValue l' _ => sameLocal l' l | _ => false end.

Definition hasRegister (v : Value) (r : Register) : bool :=
  match v with RegisterValue r' => Register_eqb r' r | _ => false end.

Definition Value_eqb (a b : Value) : bool :=
  match a, b with
  | LocalValue l _, LocalValue k _ => sameLocal l k
  | RegisterValue r, RegisterValue s => Register_eqb r s
  | LiteralValue x, LiteralValue y => Z.eqb x y
  | UndefinedValue, UndefinedValue => true
  | _, _ => false
  end.

(** The op-codes the modelled code names, and the others. *)
Inductive OpCode : Type :=
  | OP_AND | OP_OR | OP_XOR | OP_ADD | OP_SUB | OP_NOT | OP_SHL | OP_MUL24
  | OtherOpCode (number : nat).

Definition OpCode_eqb (a b : OpCode) : bool :=
  match a, b with
  | OP_AND, OP_AND | OP_OR, OP_OR | OP_XOR, OP_XOR | OP_ADD, OP_ADD
  | OP_SUB, OP_SUB | OP_NOT, OP_NOT | OP_SHL, OP_SHL | OP_MUL24, OP_MUL24 => true
  | OtherOpCode n, OtherOpCode k => Nat.eqb n k
  | _, _ => false
  end.

(** The dynamic type of an instruction, as the [dynamic_cast]s and
    [it.get<T>()] of the code tell them apart. *)
Inductive InstructionKind : Type :=
  | Operation (op : OpCode)
  | MoveOperation
  | LoadImmediate
  | CodeAddress
  | Branch (targetLabels : list Local) (unconditional : bool)
  | BranchLabel (label : Local)
  | Nop
  | Return
  | OtherInstruction.

(** [InstructionDecorations], the flags the modelled code tests. *)
Record Decorations : Type := {
  BUILTIN_LOCAL_ID : bool;
  BUILTIN_GLOBAL_ID : bool;
  CONSTANT_LOAD : bool
}.

Definition noDecorations : Decorations :=
  {| BUILTIN_LOCAL_ID := false; BUILTIN_GLOBAL_ID := false; CONSTANT_LOAD := false |}.

(** One [IntermediateInstruction] that is not a [CombinedOperation].
    [address] is the identity of the object (the [const LocalUser*] used as
    key of a local's users).  The queries answered by code outside of the
    modelled files are fields:
    [sideEffects] is [hasSideEffects()], [signalSideEffects] is
    [getSignal().hasSideEffects()], [simpleMove] is [isSimpleMove()]. *)
Record Op : Type := {
  address : nat;
  kind : InstructionKind;
  output : option Value;
  arguments : list Value;
  sideEffects : bool;
  signalSideEffects : bool;
  conditionalExecution : bool;
  setFlags : bool;
  packMode : bool;
  unpackMode : bool;
  simpleMove : bool;
  decoration : Decorations
}.

(** An entry of a block: an instruction or a [CombinedOperation] holding up to
    two of them. *)
Inductive Instruction : Type :=
  | Single (o : Op)
  | CombinedOperation (combinedAddress : nat) (firstOp secondOp : option Op).

(** A [BasicBlock]: its identity and its instructions, the label first.  An
    entry of the list can be empty (a null pointer). *)
Record BasicBlock : Type := {
  blockAddress : nat;
  instructions : list (option Instruction)
}.

(** The [Method]: its blocks and its kernel meta data. *)
Record Method : Type := {
  basicBlocks : list BasicBlock;
  metaData : KernelMetaData.KernelMetaData
}.

Definition setBlocks (m : Method) (bs : list BasicBlock) : Method :=
  {| basicBlocks := bs; metaData := metaData m |}.

(** [bb.begin()->get()] cast to [BranchLabel], then [getLabel()]. *)
Definition blockLabel (b : BasicBlock) : option Local :=
  match instructions b with
  | Some (Single o) :: _ =>
      match kind o with BranchLabel l => Some l | _ => None end
  | _ => None
  end.

(** ** The instruction walker

    Modelled from the spec: [InstructionWalker] is declared and defined
    outside of the modelled files.  It is a cursor over (block, position)
    that steps forward and backward within a block and across block
    boundaries within the method, answers start/end-of-block/method, reads
    the instruction at the cursor and erases it, leaving a cursor on the
    instruction that followed.  A block index outside of the method stands
    for the walker without a block. *)
Record Walker : Type := { wblock : nat; wpos : nat }.

Definition walk (blockIndex : nat) : Walker := {| wblock := blockIndex; wpos := 0 |}.

Definition blockAt (m : Method) (w : Walker) : option BasicBlock :=
  nth_error (basicBlocks m) (wblock w).

Definition isEndOfBlock (m : Method) (w : Walker) : bool :=
  match blockAt m w with
  | Some b => Nat.leb (length (instructions b)) (wpos w)
  | None => true
  end.

Definition isStartOfBlock (w : Walker) : bool := Nat.eqb (wpos w) 0.

Definition isEndOfMethod (m : Method) (w : Walker) : bool :=
  match blockAt m w with
  | None => true
  | Some _ => isEndOfBlock m w && Nat.eqb (S (wblock w)) (length (basicBlocks m))
  end.

Definition get (m : Method) (w : Walker) : option Instruction :=
  match blockAt m w with
  | Some b => match nth_error (instructions b) (wpos w) with
              | Some i => i
              | None => None
              end
  | None => None
  end.

Definition nextInBlock (w : Walker) : Walker :=
  {| wblock := wblock w; wpos := S (wpos w) |}.

Definition previousInBlock (w : Walker) : Walker :=
  {| wblock := wblock w; wpos := Nat.pred (wpos w) |}.

Definition nextInMethod (m : Method) (w : Walker) : Walker :=
  let w1 := if isEndOfBlock m w then w else nextInBlock w in
  if isEndOfBlock m w1 && Nat.ltb (S (wblock w1)) (length (basicBlocks m))
  then walk (S (wblock w1))
  else w1.

(** [it.get<T>()]: the instruction at the cursor when it is a single one. *)
Definition getOp (m : Method) (w : Walker) : option Op :=
  match get m w with Some (Single o) => Some o | _ => None end.

(** [Method::findBasicBlock(const Local* label)], as the index of the block. *)
Fixpoint findBlockFrom (index : nat) (bs : list BasicBlock) (label : Local) : option nat :=
  match bs with
  | [] => None
  | bb :: rest =>
      match blockLabel bb with
      | Some l => if sameLocal l label then Some index
                  else findBlockFrom (S index) rest label
      | None => findBlockFrom (S index) rest label
      end
  end.

Definition findBasicBlock (m : Method) (label : Local) : option nat :=
  findBlockFrom 0 (basicBlocks m) label.

(** ** The users of a local

    Modelled from the spec: every local maps each instruction that reads or
    writes it to a use record, and this mapping always equals the set of live
    references of the program.  The users are therefore read off the
    instructions of the method; the two halves of a [CombinedOperation] are
    the users, not the combination. *)
Definition optionToList {A : Type} (o : option A) : list A :=
  match o with Some a => [a] | None => [] end.

Definition opsOf (i : option Instruction) : list Op :=
  match i with
  | Some (Single o) => [o]
  | Some (CombinedOperation _ f s) => optionToList f ++ optionToList s
  | None => []
  end.

Definition allOps (m : Method) : list Op :=
  flat_map (fun b => flat_map opsOf (instructions b)) (basicBlocks m).

Definition readsLocal (o : Op) (l : Local) : bool :=
  existsb (fun v => hasLocal v l) (arguments o).

Definition writesLocal (o : Op) (l : Local) : bool :=
  match output o with Some v => hasLocal v l | None => false end.

Inductive UseType : Type := READER | WRITER.

Definition usesAs (t : UseType) (o : Op) (l : Local) : bool :=
  match t with READER => readsLocal o l | WRITER => writesLocal o l end.

(** [local->hasUsers(type)] *)
Definition hasUsers (m : Method) (l : Local) (t : UseType) : bool :=
  existsb (fun o => usesAs t o l) (allOps m).

(** The keys of [local->getUsers()]. *)
Definition getUsers (m : Method) (l : Local) : list nat :=
  map address (filter (fun o => readsLocal o l || writesLocal o l) (allOps m)).

(** ** Building instructions for the examples *)

Definition plainLocal (n : string) : Local :=
  {| localName := n; localType := TYPE_INT32; localKind := PlainLocal |}.

Definition labelLocal (n : string) : Local :=
  {| localName := n; localType := TYPE_LABEL; localKind := PlainLocal |}.

Definition ref (l : Local) : Value := LocalValue l (localType l).

(** An instruction without side effects, condition, flags or modes. *)
Definition plainOp (a : nat) (k : InstructionKind) (out : option Value)
    (args : list Value) : Op :=
  {| address := a; kind := k; output := out; arguments := args;
     sideEffects := false; signalSideEffects := false;
     conditionalExecution := false; setFlags := false;
     packMode := false; unpackMode := false;
     simpleMove := match k with MoveOperation => true | _ => false end;
     decoration := noDecorations |}.

Definition instr (a : nat) (k : InstructionKind) (out : option Value)
    (args : list Value) : option Instruction :=
  Some (Single (plainOp a k out args)).

Definition label (a : nat) (l : Local) : option Instruction :=
  instr a (BranchLabel l) None [ref l].

Definition emptyMetaData : KernelMetaData.KernelMetaData :=
  {| KernelMetaData.uniformsUsed := 0;
     KernelMetaData.workGroupSizes := KernelMetaData.Array3 0 0 0;
     KernelMetaData.workGroupSizeHints := KernelMetaData.Array3 0 0 0;
     KernelMetaData.mergedWorkItemsFactor := 0 |}.

Definition methodOf (bs : list BasicBlock) : Method :=
  {| basicBlocks := bs; metaData := emptyMetaData |}.

End IR.

(* ===================================================================== *)
(** * Method.cpp: the usage range of a local *)
(* ===================================================================== *)

Module MethodCpp.

Import IR.
Local Open Scope Z_scope.

(** The keys a [SmallSortedPointerMap<const LocalUser*, LocalUse>] holds. *)
Definition Users : Type := list nat.

(** [remainingUsers.erase(key)]: the number of entries erased and the map
    that is left. *)
Definition erase (remainingUsers : Users) (key : nat) : nat * Users :=
  (List.length (filter (Nat.eqb key) remainingUsers),
   filter (fun u => negb (Nat.eqb key u)) remainingUsers).

(** [removeUser(remainingUsers, user)]; [user] may be the null pointer. *)
Definition removeUser (remainingUsers : Users) (user : option Instruction)
  : nat * Users :=
  match user with
  | None => (0%nat, remainingUsers)
  | Some (Single o) => erase remainingUsers (address o)
  | Some (CombinedOperation a op1 op2) =>
      let (numUsers, remaining) := erase remainingUsers a in
      let (numUsers, remaining) :=
        match op1 with
        | Some o1 => let (n, r) := erase remaining (address o1) in
                     ((numUsers + n)%nat, r)
        | None => (numUsers, remaining)
        end in
      match op2 with
      | Some o2 => let (n, r) := erase remaining (address o2) in
                   ((numUsers + n)%nat, r)
      | None => (numUsers, remaining)
      end
  end.

(** [dynamic_cast<const Branch*>(it.get())]: the target labels and
    [isUnconditional()]. *)
Definition asBranch (i : option Instruction) : option (list Local * bool) :=
  match i with
  | Some (Single o) =>
      match kind o with
      | Branch targets unconditional => Some (targets, unconditional)
      | _ => None
      end
  | _ => None
  end.

(** The state the two scans share by reference: [remainingUsers] and
    [usageRangeLeft].  A scan returns its [bool] and the state it leaves. *)
Definition ScanResult : Type := bool * Users * Z.

(** The loop of [removeUsagesInBasicBlock], started at [it].  Every
    iteration and every recursive call takes one unit of [fuel]; [None]
    when it runs out. *)
Fixpoint scanBlock (fuel : nat) (m : Method) (it : Walker)
    (remainingUsers : Users) (usageRangeLeft : Z) : option ScanResult :=
  match fuel with
  | O => None
  | S fuel' =>
      if (0 <=? usageRangeLeft) && negb (isEndOfMethod m it) then
        let remainingUsers := snd (removeUser remainingUsers (get m it)) in
        let usageRangeLeft := usageRangeLeft - 1 in
        let forTargets :=
          fix forTargets (targets : list Local) (remainingUsers : Users)
              (usageRangeLeft : Z) : option ScanResult :=
            match targets with
            | [] => Some (false, remainingUsers, usageRangeLeft)
            | target :: targets' =>
                match findBasicBlock m target with
                | Some successor =>
                    match scanBlock fuel' m (walk successor)
                                    remainingUsers usageRangeLeft with
                    | None => None
                    | Some (true, r, u) => Some (true, r, u)
                    | Some (false, r, u) => forTargets targets' r u
                    end
                | None => forTargets targets' remainingUsers usageRangeLeft
                end
            end in
        match asBranch (get m it) with
        | Some (targets, _) =>
            match forTargets targets remainingUsers usageRangeLeft with
            | None => None
            | Some (true, r, u) => Some (true, r, u)
            | Some (false, r, u) => scanBlock fuel' m (nextInMethod m it) r u
            end
        | None => scanBlock fuel' m (nextInMethod m it) remainingUsers usageRangeLeft
        end
      else
        Some (match remainingUsers with [] => true | _ => false end,
              remainingUsers, usageRangeLeft)
  end.

(** [removeUsagesInBasicBlock(method, bb, locale, remainingUsers, usageRangeLeft)] *)
Definition removeUsagesInBasicBlock (fuel : nat) (m : Method) (bb : nat)
    (remainingUsers : Users) (usageRangeLeft : Z) : option ScanResult :=
  scanBlock fuel m (walk bb) remainingUsers usageRangeLeft.

(** The [for(auto target : branch->getTargetLabels())] loop of
    [isLocallyLimited]. *)
Fixpoint scanTargets (fuel : nat) (m : Method) (targets : list Local)
    (remainingUsers : Users) (usageRangeLeft : Z) : option ScanResult :=
  match targets with
  | [] => Some (false, remainingUsers, usageRangeLeft)
  | target :: targets' =>
      match findBasicBlock m target with
      | Some successor =>
          match removeUsagesInBasicBlock fuel m successor
                                         remainingUsers usageRangeLeft with
          | None => None
          | Some (true, r, u) => Some (true, r, u)
          | Some (false, r, u) => scanTargets fuel m targets' r u
          end
      | None => scanTargets fuel m targets' remainingUsers usageRangeLeft
      end
  end.

(** The [while] loop of [isLocallyLimited]. *)
Fixpoint limitedLoop (fuel : nat) (m : Method) (curIt : Walker)
    (remainingUsers : Users) (usageRangeLeft : Z) : option bool :=
  match fuel with
  | O => None
  | S fuel' =>
      if (0 <=? usageRangeLeft) && negb (isEndOfMethod m curIt) then
        let remainingUsers := snd (removeUser remainingUsers (get m curIt)) in
        let usageRangeLeft := usageRangeLeft - 1 in
        match asBranch (get m curIt) with
        | Some (targets, unconditional) =>
            match scanTargets fuel' m targets remainingUsers usageRangeLeft with
            | None => None
            | Some (true, _, _) => Some true
            | Some (false, r, u) =>
                if unconditional then Some false
                else limitedLoop fuel' m (nextInMethod m curIt) r u
            end
        | None => limitedLoop fuel' m (nextInMethod m curIt)
                              remainingUsers usageRangeLeft
        end
      else
        Some (match remainingUsers with [] => true | _ => false end)
  end.

(** [static_cast<int32_t>(threshold)] on a [std::size_t]. *)
Definition toInt32 (threshold : Z) : Z :=
  let low := threshold mod 2 ^ 32 in
  if low <? 2 ^ 31 then low else low - 2 ^ 32.

(** The iterations a scan with [usageRangeLeft] left can make, plus one. *)
Definition fuelFor (usageRangeLeft : Z) : nat := Z.to_nat (usageRangeLeft + 2).

(** [Method::isLocallyLimited(curIt, locale, threshold)] *)
Definition isLocallyLimited (m : Method) (curIt : Walker) (locale : Local)
    (threshold : Z) : option bool :=
  let remainingUsers := getUsers m locale in
  let usageRangeLeft := toInt32 threshold in
  let remainingUsers :=
    if negb (isStartOfBlock curIt)
    then snd (removeUser remainingUsers (get m (previousInBlock curIt)))
    else remainingUsers in
  limitedLoop (S (fuelFor usageRangeLeft)) m curIt remainingUsers usageRangeLeft.

(** ** Vocabulary of the statements on [isLocallyLimited] *)

(** The keys [removeUser] erases for an instruction. *)
Definition keysOf (i : option Instruction) : list nat :=
  match i with
  | None => []
  | Some (Single o) => [address o]
  | Some (CombinedOperation a op1 op2) =>
      a :: map address (optionToList op1) ++ map address (optionToList op2)
  end.

(** [reach m from k to]: the cursor gets from [from] to [to] in [k] steps,
    each one to the next instruction of the method or, from a branch, to the
    first instruction of the block of one of its target labels. *)
Inductive reach (m : Method) : Walker -> nat -> Walker -> Prop :=
  | reach_here : forall w,
      isEndOfMethod m w = false -> reach m w 0 w
  | reach_next : forall w k w',
      isEndOfMethod m w = false ->
      reach m (nextInMethod m w) k w' ->
      reach m w (S k) w'
  | reach_branch : forall w k w' targets unconditional target successor,
      isEndOfMethod m w = false ->
      asBranch (get m w) = Some (targets, unconditional) ->
      In target targets ->
      findBasicBlock m target = Some successor ->
      reach m (walk successor) k w' ->
      reach m w (S k) w'.

(** The user with key [u] is an instruction at most [range] steps away. *)
Definition visitedWithin (m : Method) (from : Walker) (range : Z) (u : nat) : Prop :=
  exists k w', Z.of_nat k <= range /\ reach m from k w' /\ In u (keysOf (get m w')).

(** The user with key [u] is the instruction right before the cursor, in
    its block. *)
Definition isPrevious (m : Method) (curIt : Walker) (u : nat) : Prop :=
  isStartOfBlock curIt = false /\ In u (keysOf (get m (previousInBlock curIt))).

(** As the specification words it: every use of the local located at the
    cursor or after it, in the order of the method, is at most [threshold]
    steps away. *)
Definition atOrAfter (from w : Walker) : Prop :=
  (wblock from < wblock w)%nat
  \/ (wblock from = wblock w /\ (wpos from <= wpos w)%nat).

Definition usesWithinThreshold (m : Method) (curIt : Walker) (locale : Local)
    (threshold : Z) : Prop :=
  forall u w,
    In u (getUsers m locale) -> In u (keysOf (get m w)) -> atOrAfter curIt w ->
    visitedWithin m curIt threshold u.

(** What a scan started at [from] with [r] left guarantees about its result. *)
Definition goodScan (m : Method) (from : Walker) (rem : Users) (r : Z)
    (res : ScanResult) : Prop :=
  let '(b, rem', r') := res in
  r' <= r
  /\ (b = true -> rem' = [])
  /\ (forall u, In u rem -> In u rem' \/ visitedWithin m from r u).

Definition goodTargets (m : Method) (targets : list Local) (rem : Users) (r : Z)
    (res : ScanResult) : Prop :=
  let '(b, rem', r') := res in
  r' <= r
  /\ (b = true -> rem' = [])
  /\ (forall u, In u rem ->
                In u rem'
                \/ exists target successor,
                     In target targets /\ findBasicBlock m target = Some successor
                     /\ visitedWithin m (walk successor) r u).

(** ** The order of the scan

    As the specification words it: a forward scan that follows the branch
    targets, recursively, bounded by the threshold. *)

(** The instructions from [it] on in depth-first order, [depth] steps deep:
    the instruction at [it], then, for a branch, what follows from the first
    instruction of the block of every target label that has a block, in the
    order of the labels, then what follows from the next instruction of the
    method. *)
Fixpoint depthFirst (depth : nat) (m : Method) (it : Walker) : list Walker :=
  match depth with
  | O => []
  | S depth' =>
      if isEndOfMethod m it then []
      else
        it :: match asBranch (get m it) with
              | Some (targets, _) =>
                  flat_map (fun target =>
                              match findBasicBlock m target with
                              | Some successor => depthFirst depth' m (walk successor)
                              | None => []
                              end)
                           targets
              | None => []
              end
           ++ depthFirst depth' m (nextInMethod m it)
  end.

(** The same from the cursor of [isLocallyLimited], where nothing follows an
    unconditional branch but its targets. *)
Fixpoint mainLine (depth : nat) (m : Method) (it : Walker) : list Walker :=
  match depth with
  | O => []
  | S depth' =>
      if isEndOfMethod m it then []
      else
        it :: match asBranch (get m it) with
              | Some (targets, _) =>
                  flat_map (fun target =>
                              match findBasicBlock m target with
                              | Some successor => depthFirst depth' m (walk successor)
                              | None => []
                              end)
                           targets
              | None => []
              end
           ++ match asBranch (get m it) with
              | Some (_, true) => []
              | _ => mainLine depth' m (nextInMethod m it)
              end
  end.

(** The instructions the scan may take: one more than the threshold, none
    for a threshold that is negative as [int32_t]. *)
Definition budgetOf (threshold : Z) : nat := Z.to_nat (toInt32 threshold + 1).

(** The instructions scanned from the cursor: the first ones in depth-first
    order, as many as the budget allows. *)
Definition scanOrder (m : Method) (curIt : Walker) (threshold : Z) : list Walker :=
  firstn (budgetOf threshold) (mainLine (budgetOf threshold) m curIt).

(** The user with key [u] is one of the instructions at [ws]. *)
Definition visitedIn (m : Method) (ws : list Walker) (u : nat) : Prop :=
  exists w, In w ws /\ In u (keysOf (get m w)).

(** The user with key [u] is one of the instructions scanned. *)
Definition scanned (m : Method) (curIt : Walker) (threshold : Z) (u : nat) : Prop :=
  visitedIn m (scanOrder m curIt threshold) u.

(** Every unconditional branch has a target label with a block. *)
Definition branchesResolve (m : Method) : Prop :=
  forall w targets,
    asBranch (get m w) = Some (targets, true) ->
    exists target successor,
      In target targets /\ findBasicBlock m target = Some successor.

(** A target label of [targets] has a block. *)
Definition someResolves (m : Method) (targets : list Local) : Prop :=
  exists target successor,
    In target targets /\ findBasicBlock m target = Some successor.

(** ** The scan with its budget

    The instructions that the loops visit when they may visit [budget] of
    them, every visit taking one from the budget that all scans share. *)
Fixpoint visitBlock (fuel : nat) (m : Method) (it : Walker) (budget : nat)
  : list Walker :=
  match fuel, budget with
  | S fuel', S budget' =>
      if isEndOfMethod m it then []
      else
        let forTargets :=
          fix forTargets (targets : list Local) (budget : nat) : list Walker :=
            match targets with
            | [] => []
            | target :: targets' =>
                match findBasicBlock m target with
                | Some successor =>
                    let visited := visitBlock fuel' m (walk successor) budget in
                    visited ++ forTargets targets' (budget - List.length visited)%nat
                | None => forTargets targets' budget
                end
            end in
        let viaTargets :=
          match asBranch (get m it) with
          | Some (targets, _) => forTargets targets budget'
          | None => []
          end in
        it :: viaTargets
           ++ visitBlock fuel' m (nextInMethod m it)
                         (budget' - List.length viaTargets)%nat
  | _, _ => []
  end.

Fixpoint visitTargets (fuel : nat) (m : Method) (targets : list Local) (budget : nat)
  : list Walker :=
  match targets with
  | [] => []
  | target :: targets' =>
      match findBasicBlock m target with
      | Some successor =>
          let visited := visitBlock fuel m (walk successor) budget in
          visited ++ visitTargets fuel m targets' (budget - List.length visited)%nat
      | None => visitTargets fuel m targets' budget
      end
  end.

Fixpoint visitMain (fuel : nat) (m : Method) (it : Walker) (budget : nat)
  : list Walker :=
  match fuel, budget with
  | S fuel', S budget' =>
      if isEndOfMethod m it then []
      else
        match asBranch (get m it) with
        | Some (targets, unconditional) =>
            let viaTargets := visitTargets fuel' m targets budget' in
            it :: viaTargets
               ++ (if unconditional then []
                   else visitMain fuel' m (nextInMethod m it)
                                  (budget' - List.length viaTargets)%nat)
        | None => it :: visitMain fuel' m (nextInMethod m it) budget'
        end
  | _, _ => []
  end.

(** What a scan with the remaining users [rem] and the range [r] left
    gives when [visited] are the instructions it may visit: the users that
    are none of these instructions remain, the answer is whether none
    remains, and a scan that answers [false] has taken every one of them
    from the range. *)
Definition exactScan (m : Method) (visited : list Walker) (rem : Users) (r : Z)
    (res : ScanResult) : Prop :=
  let '(b, rem', r') := res in
  (forall u, In u rem' <-> In u rem /\ ~ visitedIn m visited u)
  /\ b = match rem' with [] => true | _ => false end
  /\ (b = false -> r' = r - Z.of_nat (List.length visited)).

(** The same for the loop over the target labels, which answers [false]
    without a look at the users when no label has a block. *)
Definition exactTargets (m : Method) (targets : list Local) (visited : list Walker)
    (rem : Users) (r : Z) (res : ScanResult) : Prop :=
  let '(b, rem', r') := res in
  (forall u, In u rem' <-> In u rem /\ ~ visitedIn m visited u)
  /\ (b = true -> rem' = [])
  /\ (b = false -> r' = r - Z.of_nat (List.length visited))
  /\ (b = false -> rem <> [] \/ someResolves m targets -> rem' <> []).

(** ** Examples *)

(** One block: [x] is written, then two no-ops, then [x] is read.  The
    cursor is put on the second no-op. *)
Definition usedBefore : Method :=
  methodOf
    [ {| blockAddress := 100;
         instructions :=
           [ label 0 (labelLocal "L0");
             instr 1 LoadImmediate (Some (ref (plainLocal "x"))) [LiteralValue 1];
             instr 2 Nop None [];
             instr 3 Nop None [];
             instr 4 MoveOperation (Some (ref (plainLocal "y"))) [ref (plainLocal "x")] ] |} ].

(** A conditional branch to a block of four instructions, then the only use
    of [x].  The cursor is put on the branch. *)
Definition branchFirst : Method :=
  methodOf
    [ {| blockAddress := 100;
         instructions :=
           [ label 0 (labelLocal "L0");
             instr 1 (Branch [labelLocal "L1"] false) None [ref (labelLocal "L1")];
             instr 2 MoveOperation (Some (ref (plainLocal "y"))) [ref (plainLocal "x")] ] |};
      {| blockAddress := 101;
         instructions :=
           [ label 3 (labelLocal "L1");
             instr 4 Nop None []; instr 5 Nop None []; instr 6 Nop None [] ] |} ].

(** An unconditional branch to the block that holds the only use of [x].
    The cursor is put on the branch. *)
Definition viaTarget : Method :=
  methodOf
    [ {| blockAddress := 100;
         instructions :=
           [ label 0 (labelLocal "L0");
             instr 1 (Branch [labelLocal "L1"] true) None [ref (labelLocal "L1")] ] |};
      {| blockAddress := 101;
         instructions :=
           [ label 2 (labelLocal "L1");
             instr 3 MoveOperation (Some (ref (plainLocal "y"))) [ref (plainLocal "x")] ] |} ].

End MethodCpp.

(* ===================================================================== *)
(** * Method.cpp: removing a block *)
(* ===================================================================== *)

Module BlockRemoval.

Import IR.

(** Modelled from the spec: [BasicBlock::empty] is defined outside of the
    modelled files.  The first instruction of a block is always its label; a
    block is empty when it holds nothing else. *)
Definition empty (b : BasicBlock) : bool := Nat.eqb (List.length (instructions b)) 1.

(** [branch->getTargetLabels()] holds [label]. *)
Definition targetsHold (targets : list Local) (label : Local) : bool :=
  existsb (fun t => sameLocal t label) targets.

(** The instruction is a [Branch] with [label] among its target labels. *)
Definition branchesTo (label : Local) (i : option Instruction) : bool :=
  match i with
  | Some (Single o) =>
      match kind o with
      | Branch targets _ => targetsHold targets label
      | _ => false
      end
  | _ => false
  end.

(** The block before the one at [blockAddr], in the order of the method. *)
Fixpoint previousBlock (previous : option BasicBlock) (bs : list BasicBlock)
    (blockAddr : nat) : option BasicBlock :=
  match bs with
  | [] => None
  | bb :: rest =>
      if Nat.eqb (blockAddress bb) blockAddr then previous
      else previousBlock (Some bb) rest blockAddr
  end.

Section Predecessors.

(** [BasicBlock::fallsThroughToNextBlock], defined outside of the modelled
    files. *)
Variable fallsThroughToNextBlock : BasicBlock -> bool.

(** Modelled from the spec: [BasicBlock::forPredecessors] is defined
    outside of the modelled files.  The predecessors of a block are
    derived by scanning for the explicit branches naming its label, plus
    the implicit fall-through from the block right before it; the consumer
    is called on the branch, respectively on the last instruction of the
    block that falls through.  The result lists the instructions the
    consumer is called on. *)
Definition forPredecessors (m : Method) (block : BasicBlock)
  : list (option Instruction) :=
  match blockLabel block with
  | None => []
  | Some l =>
      flat_map (fun bb => filter (branchesTo l) (instructions bb)) (basicBlocks m)
      ++ match previousBlock None (basicBlocks m) (blockAddress block) with
         | Some prev =>
             if fallsThroughToNextBlock prev
             then [last (instructions prev) None]
             else []
         | None => []
         end
  end.

(** The consumer of [removeBlock]: [++count] for an explicit jump to the
    block. *)
Definition countExplicitJumps (m : Method) (block : BasicBlock) : nat :=
  match blockLabel block with
  | None => 0
  | Some l => List.length (filter (branchesTo l) (forPredecessors m block))
  end.

(** The loop [while(it != end())] of [removeBlock]: erase the first block
    that is the object [block]. *)
Fixpoint eraseBlock (bs : list BasicBlock) (blockAddr : nat)
  : option (list BasicBlock) :=
  match bs with
  | [] => None
  | bb :: rest =>
      if Nat.eqb (blockAddress bb) blockAddr then Some rest
      else match eraseBlock rest blockAddr with
           | Some rest' => Some (bb :: rest')
           | None => None
           end
  end.

(** [Method::removeBlock(block, overwriteUsages)]: the result and the
    method it leaves.  The cached control-flow graph is not part of the
    model. *)
Definition removeBlock (m : Method) (block : BasicBlock) (overwriteUsages : bool)
  : bool * Method :=
  if negb overwriteUsages && negb (empty block) then (false, m)
  else if negb overwriteUsages && Nat.ltb 0 (countExplicitJumps m block)
  then (false, m)
  else match eraseBlock (basicBlocks m) (blockAddress block) with
       | Some bs => (true, setBlocks m bs)
       | None => (false, m)
       end.

End Predecessors.

(** Some instruction of the method explicitly branches to the label of the
    block. *)
Definition explicitlyBranchedTo (m : Method) (block : BasicBlock) : bool :=
  match blockLabel block with
  | None => false
  | Some l =>
      existsb (fun bb => existsb (branchesTo l) (instructions bb)) (basicBlocks m)
  end.

(** The block belongs to the method. *)
Definition belongsTo (m : Method) (block : BasicBlock) : bool :=
  existsb (fun bb => Nat.eqb (blockAddress bb) (blockAddress block)) (basicBlocks m).

(** [bs'] is [bs] without its first block at [blockAddr]. *)
Definition withoutBlock (bs bs' : list BasicBlock) (blockAddr : nat) : Prop :=
  exists before b after,
    bs = before ++ b :: after /\ bs' = before ++ after
    /\ blockAddress b = blockAddr
    /\ Forall (fun x => blockAddress x <> blockAddr) before.

(** ** Examples *)

(** Block [L0] jumps to the empty block [L1]; block [L2] is empty and nobody
    jumps to it. *)
Definition threeBlocks : Method :=
  methodOf
    [ {| blockAddress := 100;
         instructions :=
           [ label 0 (labelLocal "L0");
             instr 1 (Branch [labelLocal "L1"] true) None [ref (labelLocal "L1")] ] |};
      {| blockAddress := 101; instructions := [ label 2 (labelLocal "L1") ] |};
      {| blockAddress := 102; instructions := [ label 3 (labelLocal "L2") ] |} ].

End BlockRemoval.

(* ===================================================================== *)
(** * normalization/MemoryAccess.cpp: cross work-item dependencies *)
(* ===================================================================== *)

Module MemoryAccess.

Import IR.
Local Open Scope Z_scope.

(** [MemoryAccessType], the enumerators the modelled file names. *)
Inductive MemoryAccessType : Type :=
  | QPU_REGISTER_READONLY
  | QPU_REGISTER_READWRITE
  | VPM_PER_QPU
  | VPM_SHARED_ACCESS
  | RAM_LOAD_TMU
  | RAM_READ_WRITE_VPM.

Inductive MemoryOperation : Type := READ | WRITE | COPY | FILL.

(** What the code asks of a [MemoryInstruction]: [op],
    [getDestinationElementType().getVectorWidth()] and
    [getSourceElementType().getVectorWidth()], as [unsigned]. *)
Record MemoryInstruction : Type := {
  op : MemoryOperation;
  destinationVectorWidth : Z;
  sourceVectorWidth : Z
}.

(** The code of an [Expression]: an op-code or the fake unsigned
    multiplication. *)
Inductive ExpressionCode : Type :=
  | FAKEOP_UMUL
  | RealOp (code : OpCode).

(** What the code asks of an operand of an expression:
    [checkExpression()->deco] when the operand is an expression, and
    [getLiteralValue()->unsignedInt()] when it has a literal value. *)
Record SubExpression : Type := {
  checkExpression : option Decorations;
  getLiteralValue : option Z
}.

(** An [Expression], as [Expression::createRecursiveExpression] returns it. *)
Record Expression : Type := {
  code : ExpressionCode;
  arg0 : SubExpression;
  arg1 : SubExpression;
  hasConstantOperand : bool
}.

(** One entry of [dynamicAddressParts]: the expression of the single writer
    of the value, when [getSingleWriter()] and
    [createRecursiveExpression] give one, and the decorations of the entry. *)
Definition AddressPart : Type := (option Expression * Decorations)%type.

(** A [MemoryAccessRange]: [objectVectorWidth] is
    [memoryObject->type.getElementType().getVectorWidth()], [addressWrite]
    is [addressWrite.get<MemoryInstruction>()]. *)
Record MemoryAccessRange : Type := {
  objectVectorWidth : Z;
  addressWrite : option MemoryInstruction;
  dynamicAddressParts : list AddressPart
}.

Record MemoryInfo : Type := {
  accessType : MemoryAccessType;
  ranges : option (list MemoryAccessRange)
}.

(** [unsigned] arithmetic. *)
Definition UINT_MAX : Z := 2 ^ 32 - 1.

Definition checkIdDecoration (deco : Decorations) : bool :=
  BUILTIN_LOCAL_ID deco || BUILTIN_GLOBAL_ID deco.

Definition isMultiplication (c : ExpressionCode) : bool :=
  match c with
  | FAKEOP_UMUL => true
  | RealOp OP_MUL24 => true
  | RealOp OP_SHL => true
  | _ => false
  end.

Definition isShift (c : ExpressionCode) : bool :=
  match c with RealOp OP_SHL => true | _ => false end.

Definition operandIsId (s : SubExpression) : bool :=
  match checkExpression s with
  | Some deco => checkIdDecoration deco
  | None => false
  end.

(** [expression->code == OP_SHL ? (1u << c) : c] on the [unsigned]
    [c].  The shift of a 32-bit value by 32 bits or more is undefined in
    C++: there is no factor then. *)
Definition factorOf (c : ExpressionCode) (constantArg : Z) : option Z :=
  if isShift c then
    if (0 <=? constantArg) && (constantArg <? 32)
    then Some (Z.shiftl 1 constantArg)
    else None
  else Some constantArg.

(** The references [unsigned& minFactor, unsigned& maxSize]. *)
Definition Bounds : Type := (Z * Z)%type.

(** [leftIsId ? expression->arg1.getLiteralValue()
              : expression->arg0.getLiteralValue()] *)
Definition constantArgOf (expression : Expression) : option Z :=
  if operandIsId (arg0 expression) then getLiteralValue (arg1 expression)
  else getLiteralValue (arg0 expression).

(** The lambda of [hasOnlyAddressesDerivateOfLocalId]: its result and the
    bounds it leaves; nothing when it shifts by 32 bits or more. *)
Definition checkPart (range : MemoryAccessRange) (parts : AddressPart) (b : Bounds)
  : option (bool * Bounds) :=
  let (minFactor, maxSize) := b in
  if checkIdDecoration (snd parts) then
    Some (true, (Z.min minFactor (objectVectorWidth range),
                 Z.max maxSize (objectVectorWidth range)))
  else
    match addressWrite range with
    | None => Some (false, b)
    | Some memWrite =>
        match fst parts with
        | Some expression =>
            if hasConstantOperand expression && isMultiplication (code expression) then
              let leftIsId := operandIsId (arg0 expression) in
              let rightIsId := operandIsId (arg1 expression) in
              match constantArgOf expression with
              | Some c =>
                  if negb (Bool.eqb leftIsId rightIsId) then
                    match factorOf (code expression) c with
                    | Some factor =>
                        match op memWrite with
                        | READ =>
                            Some (true, (Z.min minFactor factor,
                                         Z.max maxSize (destinationVectorWidth memWrite)))
                        | WRITE =>
                            Some (true, (Z.min minFactor factor,
                                         Z.max maxSize (sourceVectorWidth memWrite)))
                        | _ => Some (false, b)
                        end
                    | None => None
                    end
                  else Some (false, b)
              | None => Some (false, b)
              end
            else Some (false, b)
        | None => Some (false, b)
        end
    end.

(** [std::all_of] with a predicate that updates captured state: it stops at
    the first element that fails. *)
Fixpoint all_of {A S : Type} (f : A -> S -> option (bool * S)) (l : list A) (s : S)
  : option (bool * S) :=
  match l with
  | [] => Some (true, s)
  | a :: rest =>
      match f a s with
      | Some (ok, s') => if ok then all_of f rest s' else Some (false, s')
      | None => None
      end
  end.

Definition hasOnlyAddressesDerivateOfLocalId (range : MemoryAccessRange) (b : Bounds)
  : option (bool * Bounds) :=
  match dynamicAddressParts range with
  | [] => Some (false, b)
  | _ => all_of (checkPart range) (dynamicAddressParts range) b
  end.

(** The first test of [mayHaveCrossWorkItemMemoryDependency]: a constant
    global or a read-only parameter. *)
Definition isConstantMemory (memoryObject : Local) : bool :=
  match localKind memoryObject with
  | GlobalLocal isConstant => isConstant
  | ParameterLocal readOnly => readOnly
  | _ => false
  end.

(** [mayHaveCrossWorkItemMemoryDependency]; nothing when the behaviour is
    undefined. *)
Definition mayHaveCrossWorkItemMemoryDependency (memoryObject : Local) (info : MemoryInfo)
  : option bool :=
  if isConstantMemory memoryObject then Some false
  else
    match accessType info with
    | RAM_LOAD_TMU => Some false
    | QPU_REGISTER_READONLY | QPU_REGISTER_READWRITE | VPM_PER_QPU => Some false
    | _ =>
        match ranges info with
        | Some rs =>
            match all_of hasOnlyAddressesDerivateOfLocalId rs (UINT_MAX, 0) with
            | Some (ok, (minFactor, maxSize)) =>
                Some (if ok && (maxSize <=? minFactor) then false else true)
            | None => None
            end
        | None => Some true
        end
    end.

(** ** Vocabulary of the statements *)

(** The classifications that allow reads and writes shared between
    work-items. *)
Definition isSharedReadWrite (t : MemoryAccessType) : bool :=
  match t with
  | VPM_SHARED_ACCESS | RAM_READ_WRITE_VPM => true
  | _ => false
  end.

(** The vector width an access touches: the width read by a read, the width
    written by a write. *)
Definition touchedWidth (mem : MemoryInstruction) : option Z :=
  match op mem with
  | READ => Some (destinationVectorWidth mem)
  | WRITE => Some (sourceVectorWidth mem)
  | _ => None
  end.

(** [derivedFromId range part factor width]: the address expression is an
    identity value itself, or the product of an identity value and a
    constant, or an identity value shifted left by a constant below 32, in
    an access that is a read or a write; [factor] is what the identity
    value is multiplied by and [width] what the access touches.  For the
    identity value itself both are the vector width of the elements of the
    memory object. *)
Inductive derivedFromId (range : MemoryAccessRange) : AddressPart -> Z -> Z -> Prop :=
  | identity_itself : forall writer deco,
      checkIdDecoration deco = true ->
      derivedFromId range (writer, deco)
                    (objectVectorWidth range) (objectVectorWidth range)
  | identity_times_constant : forall e deco mem c factor width,
      checkIdDecoration deco = false ->
      addressWrite range = Some mem ->
      hasConstantOperand e = true ->
      isMultiplication (code e) = true ->
      operandIsId (arg0 e) <> operandIsId (arg1 e) ->
      (isShift (code e) = true -> operandIsId (arg0 e) = true) ->
      constantArgOf e = Some c ->
      factorOf (code e) c = Some factor ->
      touchedWidth mem = Some width ->
      derivedFromId range (Some e, deco) factor width.

(** A shift whose shifted operand is the constant and whose amount is the
    identity value: no multiplication of the identity value. *)
Definition shiftsConstant (e : Expression) : bool :=
  isShift (code e) && negb (operandIsId (arg0 e)) && operandIsId (arg1 e).

(** A shift by a constant of 32 or more. *)
Definition shiftsTooFar (e : Expression) : bool :=
  match constantArgOf e with
  | Some c => match factorOf (code e) c with Some _ => false | None => true end
  | None => false
  end.

(** The expression of the part does not shift a constant by an identity
    value. *)
Definition plainPart (part : AddressPart) : bool :=
  match fst part with
  | Some e => negb (shiftsConstant e)
  | None => true
  end.

(** The expression of the part does not shift by 32 bits or more. *)
Definition definedPart (part : AddressPart) : bool :=
  match fst part with
  | Some e => negb (shiftsTooFar e)
  | None => true
  end.

Definition everyPart (test : AddressPart -> bool) (info : MemoryInfo) : bool :=
  match ranges info with
  | Some rs => forallb (fun range => forallb test (dynamicAddressParts range)) rs
  | None => true
  end.

(** No recorded expression shifts a constant by an identity value. *)
Definition noShiftedConstant (info : MemoryInfo) : bool := everyPart plainPart info.

(** No recorded expression shifts by 32 bits or more. *)
Definition definedShifts (info : MemoryInfo) : bool := everyPart definedPart info.

(** The factor and width of every expression of every range. *)
Definition Analysis : Type := list (list (Z * Z)).

Definition analysed (rs : list MemoryAccessRange) (a : Analysis) : Prop :=
  Forall2 (fun range fws =>
             dynamicAddressParts range <> []
             /\ Forall2 (fun part fw => derivedFromId range part (fst fw) (snd fw))
                        (dynamicAddressParts range) fws)
          rs a.

Definition minFactorOf (a : Analysis) : Z :=
  fold_right Z.min UINT_MAX (map fst (concat a)).

Definition maxWidthOf (a : Analysis) : Z :=
  fold_right Z.max 0 (map snd (concat a)).

(** Some dynamic address expression is recorded for the object. *)
Definition hasRecordedExpression (info : MemoryInfo) : bool :=
  match ranges info with
  | Some rs => existsb (fun r => match dynamicAddressParts r with
                                 | [] => false | _ => true end) rs
  | None => false
  end.

(** The bounds after the factors and widths [fws] have been taken in. *)
Definition boundsAfter (b : Bounds) (fws : list (Z * Z)) : Bounds :=
  (fold_left (fun m fw => Z.min m (fst fw)) fws (fst b),
   fold_left (fun m fw => Z.max m (snd fw)) fws (snd b)).

(** ** Examples *)

Definition idDecorated : Decorations :=
  {| BUILTIN_LOCAL_ID := false; BUILTIN_GLOBAL_ID := true; CONSTANT_LOAD := false |}.

(** The expression [global_id * 4]. *)
Definition globalIdTimes4 : Expression :=
  {| code := FAKEOP_UMUL;
     arg0 := {| checkExpression := Some idDecorated; getLiteralValue := None |};
     arg1 := {| checkExpression := None; getLiteralValue := Some 4 |};
     hasConstantOperand := true |}.

(** A buffer written at the address [global_id * 4], [width] elements at a
    time. *)
Definition writtenAtGlobalIdTimes4 (width : Z) : MemoryInfo :=
  {| accessType := RAM_READ_WRITE_VPM;
     ranges := Some [ {| objectVectorWidth := width;
                         addressWrite := Some {| op := WRITE;
                                                 destinationVectorWidth := width;
                                                 sourceVectorWidth := width |};
                         dynamicAddressParts := [(Some globalIdTimes4, noDecorations)] |} ] |}.

(** A buffer written at the address [global_id << amount], [width] elements
    at a time. *)
Definition writtenAtGlobalIdShifted (amount width : Z) : MemoryInfo :=
  {| accessType := RAM_READ_WRITE_VPM;
     ranges :=
       Some [ {| objectVectorWidth := width;
                 addressWrite := Some {| op := WRITE;
                                         destinationVectorWidth := width;
                                         sourceVectorWidth := width |};
                 dynamicAddressParts :=
                   [(Some {| code := RealOp OP_SHL;
                             arg0 := {| checkExpression := Some idDecorated;
                                        getLiteralValue := None |};
                             arg1 := {| checkExpression := None;
                                        getLiteralValue := Some amount |};
                             hasConstantOperand := true |},
                     noDecorations)] |} ] |}.

(** A buffer whose address expression has no writer to analyse. *)
Definition unanalysable : MemoryInfo :=
  {| accessType := RAM_READ_WRITE_VPM;
     ranges := Some [ {| objectVectorWidth := 4;
                         addressWrite := Some {| op := WRITE;
                                                 destinationVectorWidth := 4;
                                                 sourceVectorWidth := 4 |};
                         dynamicAddressParts := [(None, noDecorations)] |} ] |}.

Definition buffer : Local :=
  {| localName := "buffer"; localType := TYPE_INT32; localKind := ParameterLocal false |}.

Definition readOnlyBuffer : Local :=
  {| localName := "in"; localType := TYPE_INT32; localKind := ParameterLocal true |}.

End MemoryAccess.

(* ===================================================================== *)
(** * optimization/Eliminator.cpp: constant folding *)
(* ===================================================================== *)

Module ConstantFolding.

Import IR.
Local Open Scope Z_scope.

(** What [foldConstants] leaves: the instruction at the cursor, or a
    [CompilationError] thrown by [assertArgument] or [value()]. *)
Inductive Outcome : Type :=
  | Threw
  | Cursor (i : option Instruction).

(** Modelled from the spec: the constructor of [MoveOperation] and
    [copyExtrasFrom] are outside of the modelled files.  The move writes
    [out] from [source] and takes over the condition, the flags, the modes,
    the signal and the decorations of [extras]; the model gives the new
    object the address of the one it replaces. *)
Definition moveWithExtras (out source : Value) (extras : Op) : Op :=
  {| address := address extras; kind := MoveOperation;
     output := Some out; arguments := [source];
     sideEffects := sideEffects extras;
     signalSideEffects := signalSideEffects extras;
     conditionalExecution := conditionalExecution extras;
     setFlags := setFlags extras;
     packMode := packMode extras; unpackMode := unpackMode extras;
     simpleMove := negb (sideEffects extras || conditionalExecution extras);
     decoration := decoration extras |}.

(** [op->getSecondArg() == op->getFirstArg()] on an [Optional<Value>]. *)
Definition sameAsFirst (second : option Value) (first : Value) : bool :=
  match second with Some v => Value_eqb v first | None => false end.

Section WithEvaluation.

(** [v.getConstantValue() & &Value::getLiteralValue]: the literal a value
    resolves to at compile time, if any.  Defined outside of the modelled
    files. *)
Variable constantLiteral : Value -> option Z.

(** [op->precalculate(3).first], defined outside of the modelled files. *)
Variable precalculate : Op -> option Value.

(** [optimizations::foldConstants], on the instruction at the cursor. *)
Definition foldConstants (i : option Instruction) : Outcome :=
  match i with
  | Some (Single op) =>
      match kind op with
      | Operation code =>
          if negb (setFlags op) && negb (unpackMode op) && negb (packMode op) then
            match arguments op with
            | [] => Threw
            | firstArg :: others =>
                let secondArg := hd_error others in
                if match constantLiteral firstArg with Some _ => true | None => false end
                   && match secondArg with
                      | None => true
                      | Some second =>
                          match constantLiteral second with
                          | Some _ => true
                          | None => false
                          end
                      end
                then
                  if conditionalExecution op && OpCode_eqb code OP_XOR
                     && sameAsFirst secondArg firstArg
                  then Cursor i
                  else if CONSTANT_LOAD (decoration op) then Cursor i
                  else match precalculate op with
                       | Some value =>
                           match output op with
                           | Some out =>
                               Cursor (Some (Single (moveWithExtras out value op)))
                           | None => Threw
                           end
                       | None => Cursor i
                       end
                else Cursor i
            end
          else Cursor i
      | _ => Cursor i
      end
  | _ => Cursor i
  end.

End WithEvaluation.

(** ** Vocabulary of the statements *)

(** A self-XOR: an XOR of a value with itself. *)
Definition isSelfXor (op : Op) : bool :=
  match kind op, arguments op with
  | Operation code, firstArg :: others =>
      OpCode_eqb code OP_XOR && sameAsFirst (hd_error others) firstArg
  | _, _ => false
  end.

(** The literals the operands resolve to: that of the first argument and
    that of the second one when there is one; nothing when an operand does
    not resolve to a literal. *)
Definition literalOperands (constantLiteral : Value -> option Z) (op : Op)
  : option (Z * option Z) :=
  match arguments op with
  | [] => None
  | firstArg :: others =>
      match constantLiteral firstArg with
      | None => None
      | Some x =>
          match hd_error others with
          | None => Some (x, None)
          | Some second =>
              match constantLiteral second with
              | Some y => Some (x, Some y)
              | None => None
              end
          end
      end
  end.

(** [uint32_t] values. *)
Definition wrap32 (z : Z) : Z := z mod 2 ^ 32.

(** The commutative and associative op-codes among those the modelled
    files name. *)
Definition commutativeAssociative (code : OpCode) : bool :=
  match code with
  | OP_AND | OP_OR | OP_XOR | OP_ADD | OP_MUL24 => true
  | _ => false
  end.

(** Modelled from the spec: the evaluation of an op-code on literals is
    outside of the modelled files.  The commutative and associative
    op-codes are evaluated directly on the 32-bit literals: the bitwise
    operations bit by bit, the addition modulo [2 ^ 32], the multiplication
    on the low 24 bits of the operands.  What the other op-codes give on
    literals is [evaluateOther]. *)
Definition evaluate (evaluateOther : OpCode -> Z -> option Z -> option Z)
    (code : OpCode) (a : Z) (b : option Z) : option Z :=
  match code, b with
  | OP_AND, Some b => Some (Z.land (wrap32 a) (wrap32 b))
  | OP_OR, Some b => Some (Z.lor (wrap32 a) (wrap32 b))
  | OP_XOR, Some b => Some (Z.lxor (wrap32 a) (wrap32 b))
  | OP_ADD, Some b => Some (wrap32 (a + b))
  | OP_MUL24, Some b => Some (wrap32 ((a mod 2 ^ 24) * (b mod 2 ^ 24)))
  | _, _ => evaluateOther code a b
  end.

(** Modelled from the spec: [Operation::precalculate] is outside of the
    modelled files; the precomputed literal is the op-code evaluated
    directly on the literals the operands resolve to. *)
Definition precalculateLiterals (constantLiteral : Value -> option Z)
    (evaluateOther : OpCode -> Z -> option Z -> option Z) (op : Op) : option Value :=
  match kind op with
  | Operation code =>
      match literalOperands constantLiteral op with
      | Some (x, y) => option_map LiteralValue (evaluate evaluateOther code x y)
      | None => None
      end
  | _ => None
  end.

(** A value that is a literal resolves to it. *)
Definition literalOf (v : Value) : option Z :=
  match v with LiteralValue z => Some z | _ => None end.

(** No value for the op-codes that are not evaluated here. *)
Definition notEvaluated (code : OpCode) (a : Z) (b : option Z) : option Z := None.

(** [and out, 0xFF, 0x0F] and [xor out, 5, 5], both unconditional. *)
Definition andExample : Op :=
  plainOp 7 (Operation OP_AND) (Some (ref (plainLocal "out")))
          [LiteralValue 255; LiteralValue 15].

Definition xorExample : Op :=
  plainOp 8 (Operation OP_XOR) (Some (ref (plainLocal "out")))
          [LiteralValue 5; LiteralValue 5].

End ConstantFolding.

(* ===================================================================== *)
(** * optimization/Eliminator.cpp: dead-code elimination *)
(* ===================================================================== *)

Module DeadCode.

Import IR.

(** The state of the loop of [eliminateDeadCode]: the method, the cursor
    [it] and [hasChanged]. *)
Record State : Type := {
  method : Method;
  it : Walker;
  hasChanged : bool
}.

(** ** Queries on instructions *)

(** [op || move || load || address] *)
Definition isCandidate (o : Op) : bool :=
  match kind o with
  | Operation _ | MoveOperation | LoadImmediate | CodeAddress => true
  | _ => false
  end.

Definition isMove (o : Op) : bool :=
  match kind o with MoveOperation => true | _ => false end.

(** [instr->checkOutputLocal()] *)
Definition checkOutputLocal (o : Op) : option Local :=
  match output o with Some v => checkLocal v | None => None end.

(** [instr->checkOutputRegister()] *)
Definition checkOutputRegister (o : Op) : bool :=
  match output o with Some (RegisterValue _) => true | _ => false end.

Definition writesRegister (o : Op) (r : Register) : bool :=
  match output o with Some v => hasRegister v r | None => false end.

Definition readsRegister (o : Op) (r : Register) : bool :=
  existsb (fun v => hasRegister v r) (arguments o).

(** The accumulator and replication registers of the second rule. *)
Definition writesReplication (o : Op) : bool :=
  writesRegister o REG_ACC5 || writesRegister o REG_REPLICATE_QUAD
  || writesRegister o REG_REPLICATE_ALL.

Definition readsReplication (o : Op) : bool :=
  readsRegister o REG_ACC5 || readsRegister o REG_REPLICATE_QUAD
  || readsRegister o REG_REPLICATE_ALL.

(** The queries of a forward scan on an entry of the block, which can be
    empty or a combination: a [CombinedOperation] reads and writes what its
    halves do, and is itself unconditional. *)
Definition entryReadsLocal (i : option Instruction) (l : Local) : bool :=
  existsb (fun o => readsLocal o l) (opsOf i).

Definition entryWritesLocal (i : option Instruction) (l : Local) : bool :=
  existsb (fun o => writesLocal o l) (opsOf i).

Definition entryConditional (i : option Instruction) : bool :=
  match i with Some (Single o) => conditionalExecution o | _ => false end.

Definition entryWritesReplication (i : option Instruction) : bool :=
  existsb writesReplication (opsOf i).

Definition entryReadsReplication (i : option Instruction) : bool :=
  existsb readsReplication (opsOf i).

(** ** Edits through the walker *)

Fixpoint removeNth {A : Type} (n : nat) (l : list A) : list A :=
  match l, n with
  | [], _ => []
  | _ :: rest, O => rest
  | a :: rest, S n' => a :: removeNth n' rest
  end.

Fixpoint updateNth {A : Type} (n : nat) (f : A -> A) (l : list A) : list A :=
  match l, n with
  | [], _ => []
  | a :: rest, O => f a :: rest
  | a :: rest, S n' => a :: updateNth n' f rest
  end.

(** [it.erase()]: the instruction at the cursor leaves its block; the
    cursor is then on the instruction that followed. *)
Definition eraseAt (m : Method) (w : Walker) : Method :=
  setBlocks m
    (updateNth (wblock w)
       (fun b => {| blockAddress := blockAddress b;
                    instructions := removeNth (wpos w) (instructions b) |})
       (basicBlocks m)).

(** The instructions after the cursor in its block: what
    [it.copy().nextInBlock()] walks until [isEndOfBlock()]. *)
Definition restOfBlock (m : Method) (w : Walker) : list (option Instruction) :=
  match blockAt m w with
  | Some b => skipn (S (wpos w)) (instructions b)
  | None => []
  end.

(** ** Merging two locals *)

(** [setArgument(i, Value(inLoc, tmp.type))] for every argument that has
    [outLoc]. *)
Definition replaceLocal (inLoc outLoc : Local) (tmp : Value) : Value :=
  match tmp with
  | LocalValue l t => if sameLocal l outLoc then LocalValue inLoc t else tmp
  | _ => tmp
  end.

Definition renameInOp (inLoc outLoc : Local) (o : Op) : Op :=
  {| address := address o; kind := kind o; output := output o;
     arguments := map (replaceLocal inLoc outLoc) (arguments o);
     sideEffects := sideEffects o; signalSideEffects := signalSideEffects o;
     conditionalExecution := conditionalExecution o; setFlags := setFlags o;
     packMode := packMode o; unpackMode := unpackMode o;
     simpleMove := simpleMove o; decoration := decoration o |}.

Definition renameInEntry (inLoc outLoc : Local) (i : option Instruction)
  : option Instruction :=
  match i with
  | Some (Single o) => Some (Single (renameInOp inLoc outLoc o))
  | Some (CombinedOperation a f s) =>
      Some (CombinedOperation a (option_map (renameInOp inLoc outLoc) f)
                              (option_map (renameInOp inLoc outLoc) s))
  | None => None
  end.

(** [outLoc->forUsers(LocalUse::Type::READER, ...)]: every reader of
    [outLoc] reads [inLoc] instead.  A reader has [outLoc] among its
    arguments, so the [CompilationError] of the lambda is never thrown. *)
Definition mergeLocals (m : Method) (inLoc outLoc : Local) : Method :=
  setBlocks m
    (map (fun b => {| blockAddress := blockAddress b;
                      instructions := map (renameInEntry inLoc outLoc) (instructions b) |})
         (basicBlocks m)).

(** ** The implicit UNIFORMs *)

(** The bit of [KernelUniforms] that [disableFunc] clears, by
    [BITFIELD_ENTRY]. *)
Definition disableBit (t : BuiltinType) : option N :=
  match t with
  | WORK_DIMENSIONS => Some 0%N
  | LOCAL_SIZES => Some 1%N
  | LOCAL_IDS => Some 2%N
  | NUM_GROUPS_X => Some 3%N
  | NUM_GROUPS_Y => Some 4%N
  | NUM_GROUPS_Z => Some 5%N
  | GROUP_ID_X => Some 6%N
  | GROUP_ID_Y => Some 7%N
  | GROUP_ID_Z => Some 8%N
  | GLOBAL_OFFSET_X => Some 9%N
  | GLOBAL_OFFSET_Y => Some 10%N
  | GLOBAL_OFFSET_Z => Some 11%N
  | GLOBAL_DATA_ADDRESS => Some 12%N
  | _ => None
  end.

(** [(method.metaData.uniformsUsed.*disableFunc)(false)] *)
Definition disableUniform (m : Method) (bit : N) : Method :=
  {| basicBlocks := basicBlocks m;
     metaData :=
       {| KernelMetaData.uniformsUsed :=
            N.clearbit (KernelMetaData.uniformsUsed (metaData m)) bit;
          KernelMetaData.workGroupSizes := KernelMetaData.workGroupSizes (metaData m);
          KernelMetaData.workGroupSizeHints :=
            KernelMetaData.workGroupSizeHints (metaData m);
          KernelMetaData.mergedWorkItemsFactor :=
            KernelMetaData.mergedWorkItemsFactor (metaData m) |} |}.

Definition asBuiltin (l : Local) : option BuiltinType :=
  match localKind l with BuiltinLocal t => Some t | _ => None end.

(** ** The rules of the loop body

    A rule gives the state the loop continues with ([continue;] in the
    source), or nothing when the body goes on to the next rule. *)

(** The cursor after [it.erase(); it.previousInBlock();]. *)
Definition erasedAndBack (s : State) : State :=
  {| method := eraseAt (method s) (it s);
     it := previousInBlock (it s);
     hasChanged := true |}.

(** The cursor after [it.erase();] alone. *)
Definition erased (m : Method) (s : State) : State :=
  {| method := eraseAt m (it s); it := it s; hasChanged := true |}.

(** "check whether the output of an instruction is never read" *)
Definition ruleNeverRead (s : State) (instr : Op) : option State :=
  match checkOutputLocal instr with
  | Some dest =>
      if isCandidate instr && negb (sideEffects instr)
         && negb (isParameter dest) && negb (hasUsers (method s) dest READER)
      then Some (erasedAndBack s)
      else None
  | None => None
  end.

(** [if(move != nullptr)], inside the test for a candidate writing a local. *)
Definition ruleMove (s : State) (instr : Op) : option State :=
  match checkOutputLocal instr with
  | Some outLoc =>
      if isMove instr then
        match hd_error (arguments instr) with
        | Some source =>
            match checkLocal source with
            | Some inLoc =>
                if simpleMove instr then
                  if negb (hasUsers (method s) outLoc WRITER)
                     && DataType_eqb (localType inLoc) (localType outLoc)
                  then Some (erased (mergeLocals (method s) inLoc outLoc) s)
                  else None
                else None (* the source is a local, not the UNIFORM register *)
            | None =>
                if hasRegister source REG_UNIFORM && negb (signalSideEffects instr) then
                  match asBuiltin outLoc with
                  | Some t =>
                      if negb (hasUsers (method s) outLoc READER) then
                        match disableBit t with
                        | Some bit => Some (erased (disableUniform (method s) bit) s)
                        | None => None
                        end
                      else None
                  | None => None
                  end
                else None
            end
        | None => None
        end
      else None
  | None => None
  end.

(** The forward scan of the second rule: [isUsed] is set to [false] when a
    write to one of the registers comes before a read of one of them. *)
Fixpoint overwrittenRegister (rest : list (option Instruction)) : bool :=
  match rest with
  | [] => false
  | i :: rest' =>
      if entryWritesReplication i then true
      else if entryReadsReplication i then false
      else overwrittenRegister rest'
  end.

(** "remove unnecessary writes to special purpose registers" *)
Definition ruleRegister (s : State) (instr : Op) : option State :=
  if isCandidate instr && checkOutputRegister instr && negb (sideEffects instr) then
    if writesReplication instr && overwrittenRegister (restOfBlock (method s) (it s))
    then Some (erased (method s) s)
    else None
  else None.

(** The forward scan of the third rule: where [checkIt] stops, if it stops
    before the end of the block. *)
Fixpoint scanForLocal (rest : list (option Instruction)) (loc : Local)
  : option (option Instruction) :=
  match rest with
  | [] => None
  | i :: rest' =>
      if entryReadsLocal i loc then Some i
      else if entryWritesLocal i loc && negb (entryConditional i) then Some i
      else scanForLocal rest' loc
  end.

(** "remove unnecessary writes which are immediately overwritten" *)
Definition ruleOverwritten (s : State) (instr : Op) : option State :=
  match checkOutputLocal instr with
  | Some loc =>
      if isCandidate instr && negb (sideEffects instr) then
        match scanForLocal (restOfBlock (method s) (it s)) loc with
        | Some checkIt =>
            if negb (entryReadsLocal checkIt loc)
            then Some (erased (method s) s)
            else None
        | None => None
        end
      else None
  | None => None
  end.

(** [it.nextInMethod();] at the end of the body. *)
Definition advance (s : State) : State :=
  {| method := method s; it := nextInMethod (method s) (it s);
     hasChanged := hasChanged s |}.

(** The body of the [while(!it.isEndOfMethod())] loop. *)
Definition step (s : State) : State :=
  match getOp (method s) (it s) with
  | Some instr =>
      match ruleNeverRead s instr with
      | Some s' => s'
      | None =>
          match (if isCandidate instr then ruleMove s instr else None) with
          | Some s' => s'
          | None =>
              match ruleRegister s instr with
              | Some s' => s'
              | None =>
                  match ruleOverwritten s instr with
                  | Some s' => s'
                  | None => advance s
                  end
              end
          end
      end
  | None => advance s
  end.

(** The loop; [None] when [fuel] runs out. *)
Fixpoint run (fuel : nat) (s : State) : option State :=
  match fuel with
  | O => None
  | S fuel' =>
      if isEndOfMethod (method s) (it s) then Some s
      else run fuel' (step s)
  end.

(** [Method::countInstructions] *)
Definition countInstructions (m : Method) : nat :=
  fold_right (fun b acc => (List.length (instructions b) + acc)%nat) 0%nat (basicBlocks m).

(** Enough iterations for the loop: an iteration erases an instruction or
    moves the cursor forward. *)
Definition fuelFor (m : Method) : nat :=
  S (3 * countInstructions m + 2 * List.length (basicBlocks m) + 2).

(** [method.walkAllInstructions()]: the cursor on the first instruction of
    the first block, or the walker without a block when there is none (block
    index 0 is then outside of the method). *)
Definition walkAllInstructions (m : Method) : Walker := walk 0.

(** [optimizations::eliminateDeadCode]: the method it leaves and the
    [bool] it returns.  [method.cleanLocals()] does nothing. *)
Definition eliminateDeadCode (m : Method) : option (Method * bool) :=
  match run (fuelFor m)
            {| method := m; it := walkAllInstructions m; hasChanged := false |} with
  | Some s => Some (method s, hasChanged s)
  | None => None
  end.

(** ** Termination of the loop *)

(** The number of instructions of every block. *)
Definition shape (m : Method) : list nat :=
  map (fun b => List.length (instructions b)) (basicBlocks m).

Definition weight (sh : list nat) : nat :=
  fold_right (fun n acc => n + 2 + acc) 0 sh.

(** What the cursor has in front of it. *)
Definition remaining (sh : list nat) (w : Walker) : nat :=
  match nth_error sh (wblock w) with
  | Some n => (S n - wpos w) + 1 + weight (skipn (S (wblock w)) sh)
  | None => 0
  end.

Definition measure (s : State) : nat :=
  2 * list_sum (shape (method s)) + remaining (shape (method s)) (it s).

(** The cursor is on an entry of a block. *)
Definition onEntry (sh : list nat) (w : Walker) : Prop :=
  exists n, nth_error sh (wblock w) = Some n /\ wpos w < n.

(** ** What an iteration does *)

(** An iteration erases the instruction at the cursor, in a method of the
    same shape, or it only moves the cursor forward. *)
Inductive stepKind (s : State) : State -> Prop :=
  | step_erasedAndBack :
      onEntry (shape (method s)) (it s) ->
      stepKind s (erasedAndBack s)
  | step_erased : forall m',
      onEntry (shape (method s)) (it s) ->
      shape m' = shape (method s) ->
      stepKind s (erased m' s)
  | step_advance : stepKind s (advance s).

(** ** Examples *)

Definition blockOf (a : nat) (l : list (option Instruction)) : BasicBlock :=
  {| blockAddress := a; instructions := l |}.

(** [a] is loaded, a no-op follows, then [a] is moved to [c], which nobody
    reads. *)
Definition twoPass : Method :=
  methodOf
    [ blockOf 100
        [ label 0 (labelLocal "L0");
          instr 1 LoadImmediate (Some (ref (plainLocal "a"))) [LiteralValue 1];
          instr 2 Nop None [];
          instr 3 MoveOperation (Some (ref (plainLocal "c"))) [ref (plainLocal "a")] ] ].

Definition twoPassOnce : Method :=
  methodOf
    [ blockOf 100
        [ label 0 (labelLocal "L0");
          instr 1 LoadImmediate (Some (ref (plainLocal "a"))) [LiteralValue 1];
          instr 2 Nop None [] ] ].

Definition twoPassTwice : Method :=
  methodOf [ blockOf 100 [ label 0 (labelLocal "L0"); instr 2 Nop None [] ] ].

(** A parameter is written and never read. *)
Definition parameterP : Local :=
  {| localName := "p"; localType := TYPE_INT32; localKind := ParameterLocal false |}.

Definition paramWrite : Method :=
  methodOf
    [ blockOf 100
        [ label 0 (labelLocal "L0");
          instr 1 LoadImmediate (Some (ref parameterP)) [LiteralValue 1] ] ].

(** [x] is written in the first block and read in the second one only. *)
Definition readElsewhere : Method :=
  methodOf
    [ blockOf 100
        [ label 0 (labelLocal "L0");
          instr 1 LoadImmediate (Some (ref (plainLocal "x"))) [LiteralValue 1];
          instr 2 Nop None [] ];
      blockOf 101
        [ label 3 (labelLocal "L1");
          instr 4 OtherInstruction None [ref (plainLocal "x")] ] ].

(** [x] is written twice, then read. *)
Definition writtenTwice : Method :=
  methodOf
    [ blockOf 100
        [ label 0 (labelLocal "L0");
          instr 1 LoadImmediate (Some (ref (plainLocal "x"))) [LiteralValue 1];
          instr 2 LoadImmediate (Some (ref (plainLocal "x"))) [LiteralValue 2];
          instr 3 OtherInstruction None [ref (plainLocal "x")] ] ].

(** [a] is loaded and moved to [b], which nobody reads. *)
Definition chain : Method :=
  methodOf
    [ blockOf 100
        [ label 0 (labelLocal "L0");
          instr 1 LoadImmediate (Some (ref (plainLocal "a"))) [LiteralValue 1];
          instr 2 MoveOperation (Some (ref (plainLocal "b"))) [ref (plainLocal "a")] ] ].

Definition startOf (m : Method) (w : Walker) : State :=
  {| method := m; it := w; hasChanged := false |}.

(** The local is not read by any instruction after the cursor in its block. *)
Definition neverReadInRestOfBlock (m : Method) (w : Walker) (loc : Local) : bool :=
  forallb (fun i => negb (entryReadsLocal i loc)) (restOfBlock m w).

End DeadCode.

(* ===================================================================== *)
(** * KernelMetaData.h: the implicit UNIFORMs and the instances *)
(* ===================================================================== *)

Module KernelLimits.

Local Open Scope N_scope.
Import KernelMetaData.

(** [KernelUniforms::countUniforms]: [std::bitset<64>(value).count()]. *)
Definition countUniforms (value : N) : nat :=
  List.length (filter (N.testbit value) (map N.of_nat (seq 0 64))).

End KernelLimits.

(* ===================================================================== *)
(** * optimization/Eliminator.cpp: what dead-code elimination leaves *)
(* ===================================================================== *)

Module DeadCodeInvariants.

Import IR.
Import DeadCode.

(** [move->getSource().hasRegister(REG_UNIFORM)] *)
Definition movesUniform (o : Op) : bool :=
  isMove o
  && match hd_error (arguments o) with
     | Some source => hasRegister source REG_UNIFORM
     | None => false
     end.

(** The output is a local or a register. *)
Definition writesLocalOrRegister (o : Op) : bool :=
  match output o with
  | Some (LocalValue _ _) | Some (RegisterValue _) => true
  | _ => false
  end.

(** The output is one of the built-in locals. *)
Definition writesBuiltin (o : Op) : bool :=
  match checkOutputLocal o with
  | Some l => match asBuiltin l with Some _ => true | None => false end
  | None => false
  end.

(** The instructions that the tests of [eliminateDeadCode] let through to an
    [it.erase()]: an operation, move, immediate load or code address that
    writes a local or a register and has no side effects, or a move of the
    UNIFORM register to a built-in local whose signal has no side effects. *)
Definition erasable (o : Op) : bool :=
  isCandidate o
  && ((writesLocalOrRegister o && negb (sideEffects o))
      || (movesUniform o && negb (signalSideEffects o) && writesBuiltin o)).

(** [l'] is [l] without some of its erasable instructions: every other
    entry is kept as it is, in its place. *)
Inductive thinned : list (option Instruction) -> list (option Instruction) -> Prop :=
  | thinned_nil : thinned [] []
  | thinned_keep : forall x l l',
      thinned l l' -> thinned (x :: l) (x :: l')
  | thinned_drop : forall o l l',
      erasable o = true -> thinned l l' -> thinned (Some (Single o) :: l) l'.

(** The blocks of [m'] are those of [m], each without some erasable
    instructions. *)
Definition prunedFrom (m m' : Method) : Prop :=
  Forall2 (fun b b' => blockAddress b' = blockAddress b
                       /\ thinned (instructions b) (instructions b'))
          (basicBlocks m) (basicBlocks m').

(** The flags of the implicit UNIFORMs of [md'] are among those of [md],
    those from [UniformAddressUsed] on are the same, and the rest of the
    meta data is the same. *)
Definition uniformsOnlyCleared (md md' : KernelMetaData.KernelMetaData) : Prop :=
  (forall bit, N.testbit (KernelMetaData.uniformsUsed md') bit = true ->
               N.testbit (KernelMetaData.uniformsUsed md) bit = true)
  /\ (forall bit, (13 <= bit)%N ->
                  N.testbit (KernelMetaData.uniformsUsed md') bit
                  = N.testbit (KernelMetaData.uniformsUsed md) bit)
  /\ KernelMetaData.workGroupSizes md' = KernelMetaData.workGroupSizes md
  /\ KernelMetaData.workGroupSizeHints md' = KernelMetaData.workGroupSizeHints md
  /\ KernelMetaData.mergedWorkItemsFactor md' = KernelMetaData.mergedWorkItemsFactor md.

(** Every block starts with its label. *)
Definition allLabelled (m : Method) : Prop :=
  forall b, In b (basicBlocks m) -> blockLabel b <> None.

(** The state an iteration leaves: the method of before, or that method
    without the erasable instruction at the cursor, with a flag of the
    UNIFORMs cleared or not. *)
Inductive stepMethod (s : State) : Method -> Prop :=
  | stepMethod_same : stepMethod s (method s)
  | stepMethod_erased : forall o,
      getOp (method s) (it s) = Some o -> erasable o = true ->
      stepMethod s (eraseAt (method s) (it s))
  | stepMethod_uniform : forall o t bit,
      getOp (method s) (it s) = Some o -> erasable o = true ->
      disableBit t = Some bit ->
      stepMethod s (eraseAt (disableUniform (method s) bit) (it s)).

(** A local that is read in [m'] and was written in [m] is written in
    [m']. *)
Definition keepsWriters (m m' : Method) : Prop :=
  forall loc, hasUsers m' loc READER = true -> hasUsers m loc WRITER = true ->
              hasUsers m' loc WRITER = true.

(** The group id is read from the UNIFORMs and never used; the loop has a
    store with side effects and computes [b], which nobody reads. *)
Definition groupIdX : Local :=
  {| localName := "%group_id_x"; localType := TYPE_INT32;
     localKind := BuiltinLocal GROUP_ID_X |}.

Definition withSideEffects (a : nat) (k : InstructionKind) (out : option Value)
    (args : list Value) : option Instruction :=
  Some (Single
    {| address := a; kind := k; output := out;
       arguments := args; sideEffects := true; signalSideEffects := false;
       conditionalExecution := false; setFlags := false; packMode := false;
       unpackMode := false; simpleMove := false; decoration := noDecorations |}).

Definition kernel : Method :=
  {| basicBlocks :=
       [ blockOf 100
           [ label 0 (labelLocal "%start");
             withSideEffects 1 MoveOperation (Some (ref groupIdX))
               [RegisterValue REG_UNIFORM];
             instr 2 LoadImmediate (Some (ref (plainLocal "a"))) [LiteralValue 1] ];
         blockOf 101
           [ label 3 (labelLocal "%loop");
             instr 4 (Operation OP_ADD) (Some (ref (plainLocal "b")))
               [ref (plainLocal "a"); LiteralValue 1];
             withSideEffects 5 (Operation OP_OR) (Some (RegisterValue (OtherRegister 49)))
               [ref (plainLocal "a"); ref (plainLocal "a")];
             instr 6 (Branch [labelLocal "%loop"] true) None [ref (labelLocal "%loop")] ] ];
     metaData :=
       {| KernelMetaData.uniformsUsed := 65;
          KernelMetaData.workGroupSizes := KernelMetaData.Array3 0 0 0;
          KernelMetaData.workGroupSizeHints := KernelMetaData.Array3 0 0 0;
          KernelMetaData.mergedWorkItemsFactor := 0 |} |}.

Definition kernelAfter : Method :=
  {| basicBlocks :=
       [ blockOf 100
           [ label 0 (labelLocal "%start");
             instr 2 LoadImmediate (Some (ref (plainLocal "a"))) [LiteralValue 1] ];
         blockOf 101
           [ label 3 (labelLocal "%loop");
             withSideEffects 5 (Operation OP_OR) (Some (RegisterValue (OtherRegister 49)))
               [ref (plainLocal "a"); ref (plainLocal "a")];
             instr 6 (Branch [labelLocal "%loop"] true) None [ref (labelLocal "%loop")] ] ];
     metaData :=
       {| KernelMetaData.uniformsUsed := 1;
          KernelMetaData.workGroupSizes := KernelMetaData.Array3 0 0 0;
          KernelMetaData.workGroupSizeHints := KernelMetaData.Array3 0 0 0;
          KernelMetaData.mergedWorkItemsFactor := 0 |} |}.

End DeadCodeInvariants.

(* ===================================================================== *)
(** * optimization/Eliminator.cpp: what dead-code elimination deletes *)
(* ===================================================================== *)

Module DeadCodePass.

Import IR.
Import DeadCode.
Import DeadCodeInvariants.

(** The loop has the instruction [x] of the block [bi] still in front of
    it: in the method of the state, a method pruned from [m0], the block
    holds [x] with the instructions [rest] behind it as in [m0], and what is
    left of the instructions [pre] that [m0] has before it; the cursor is on
    one of these, on [x], or in a block before. *)
Definition pending (m0 : Method) (bi : nat) (pre : list (option Instruction))
    (x : option Instruction) (rest : list (option Instruction)) (s : State)
    (pre' : list (option Instruction)) : Prop :=
  prunedFrom m0 (method s)
  /\ thinned pre pre'
  /\ (exists B, nth_error (basicBlocks (method s)) bi = Some B
                /\ instructions B = pre' ++ x :: rest)
  /\ (wblock (it s) < bi \/ (wblock (it s) = bi /\ wpos (it s) <= List.length pre')).

(** The cursor is on [x]. *)
Definition arrived (m0 : Method) (bi : nat) (pre : list (option Instruction))
    (x : option Instruction) (rest : list (option Instruction)) (s : State)
    (pre' : list (option Instruction)) : Prop :=
  pending m0 bi pre x rest s pre'
  /\ it s = {| wblock := bi; wpos := List.length pre' |}.

(** The iteration has erased the instruction at the cursor and left the
    cursor where it is or moved it one instruction back. *)
Definition erasedAtCursor (s s' : State) : Prop :=
  basicBlocks (method s') = basicBlocks (eraseAt (method s) (it s))
  /\ hasChanged s' = true
  /\ (it s' = it s \/ it s' = previousInBlock (it s)).

End DeadCodePass.

(* ===================================================================== *)
(** * Method.cpp, normalization/MemoryAccess.cpp: the stack frames *)
(* ===================================================================== *)

Module StackFrames.

Local Open Scope Z_scope.
Import StackLayout.

(** Two allocations differ in their offsets at most. *)
Definition sameShape (a a' : StackAllocation) : Prop :=
  name a' = name a /\ size a' = size a /\ alignment a' = alignment a
  /\ isLowered a' = isLowered a.

(** Two allocations of the same shape that are equal when the pass for
    [lowered] has given them their offset. *)
Definition agreeOn (lowered : bool) (a b : StackAllocation) : Prop :=
  sameShape a b /\ (isLowered a = lowered -> a = b).

(** ** The addresses of [resolveStackAllocation]

    Modelled from the spec: the instructions that [resolveStackAllocation]
    inserts are executed by the hardware, outside of the modelled files.
    Addresses are 32-bit words, [add] wraps around and [mul24] multiplies
    the low 24 bits of its operands. *)
Definition WORD : Z := 2 ^ 32.

Definition wrap32 (z : Z) : Z := z mod WORD.

Definition add32 (a b : Z) : Z := wrap32 (a + b).

Definition mul24 (a b : Z) : Z := wrap32 ((a mod 2 ^ 24) * (b mod 2 ^ 24)).

(** The value of [finalAddr] on the QPU [qpu]:
    [qpuOffset = mul24(REG_QPU_NUMBER, uint32_t(maximumStackSize))],
    [addrTemp = qpuOffset + GLOBAL_DATA_ADDRESS],
    [finalAddr = addrTemp + uint32_t(stackAllocation->offset + stackBaseOffset)]. *)
Definition stackAddress (globalDataAddress qpu maximumStackSize stackBaseOffset : Z)
    (s : StackAllocation) : Z :=
  let qpuOffset := mul24 qpu (wrap32 maximumStackSize) in
  let addrTemp := add32 qpuOffset globalDataAddress in
  add32 addrTemp (wrap32 (wrapSize (offset s + stackBaseOffset))).

(** The bytes [start, start + length) and [start', start' + length') do not
    overlap. *)
Definition apart (start length start' length' : Z) : Prop :=
  start + length <= start' \/ start' + length' <= start.

End StackFrames.

(* ===================================================================== *)
(** * optimization/Eliminator.cpp: the masks of the shifts *)
(* ===================================================================== *)

Module BitOps.

Local Open Scope Z_scope.

Definition UINT32 : Z := 2 ^ 32.

Definition wrap32 (z : Z) : Z := z mod UINT32.

(** [auto offset = lit->unsignedInt() & 0x1F; offset = 32 - offset;] of
    [eliminateRedundantBitOp]: the number of bits of the input that are
    shifted only. *)
Definition shiftedBits (lit : Z) : Z := wrap32 (32 - Z.land (wrap32 lit) 31).

(** [mask = offset == 32 ? 0xFFFFFFFF : (1u << offset) - 1u;] of the branch
    for [OP_SHR]. *)
Definition shrMask (lit : Z) : Z :=
  let offset := shiftedBits lit in
  if offset =? 32 then 4294967295
  else wrap32 (wrap32 (Z.shiftl 1 offset) - 1).

(** [mask = (1u << offset) - 1u;] of the branch for [OP_ASR].  The shift
    of a 32-bit value by 32 is undefined: no mask then. *)
Definition asrMask (lit : Z) : option Z :=
  let offset := shiftedBits lit in
  if offset <? 32 then Some (wrap32 (wrap32 (Z.shiftl 1 offset) - 1))
  else None.

(** Modelled from the spec: [isPowerTwo] is defined outside of the modelled
    files; a value is a power of two when it is positive and has no bit in
    common with its predecessor. *)
Definition isPowerTwo (val : Z) : bool :=
  (0 <? val) && (Z.land val (val - 1) =? 0).

(** The test on the constant [otherLit] of a reader of the shifted value:
    [isPowerTwo(otherLit->unsignedInt() + 1u) && otherLit->unsignedInt() <= mask]. *)
Definition coveredBy (mask otherLit : Z) : bool :=
  isPowerTwo (wrap32 (otherLit + 1)) && (otherLit <=? mask).

(** ** The operations of the ALU

    Modelled from the spec: the op-codes are evaluated outside of the
    modelled files.  The shifts take the low five bits of their offset;
    [shl] and [shr] shift a 32-bit word logically, [asr] shifts it as a
    signed value, [and] is the bit-wise conjunction. *)
Definition shl32 (a offset : Z) : Z := wrap32 (Z.shiftl a (Z.land offset 31)).

Definition shr32 (a offset : Z) : Z := Z.shiftr a (Z.land offset 31).

Definition signed32 (a : Z) : Z := if a <? 2 ^ 31 then a else a - UINT32.

Definition asr32 (a offset : Z) : Z :=
  wrap32 (Z.shiftr (signed32 a) (Z.land offset 31)).

Definition and32 (a b : Z) : Z := Z.land a b.

(** A 32-bit word. *)
Definition isWord (z : Z) : Prop := 0 <= z < UINT32.

End BitOps.

(* ===================================================================== *)
(** * Method.cpp: inserting blocks and instructions *)
(* ===================================================================== *)

Module MethodEdit.

Import IR.

(** ** The locals of the method

    Modelled from the spec: the container [locals] is declared outside of
    [Method.cpp]; it holds one local per name, and [emplace] gives back the
    local of that name that is there already, if any. *)
Definition emplaceLocal (locals : list Local) (l : Local) : list Local * Local :=
  match find (fun e => sameLocal e l) locals with
  | Some e => (locals, e)
  | None => (locals ++ [l], l)
  end.

(** [Local(TYPE_LABEL, labelName)] *)
Definition newLabelLocal (labelName : string) : Local :=
  {| localName := labelName; localType := TYPE_LABEL; localKind := PlainLocal |}.

(** [BasicBlock(method, label)]: a new block that holds its label. *)
Definition newBasicBlock (blockAddr : nat) (labelInstr : option Instruction)
  : BasicBlock :=
  {| blockAddress := blockAddr; instructions := [labelInstr] |}.

(** [basicBlocks.emplace(position, ...)]: the new element comes before the
    one at [position]. *)
Definition emplaceAt {A : Type} (position : nat) (x : A) (l : list A) : list A :=
  firstn position l ++ x :: skipn position l.

(** [dynamic_cast<intermediate::BranchLabel*>(instr)] *)
Definition asBranchLabel (i : option Instruction) : option Local :=
  match i with
  | Some (Single o) => match kind o with BranchLabel l => Some l | _ => None end
  | _ => None
  end.

(** [Method::findBasicBlock(const std::string& label)], as the index of the
    block. *)
Fixpoint findBlockByNameFrom (index : nat) (bs : list BasicBlock) (labelName : string)
  : option nat :=
  match bs with
  | [] => None
  | bb :: rest =>
      match blockLabel bb with
      | Some l => if String.eqb (localName l) labelName then Some index
                  else findBlockByNameFrom (S index) rest labelName
      | None => findBlockByNameFrom (S index) rest labelName
      end
  end.

Definition findBasicBlockByName (m : Method) (labelName : string) : option nat :=
  findBlockByNameFrom 0 (basicBlocks m) labelName.

(** [Method::getNextBlockAfter], as the index of the block; [block] is the
    identity of the block asked for. *)
Fixpoint nextBlockFrom (index : nat) (returnNext : bool) (bs : list BasicBlock)
    (block : nat) : option nat :=
  match bs with
  | [] => None
  | bb :: rest =>
      if returnNext then Some index
      else nextBlockFrom (S index) (Nat.eqb (blockAddress bb) block) rest block
  end.

Definition getNextBlockAfter (m : Method) (block : nat) : option nat :=
  nextBlockFrom 0 false (basicBlocks m) block.

Section WithNewObjects.

(** The identities of the objects the code creates with [new] and
    [emplace]: the block and its label instruction. *)
Variable blockAddr : nat.
Variable labelAddr : nat.

(** [Method::createAndInsertNewBlock(position, labelName)]: the locals, the
    method and the index of the new block. *)
Definition createAndInsertNewBlock (locals : list Local) (m : Method)
    (position : nat) (labelName : string) : list Local * Method * nat :=
  let (locals', newLabel) := emplaceLocal locals (newLabelLocal labelName) in
  (locals',
   setBlocks m (emplaceAt position (newBasicBlock blockAddr (label labelAddr newLabel))
                          (basicBlocks m)),
   Nat.min position (List.length (basicBlocks m))).

(** [BasicBlock::DEFAULT_BLOCK], a constant declared outside of the
    modelled files. *)
Variable DEFAULT_BLOCK : string.

(** [Method::checkAndCreateDefaultBasicBlock]; [createLocal] adds no lower
    and upper part for a label. *)
Definition checkAndCreateDefaultBasicBlock (locals : list Local) (m : Method)
  : list Local * Method :=
  match basicBlocks m with
  | [] =>
      let (locals', newLabel) := emplaceLocal locals (newLabelLocal DEFAULT_BLOCK) in
      (locals', setBlocks m [newBasicBlock blockAddr (label labelAddr newLabel)])
  | _ :: _ => (locals, m)
  end.

(** [basicBlocks.back().instructions.emplace_back(instr)] *)
Fixpoint appendToLast (bs : list BasicBlock) (i : option Instruction)
  : list BasicBlock :=
  match bs with
  | [] => []
  | [b] => [{| blockAddress := blockAddress b; instructions := instructions b ++ [i] |}]
  | b :: rest => b :: appendToLast rest i
  end.

(** [Method::appendToEnd(instr)] *)
Definition appendToEnd (locals : list Local) (m : Method) (i : option Instruction)
  : list Local * Method :=
  match asBranchLabel i with
  | Some _ => (locals, setBlocks m (basicBlocks m ++ [newBasicBlock blockAddr i]))
  | None =>
      let (locals', m') := checkAndCreateDefaultBasicBlock locals m in
      (locals', setBlocks m' (appendToLast (basicBlocks m') i))
  end.

End WithNewObjects.

(** ** [Method::emplaceLabel] *)

Inductive Outcome (A : Type) : Type :=
  | Threw : Outcome A
  | Returned : A -> Outcome A.

Arguments Threw {A}.
Arguments Returned {A} _.

(** [while(!isStartOfBlock && !it.isEndOfBlock())
       { newBlock.walkEnd().emplace(it.release()); it.erase(); }]
    on the instructions from the cursor to the end of its block. *)
Fixpoint moveInstructions (fromCursor newInstructions : list (option Instruction))
  : list (option Instruction) :=
  match fromCursor with
  | [] => newInstructions
  | i :: rest => moveInstructions rest (newInstructions ++ [i])
  end.

(** [Method::emplaceLabel(it, label)]: the method and the cursor on the
    start of the new block. *)
Definition emplaceLabel (blockAddr : nat) (m : Method) (it : Walker)
    (labelInstr : option Instruction) : Outcome (Method * Walker) :=
  match basicBlocks m with
  | [] => Returned (setBlocks m [newBasicBlock blockAddr labelInstr], walk 0)
  | _ :: _ =>
      match blockAt m it with
      | None => Threw
      | Some current =>
          if isStartOfBlock it then
            Returned (setBlocks m (emplaceAt (wblock it)
                                     (newBasicBlock blockAddr labelInstr)
                                     (basicBlocks m)),
                      walk (wblock it))
          else
            let kept := firstn (wpos it) (instructions current) in
            let moved := moveInstructions (skipn (wpos it) (instructions current))
                                          [labelInstr] in
            Returned
              (setBlocks m
                 (firstn (wblock it) (basicBlocks m)
                  ++ {| blockAddress := blockAddress current; instructions := kept |}
                  :: {| blockAddress := blockAddr; instructions := moved |}
                  :: skipn (S (wblock it)) (basicBlocks m)),
               walk (S (wblock it)))
      end
  end.

(** ** Vocabulary of the statements *)

(** The instructions of the method in their order. *)
Definition allInstructions (m : Method) : list (option Instruction) :=
  concat (map instructions (basicBlocks m)).

(** The instructions before the cursor, and those from the cursor on. *)
Definition instructionsBefore (m : Method) (w : Walker) : list (option Instruction) :=
  concat (map instructions (firstn (wblock w) (basicBlocks m)))
  ++ match blockAt m w with
     | Some b => firstn (wpos w) (instructions b)
     | None => []
     end.

Definition instructionsFrom (m : Method) (w : Walker) : list (option Instruction) :=
  match blockAt m w with
  | Some b => skipn (wpos w) (instructions b)
  | None => []
  end
  ++ concat (map instructions (skipn (S (wblock w)) (basicBlocks m))).

(** The block carries the label. *)
Definition labelIs (label : Local) (b : BasicBlock) : bool :=
  match blockLabel b with Some l => sameLocal l label | None => false end.

(** The block is the object at [block]. *)
Definition isBlock (block : nat) (b : BasicBlock) : bool :=
  Nat.eqb (blockAddress b) block.

(** [index] is the first position of [l] where [p] holds. *)
Definition firstAt {A : Type} (p : A -> bool) (l : list A) (index : nat) : Prop :=
  (exists x, nth_error l index = Some x /\ p x = true)
  /\ forall j y, j < index -> nth_error l j = Some y -> p y = false.

(** A branch of the method names the label. *)
Definition branchTarget (m : Method) (target : Local) : Prop :=
  exists b o targets unconditional,
    In b (basicBlocks m) /\ In (Some (Single o)) (instructions b)
    /\ kind o = Branch targets unconditional /\ In target targets.

End MethodEdit.

(* ===================================================================== *)
(** * optimization/Eliminator.cpp: replacing the returns *)
(* ===================================================================== *)

Module ReturnElimination.

Import IR.
Import MethodEdit.

(** [it.reset(instr)]: the instruction at the cursor is replaced. *)
Definition resetAt (m : Method) (w : Walker) (i : option Instruction) : Method :=
  setBlocks m
    (DeadCode.updateNth (wblock w)
       (fun b => {| blockAddress := blockAddress b;
                    instructions :=
                      DeadCode.updateNth (wpos w) (fun _ => i) (instructions b) |})
       (basicBlocks m)).

(** [it.get<intermediate::Return>()] *)
Definition getReturn (m : Method) (w : Walker) : option Op :=
  match getOp m w with
  | Some o => match kind o with Return => Some o | _ => None end
  | None => None
  end.

(** Modelled from the spec: [intermediate::Branch] is defined outside of the
    modelled files; [new intermediate::Branch(label)] is an unconditional
    branch to the label, which it reads. *)
Definition newBranch (a : nat) (target : Local) : option Instruction :=
  instr a (Branch [target] true) None [ref target].

Section WithNewObjects.

(** The identities of the objects created and [BasicBlock::LAST_BLOCK], a
    constant declared outside of the modelled files. *)
Variable blockAddr : nat.
Variable labelAddr : nat.
Variable branchAddr : nat.
Variable LAST_BLOCK : string.

(** [optimizations::eliminateReturn]: the locals and the method it leaves;
    the cursor it returns is the one it was given.  [Threw] stands for the
    target block having no label, which [target->getLabel()] relies on. *)
Definition eliminateReturn (locals : list Local) (m : Method) (it : Walker)
  : Outcome (list Local * Method) :=
  match getReturn m it with
  | Some _ =>
      let '(locals1, m1, target) :=
        match findBasicBlockByName m LAST_BLOCK with
        | Some target => (locals, m, target)
        | None =>
            createAndInsertNewBlock blockAddr labelAddr locals m
              (List.length (basicBlocks m)) LAST_BLOCK
        end in
      match nth_error (basicBlocks m1) target with
      | Some targetBlock =>
          match blockLabel targetBlock with
          | Some l => Returned (locals1, resetAt m1 it (newBranch branchAddr l))
          | None => Threw
          end
      | None => Threw
      end
  | None => Returned (locals, m)
  end.

End WithNewObjects.

(** The block carries a label of this name. *)
Definition labelNamed (labelName : string) (b : BasicBlock) : bool :=
  match blockLabel b with
  | Some l => String.eqb (localName l) labelName
  | None => false
  end.

End ReturnElimination.

(* ===================================================================== *)
(** * Method.cpp: the names of new locals *)
(* ===================================================================== *)

Module LocalNames.

Import Ascii.
Local Open Scope string_scope.

(** [std::to_string] of a [std::size_t]. *)
Definition to_string (n : N) : string :=
  DecimalString.NilEmpty.string_of_uint (N.to_uint n).

(** [tmpIndex++] on the [std::atomic_size_t], taken to be 64 bits wide. *)
Definition increment (tmpIndex : N) : N := ((tmpIndex + 1) mod 2 ^ 64)%N.

Definition empty (s : string) : bool :=
  match s with EmptyString => true | String _ _ => false end.

(** [postfix[0] == '%'] *)
Definition startsWithPercent (s : string) : bool :=
  match s with
  | String c _ => Ascii.eqb c "%"%char
  | EmptyString => false
  end.

(** [Method::createLocalName(prefix, postfix)]: the name and the value of
    [tmpIndex] afterwards. *)
Definition createLocalName (prefix postfix : string) (tmpIndex : N) : string * N :=
  if (empty prefix || String.eqb prefix "%") && empty postfix then
    ("%tmp." ++ to_string tmpIndex, increment tmpIndex)
  else if empty prefix || String.eqb prefix "%" then
    if startsWithPercent postfix then (postfix, tmpIndex)
    else ("%" ++ postfix, tmpIndex)
  else if empty postfix then
    ((prefix ++ ".") ++ to_string tmpIndex, increment tmpIndex)
  else
    ((prefix ++ ".") ++ postfix, tmpIndex).

(** The prefix asks for a name that starts with a percent sign. *)
Definition anonymous (prefix : string) : bool :=
  empty prefix || String.eqb prefix "%".

End LocalNames.

(* ===================================================================== *)
(** * Method.cpp: removing the empty instructions *)
(* ===================================================================== *)

Module EmptyInstructions.

Import IR.

(** The state of the loop of [cleanEmptyInstructions]: the method, the
    cursor [it] and the counter [num]. *)
Record State : Type := {
  method : Method;
  it : Walker;
  num : nat
}.

(** The body of the [while(!it.isEndOfMethod())] loop. *)
Definition step (s : State) : State :=
  match get (method s) (it s) with
  | None =>
      let erased := DeadCode.eraseAt (method s) (it s) in
      {| method := erased;
         it := if isEndOfBlock erased (it s) then nextInMethod erased (it s) else it s;
         num := S (num s) |}
  | Some _ =>
      {| method := method s; it := nextInMethod (method s) (it s); num := num s |}
  end.

(** The loop; [None] when [fuel] runs out. *)
Fixpoint run (fuel : nat) (s : State) : option State :=
  match fuel with
  | O => None
  | S fuel' =>
      if isEndOfMethod (method s) (it s) then Some s
      else run fuel' (step s)
  end.

(** [Method::cleanEmptyInstructions]: the method it leaves and the number
    it returns. *)
Definition cleanEmptyInstructions (m : Method) : option (Method * nat) :=
  match run (DeadCode.fuelFor m)
            {| method := m; it := DeadCode.walkAllInstructions m; num := 0 |} with
  | Some s => Some (method s, num s)
  | None => None
  end.

(** ** Vocabulary of the statements *)

Definition isInstruction (i : option Instruction) : bool :=
  match i with Some _ => true | None => false end.

(** The block without its empty entries. *)
Definition withoutEmpty (b : BasicBlock) : BasicBlock :=
  {| blockAddress := blockAddress b;
     instructions := filter isInstruction (instructions b) |}.

(** The number of empty entries of the method. *)
Definition countEmpty (m : Method) : nat :=
  list_sum (map (fun b => List.length (filter (fun i => negb (isInstruction i))
                                              (instructions b)))
                (basicBlocks m)).

(** The first entry of every block is an instruction. *)
Definition headed (b : BasicBlock) : Prop :=
  match instructions b with
  | Some _ :: _ => True
  | _ => False
  end.

(** ** The invariant of the loop *)

(** No entry of the list is empty. *)
Definition clean (l : list (option Instruction)) : Prop :=
  forallb isInstruction l = true.

(** The entries the cursor has passed are instructions. *)
Definition cleanedBefore (m : Method) (w : Walker) : Prop :=
  (forall j b, j < wblock w -> nth_error (basicBlocks m) j = Some b ->
               clean (instructions b))
  /\ (forall b, blockAt m w = Some b -> clean (firstn (wpos w) (instructions b))).

(** What the loop keeps, [m0] being the method it started with. *)
Record invariant (m0 : Method) (s : State) : Prop := {
  inv_headed : Forall headed (basicBlocks (method s));
  inv_cursor : isEndOfMethod (method s) (it s) = true
               \/ DeadCode.onEntry (DeadCode.shape (method s)) (it s);
  inv_cleaned : cleanedBefore (method s) (it s);
  inv_same : map withoutEmpty (basicBlocks (method s))
             = map withoutEmpty (basicBlocks m0);
  inv_meta : metaData (method s) = metaData m0;
  inv_num : num s + countEmpty (method s) = countEmpty m0
}.

(** The measure of the loop. *)
Definition measure (s : State) : nat :=
  2 * list_sum (DeadCode.shape (method s))
  + DeadCode.remaining (DeadCode.shape (method s)) (it s).

(** A block with empty entries between its instructions, and one without. *)
Definition sparse : Method :=
  methodOf
    [ DeadCode.blockOf 100
        [ label 0 (labelLocal "%start"); None;
          instr 1 Nop None []; None; None ];
      DeadCode.blockOf 101
        [ label 2 (labelLocal "%end"); instr 3 Nop None [] ] ].

End EmptyInstructions.

(* ===================================================================== *)
(** * Method.cpp: the built-in locals *)
(* ===================================================================== *)

Module Builtins.

Import IR.
Import MethodEdit.
Local Open Scope string_scope.

(** The names of the [switch] of [findOrCreateBuiltin]. *)
Definition builtinName (t : BuiltinType) : string :=
  match t with
  | WORK_DIMENSIONS => "%work_dim"
  | LOCAL_SIZES => "%local_sizes"
  | LOCAL_IDS => "%local_ids"
  | NUM_GROUPS_X => "%num_groups_x"
  | NUM_GROUPS_Y => "%num_groups_y"
  | NUM_GROUPS_Z => "%num_groups_z"
  | GROUP_ID_X => "%group_id_x"
  | GROUP_ID_Y => "%group_id_y"
  | GROUP_ID_Z => "%group_id_z"
  | GROUP_IDS => "%group_ids"
  | GLOBAL_OFFSET_X => "%global_offset_x"
  | GLOBAL_OFFSET_Y => "%global_offset_y"
  | GLOBAL_OFFSET_Z => "%global_offset_z"
  | GLOBAL_DATA_ADDRESS => "%global_data_address"
  | UNIFORM_ADDRESS => "%uniform_address"
  | MAX_GROUP_ID_X => "%max_group_id_x"
  | MAX_GROUP_ID_Y => "%max_group_id_y"
  | MAX_GROUP_ID_Z => "%max_group_id_z"
  end.

(** [TYPE_INT32], and [TYPE_INT32.toVectorType(3)] for the group ids. *)
Definition builtinDataType (t : BuiltinType) : DataType :=
  match t with
  | GROUP_IDS => {| scalarBitCount := 32; typeVectorWidth := 3 |}
  | _ => TYPE_INT32
  end.

(** [std::make_unique<BuiltinLocal>(name, type, builtinType)] *)
Definition newBuiltin (t : BuiltinType) : Local :=
  {| localName := builtinName t; localType := builtinDataType t;
     localKind := BuiltinLocal t |}.

Local Open Scope list_scope.

(** [builtinLocals], a vector of pointers that can be null. *)
Definition Table : Type := list (option Local).

Section WithEnumeration.

(** [BuiltinLocal::NUM_LOCALS] and [static_cast<std::size_t>(type)]: the
    enumeration is declared outside of the modelled files. *)
Variable NUM_LOCALS : nat.
Variable indexOf : BuiltinType -> nat.

(** [Method::findBuiltin] *)
Definition findBuiltin (builtinLocals : Table) (t : BuiltinType) : option Local :=
  if Nat.leb (List.length builtinLocals) (indexOf t) then None
  else nth (indexOf t) builtinLocals None.

(** [builtinLocals.resize(n)] on a shorter vector. *)
Definition resize (n : nat) (builtinLocals : Table) : Table :=
  builtinLocals ++ repeat None (n - List.length builtinLocals).

(** [Method::findOrCreateBuiltin]: the table it leaves and the local it
    returns; [Threw] is the [std::out_of_range] of [at]. *)
Definition findOrCreateBuiltin (builtinLocals : Table) (t : BuiltinType)
  : Outcome (Table * Local) :=
  let table :=
    if Nat.ltb (List.length builtinLocals) NUM_LOCALS
    then resize NUM_LOCALS builtinLocals
    else builtinLocals in
  match nth_error table (indexOf t) with
  | None => Threw
  | Some (Some entry) => Returned (table, entry)
  | Some None =>
      Returned (DeadCode.updateNth (indexOf t) (fun _ => Some (newBuiltin t)) table,
                newBuiltin t)
  end.

End WithEnumeration.

(** The enumerators in the order of the [switch]. *)
Definition switchOrder (t : BuiltinType) : nat :=
  match t with
  | WORK_DIMENSIONS => 0 | LOCAL_SIZES => 1 | LOCAL_IDS => 2
  | NUM_GROUPS_X => 3 | NUM_GROUPS_Y => 4 | NUM_GROUPS_Z => 5
  | GROUP_ID_X => 6 | GROUP_ID_Y => 7 | GROUP_ID_Z => 8 | GROUP_IDS => 9
  | GLOBAL_OFFSET_X => 10 | GLOBAL_OFFSET_Y => 11 | GLOBAL_OFFSET_Z => 12
  | GLOBAL_DATA_ADDRESS => 13 | UNIFORM_ADDRESS => 14
  | MAX_GROUP_ID_X => 15 | MAX_GROUP_ID_Y => 16 | MAX_GROUP_ID_Z => 17
  end.

End Builtins.

(* ===================================================================== *)
(** * optimization/Eliminator.cpp: calls of the SFU with a constant *)
(* ===================================================================== *)

Module ConstantSFU.

Import IR.
Import MethodEdit.

Section WithHardware.

(** Queries answered outside of the modelled files:
    [it->checkOutputRegister() & &Register::isSpecialFunctionsUnit],
    [it->hasOtherSideEffects(SideEffectType::REGISTER_WRITE)],
    [it->precalculate(3).first] passed to [periphery::precalculateSFU],
    a [Nop] of type [DelayType::WAIT_SFU], and the register [REG_SFU_OUT]. *)
Variable writesSFU : Op -> bool.
Variable otherSideEffects : Op -> bool.
Variable precalculateSFU : Op -> option Value.
Variable waitsForSFU : Op -> bool.
Variable REG_SFU_OUT : Register.

(** The tests before the rewrite. *)
Definition isConstantCall (o : Op) : bool :=
  writesSFU o && negb (conditionalExecution o) && negb (otherSideEffects o)
  && negb (packMode o || unpackMode o).

(** [it.get<intermediate::Nop>() && ...->type == DelayType::WAIT_SFU] *)
Definition isDelay (i : option Instruction) : bool :=
  match i with
  | Some (Single o) =>
      match kind o with Nop => waitsForSFU o | _ => false end
  | _ => false
  end.

(** [it->readsRegister(REG_SFU_OUT)] on the instruction of an entry; the
    source dereferences the entry.  Modelled from the spec: the queries of
    a [CombinedOperation] are outside of the modelled files, it reads what
    its halves read. *)
Definition readsResult (i : Instruction) : bool :=
  match i with
  | Single o => DeadCode.readsRegister o REG_SFU_OUT
  | CombinedOperation _ firstOp secondOp =>
      existsb (fun o => DeadCode.readsRegister o REG_SFU_OUT)
              (optionToList firstOp ++ optionToList secondOp)
  end.

(** The first loop, on the instructions from the cursor on:
    [while(numDelays != 0 && !it.isEndOfBlock())] erases a delay or steps
    over the instruction.  Gives the instructions stepped over and those
    from the cursor on. *)
Fixpoint eraseDelays (numDelays : nat) (fromCursor : list (option Instruction))
  : list (option Instruction) * list (option Instruction) :=
  match fromCursor with
  | [] => ([], [])
  | i :: rest =>
      match numDelays with
      | O => ([], fromCursor)
      | S fewer =>
          if isDelay i then eraseDelays fewer rest
          else let (passed, remaining) := eraseDelays numDelays rest in
               (i :: passed, remaining)
      end
  end.

(** How the second loop ends: at the end of the block, no instruction
    having read the result ([EndOfBlock]); on an entry without instruction,
    where [it->readsRegister] dereferences the null pointer and the
    behaviour is undefined ([EmptyEntry]); on a reader without output,
    where [it->getOutput().value()] throws ([NoOutput]); or with the reader
    rewritten: the instructions stepped over and those from the cursor
    on. *)
Inductive Search : Type :=
  | EndOfBlock
  | EmptyEntry
  | NoOutput
  | Rewritten (passed fromReader : list (option Instruction)).

(** The second loop: the first instruction that reads the result is
    replaced by a move of the value.  Modelled from the spec: a
    [CombinedOperation] has no output of its own, only its halves have. *)
Fixpoint rewriteReader (result : Value) (fromCursor : list (option Instruction))
  : Search :=
  match fromCursor with
  | [] => EndOfBlock
  | None :: _ => EmptyEntry
  | Some i :: rest =>
      if readsResult i then
        match i with
        | Single reader =>
            match output reader with
            | Some out =>
                Rewritten []
                  (Some (Single (ConstantFolding.moveWithExtras out result reader))
                   :: rest)
            | None => NoOutput
            end
        | CombinedOperation _ _ _ => NoOutput
        end
      else
        match rewriteReader result rest with
        | Rewritten passed remaining => Rewritten (Some i :: passed) remaining
        | other => other
        end
  end.

(** [optimizations::rewriteConstantSFUCall]: the method it leaves and the
    cursor it returns, or [Threw] for a [CompilationError] and for the
    [value()] of an output that is not there; nothing where the behaviour
    is undefined. *)
Definition rewriteConstantSFUCall (m : Method) (it : Walker)
  : option (Outcome (Method * Walker)) :=
  match get m it, blockAt m it with
  | Some (Single o), Some b =>
      if isConstantCall o then
        match precalculateSFU o with
        | Some result =>
            let before := firstn (wpos it) (instructions b) in
            let afterCall := skipn (S (wpos it)) (instructions b) in
            let (passed, afterDelays) := eraseDelays 2 afterCall in
            match afterDelays with
            | [] => Some Threw
            | _ :: _ =>
                match rewriteReader result afterDelays with
                | EndOfBlock => Some Threw
                | EmptyEntry => None
                | NoOutput => Some Threw
                | Rewritten passedToo fromReader =>
                    Some (Returned
                      (setBlocks m
                         (DeadCode.updateNth (wblock it)
                            (fun _ => {| blockAddress := blockAddress b;
                                         instructions :=
                                           before ++ passed ++ passedToo ++ fromReader |})
                            (basicBlocks m)),
                       previousInBlock
                         {| wblock := wblock it;
                            wpos := List.length before + List.length passed
                                    + List.length passedToo |}))
                end
            end
        | None => Some (Returned (m, it))
        end
      else Some (Returned (m, it))
  | _, _ => Some (Returned (m, it))
  end.

(** ** Vocabulary of the statements *)

(** The entry holds an instruction that does not read the result. *)
Definition passedOver (i : option Instruction) : bool :=
  match i with
  | Some x => negb (readsResult x)
  | None => false
  end.

Definition noDelay (i : option Instruction) : bool := negb (isDelay i).

(** What the rewrite needs after the call: two delays, and after them,
    behind instructions that do not read the result, an instruction that
    reads it and has an output.  [callPattern result afterCall after n]:
    [after] is [afterCall] without the two delays and with the reader
    replaced by the move of [result]; [n] is the place of the move in
    [after]. *)
Inductive callPattern (result : Value)
  : list (option Instruction) -> list (option Instruction) -> nat -> Prop :=
  | callPattern_intro : forall a d1 b d2 c reader out rest,
      isDelay d1 = true -> isDelay d2 = true ->
      forallb noDelay (a ++ b) = true ->
      forallb passedOver c = true ->
      readsResult (Single reader) = true ->
      output reader = Some out ->
      callPattern result
        (a ++ d1 :: b ++ d2 :: c ++ Some (Single reader) :: rest)
        (a ++ b ++ c
         ++ Some (Single (ConstantFolding.moveWithExtras out result reader)) :: rest)
        (List.length (a ++ b ++ c)).

(** After the two delays an entry without instruction comes before any
    reader of the result. *)
Inductive emptyPattern : list (option Instruction) -> Prop :=
  | emptyPattern_intro : forall a d1 b d2 c rest,
      isDelay d1 = true -> isDelay d2 = true ->
      forallb noDelay (a ++ b) = true ->
      forallb passedOver c = true ->
      emptyPattern (a ++ d1 :: b ++ d2 :: c ++ None :: rest).

(** The instruction at the cursor is a call of the SFU that passes the
    tests and has the constant result [result]; [b] is its block. *)
Definition constantCall (m : Method) (it : Walker) (o : Op) (result : Value)
    (b : BasicBlock) : Prop :=
  get m it = Some (Single o) /\ blockAt m it = Some b
  /\ isConstantCall o = true /\ precalculateSFU o = Some result.

End WithHardware.

End ConstantSFU.

(* ===================================================================== *)
(** * Properties *)
(* ===================================================================== *)

(** ** KernelMetaData.h: the fixed work-group size *)

Module KernelMetaDataFacts.

Local Open Scope N_scope.
Import KernelMetaData.

Lemma any_positive_allZero (a : array3) :
  any_positive (elements a) = negb (allZero a).
Proof.
  destruct a as [x y z]; unfold any_positive, allZero; simpl.
  destruct (N.eqb_spec x 0), (N.eqb_spec y 0), (N.eqb_spec z 0); subst; simpl;
    repeat match goal with
           | |- context [0 <? ?v] => destruct (N.ltb_spec 0 v); try lia
           end; reflexivity.
Qed.

Lemma accumulate_mul_product (a : array3) :
  accumulate_mul (elements a) = wrap32 (dimX a * dimY a * dimZ a).
Proof.
  destruct a as [x y z]; unfold accumulate_mul, wrap32.
  cbn [fold_left elements dimX dimY dimZ].
  rewrite N.mul_1_l.
  rewrite (N.Div0.mul_mod_idemp_l x y).
  rewrite (N.Div0.mul_mod_idemp_l (x * y) z).
  reflexivity.
Qed.

Lemma someZero_product (a : array3) :
  someZero a = true -> dimX a * dimY a * dimZ a = 0.
Proof.
  destruct a as [x y z]; unfold someZero; simpl.
  destruct (N.eqb_spec x 0), (N.eqb_spec y 0), (N.eqb_spec z 0);
    simpl; intros; subst; try discriminate; lia.
Qed.

(** C10.  [getFixedWorkGroupSize] has no value exactly when the three
    compile-time work-group sizes are all zero; otherwise it is their
    product in [uint32_t] arithmetic.  So as soon as one dimension is zero
    and another is not (for instance sizes (4, 0, 0)) the fixed size is 0,
    and [getMaximumWorkGroupSize] is 0 as well instead of the hardware
    default. *)
Theorem getFixedWorkGroupSize_partial_sizes :
  forall (numQPUs : N) (md : KernelMetaData),
    (getFixedWorkGroupSize md = None <-> allZero (workGroupSizes md) = true)
    /\ getFixedWorkGroupSize md =
         (if allZero (workGroupSizes md) then None
          else Some (wrap32 (dimX (workGroupSizes md) * dimY (workGroupSizes md)
                             * dimZ (workGroupSizes md))))
    /\ (if negb (allZero (workGroupSizes md)) && someZero (workGroupSizes md)
        then getFixedWorkGroupSize md = Some 0
             /\ getMaximumWorkGroupSize numQPUs md = 0
        else True)
    /\ (forall u h f,
          let partial := {| uniformsUsed := u; workGroupSizes := Array3 4 0 0;
                            workGroupSizeHints := h; mergedWorkItemsFactor := f |} in
          getFixedWorkGroupSize partial = Some 0
          /\ getMaximumWorkGroupSize numQPUs partial = 0).
Proof.
  intros numQPUs md.
  assert (E : getFixedWorkGroupSize md =
              (if allZero (workGroupSizes md) then None
               else Some (wrap32 (dimX (workGroupSizes md) * dimY (workGroupSizes md)
                                  * dimZ (workGroupSizes md))))).
  { unfold getFixedWorkGroupSize.
    rewrite any_positive_allZero, accumulate_mul_product.
    destruct (allZero (workGroupSizes md)); reflexivity. }
  split; [| split; [exact E | split]].
  - rewrite E. destruct (allZero (workGroupSizes md)); split; intros; congruence.
  - destruct (allZero (workGroupSizes md)) eqn:Z0; simpl; [exact I |].
    destruct (someZero (workGroupSizes md)) eqn:Z1; [| exact I].
    unfold getMaximumWorkGroupSize. rewrite E.
    rewrite (someZero_product _ Z1). split; reflexivity.
  - intros u h f; split; reflexivity.
Qed.

End KernelMetaDataFacts.

(** ** Method.cpp: the stack layout *)

Module StackLayoutFacts.

Local Open Scope Z_scope.
Import StackLayout.

(** ** Arithmetic of the alignment step *)

Lemma wrapSize_small (z : Z) : 0 <= z < SIZE_MODULUS -> wrapSize z = z.
Proof. intros H; unfold wrapSize; apply Z.mod_small; exact H. Qed.

Lemma SIZE_MODULUS_pos : 0 < SIZE_MODULUS.
Proof. reflexivity. Qed.

Lemma align_step (x al : Z) :
  0 < al -> x mod al <> 0 -> (x + (al - x mod al)) mod al = 0.
Proof.
  intros Hal Hr.
  replace (x + (al - x mod al)) with ((x - x mod al) + 1 * al) by lia.
  rewrite Z.mod_add by lia.
  rewrite Zminus_mod_idemp_r, Z.sub_diag. apply Z.mod_0_l; lia.
Qed.

Lemma alignOffset_spec (base cur al : Z) :
  0 <= base -> 0 <= cur -> 0 < al -> base + cur + al < SIZE_MODULUS ->
  cur <= alignOffset base cur al < cur + al
  /\ (base + alignOffset base cur al) mod al = 0.
Proof.
  intros Hb Hc Hal Hbound. unfold alignOffset.
  pose proof SIZE_MODULUS_pos as HM.
  rewrite (wrapSize_small (base + cur)) by lia.
  pose proof (Z.mod_pos_bound (base + cur) al Hal) as Hr.
  destruct (Z.eqb_spec ((base + cur) mod al) 0) as [E | E]; simpl.
  - split; [lia | exact E].
  - rewrite (wrapSize_small (al - (base + cur) mod al)) by lia.
    rewrite wrapSize_small by lia.
    split; [lia |].
    replace (base + (cur + (al - (base + cur) mod al)))
      with ((base + cur) + (al - (base + cur) mod al)) by lia.
    apply align_step; assumption.
Qed.

Lemma roundUp_spec (a x : Z) :
  0 < a -> 0 <= x ->
  roundUp a x = (if x mod a =? 0 then x else x + (a - x mod a)).
Proof.
  intros Ha Hx. unfold roundUp.
  pose proof (Z.mod_pos_bound x a Ha) as Hr.
  pose proof (Z.div_mod x a ltac:(lia)) as Hd.
  destruct (Z.eqb_spec (x mod a) 0) as [E | E].
  - replace (x + a - 1) with (a - 1 + (x / a) * a) by lia.
    rewrite Z.div_add by lia. rewrite Z.div_small by lia. lia.
  - replace (x + a - 1) with ((x mod a - 1) + (x / a + 1) * a) by lia.
    rewrite Z.div_add by lia. rewrite Z.div_small by lia. lia.
Qed.

Lemma roundUp_bounds (a x : Z) :
  0 < a -> 0 <= x -> x <= roundUp a x < x + a /\ roundUp a x mod a = 0.
Proof.
  intros Ha Hx. unfold roundUp. split.
  - pose proof (Z.mod_pos_bound (x + a - 1) a Ha) as Hr.
    pose proof (Z.div_mod (x + a - 1) a ltac:(lia)) as Hd. lia.
  - apply Z.mod_mul; lia.
Qed.

(** ** One pass of the layout *)

Lemma budgetOf_nonneg (lowered : bool) (l : list StackAllocation) :
  Forall wellFormed l -> 0 <= budgetOf lowered l.
Proof.
  induction 1 as [| s rest [Hs Ha] _ IH]; simpl; [lia |].
  destruct (Bool.eqb (isLowered s) lowered); lia.
Qed.

Lemma budget_split (l : list StackAllocation) :
  budget l = budgetOf false l + budgetOf true l.
Proof.
  induction l as [| s rest IH]; [reflexivity |].
  unfold budget in *. simpl. rewrite IH. destruct (isLowered s); simpl; lia.
Qed.

Lemma layoutPass_spec (lowered : bool) (base : Z) :
  0 <= base ->
  forall (l : list StackAllocation) (cur : Z),
    0 <= cur -> Forall wellFormed l ->
    base + cur + budgetOf lowered l < SIZE_MODULUS ->
    Forall2 (sameButOffset lowered) l (fst (layoutPass lowered base cur l))
    /\ chained lowered base cur (fst (layoutPass lowered base cur l))
                (snd (layoutPass lowered base cur l))
    /\ snd (layoutPass lowered base cur l) <= cur + budgetOf lowered l.
Proof.
  intros Hb. induction l as [| s rest IH]; intros cur Hc Hwf Hbound.
  - simpl. repeat split; [constructor | lia | lia].
  - inversion Hwf as [| ? ? [Hs Ha] Hrest]; subst.
    pose proof (budgetOf_nonneg lowered rest Hrest) as Hnn.
    simpl in Hbound |- *.
    destruct (Bool.eqb (isLowered s) lowered) eqn:E.
    + destruct (alignOffset_spec base cur (alignment s) Hb Hc Ha ltac:(lia))
        as [[Hlo Hhi] Hal].
      set (aligned := alignOffset base cur (alignment s)) in *.
      assert (Hw : wrapSize (aligned + size s) = aligned + size s)
        by (apply wrapSize_small; lia).
      rewrite Hw.
      specialize (IH (aligned + size s) ltac:(lia) Hrest ltac:(lia)).
      destruct (layoutPass lowered base (aligned + size s) rest) as [rest' final].
      simpl in IH |- *. destruct IH as (IH1 & IH2 & IH3).
      repeat split.
      * constructor; [| exact IH1].
        unfold sameButOffset; simpl. repeat split; try reflexivity.
        intros Hne. apply Bool.eqb_prop in E. contradiction.
      * rewrite E. simpl. repeat split; [lia | exact Hal | exact IH2].
      * lia.
    + specialize (IH cur Hc Hrest ltac:(lia)).
      destruct (layoutPass lowered base cur rest) as [rest' final].
      simpl in IH |- *. destruct IH as (IH1 & IH2 & IH3).
      repeat split.
      * constructor; [| exact IH1].
        unfold sameButOffset. repeat split; reflexivity.
      * rewrite E. exact IH2.
      * lia.
Qed.

(** ** Consequences of [chained] *)

Lemma chained_le (lowered : bool) (base : Z) (l : list StackAllocation) :
  Forall wellFormed l ->
  forall lo hi, chained lowered base lo l hi -> lo <= hi.
Proof.
  induction 1 as [| s rest [Hs Ha] _ IH]; simpl; intros lo hi H; [exact H |].
  destruct (Bool.eqb (isLowered s) lowered).
  - destruct H as (H1 & _ & H3). apply IH in H3. lia.
  - apply IH; exact H.
Qed.

Lemma chained_In (lowered : bool) (base : Z) (l : list StackAllocation) :
  Forall wellFormed l ->
  forall lo hi a,
    chained lowered base lo l hi -> In a l -> isLowered a = lowered ->
    lo <= offset a /\ offset a + size a <= hi
    /\ (base + offset a) mod alignment a = 0.
Proof.
  induction 1 as [| s rest Hwf Hrest IH]; simpl; intros lo hi a H Hin Hl;
    [contradiction |].
  destruct Hwf as [Hs Ha].
  destruct Hin as [-> | Hin].
  - rewrite Hl, Bool.eqb_reflx in H. destruct H as (H1 & H2 & H3).
    apply (chained_le _ _ _ Hrest) in H3. repeat split; [lia | lia | exact H2].
  - destruct (Bool.eqb (isLowered s) lowered).
    + destruct H as (H1 & _ & H3).
      destruct (IH _ _ _ H3 Hin Hl) as (I1 & I2 & I3).
      repeat split; [lia | lia | exact I3].
    + exact (IH _ _ _ H Hin Hl).
Qed.

Lemma chained_ordered (lowered : bool) (base : Z) (l : list StackAllocation) :
  Forall wellFormed l ->
  forall lo hi i j a b,
    chained lowered base lo l hi -> (i < j)%nat ->
    nth_error l i = Some a -> nth_error l j = Some b ->
    isLowered a = lowered -> isLowered b = lowered ->
    offset a + size a <= offset b.
Proof.
  induction 1 as [| s rest Hwf Hrest IH]; intros lo hi i j a b H Hij Hi Hj Ha Hb.
  - destruct i; discriminate.
  - destruct j as [| j]; [lia |]. simpl in Hj.
    destruct i as [| i]; simpl in Hi.
    + injection Hi as ->. simpl in H.
      rewrite Ha, Bool.eqb_reflx in H. destruct H as (_ & _ & H3).
      apply nth_error_In in Hj.
      destruct (chained_In _ _ _ Hrest _ _ _ H3 Hj Hb) as (I1 & _). exact I1.
    + assert (Hij' : (i < j)%nat) by lia.
      simpl in H. destruct (Bool.eqb (isLowered s) lowered).
      * destruct H as (_ & _ & H3).
        exact (IH _ _ _ _ _ _ H3 Hij' Hi Hj Ha Hb).
      * exact (IH _ _ _ _ _ _ H Hij' Hi Hj Ha Hb).
Qed.

Lemma chained_preserved (lowered : bool) (base : Z)
    (l l' : list StackAllocation) :
  Forall2 (sameButOffset (negb lowered)) l l' ->
  forall lo hi, chained lowered base lo l hi -> chained lowered base lo l' hi.
Proof.
  induction 1 as [| a a' rest rest' (_ & _ & _ & Hl & Hsame) _ IH];
    intros lo hi H; [exact H |].
  simpl in H |- *. rewrite Hl.
  destruct (Bool.eqb (isLowered a) lowered) eqn:E.
  - assert (a' = a) as ->.
    { apply Hsame. apply Bool.eqb_prop in E. rewrite E.
      destruct lowered; discriminate. }
    destruct H as (H1 & H2 & H3). repeat split; auto.
  - apply IH; exact H.
Qed.

Lemma sameButOffset_wellFormed (lowered : bool) (l l' : list StackAllocation) :
  Forall2 (sameButOffset lowered) l l' -> Forall wellFormed l -> Forall wellFormed l'.
Proof.
  induction 1 as [| a a' rest rest' (_ & Hs & Ha & _) _ IH]; intros Hwf;
    [constructor |].
  inversion Hwf as [| ? ? [W1 W2] Wrest]; subst.
  constructor; [split; lia | apply IH; exact Wrest].
Qed.

Lemma sameButOffset_budgetOf (lowered flag : bool) (l l' : list StackAllocation) :
  Forall2 (sameButOffset lowered) l l' -> budgetOf flag l' = budgetOf flag l.
Proof.
  induction 1 as [| a a' rest rest' (_ & Hs & Ha & Hl & _) _ IH]; simpl;
    [reflexivity |].
  rewrite Hl, Hs, Ha, IH. reflexivity.
Qed.

Lemma getStackBaseOffset_nonneg (g : Z) (l : list StackAllocation) :
  0 <= g -> 0 <= getStackBaseOffset g l.
Proof.
  intros Hg. unfold getStackBaseOffset, wrapSize.
  pose proof SIZE_MODULUS_pos.
  repeat match goal with
         | |- context [if ?c then _ else _] => destruct c
         end; try assumption; apply Z.mod_pos_bound; assumption.
Qed.

Lemma highestEnd_nonneg (l : list StackAllocation) : 0 <= highestEnd l.
Proof.
  induction l as [| s rest IH]; simpl; [lia |].
  destruct (isLowered s); lia.
Qed.

Lemma highestEnd_upper (l : list StackAllocation) (s : StackAllocation) :
  In s l -> isLowered s = false -> offset s + size s <= highestEnd l.
Proof.
  induction l as [| t rest IH]; simpl; intros Hin Hl; [contradiction |].
  destruct Hin as [-> | Hin].
  - rewrite Hl. lia.
  - specialize (IH Hin Hl). destruct (isLowered t); lia.
Qed.

Lemma findHighest_spec (l : list StackAllocation) :
  Forall endInRange l ->
  forall max : option StackAllocation,
    (forall m, max = Some m ->
               isLowered m = false /\ 0 <= offset m + size m < SIZE_MODULUS) ->
    match findHighest max l with
    | None => max = None /\ forallb isLowered l = true
    | Some r =>
        isLowered r = false
        /\ offset r + size r = Z.max (endOf max) (highestEnd l)
        /\ (max = None -> forallb isLowered l = false)
    end.
Proof.
  induction 1 as [| s rest Hs _ IH]; intros max Hmax.
  - simpl. destruct max as [m |].
    + destruct (Hmax m eq_refl) as [Hl Hr]. simpl.
      repeat split; [exact Hl | lia | discriminate].
    + split; reflexivity.
  - simpl. destruct (isLowered s) eqn:Ls.
    + specialize (IH max Hmax). simpl.
      destruct (findHighest max rest); exact IH.
    + specialize (Hs Ls). simpl.
      assert (Hsome : forall m, Some s = Some m ->
                isLowered m = false /\ 0 <= offset m + size m < SIZE_MODULUS)
        by (intros m [= <-]; split; assumption).
      pose proof (highestEnd_nonneg rest) as Hnn.
      destruct max as [m |].
      * destruct (Hmax m eq_refl) as [Lm Rm].
        rewrite !wrapSize_small by assumption.
        destruct (Z.ltb_spec (offset m + size m) (offset s + size s)) as [C | C].
        -- specialize (IH (Some s) Hsome).
           destruct (findHighest (Some s) rest) as [r |].
           ++ destruct IH as (I1 & I2 & _). simpl in I2 |- *.
              repeat split; first [exact I1 | lia | discriminate].
           ++ destruct IH as [I1 _]. discriminate.
        -- specialize (IH (Some m) Hmax).
           destruct (findHighest (Some m) rest) as [r |].
           ++ destruct IH as (I1 & I2 & _). simpl in I2 |- *.
              repeat split; first [exact I1 | lia | discriminate].
           ++ destruct IH as [I1 _]. discriminate.
      * specialize (IH (Some s) Hsome).
        destruct (findHighest (Some s) rest) as [r |].
        -- destruct IH as (I1 & I2 & _). simpl in I2 |- *.
           repeat split; first [exact I1 | lia | reflexivity].
        -- destruct IH as [I1 _]. discriminate.
Qed.

Lemma largestAlignment_first (first : StackAllocation) (rest : list StackAllocation) :
  0 < alignment first ->
  Forall (fun s => alignment s <= alignment first) (first :: rest) ->
  largestAlignment (first :: rest) = alignment first.
Proof.
  intros Hpos H. inversion H as [| ? ? _ Hrest]; subst. simpl.
  assert (Hle : largestAlignment rest <= alignment first).
  { clear H. induction Hrest as [| s r Hs _ IH]; simpl; lia. }
  lia.
Qed.

Lemma forallb_isLowered_highestEnd (l : list StackAllocation) :
  forallb isLowered l = true -> highestEnd l = 0.
Proof.
  induction l as [| s rest IH]; simpl; [reflexivity |].
  destruct (isLowered s); simpl; [exact IH | discriminate].
Qed.

Lemma sameButOffset_compose (l l1 r : list StackAllocation) :
  Forall2 (sameButOffset false) l l1 ->
  Forall2 (sameButOffset true) l1 r ->
  Forall2 (fun a a' => name a' = name a /\ size a' = size a
                       /\ alignment a' = alignment a /\ isLowered a' = isLowered a)
          l r.
Proof.
  intros S1. revert r. induction S1 as [| a a1 x x1 Ha _ IH]; intros r S2.
  - inversion S2; constructor.
  - inversion S2 as [| ? a2 ? x2 Ha2 Hx2]; subst. constructor; [| apply IH; exact Hx2].
    destruct Ha as (N1 & N2 & N3 & N4 & _), Ha2 as (M1 & M2 & M3 & M4 & _).
    repeat split; congruence.
Qed.

(** C7.  [calculateStackSize] is zero when there is no stack allocation or
    all of them are lowered; otherwise it is the highest [offset + size]
    among the allocations that are not lowered, rounded up to the largest
    alignment present and then to 8 bytes, hence a multiple of 8.  The
    container keeps the allocation with the largest alignment first, sizes
    stay within [std::size_t]. *)
Theorem calculateStackSize_spec :
  forall l : list StackAllocation,
    Forall wellFormed l ->
    Forall (fun s => 0 <= offset s) l ->
    largestAlignmentFirst l ->
    highestEnd l + largestAlignment l + 8 < SIZE_MODULUS ->
    calculateStackSize l =
      (if forallb isLowered l then 0
       else roundUp 8 (roundUp (largestAlignment l) (highestEnd l)))
    /\ calculateStackSize l mod 8 = 0.
Proof.
  intros l Hwf Hoff Hfirst Hbound.
  destruct l as [| first rest]; [split; reflexivity |].
  assert (Hfa : 0 < alignment first)
    by (inversion Hwf as [| ? ? [_ W] _]; exact W).
  rewrite (largestAlignment_first first rest Hfa Hfirst) in *.
  pose proof (highestEnd_nonneg (first :: rest)) as Hnn.
  assert (Hrange : Forall endInRange (first :: rest)).
  { apply Forall_forall. intros s Hin Hl.
    pose proof (highestEnd_upper _ _ Hin Hl) as Hup.
    rewrite Forall_forall in Hwf, Hoff.
    destruct (Hwf s Hin) as [W1 W2]. specialize (Hoff s Hin). simpl in Hoff. lia. }
  pose proof (findHighest_spec _ Hrange None ltac:(discriminate)) as Hspec.
  unfold calculateStackSize.
  destruct (findHighest None (first :: rest)) as [r |].
  - destruct Hspec as (Lr & Er & Hnot). rewrite (Hnot eq_refl), Lr.
    simpl endOf in Er. rewrite Z.max_r in Er by lia. rewrite Er.
    set (h := highestEnd (first :: rest)) in *.
    rewrite (wrapSize_small h) by lia.
    destruct (roundUp_bounds (alignment first) h Hfa Hnn) as [[B1 B2] _].
    assert (E1 : (if negb (h mod alignment first =? 0)
                  then wrapSize (h + wrapSize (alignment first - h mod alignment first))
                  else h) = roundUp (alignment first) h).
    { rewrite (roundUp_spec _ _ Hfa Hnn) in *.
      pose proof (Z.mod_pos_bound h (alignment first) Hfa).
      destruct (h mod alignment first =? 0); cbn [negb]; [reflexivity |].
      rewrite (wrapSize_small (alignment first - _)) by lia.
      apply wrapSize_small; lia. }
    rewrite E1. set (h1 := roundUp (alignment first) h) in *.
    destruct (roundUp_bounds 8 h1 ltac:(lia) ltac:(lia)) as [[C1 C2] C3].
    assert (E2 : (if negb (h1 mod 8 =? 0)
                  then wrapSize (h1 + wrapSize (8 - h1 mod 8)) else h1)
                 = roundUp 8 h1).
    { rewrite (roundUp_spec 8 h1 ltac:(lia) ltac:(lia)) in *.
      pose proof (Z.mod_pos_bound h1 8 ltac:(lia)).
      destruct (h1 mod 8 =? 0); cbn [negb]; [reflexivity |].
      rewrite (wrapSize_small (8 - _)) by lia.
      apply wrapSize_small; lia. }
    rewrite E2. split; [reflexivity | exact C3].
  - destruct Hspec as [_ Hall]. rewrite Hall. split; reflexivity.
Qed.

Lemma calculateStackSize_spec_witness :
  calculateStackSize exampleLaidOut = 32
  /\ (calculateStackSize exampleLaidOut =
        (if forallb isLowered exampleLaidOut then 0
         else roundUp 8 (roundUp (largestAlignment exampleLaidOut)
                                 (highestEnd exampleLaidOut)))
      /\ calculateStackSize exampleLaidOut mod 8 = 0).
Proof.
  split; [reflexivity |].
  apply (calculateStackSize_spec exampleLaidOut).
  - repeat constructor; simpl; lia.
  - repeat constructor; simpl; lia.
  - repeat constructor; simpl; lia.
  - vm_compute; reflexivity.
Defined.

(** C8.  After [calculateStackOffsets] the address ranges
    [offset, offset + size) of any two distinct allocations, lowered or
    not, are disjoint; every allocation sits at a multiple of its alignment
    counted from the stack base; and the made-up offsets of the lowered
    allocations start after the end of every allocation that is really on
    the stack.  Only the offsets change. *)
Theorem calculateStackOffsets_disjoint_aligned :
  forall (globalDataOffset : Z) (l : list StackAllocation),
    0 <= globalDataOffset ->
    Forall wellFormed l ->
    getStackBaseOffset globalDataOffset l + budget l < SIZE_MODULUS ->
    Forall2 (fun a a' => name a' = name a /\ size a' = size a
                         /\ alignment a' = alignment a /\ isLowered a' = isLowered a)
            l (calculateStackOffsets globalDataOffset l)
    /\ (forall i j a b,
          i <> j ->
          nth_error (calculateStackOffsets globalDataOffset l) i = Some a ->
          nth_error (calculateStackOffsets globalDataOffset l) j = Some b ->
          disjointRanges a b)
    /\ (forall a,
          In a (calculateStackOffsets globalDataOffset l) ->
          (getStackBaseOffset globalDataOffset l + offset a) mod alignment a = 0)
    /\ (forall a b,
          In a (calculateStackOffsets globalDataOffset l) ->
          In b (calculateStackOffsets globalDataOffset l) ->
          isLowered a = true -> isLowered b = false ->
          offset b + size b <= offset a).
Proof.
  intros g l Hg Hwf Hbound.
  pose proof (getStackBaseOffset_nonneg g l Hg) as Hb.
  pose proof (budget_split l) as Hsplit.
  pose proof (budgetOf_nonneg false l Hwf) as Hn0.
  pose proof (budgetOf_nonneg true l Hwf) as Hn1.
  unfold calculateStackOffsets.
  set (base := getStackBaseOffset g l) in *.
  destruct (layoutPass_spec false base Hb l 0 ltac:(lia) Hwf ltac:(lia))
    as (S1 & C1 & B1).
  destruct (layoutPass false base 0 l) as [l1 c1]. simpl in S1, C1, B1.
  pose proof (sameButOffset_wellFormed _ _ _ S1 Hwf) as Hwf1.
  pose proof (chained_le _ _ _ Hwf1 _ _ C1) as Hc1.
  pose proof (sameButOffset_budgetOf false true _ _ S1) as Hbud.
  destruct (layoutPass_spec true base Hb l1 c1 Hc1 Hwf1 ltac:(lia))
    as (S2 & C2 & B2).
  set (r := fst (layoutPass true base c1 l1)) in *.
  set (c2 := snd (layoutPass true base c1 l1)) in *.
  pose proof (sameButOffset_wellFormed _ _ _ S2 Hwf1) as Hwf2.
  pose proof (chained_preserved false base l1 r S2 _ _ C1) as C1'.
  split; [| split; [| split]].
  - exact (sameButOffset_compose _ _ _ S1 S2).
  - intros i j a b Hij Hi Hj. unfold disjointRanges.
    pose proof (nth_error_In _ _ Hi) as Ia. pose proof (nth_error_In _ _ Hj) as Ib.
    destruct (isLowered a) eqn:La, (isLowered b) eqn:Lb.
    + destruct (Nat.lt_ge_cases i j) as [Lt | Ge].
      * left. exact (chained_ordered _ _ _ Hwf2 _ _ _ _ _ _ C2 Lt Hi Hj La Lb).
      * right. assert (Lt : (j < i)%nat) by lia.
        exact (chained_ordered _ _ _ Hwf2 _ _ _ _ _ _ C2 Lt Hj Hi Lb La).
    + right.
      destruct (chained_In _ _ _ Hwf2 _ _ _ C2 Ia La) as (A1 & _).
      destruct (chained_In _ _ _ Hwf2 _ _ _ C1' Ib Lb) as (_ & A2 & _). lia.
    + left.
      destruct (chained_In _ _ _ Hwf2 _ _ _ C1' Ia La) as (_ & A2 & _).
      destruct (chained_In _ _ _ Hwf2 _ _ _ C2 Ib Lb) as (A1 & _). lia.
    + destruct (Nat.lt_ge_cases i j) as [Lt | Ge].
      * left. exact (chained_ordered _ _ _ Hwf2 _ _ _ _ _ _ C1' Lt Hi Hj La Lb).
      * right. assert (Lt : (j < i)%nat) by lia.
        exact (chained_ordered _ _ _ Hwf2 _ _ _ _ _ _ C1' Lt Hj Hi Lb La).
  - intros a Ia. destruct (isLowered a) eqn:La.
    + exact (proj2 (proj2 (chained_In _ _ _ Hwf2 _ _ _ C2 Ia La))).
    + exact (proj2 (proj2 (chained_In _ _ _ Hwf2 _ _ _ C1' Ia La))).
  - intros a b Ia Ib La Lb.
    destruct (chained_In _ _ _ Hwf2 _ _ _ C2 Ia La) as (A1 & _).
    destruct (chained_In _ _ _ Hwf2 _ _ _ C1' Ib Lb) as (_ & A2 & _). lia.
Qed.

Lemma calculateStackOffsets_disjoint_aligned_witness :
  map offset (calculateStackOffsets 0 exampleAllocations) = [0; 32; 16]
  /\ (forall i j a b,
        i <> j ->
        nth_error (calculateStackOffsets 0 exampleAllocations) i = Some a ->
        nth_error (calculateStackOffsets 0 exampleAllocations) j = Some b ->
        disjointRanges a b).
Proof.
  split; [reflexivity |].
  apply (calculateStackOffsets_disjoint_aligned 0 exampleAllocations).
  - lia.
  - repeat constructor; simpl; lia.
  - vm_compute; reflexivity.
Defined.

End StackLayoutFacts.

(** ** Method.cpp: the usage range of a local *)

Module MethodCppFacts.

Import IR.
Local Open Scope Z_scope.
Import MethodCpp.

(** ** The scans *)

Lemma erase_In (rem : Users) (key u : nat) :
  In u (snd (erase rem key)) <-> In u rem /\ u <> key.
Proof.
  unfold erase; simpl. rewrite filter_In.
  destruct (Nat.eqb_spec key u); simpl; split; intros [H1 H2]; split;
    try assumption; try congruence; try discriminate.
Qed.

Lemma removeUser_snd (rem : Users) (i : option Instruction) :
  snd (removeUser rem i) = fold_left (fun r k => snd (erase r k)) (keysOf i) rem.
Proof.
  destruct i as [[o | a [o1 |] [o2 |]] |]; reflexivity.
Qed.

Lemma fold_erase_In (keys : list nat) :
  forall (rem : Users) (u : nat),
    In u (fold_left (fun r k => snd (erase r k)) keys rem)
    <-> In u rem /\ ~ In u keys.
Proof.
  induction keys as [| k keys IH]; intros rem u.
  - simpl. tauto.
  - cbn [fold_left]. rewrite IH, erase_In. simpl. intuition congruence.
Qed.

Lemma removeUser_In (rem : Users) (i : option Instruction) (u : nat) :
  In u (snd (removeUser rem i)) <-> In u rem /\ ~ In u (keysOf i).
Proof. rewrite removeUser_snd. apply fold_erase_In. Qed.

Lemma scanBlock_unfold (fuel : nat) (m : Method) (it : Walker) (rem : Users) (r : Z) :
  scanBlock (S fuel) m it rem r =
    if (0 <=? r) && negb (isEndOfMethod m it) then
      match asBranch (get m it) with
      | Some (targets, _) =>
          match scanTargets fuel m targets (snd (removeUser rem (get m it))) (r - 1) with
          | None => None
          | Some (true, r', u) => Some (true, r', u)
          | Some (false, r', u) => scanBlock fuel m (nextInMethod m it) r' u
          end
      | None => scanBlock fuel m (nextInMethod m it)
                          (snd (removeUser rem (get m it))) (r - 1)
      end
    else Some (match rem with [] => true | _ => false end, rem, r).
Proof.
  simpl. destruct ((0 <=? r) && negb (isEndOfMethod m it)); [| reflexivity].
  destruct (asBranch (get m it)) as [[targets unconditional] |]; [| reflexivity].
  match goal with
  | |- match ?a with _ => _ end = match ?b with _ => _ end =>
      replace a with b; [reflexivity |]
  end.
  generalize (snd (removeUser rem (get m it))) (r - 1).
  induction targets as [| t ts IH]; intros rem' r'; [reflexivity |].
  simpl. unfold removeUsagesInBasicBlock.
  destruct (findBasicBlock m t); [| apply IH].
  destruct (scanBlock fuel m (walk n) rem' r') as [[[[] ?] ?] |];
    [reflexivity | apply IH | reflexivity].
Qed.

Lemma visitedWithin_mono (m : Method) (from : Walker) (r r' : Z) (u : nat) :
  r <= r' -> visitedWithin m from r u -> visitedWithin m from r' u.
Proof.
  intros Hle (k & w' & Hk & Hr & Hu). exists k, w'. repeat split; auto; lia.
Qed.

Lemma isEmpty_true (rem : Users) :
  (match rem with [] => true | _ => false end) = true -> rem = [].
Proof. destruct rem; [reflexivity | discriminate]. Qed.

Lemma scanTargets_good (fuel : nat) (m : Method) :
  (forall it rem r res, scanBlock fuel m it rem r = Some res -> goodScan m it rem r res) ->
  forall targets rem r res,
    scanTargets fuel m targets rem r = Some res -> goodTargets m targets rem r res.
Proof.
  intros Hblock. induction targets as [| t ts IH]; intros rem r res H; simpl in H.
  - injection H as <-. simpl. repeat split; [lia | discriminate | auto].
  - destruct (findBasicBlock m t) as [succ |] eqn:Ef.
    + unfold removeUsagesInBasicBlock in H.
      destruct (scanBlock fuel m (walk succ) rem r) as [[[b1 rem1] r1] |] eqn:Es;
        [| discriminate].
      apply Hblock in Es. destruct Es as (G1 & G2 & G3).
      destruct b1.
      * injection H as <-. simpl. repeat split; [exact G1 | exact G2 |].
        intros u Hu. destruct (G3 u Hu) as [? | Hv]; [left; assumption |].
        right. exists t, succ. repeat split; [left; reflexivity | exact Ef | exact Hv].
      * apply IH in H. destruct res as [[b rem'] r']. destruct H as (H1 & H2 & H3).
        simpl. repeat split; [lia | exact H2 |].
        intros u Hu. destruct (G3 u Hu) as [Hin | Hv].
        -- destruct (H3 u Hin) as [? | (t' & s' & T1 & T2 & T3)]; [left; assumption |].
           right. exists t', s'. repeat split; [right; exact T1 | exact T2 |].
           apply (visitedWithin_mono _ _ r1); [lia | exact T3].
        -- right. exists t, succ. repeat split; [left; reflexivity | exact Ef | exact Hv].
    + apply IH in H. destruct res as [[b rem'] r']. destruct H as (H1 & H2 & H3).
      simpl. repeat split; [exact H1 | exact H2 |].
      intros u Hu. destruct (H3 u Hu) as [? | (t' & s' & T1 & T2 & T3)]; [left; assumption |].
      right. exists t', s'. repeat split; [right; exact T1 | exact T2 | exact T3].
Qed.

Lemma visited_here (m : Method) (it : Walker) (r : Z) (u : nat) :
  0 <= r -> isEndOfMethod m it = false -> In u (keysOf (get m it)) ->
  visitedWithin m it r u.
Proof.
  intros Hr He Hu. exists 0%nat, it. repeat split; [simpl; lia | | exact Hu].
  apply reach_here; exact He.
Qed.

Lemma visited_next (m : Method) (it : Walker) (r : Z) (u : nat) :
  isEndOfMethod m it = false ->
  visitedWithin m (nextInMethod m it) (r - 1) u -> visitedWithin m it r u.
Proof.
  intros He (k & w' & Hk & Hr & Hu). exists (S k), w'.
  repeat split; [lia | | exact Hu]. apply reach_next; assumption.
Qed.

Lemma visited_branch (m : Method) (it : Walker) (r : Z) (u : nat)
    (targets : list Local) (unconditional : bool) (target : Local) (successor : nat) :
  isEndOfMethod m it = false ->
  asBranch (get m it) = Some (targets, unconditional) ->
  In target targets -> findBasicBlock m target = Some successor ->
  visitedWithin m (walk successor) (r - 1) u -> visitedWithin m it r u.
Proof.
  intros He Hb Ht Hf (k & w' & Hk & Hr & Hu). exists (S k), w'.
  repeat split; [lia | | exact Hu].
  eapply reach_branch; eassumption.
Qed.

Lemma scanBlock_good (m : Method) (fuel : nat) :
  forall it rem r res, scanBlock fuel m it rem r = Some res -> goodScan m it rem r res.
Proof.
  induction fuel as [| fuel IH]; intros it rem r res H; [discriminate |].
  rewrite scanBlock_unfold in H.
  destruct ((0 <=? r) && negb (isEndOfMethod m it)) eqn:Ec.
  - apply andb_prop in Ec. destruct Ec as [Hr He].
    apply Z.leb_le in Hr. apply negb_true_iff in He.
    assert (Hstep : forall u, In u rem ->
              In u (snd (removeUser rem (get m it))) \/ visitedWithin m it r u).
    { intros u Hu. destruct (in_dec Nat.eq_dec u (keysOf (get m it))) as [Hk | Hk].
      - right. apply visited_here; assumption.
      - left. apply removeUser_In. split; assumption. }
    destruct (asBranch (get m it)) as [[targets unconditional] |] eqn:Eb.
    + destruct (scanTargets fuel m targets (snd (removeUser rem (get m it))) (r - 1))
        as [[[b1 rem1] r1] |] eqn:Et; [| discriminate].
      apply (scanTargets_good fuel m IH) in Et. destruct Et as (T1 & T2 & T3).
      assert (Hafter : forall u, In u rem -> In u rem1 \/ visitedWithin m it r u).
      { intros u Hu. destruct (Hstep u Hu) as [Hin | ?]; [| right; assumption].
        destruct (T3 u Hin) as [? | (t & s' & A1 & A2 & A3)]; [left; assumption |].
        right. eapply visited_branch; eassumption. }
      destruct b1.
      * injection H as <-. simpl. repeat split; [lia | exact T2 | exact Hafter].
      * apply IH in H. destruct res as [[b rem'] r']. destruct H as (H1 & H2 & H3).
        simpl. repeat split; [lia | exact H2 |].
        intros u Hu. destruct (Hafter u Hu) as [Hin | ?]; [| right; assumption].
        destruct (H3 u Hin) as [? | Hv]; [left; assumption |].
        right. apply visited_next; [exact He |].
        apply (visitedWithin_mono _ _ r1); [lia | exact Hv].
    + apply IH in H. destruct res as [[b rem'] r']. destruct H as (H1 & H2 & H3).
      simpl. repeat split; [lia | exact H2 |].
      intros u Hu. destruct (Hstep u Hu) as [Hin | ?]; [| right; assumption].
      destruct (H3 u Hin) as [? | Hv]; [left; assumption |].
      right. apply visited_next; assumption.
  - injection H as <-. simpl. repeat split; [lia | apply isEmpty_true | auto].
Qed.

Lemma scanTargets_total (fuel : nat) (m : Method) :
  (forall it rem r, r + 2 <= Z.of_nat fuel ->
                    exists res, scanBlock fuel m it rem r = Some res) ->
  forall targets rem r,
    r + 2 <= Z.of_nat fuel ->
    exists res, scanTargets fuel m targets rem r = Some res.
Proof.
  intros Hblock. induction targets as [| t ts IH]; intros rem r Hr; simpl.
  - eexists; reflexivity.
  - destruct (findBasicBlock m t) as [succ |]; [| apply IH; exact Hr].
    unfold removeUsagesInBasicBlock.
    destruct (Hblock (walk succ) rem r Hr) as [[[b1 rem1] r1] Es]. rewrite Es.
    apply scanBlock_good in Es. destruct Es as (G1 & _).
    destruct b1; [eexists; reflexivity | apply IH; lia].
Qed.

Lemma scanBlock_total (m : Method) (fuel : nat) :
  forall it rem r,
    (1 <= fuel)%nat -> r + 2 <= Z.of_nat fuel ->
    exists res, scanBlock fuel m it rem r = Some res.
Proof.
  induction fuel as [| fuel IH]; intros it rem r H1 Hr; [lia |].
  rewrite scanBlock_unfold.
  destruct ((0 <=? r) && negb (isEndOfMethod m it)) eqn:Ec; [| eexists; reflexivity].
  apply andb_prop in Ec. destruct Ec as [H0 _]. apply Z.leb_le in H0.
  assert (Hf : (1 <= fuel)%nat) by lia.
  assert (IH' : forall it rem r, r + 2 <= Z.of_nat fuel ->
                  exists res, scanBlock fuel m it rem r = Some res)
    by (intros; apply IH; assumption).
  destruct (asBranch (get m it)) as [[targets unconditional] |].
  - destruct (scanTargets_total fuel m IH' targets
                (snd (removeUser rem (get m it))) (r - 1) ltac:(lia))
      as [[[b1 rem1] r1] Et].
    rewrite Et. apply (scanTargets_good fuel m (scanBlock_good m fuel)) in Et.
    destruct Et as (T1 & _).
    destruct b1; [eexists; reflexivity | apply IH'; lia].
  - apply IH'; lia.
Qed.

Lemma limitedLoop_total (m : Method) (fuel : nat) :
  forall it rem r,
    (1 <= fuel)%nat -> r + 2 <= Z.of_nat fuel ->
    exists b, limitedLoop fuel m it rem r = Some b.
Proof.
  induction fuel as [| fuel IH]; intros it rem r H1 Hr; [lia |].
  simpl.
  destruct ((0 <=? r) && negb (isEndOfMethod m it)) eqn:Ec; [| eexists; reflexivity].
  apply andb_prop in Ec. destruct Ec as [H0 _]. apply Z.leb_le in H0.
  assert (Hf : (1 <= fuel)%nat) by lia.
  destruct (asBranch (get m it)) as [[targets unconditional] |].
  - destruct (scanTargets_total fuel m
                (fun it rem r Hr => scanBlock_total m fuel it rem r Hf Hr) targets
                (snd (removeUser rem (get m it))) (r - 1) ltac:(lia))
      as [[[b1 rem1] r1] Et].
    rewrite Et. apply (scanTargets_good fuel m (scanBlock_good m fuel)) in Et.
    destruct Et as (T1 & _).
    destruct b1; [eexists; reflexivity |].
    destruct unconditional; [eexists; reflexivity | apply IH; lia].
  - apply IH; lia.
Qed.

(** ** The scan and its budget *)

Lemma visitBlock_unfold (fuel : nat) (m : Method) (it : Walker) (budget : nat) :
  visitBlock (S fuel) m it (S budget) =
    if isEndOfMethod m it then []
    else
      let viaTargets :=
        match asBranch (get m it) with
        | Some (targets, _) => visitTargets fuel m targets budget
        | None => []
        end in
      it :: viaTargets
         ++ visitBlock fuel m (nextInMethod m it) (budget - List.length viaTargets)%nat.
Proof.
  cbn [visitBlock]. destruct (isEndOfMethod m it); [reflexivity |].
  assert (E : forall targets b,
            (fix forTargets (targets : list Local) (budget : nat) : list Walker :=
               match targets with
               | [] => []
               | target :: targets' =>
                   match findBasicBlock m target with
                   | Some successor =>
                       let visited := visitBlock fuel m (walk successor) budget in
                       visited ++ forTargets targets' (budget - List.length visited)%nat
                   | None => forTargets targets' budget
                   end
               end) targets b
            = visitTargets fuel m targets b).
  { induction targets as [| t ts IH]; intros b; [reflexivity |].
    cbn [visitTargets]. destruct (findBasicBlock m t); [| apply IH].
    cbv zeta. rewrite IH. reflexivity. }
  cbv zeta. destruct (asBranch (get m it)) as [[targets u] |]; [| reflexivity].
  rewrite E. reflexivity.
Qed.

Lemma visitBlock_zero (fuel : nat) (m : Method) (it : Walker) :
  visitBlock fuel m it 0 = [].
Proof. destruct fuel; reflexivity. Qed.

Lemma visitTargets_zero (fuel : nat) (m : Method) (targets : list Local) :
  visitTargets fuel m targets 0 = [].
Proof.
  induction targets as [| t ts IH]; [reflexivity |].
  cbn [visitTargets]. destruct (findBasicBlock m t); [| exact IH].
  cbv zeta. rewrite visitBlock_zero. cbn [List.length app Nat.sub]. exact IH.
Qed.

Lemma visitTargets_length (fuel : nat) (m : Method) :
  (forall it budget, (List.length (visitBlock fuel m it budget) <= budget)%nat) ->
  forall targets budget,
    (List.length (visitTargets fuel m targets budget) <= budget)%nat.
Proof.
  intros Hblock. induction targets as [| t ts IH]; intros budget; cbn [visitTargets].
  - cbn. lia.
  - destruct (findBasicBlock m t) as [s |]; [| apply IH].
    cbv zeta. rewrite length_app.
    pose proof (Hblock (walk s) budget) as H1.
    pose proof (IH (budget - List.length (visitBlock fuel m (walk s) budget))%nat) as H2.
    lia.
Qed.

Lemma visitBlock_length (m : Method) (fuel : nat) :
  forall it budget, (List.length (visitBlock fuel m it budget) <= budget)%nat.
Proof.
  induction fuel as [| fuel IH]; intros it budget; [cbn; lia |].
  destruct budget as [| budget]; [cbn; lia |].
  rewrite visitBlock_unfold. destruct (isEndOfMethod m it); [cbn; lia |].
  cbv zeta. cbn [List.length]. rewrite length_app.
  set (T := match asBranch (get m it) with
            | Some (targets, _) => visitTargets fuel m targets budget
            | None => []
            end).
  assert (HT : (List.length T <= budget)%nat).
  { subst T. destruct (asBranch (get m it)) as [[targets u] |]; [| cbn; lia].
    apply visitTargets_length. exact IH. }
  pose proof (IH (nextInMethod m it) (budget - List.length T)%nat). lia.
Qed.

(** ** The users and the instructions visited *)

Lemma visitedIn_nil (m : Method) (u : nat) : ~ visitedIn m [] u.
Proof. intros (w & [] & _). Qed.

Lemma visitedIn_cons (m : Method) (w : Walker) (ws : list Walker) (u : nat) :
  visitedIn m (w :: ws) u <-> In u (keysOf (get m w)) \/ visitedIn m ws u.
Proof.
  split.
  - intros (w' & [<- | Hin] & Hk); [left; exact Hk | right; exists w'; split; assumption].
  - intros [Hk | (w' & Hin & Hk)].
    + exists w. split; [left; reflexivity | exact Hk].
    + exists w'. split; [right; exact Hin | exact Hk].
Qed.

Lemma visitedIn_app (m : Method) (a b : list Walker) (u : nat) :
  visitedIn m (a ++ b) u <-> visitedIn m a u \/ visitedIn m b u.
Proof.
  split.
  - intros (w & Hin & Hk). apply in_app_or in Hin.
    destruct Hin as [Hin | Hin]; [left | right]; exists w; split; assumption.
  - intros [(w & Hin & Hk) | (w & Hin & Hk)]; exists w;
      (split; [apply in_or_app; auto | exact Hk]).
Qed.

Lemma visitedIn_dec (m : Method) (ws : list Walker) (u : nat) :
  visitedIn m ws u \/ ~ visitedIn m ws u.
Proof.
  induction ws as [| w ws IH]; [right; apply visitedIn_nil |].
  rewrite visitedIn_cons.
  destruct (in_dec Nat.eq_dec u (keysOf (get m w))) as [Hk | Hk]; [left; left; exact Hk |].
  destruct IH as [H | H]; [left; right; exact H | right; tauto].
Qed.

Lemma isEmpty_false (rem : Users) :
  (match rem with [] => true | _ => false end) = false -> rem <> [].
Proof. destruct rem; [discriminate | discriminate]. Qed.

Lemma nonempty_In (rem : Users) : rem <> [] -> exists u, In u rem.
Proof. destruct rem as [| u rem]; [congruence | exists u; left; reflexivity]. Qed.

Lemma all_visited_nil (rem : Users) :
  (forall u, ~ In u rem) -> rem = [].
Proof. destruct rem as [| u rem]; [reflexivity | intros H; destruct (H u); left; reflexivity]. Qed.

(** ** The loops visit what the budget allows *)

Lemma budget_next (r : Z) (n : nat) :
  Z.to_nat (r - Z.of_nat n + 1) = (Z.to_nat (r + 1) - n)%nat.
Proof. lia. Qed.

Lemma scanTargets_exact (fuel : nat) (m : Method) :
  (forall it rem r res,
      scanBlock fuel m it rem r = Some res ->
      exactScan m (visitBlock fuel m it (Z.to_nat (r + 1))) rem r res) ->
  forall targets rem r res,
    scanTargets fuel m targets rem r = Some res ->
    exactTargets m targets (visitTargets fuel m targets (Z.to_nat (r + 1))) rem r res.
Proof.
  intros Hblock. induction targets as [| t ts IH]; intros rem r res H;
    cbn [scanTargets visitTargets] in *.
  - injection H as <-. cbn. split; [| split; [| split]].
    + intros u. split; [intros Hu; split; [exact Hu | apply visitedIn_nil] | tauto].
    + discriminate.
    + intros _. lia.
    + intros _ [Hne | (t & s & [] & _)]. exact Hne.
  - destruct (findBasicBlock m t) as [succ |] eqn:Ef.
    + unfold removeUsagesInBasicBlock in H. cbv zeta.
      destruct (scanBlock fuel m (walk succ) rem r) as [[[b1 rem1] r1] |] eqn:Es;
        [| discriminate].
      apply Hblock in Es. destruct Es as (G1 & G2 & G3).
      set (V1 := visitBlock fuel m (walk succ) (Z.to_nat (r + 1))) in *.
      destruct b1.
      * injection H as <-. symmetry in G2. apply isEmpty_true in G2. subst rem1.
        cbn. split; [| split; [| split]]; try discriminate; [| reflexivity].
        intros u. split; [intros [] |].
        intros [Hu Hn]. apply Hn. apply visitedIn_app. left.
        destruct (visitedIn_dec m V1 u) as [Hv | Hv]; [exact Hv |].
        exfalso. apply (proj2 (G1 u)). split; assumption.
      * specialize (G3 eq_refl). subst r1.
        apply IH in H. rewrite budget_next in H.
        destruct res as [[b rem'] r']. destruct H as (H1 & H2 & H3 & H4).
        cbn. split; [| split; [| split]].
        -- intros u. rewrite H1, G1, visitedIn_app. tauto.
        -- exact H2.
        -- intros Hb. rewrite (H3 Hb), length_app. lia.
        -- intros Hb _. apply (H4 Hb). left. apply isEmpty_false. symmetry. exact G2.
    + apply IH in H. destruct res as [[b rem'] r']. destruct H as (H1 & H2 & H3 & H4).
      cbn. split; [exact H1 | split; [exact H2 | split; [exact H3 |]]].
      intros Hb [Hne | (t' & s' & [<- | Hin] & Hf)].
      * apply (H4 Hb). left; exact Hne.
      * congruence.
      * apply (H4 Hb). right. exists t', s'. split; assumption.
Qed.

Lemma scanBlock_exact (m : Method) (fuel : nat) :
  forall it rem r res,
    scanBlock fuel m it rem r = Some res ->
    exactScan m (visitBlock fuel m it (Z.to_nat (r + 1))) rem r res.
Proof.
  induction fuel as [| fuel IH]; intros it rem r res H; [discriminate |].
  rewrite scanBlock_unfold in H.
  destruct ((0 <=? r) && negb (isEndOfMethod m it)) eqn:Ec.
  - apply andb_prop in Ec. destruct Ec as [Hr He].
    apply Z.leb_le in Hr. apply negb_true_iff in He.
    replace (Z.to_nat (r + 1)) with (S (Z.to_nat r)) by lia.
    rewrite visitBlock_unfold, He. cbv zeta.
    set (rem0 := snd (removeUser rem (get m it))) in *.
    assert (H0 : forall u, In u rem0 <-> In u rem /\ ~ In u (keysOf (get m it)))
      by (intros u; apply removeUser_In).
    replace (Z.to_nat r) with (Z.to_nat (r - 1 + 1)) by lia.
    destruct (asBranch (get m it)) as [[targets unconditional] |] eqn:Eb.
    + destruct (scanTargets fuel m targets rem0 (r - 1)) as [[[b1 rem1] r1] |] eqn:Et;
        [| discriminate].
      apply (scanTargets_exact fuel m IH) in Et.
      set (T := visitTargets fuel m targets (Z.to_nat (r - 1 + 1))) in *.
      destruct Et as (T1 & T2 & T3 & T4).
      destruct b1.
      * injection H as <-. rewrite (T2 eq_refl) in *. cbn.
        split; [| split; [reflexivity | discriminate]].
        intros u. split; [intros [] |].
        intros [Hu Hn]. apply Hn. apply visitedIn_cons.
        destruct (in_dec Nat.eq_dec u (keysOf (get m it))) as [Hk | Hk]; [left; exact Hk |].
        right. apply visitedIn_app. left.
        destruct (visitedIn_dec m T u) as [Hv | Hv]; [exact Hv |].
        exfalso. apply (proj2 (T1 u)). split; [apply H0; split; assumption | exact Hv].
      * specialize (T3 eq_refl). subst r1.
        apply IH in H. rewrite budget_next in H.
        destruct res as [[b rem'] r']. destruct H as (H1 & H2 & H3).
        cbn [exactScan]. split; [| split].
        -- intros u. rewrite H1, T1, H0, visitedIn_cons, visitedIn_app. tauto.
        -- exact H2.
        -- intros Hb. rewrite (H3 Hb). cbn [List.length]. rewrite length_app. lia.
    + apply IH in H. cbn [List.length app Nat.sub] in *. rewrite Nat.sub_0_r.
      destruct res as [[b rem'] r']. destruct H as (H1 & H2 & H3).
      cbn [exactScan]. split; [| split].
      * intros u. rewrite H1, H0, visitedIn_cons. tauto.
      * exact H2.
      * intros Hb. rewrite (H3 Hb). cbn [List.length]. lia.
  - injection H as <-.
    assert (EV : visitBlock (S fuel) m it (Z.to_nat (r + 1)) = []).
    { apply andb_false_iff in Ec. destruct Ec as [Hr | He].
      - apply Z.leb_gt in Hr. replace (Z.to_nat (r + 1)) with 0%nat by lia. reflexivity.
      - apply negb_false_iff in He. destruct (Z.to_nat (r + 1)); [reflexivity |].
        rewrite visitBlock_unfold, He. reflexivity. }
    rewrite EV. cbn. split; [| split; [reflexivity | intros _; lia]].
    intros u. split; [intros Hu; split; [exact Hu | apply visitedIn_nil] | tauto].
Qed.

Lemma limitedLoop_exact (m : Method) (fuel : nat) :
  forall it rem r b,
    limitedLoop fuel m it rem r = Some b ->
    (b = true ->
     forall u, In u rem -> visitedIn m (visitMain fuel m it (Z.to_nat (r + 1))) u)
    /\ (branchesResolve m ->
        (forall u, In u rem -> visitedIn m (visitMain fuel m it (Z.to_nat (r + 1))) u) ->
        b = true).
Proof.
  induction fuel as [| fuel IH]; intros it rem r b H; [discriminate |].
  cbn [limitedLoop] in H.
  destruct ((0 <=? r) && negb (isEndOfMethod m it)) eqn:Ec.
  - apply andb_prop in Ec. destruct Ec as [Hr He].
    apply Z.leb_le in Hr. apply negb_true_iff in He.
    replace (Z.to_nat (r + 1)) with (S (Z.to_nat r)) by lia.
    cbn [visitMain]. rewrite He.
    set (rem0 := snd (removeUser rem (get m it))) in *.
    assert (H0 : forall u, In u rem0 <-> In u rem /\ ~ In u (keysOf (get m it)))
      by (intros u; apply removeUser_In).
    replace (Z.to_nat r) with (Z.to_nat (r - 1 + 1)) by lia.
    destruct (asBranch (get m it)) as [[targets unconditional] |] eqn:Eb.
    + destruct (scanTargets fuel m targets rem0 (r - 1)) as [[[b1 rem1] r1] |] eqn:Et;
        [| discriminate].
      apply (scanTargets_exact fuel m (scanBlock_exact m fuel)) in Et.
      set (T := visitTargets fuel m targets (Z.to_nat (r - 1 + 1))) in *.
      destruct Et as (T1 & T2 & T3 & T4).
      assert (Hkept : forall u, In u rem -> ~ In u (keysOf (get m it)) ->
                                ~ visitedIn m T u -> In u rem1).
      { intros u Hu Hk Hv. apply T1. split; [apply H0; split; assumption | exact Hv]. }
      destruct b1.
      * injection H as <-. rewrite (T2 eq_refl) in *.
        split; [| intros _ _; reflexivity].
        intros _ u Hu. apply visitedIn_cons.
        destruct (in_dec Nat.eq_dec u (keysOf (get m it))) as [Hk | Hk]; [left; exact Hk |].
        right. apply visitedIn_app. left.
        destruct (visitedIn_dec m T u) as [Hv | Hv]; [exact Hv |].
        destruct (Hkept u Hu Hk Hv).
      * specialize (T3 eq_refl). subst r1. destruct unconditional.
        -- injection H as <-. split; [discriminate |].
           intros Hres Hall. exfalso.
           assert (Hne : rem1 <> []) by (apply (T4 eq_refl); right; exact (Hres _ _ Eb)).
           destruct (nonempty_In _ Hne) as [u Hu1].
           apply T1 in Hu1. destruct Hu1 as [Hu0 Hv]. apply H0 in Hu0.
           destruct Hu0 as [Hu Hk].
           specialize (Hall u Hu). rewrite app_nil_r in Hall.
           apply visitedIn_cons in Hall. tauto.
        -- apply IH in H. rewrite budget_next in H. destruct H as [S1 S2]. split.
           ++ intros Hb u Hu. apply visitedIn_cons.
              destruct (in_dec Nat.eq_dec u (keysOf (get m it))) as [Hk | Hk];
                [left; exact Hk | right].
              apply visitedIn_app.
              destruct (visitedIn_dec m T u) as [Hv | Hv]; [left; exact Hv | right].
              apply (S1 Hb). exact (Hkept u Hu Hk Hv).
           ++ intros Hres Hall. apply (S2 Hres). intros u Hu1.
              apply T1 in Hu1. destruct Hu1 as [Hu0 Hv]. apply H0 in Hu0.
              destruct Hu0 as [Hu Hk]. specialize (Hall u Hu).
              apply visitedIn_cons in Hall. rewrite visitedIn_app in Hall. tauto.
    + apply IH in H. destruct H as [S1 S2]. split.
      * intros Hb u Hu. apply visitedIn_cons.
        destruct (in_dec Nat.eq_dec u (keysOf (get m it))) as [Hk | Hk];
          [left; exact Hk | right].
        apply (S1 Hb). apply H0. split; assumption.
      * intros Hres Hall. apply (S2 Hres). intros u Hu0. apply H0 in Hu0.
        destruct Hu0 as [Hu Hk]. specialize (Hall u Hu).
        apply visitedIn_cons in Hall. tauto.
  - injection H as <-.
    assert (EV : visitMain (S fuel) m it (Z.to_nat (r + 1)) = []).
    { apply andb_false_iff in Ec. destruct Ec as [Hr | He].
      - apply Z.leb_gt in Hr. replace (Z.to_nat (r + 1)) with 0%nat by lia. reflexivity.
      - apply negb_false_iff in He. destruct (Z.to_nat (r + 1)); [reflexivity |].
        cbn [visitMain]. rewrite He. reflexivity. }
    rewrite EV. split.
    + intros Hb u Hu. apply isEmpty_true in Hb. subst rem. destruct Hu.
    + intros _ Hall. rewrite (all_visited_nil rem); [reflexivity |].
      intros u Hu. exact (visitedIn_nil m u (Hall u Hu)).
Qed.

(** ** The budget takes the first instructions in depth-first order *)

Lemma visitTargets_depthFirst (fuel depth : nat) (m : Method) (most : nat) :
  (forall it k, (k <= most)%nat ->
                visitBlock fuel m it k = firstn k (depthFirst depth m it)) ->
  forall targets k,
    (k <= most)%nat ->
    visitTargets fuel m targets k
    = firstn k (flat_map (fun target =>
                            match findBasicBlock m target with
                            | Some successor => depthFirst depth m (walk successor)
                            | None => []
                            end)
                         targets).
Proof.
  intros Hblock. induction targets as [| t ts IH]; intros k Hk;
    cbn [visitTargets flat_map].
  - rewrite firstn_nil. reflexivity.
  - destruct (findBasicBlock m t) as [s |]; [| apply IH; exact Hk].
    cbv zeta. rewrite firstn_app, (Hblock _ _ Hk). f_equal.
    rewrite length_firstn.
    replace (k - Nat.min k (List.length (depthFirst depth m (walk s))))%nat
      with (k - List.length (depthFirst depth m (walk s)))%nat by lia.
    apply IH. lia.
Qed.

Lemma visitBlock_depthFirst (m : Method) (fuel : nat) :
  forall depth it k,
    (k <= fuel)%nat -> (k <= depth)%nat ->
    visitBlock fuel m it k = firstn k (depthFirst depth m it).
Proof.
  induction fuel as [| fuel IH]; intros depth it k Hf Hd.
  - replace k with 0%nat by lia. reflexivity.
  - destruct k as [| k]; [rewrite visitBlock_zero; reflexivity |].
    destruct depth as [| depth]; [lia |].
    rewrite visitBlock_unfold. cbn [depthFirst].
    destruct (isEndOfMethod m it); [reflexivity |].
    cbv zeta. cbn [firstn]. f_equal. rewrite firstn_app.
    assert (Hblock : forall it k', (k' <= k)%nat ->
              visitBlock fuel m it k' = firstn k' (depthFirst depth m it))
      by (intros it' k' Hk'; apply IH; lia).
    destruct (asBranch (get m it)) as [[targets u] |].
    + rewrite (visitTargets_depthFirst fuel depth m k Hblock targets k (Nat.le_refl _)).
      f_equal. rewrite length_firstn.
      match goal with
      | |- context [Nat.min k (List.length ?l)] =>
          replace (k - Nat.min k (List.length l))%nat with (k - List.length l)%nat by lia
      end.
      apply IH; lia.
    + rewrite firstn_nil. cbn [app List.length]. rewrite !Nat.sub_0_r. apply IH; lia.
Qed.

Lemma visitMain_mainLine (m : Method) (fuel : nat) :
  forall depth it k,
    (k <= fuel)%nat -> (k <= depth)%nat ->
    visitMain fuel m it k = firstn k (mainLine depth m it).
Proof.
  induction fuel as [| fuel IH]; intros depth it k Hf Hd.
  - replace k with 0%nat by lia. reflexivity.
  - destruct k as [| k]; [reflexivity |].
    destruct depth as [| depth]; [lia |].
    cbn [visitMain mainLine].
    destruct (isEndOfMethod m it); [reflexivity |].
    assert (Hblock : forall it k', (k' <= k)%nat ->
              visitBlock fuel m it k' = firstn k' (depthFirst depth m it))
      by (intros it' k' Hk'; apply visitBlock_depthFirst; lia).
    destruct (asBranch (get m it)) as [[targets u] |].
    + cbv zeta. cbn [firstn]. f_equal. rewrite firstn_app.
      rewrite (visitTargets_depthFirst fuel depth m k Hblock targets k (Nat.le_refl _)).
      f_equal. rewrite length_firstn.
      match goal with
      | |- context [Nat.min k (List.length ?l)] =>
          replace (k - Nat.min k (List.length l))%nat with (k - List.length l)%nat by lia
      end.
      destruct u; [rewrite firstn_nil; reflexivity | apply IH; lia].
    + cbn [app firstn]. f_equal. apply IH; lia.
Qed.

(** ** The instructions scanned are near *)

Lemma depthFirst_reach (m : Method) (depth : nat) :
  forall it w, In w (depthFirst depth m it) ->
               exists k, (k < depth)%nat /\ reach m it k w.
Proof.
  induction depth as [| depth IH]; intros it w H; [destruct H |].
  cbn [depthFirst] in H. destruct (isEndOfMethod m it) eqn:He; [destruct H |].
  destruct H as [<- | H]; [exists 0%nat; split; [lia | apply reach_here; exact He] |].
  apply in_app_or in H. destruct H as [H | H].
  - destruct (asBranch (get m it)) as [[targets u] |] eqn:Eb; [| destruct H].
    apply in_flat_map in H. destruct H as (target & Ht & H).
    destruct (findBasicBlock m target) as [s |] eqn:Ef; [| destruct H].
    destruct (IH _ _ H) as (k & Hk & Hr). exists (S k). split; [lia |].
    eapply reach_branch; eassumption.
  - destruct (IH _ _ H) as (k & Hk & Hr). exists (S k). split; [lia |].
    apply reach_next; assumption.
Qed.

Lemma mainLine_reach (m : Method) (depth : nat) :
  forall it w, In w (mainLine depth m it) ->
               exists k, (k < depth)%nat /\ reach m it k w.
Proof.
  induction depth as [| depth IH]; intros it w H; [destruct H |].
  cbn [mainLine] in H. destruct (isEndOfMethod m it) eqn:He; [destruct H |].
  destruct H as [<- | H]; [exists 0%nat; split; [lia | apply reach_here; exact He] |].
  apply in_app_or in H. destruct H as [H | H].
  - destruct (asBranch (get m it)) as [[targets u] |] eqn:Eb; [| destruct H].
    apply in_flat_map in H. destruct H as (target & Ht & H).
    destruct (findBasicBlock m target) as [s |] eqn:Ef; [| destruct H].
    destruct (depthFirst_reach _ _ _ _ H) as (k & Hk & Hr). exists (S k). split; [lia |].
    eapply reach_branch; eassumption.
  - assert (Hn : In w (mainLine depth m (nextInMethod m it))).
    { destruct (asBranch (get m it)) as [[targets [|]] |]; [destruct H | exact H | exact H]. }
    destruct (IH _ _ Hn) as (k & Hk & Hr). exists (S k). split; [lia |].
    apply reach_next; assumption.
Qed.

(** C1, as stated, fails.  In [usedBefore] the only use of [x] from the
    cursor on is one step away, yet the answer is [false], because the write
    of [x] two instructions before the cursor is a user as well. *)
Lemma isLocallyLimited_not_iff :
  isLocallyLimited usedBefore {| wblock := 0; wpos := 3 |} (plainLocal "x") 10
    = Some false
  /\ usesWithinThreshold usedBefore {| wblock := 0; wpos := 3 |} (plainLocal "x") 10.
Proof.
  split; [vm_compute; reflexivity |].
  intros u w Hu Hk Hafter. simpl in Hu.
  destruct Hu as [<- | [<- | []]].
  - exfalso. destruct w as [[| b] p]; unfold atOrAfter in Hafter; simpl in Hafter.
    + do 5 (destruct p as [| p]; [simpl in Hk; intuition (try discriminate; try lia) |]).
      simpl in Hk. destruct p; exact Hk.
    + destruct b; exact Hk.
  - exists 1%nat, {| wblock := 0; wpos := 4 |}. repeat split.
    + simpl; lia.
    + apply reach_next; [reflexivity |]. apply reach_here. reflexivity.
    + simpl. left; reflexivity.
Qed.

(** The scan answers through a branch target: in [viaTarget] the use of [x]
    is in the block the branch at the cursor jumps to, two steps away; a
    threshold of 1 does not reach it.  In [branchFirst] the scan of the
    target block takes the whole budget of a threshold of 3, so that the use
    right behind the branch is not reached. *)
Lemma isLocallyLimited_follows_targets :
  (scanOrder viaTarget {| wblock := 0; wpos := 1 |} 2
   = [ {| wblock := 0; wpos := 1 |}; {| wblock := 1; wpos := 0 |};
       {| wblock := 1; wpos := 1 |} ]
   /\ isLocallyLimited viaTarget {| wblock := 0; wpos := 1 |} (plainLocal "x") 2
      = Some true
   /\ isLocallyLimited viaTarget {| wblock := 0; wpos := 1 |} (plainLocal "x") 1
      = Some false)
  /\ (scanOrder branchFirst {| wblock := 0; wpos := 1 |} 3
      = [ {| wblock := 0; wpos := 1 |}; {| wblock := 1; wpos := 0 |};
          {| wblock := 1; wpos := 1 |}; {| wblock := 1; wpos := 2 |} ]
      /\ isLocallyLimited branchFirst {| wblock := 0; wpos := 1 |} (plainLocal "x") 3
         = Some false).
Proof. repeat split; vm_compute; reflexivity. Qed.

(** C1, amended.  [isLocallyLimited] always answers.  When it answers
    [true], every user of the local, wherever it is in the method, is the
    instruction right before the cursor in its block or one of the
    instructions scanned: the first [threshold + 1] instructions from the
    cursor on in depth-first order, where a branch is followed by the
    blocks of its target labels, each scanned in the same way to the end of
    the method, before the scan goes on behind the branch, and where on the
    line of the cursor nothing follows an unconditional branch but its
    targets.  In a method whose unconditional branches have a target label
    with a block, it answers [true] exactly then.  Every instruction scanned
    is at most [threshold] steps away from the cursor, a step going to the
    next instruction or from a branch to the first instruction of a target
    block. *)
Theorem isLocallyLimited_scan :
  forall (m : Method) (curIt : Walker) (locale : Local) (threshold : Z),
    (exists b, isLocallyLimited m curIt locale threshold = Some b)
    /\ (isLocallyLimited m curIt locale threshold = Some true ->
        forall u, In u (getUsers m locale) ->
          isPrevious m curIt u \/ scanned m curIt threshold u)
    /\ (branchesResolve m ->
        (isLocallyLimited m curIt locale threshold = Some true <->
         forall u, In u (getUsers m locale) ->
           isPrevious m curIt u \/ scanned m curIt threshold u))
    /\ (forall w, In w (scanOrder m curIt threshold) ->
                  exists k, Z.of_nat k <= toInt32 threshold /\ reach m curIt k w)
    /\ (List.length (scanOrder m curIt threshold) <= budgetOf threshold)%nat.
Proof.
  intros m curIt locale threshold.
  assert (Htotal : exists b, isLocallyLimited m curIt locale threshold = Some b)
    by (apply limitedLoop_total; unfold fuelFor; lia).
  unfold scanned, scanOrder, budgetOf.
  unfold isLocallyLimited in *.
  set (r := toInt32 threshold) in *.
  set (rem := if negb (isStartOfBlock curIt)
              then snd (removeUser (getUsers m locale) (get m (previousInBlock curIt)))
              else getUsers m locale) in *.
  assert (Hrem : forall u, In u (getUsers m locale) ->
                   isPrevious m curIt u \/ In u rem).
  { intros u Hu. subst rem. unfold isPrevious.
    destruct (isStartOfBlock curIt); simpl; [right; exact Hu |].
    destruct (in_dec Nat.eq_dec u (keysOf (get m (previousInBlock curIt)))) as [Hk | Hk].
    - left. split; [reflexivity | exact Hk].
    - right. apply removeUser_In. split; assumption. }
  assert (Hrem' : forall u, In u rem ->
                    In u (getUsers m locale) /\ ~ isPrevious m curIt u).
  { intros u Hu. subst rem. unfold isPrevious.
    destruct (isStartOfBlock curIt); simpl in Hu.
    - split; [exact Hu | intros [? _]; discriminate].
    - apply removeUser_In in Hu. destruct Hu as [H1 H2].
      split; [exact H1 | intros [_ ?]; contradiction]. }
  assert (EV : visitMain (S (fuelFor r)) m curIt (Z.to_nat (r + 1))
               = firstn (Z.to_nat (r + 1)) (mainLine (Z.to_nat (r + 1)) m curIt))
    by (apply visitMain_mainLine; unfold fuelFor; lia).
  destruct Htotal as [b Hb]. rewrite Hb.
  destruct (limitedLoop_exact _ _ _ _ _ _ Hb) as [Hsound Hcomplete].
  rewrite EV in Hsound, Hcomplete.
  assert (S1 : Some b = Some true ->
               forall u, In u (getUsers m locale) ->
                 isPrevious m curIt u
                 \/ visitedIn m (firstn (Z.to_nat (r + 1))
                                        (mainLine (Z.to_nat (r + 1)) m curIt)) u).
  { intros [= ->] u Hu. destruct (Hrem u Hu) as [Hp | Hin]; [left; exact Hp | right].
    exact (Hsound eq_refl u Hin). }
  split; [exists b; reflexivity |].
  split; [exact S1 |].
  split; [| split].
  - intros Hres. split; [exact S1 |].
    intros Hall. f_equal. apply (Hcomplete Hres). intros u Hu.
    destruct (Hrem' u Hu) as [H1 H2].
    destruct (Hall u H1) as [? | ?]; [contradiction | assumption].
  - intros w Hw.
    assert (Hin : In w (mainLine (Z.to_nat (r + 1)) m curIt)).
    { rewrite <- (firstn_skipn (Z.to_nat (r + 1)) (mainLine _ m curIt)).
      apply in_or_app. left. exact Hw. }
    destruct (mainLine_reach _ _ _ _ Hin) as (k & Hk & Hr).
    exists k. split; [lia | exact Hr].
  - rewrite length_firstn. lia.
Qed.

Lemma isLocallyLimited_scan_witness :
  branchesResolve viaTarget
  /\ (isLocallyLimited viaTarget {| wblock := 0; wpos := 1 |} (plainLocal "x") 2
      = Some true <->
      forall u, In u (getUsers viaTarget (plainLocal "x")) ->
        isPrevious viaTarget {| wblock := 0; wpos := 1 |} u
        \/ scanned viaTarget {| wblock := 0; wpos := 1 |} 2 u).
Proof.
  assert (R : branchesResolve viaTarget).
  { intros [b p] targets H.
    destruct b as [| [| b]]; destruct p as [| [| p]]; cbn in H; try discriminate;
      try (destruct p; discriminate); try (destruct b; discriminate).
    injection H as <-. exists (labelLocal "L1"), 1%nat.
    split; [left; reflexivity | reflexivity]. }
  split; [exact R |].
  destruct (isLocallyLimited_scan viaTarget {| wblock := 0; wpos := 1 |}
              (plainLocal "x") 2) as (_ & _ & H & _).
  exact (H R).
Defined.

End MethodCppFacts.

(** ** Method.cpp: removing a block *)

Module BlockRemovalFacts.

Import IR.
Import BlockRemoval.

Lemma filter_length_pos {A : Type} (f : A -> bool) (l : list A) :
  Nat.ltb 0 (List.length (filter f l)) = existsb f l.
Proof.
  induction l as [| a l IH]; simpl; [reflexivity |].
  destruct (f a); simpl; [reflexivity | exact IH].
Qed.

Lemma existsb_flat_map_filter (l : Local) (bs : list BasicBlock) :
  existsb (branchesTo l)
          (flat_map (fun bb => filter (branchesTo l) (instructions bb)) bs)
  = existsb (fun bb => existsb (branchesTo l) (instructions bb)) bs.
Proof.
  induction bs as [| bb bs IH]; simpl; [reflexivity |].
  rewrite existsb_app, IH. f_equal.
  induction (instructions bb) as [| i rest IHi]; simpl; [reflexivity |].
  destruct (branchesTo l i) eqn:E; simpl; [rewrite E; reflexivity | exact IHi].
Qed.

Lemma previousBlock_In (bs : list BasicBlock) (blockAddr : nat) :
  forall previous prev,
    previousBlock previous bs blockAddr = Some prev ->
    previous = Some prev \/ In prev bs.
Proof.
  induction bs as [| bb bs IH]; simpl; intros previous prev H; [discriminate |].
  destruct (Nat.eqb (blockAddress bb) blockAddr).
  - left; exact H.
  - apply IH in H. destruct H as [[= ->] | H]; right; [left; reflexivity | right; exact H].
Qed.

Lemma last_In_or_default {A : Type} (l : list A) (d : A) :
  last l d = d \/ In (last l d) l.
Proof.
  induction l as [| a l IH]; [left; reflexivity |].
  destruct l as [| b l]; [right; left; reflexivity |].
  change (last (a :: b :: l) d) with (last (b :: l) d).
  destruct IH as [E | I]; [left; exact E | right; right; exact I].
Qed.

Lemma countExplicitJumps_pos (fallsThrough : BasicBlock -> bool)
    (m : Method) (block : BasicBlock) :
  Nat.ltb 0 (countExplicitJumps fallsThrough m block) = explicitlyBranchedTo m block.
Proof.
  unfold countExplicitJumps, explicitlyBranchedTo, forPredecessors.
  destruct (blockLabel block) as [l |]; [| reflexivity].
  rewrite filter_length_pos, existsb_app, existsb_flat_map_filter.
  destruct (existsb (fun bb => existsb (branchesTo l) (instructions bb)) (basicBlocks m))
    eqn:E; [reflexivity |].
  simpl.
  destruct (previousBlock None (basicBlocks m) (blockAddress block)) as [prev |] eqn:Ep;
    [| reflexivity].
  destruct (fallsThrough prev); [| reflexivity].
  simpl. rewrite orb_false_r.
  destruct (branchesTo l (last (instructions prev) None)) eqn:Eb; [| reflexivity].
  exfalso.
  apply previousBlock_In in Ep. destruct Ep as [Ep | Ep]; [discriminate |].
  destruct (last_In_or_default (instructions prev) None) as [El | Il].
  - rewrite El in Eb. discriminate.
  - assert (existsb (fun bb => existsb (branchesTo l) (instructions bb)) (basicBlocks m)
            = true); [| congruence].
    apply existsb_exists. exists prev. split; [exact Ep |].
    apply existsb_exists. eexists. split; [exact Il | exact Eb].
Qed.

Lemma eraseBlock_Some (bs : list BasicBlock) (blockAddr : nat) :
  forall bs', eraseBlock bs blockAddr = Some bs' -> withoutBlock bs bs' blockAddr.
Proof.
  induction bs as [| bb bs IH]; simpl; intros bs' H; [discriminate |].
  destruct (Nat.eqb_spec (blockAddress bb) blockAddr) as [E | E].
  - injection H as <-. exists [], bb, bs. repeat split; [exact E | constructor].
  - destruct (eraseBlock bs blockAddr) as [rest' |]; [| discriminate].
    injection H as <-.
    destruct (IH rest' eq_refl) as (before & b & after & H1 & H2 & H3 & H4).
    exists (bb :: before), b, after. subst. repeat split. constructor; assumption.
Qed.

Lemma eraseBlock_belongs (m : Method) (block : BasicBlock) :
  belongsTo m block = true <->
  exists bs', eraseBlock (basicBlocks m) (blockAddress block) = Some bs'.
Proof.
  unfold belongsTo. induction (basicBlocks m) as [| bb bs IH]; simpl.
  - split; [discriminate | intros [? ?]; discriminate].
  - destruct (Nat.eqb (blockAddress bb) (blockAddress block)); simpl.
    + split; [eexists; reflexivity | reflexivity].
    + rewrite IH. destruct (eraseBlock bs (blockAddress block)).
      * split; eexists; reflexivity.
      * split; intros [? ?]; discriminate.
Qed.

(** C9.  Without the override flag, [removeBlock] returns [false] and
    leaves the method as it is whenever the block is not empty or some
    instruction explicitly branches to its label.  It returns [true] only
    when neither is the case and the block belongs to the method, and then
    the method has lost exactly that block; and in that case it does
    return [true]. *)
Theorem removeBlock_refuses_used_block :
  forall (fallsThrough : BasicBlock -> bool) (m : Method) (block : BasicBlock),
    (empty block = false \/ explicitlyBranchedTo m block = true ->
     removeBlock fallsThrough m block false = (false, m))
    /\ (forall m',
          removeBlock fallsThrough m block false = (true, m') ->
          empty block = true /\ explicitlyBranchedTo m block = false
          /\ belongsTo m block = true
          /\ withoutBlock (basicBlocks m) (basicBlocks m') (blockAddress block)
          /\ metaData m' = metaData m)
    /\ (empty block = true -> explicitlyBranchedTo m block = false ->
        belongsTo m block = true ->
        exists m', removeBlock fallsThrough m block false = (true, m')).
Proof.
  intros ft m block. unfold removeBlock.
  rewrite countExplicitJumps_pos. simpl.
  split; [| split].
  - intros [H | H]; rewrite H; simpl; [reflexivity |].
    destruct (negb (empty block)); reflexivity.
  - intros m' H.
    destruct (empty block); simpl in H; [| discriminate].
    destruct (explicitlyBranchedTo m block); [discriminate |].
    destruct (eraseBlock (basicBlocks m) (blockAddress block)) as [bs |] eqn:E;
      [| discriminate].
    injection H as <-. repeat split.
    + apply eraseBlock_belongs. exists bs. exact E.
    + apply eraseBlock_Some. exact E.
  - intros H1 H2 H3. rewrite H1, H2. simpl.
    apply eraseBlock_belongs in H3. destruct H3 as [bs ->].
    eexists; reflexivity.
Qed.

Lemma removeBlock_refuses_used_block_witness :
  removeBlock (fun _ => true) threeBlocks
    {| blockAddress := 101; instructions := [ label 2 (labelLocal "L1") ] |} false
  = (false, threeBlocks).
Proof.
  apply (proj1 (removeBlock_refuses_used_block (fun _ => true) threeBlocks
           {| blockAddress := 101; instructions := [ label 2 (labelLocal "L1") ] |})).
  right. reflexivity.
Defined.

End BlockRemovalFacts.

(** ** normalization/MemoryAccess.cpp: cross work-item dependencies *)

Module MemoryAccessFacts.

Import IR.
Local Open Scope Z_scope.
Import MemoryAccess.

Lemma boundsAfter_app (b : Bounds) (x y : list (Z * Z)) :
  boundsAfter b (x ++ y) = boundsAfter (boundsAfter b x) y.
Proof. unfold boundsAfter; simpl. rewrite !fold_left_app. reflexivity. Qed.

Lemma fold_min_from (l : list (Z * Z)) :
  forall init, init <= UINT_MAX ->
    fold_left (fun m fw => Z.min m (fst fw)) l init
    = Z.min init (fold_right Z.min UINT_MAX (map fst l)).
Proof.
  induction l as [| x l IH]; intros init Hi; simpl; [lia |].
  rewrite IH by lia. lia.
Qed.

Lemma fold_max_from (l : list (Z * Z)) :
  forall init, 0 <= init ->
    fold_left (fun m fw => Z.max m (snd fw)) l init
    = Z.max init (fold_right Z.max 0 (map snd l)).
Proof.
  induction l as [| x l IH]; intros init Hi; simpl; [lia |].
  rewrite IH by lia. lia.
Qed.

Lemma boundsAfter_initial (a : Analysis) :
  boundsAfter (UINT_MAX, 0) (concat a) = (minFactorOf a, maxWidthOf a).
Proof.
  unfold boundsAfter, minFactorOf, maxWidthOf; simpl.
  rewrite fold_min_from by lia. rewrite fold_max_from by lia.
  assert (H1 : fold_right Z.min UINT_MAX (map fst (concat a)) <= UINT_MAX)
    by (induction (map fst (concat a)); simpl; lia).
  assert (H2 : 0 <= fold_right Z.max 0 (map snd (concat a)))
    by (induction (map snd (concat a)); simpl; lia).
  f_equal; lia.
Qed.

(** ** The lambda and the relation *)

Lemma checkPart_derived (range : MemoryAccessRange) (part : AddressPart) (f w : Z)
    (b : Bounds) :
  derivedFromId range part f w ->
  checkPart range part b = Some (true, boundsAfter b [(f, w)]).
Proof.
  destruct b as [mn mx].
  intros H;
    inversion H as [writer deco Hid
                   | e deco mem c factor width Hid Hm Hc Hmul Hx Hs Hl Hf Hw];
    subst; unfold checkPart, boundsAfter; simpl.
  - rewrite Hid. reflexivity.
  - rewrite Hid, Hm, Hc, Hmul. simpl. rewrite Hl.
    assert (Ex : Bool.eqb (operandIsId (arg0 e)) (operandIsId (arg1 e)) = false)
      by (destruct (operandIsId (arg0 e)), (operandIsId (arg1 e)); simpl; congruence).
    rewrite Ex. simpl. rewrite Hf. unfold touchedWidth in Hw.
    destruct (op mem); try discriminate; injection Hw as <-; reflexivity.
Qed.

Lemma checkPart_true (range : MemoryAccessRange) (part : AddressPart) (b b' : Bounds) :
  plainPart part = true ->
  checkPart range part b = Some (true, b') ->
  exists f w, derivedFromId range part f w.
Proof.
  destruct b as [mn mx], part as [writer deco]. unfold checkPart, plainPart; simpl.
  intros Hplain.
  destruct (checkIdDecoration deco) eqn:Hid.
  - intros _. eexists _, _. apply identity_itself. exact Hid.
  - destruct (addressWrite range) as [mem |] eqn:Hm; [| discriminate].
    destruct writer as [e |]; [| discriminate].
    destruct (hasConstantOperand e) eqn:Hc; [| discriminate].
    destruct (isMultiplication (code e)) eqn:Hmul; [| discriminate]. simpl.
    destruct (constantArgOf e) as [c |] eqn:Hl; [| discriminate].
    destruct (Bool.eqb (operandIsId (arg0 e)) (operandIsId (arg1 e))) eqn:Ex;
      [discriminate |]. simpl.
    assert (Hx : operandIsId (arg0 e) <> operandIsId (arg1 e))
      by (intros E; rewrite E, Bool.eqb_reflx in Ex; discriminate).
    assert (Hs : isShift (code e) = true -> operandIsId (arg0 e) = true).
    { intros Hshift. unfold shiftsConstant in Hplain. rewrite Hshift in Hplain.
      destruct (operandIsId (arg0 e)), (operandIsId (arg1 e));
        try reflexivity; [simpl in Hplain; discriminate | congruence]. }
    destruct (factorOf (code e) c) as [factor |] eqn:Hf; [| discriminate].
    destruct (touchedWidth mem) as [width |] eqn:Hw.
    + intros _. exists factor, width.
      eapply identity_times_constant; eassumption.
    + unfold touchedWidth in Hw. destruct (op mem); discriminate.
Qed.

Lemma parts_analysed (range : MemoryAccessRange) :
  forall parts fws,
    Forall2 (fun part fw => derivedFromId range part (fst fw) (snd fw)) parts fws ->
    forall b, all_of (checkPart range) parts b = Some (true, boundsAfter b fws).
Proof.
  induction 1 as [| part [f w] parts fws Hd _ IH]; intros b.
  - destruct b; reflexivity.
  - cbn [all_of]. rewrite (checkPart_derived _ _ _ _ b Hd).
    rewrite IH. change ((f, w) :: fws) with ([(f, w)] ++ fws).
    rewrite boundsAfter_app. reflexivity.
Qed.

Lemma parts_true (range : MemoryAccessRange) :
  forall parts b b',
    forallb plainPart parts = true ->
    all_of (checkPart range) parts b = Some (true, b') ->
    exists fws,
      Forall2 (fun part fw => derivedFromId range part (fst fw) (snd fw)) parts fws.
Proof.
  induction parts as [| part parts IH]; intros b b' Hplain H.
  - exists []. constructor.
  - cbn [all_of] in H. cbn [forallb] in Hplain.
    apply andb_prop in Hplain. destruct Hplain as [Hp Hplain].
    destruct (checkPart range part b) as [[[] b1] |] eqn:E; try discriminate.
    destruct (checkPart_true _ _ _ _ Hp E) as (f & w & Hd).
    destruct (IH _ _ Hplain H) as [fws Hf].
    exists ((f, w) :: fws). constructor; assumption.
Qed.

Lemma ranges_analysed (rs : list MemoryAccessRange) (a : Analysis) :
  analysed rs a ->
  forall b, all_of hasOnlyAddressesDerivateOfLocalId rs b
            = Some (true, boundsAfter b (concat a)).
Proof.
  induction 1 as [| range fws rs a [Hne Hd] _ IH]; intros b.
  - destruct b; reflexivity.
  - cbn [all_of]. unfold hasOnlyAddressesDerivateOfLocalId at 1.
    destruct (dynamicAddressParts range) as [| p ps] eqn:Ep; [congruence |].
    rewrite (parts_analysed range _ _ Hd b).
    rewrite IH. simpl concat. rewrite boundsAfter_app. reflexivity.
Qed.

Lemma ranges_true (rs : list MemoryAccessRange) :
  forall b b',
    forallb (fun range => forallb plainPart (dynamicAddressParts range)) rs = true ->
    all_of hasOnlyAddressesDerivateOfLocalId rs b = Some (true, b') ->
    exists a, analysed rs a.
Proof.
  induction rs as [| range rs IH]; intros b b' Hplain H.
  - exists []. constructor.
  - cbn [all_of] in H. cbn [forallb] in Hplain.
    apply andb_prop in Hplain. destruct Hplain as [Hp Hplain].
    destruct (hasOnlyAddressesDerivateOfLocalId range b) as [[[] b1] |] eqn:E;
      try discriminate.
    unfold hasOnlyAddressesDerivateOfLocalId in E.
    destruct (dynamicAddressParts range) as [| p ps] eqn:Ep; [discriminate |].
    destruct (parts_true _ _ _ _ Hp E) as [fws Hf].
    destruct (IH _ _ Hplain H) as [a Ha].
    exists (fws :: a). constructor; [| exact Ha].
    split; [rewrite Ep; discriminate | rewrite Ep; exact Hf].
Qed.

Lemma checkPart_defined (range : MemoryAccessRange) (part : AddressPart) (b : Bounds) :
  definedPart part = true -> exists r, checkPart range part b = Some r.
Proof.
  destruct b as [mn mx], part as [writer deco]. unfold checkPart, definedPart; simpl.
  intros Hd.
  destruct (checkIdDecoration deco); [eexists; reflexivity |].
  destruct (addressWrite range) as [mem |]; [| eexists; reflexivity].
  destruct writer as [e |]; [| eexists; reflexivity].
  destruct (hasConstantOperand e && isMultiplication (code e)); [| eexists; reflexivity].
  unfold shiftsTooFar in Hd.
  destruct (constantArgOf e) as [c |]; [| eexists; reflexivity].
  destruct (factorOf (code e) c) as [factor |]; [| discriminate].
  destruct (Bool.eqb (operandIsId (arg0 e)) (operandIsId (arg1 e)));
    [eexists; reflexivity |].
  destruct (op mem); eexists; reflexivity.
Qed.

Lemma parts_defined (range : MemoryAccessRange) :
  forall parts b,
    forallb definedPart parts = true ->
    exists r, all_of (checkPart range) parts b = Some r.
Proof.
  induction parts as [| part parts IH]; intros b Hd; [eexists; reflexivity |].
  cbn [all_of]. cbn [forallb] in Hd. apply andb_prop in Hd. destruct Hd as [Hp Hd].
  destruct (checkPart_defined range part b Hp) as [[ok b1] ->].
  destruct ok; [apply IH; exact Hd | eexists; reflexivity].
Qed.

Lemma ranges_defined (rs : list MemoryAccessRange) :
  forall b,
    forallb (fun range => forallb definedPart (dynamicAddressParts range)) rs = true ->
    exists r, all_of hasOnlyAddressesDerivateOfLocalId rs b = Some r.
Proof.
  induction rs as [| range rs IH]; intros b Hd; [eexists; reflexivity |].
  cbn [all_of]. cbn [forallb] in Hd. apply andb_prop in Hd. destruct Hd as [Hp Hd].
  assert (Hr : exists r, hasOnlyAddressesDerivateOfLocalId range b = Some r).
  { unfold hasOnlyAddressesDerivateOfLocalId.
    destruct (dynamicAddressParts range) as [| p ps] eqn:Ep; [eexists; reflexivity |].
    apply parts_defined. exact Hp. }
  destruct Hr as [[ok b1] ->].
  destruct ok; [apply IH; exact Hd | eexists; reflexivity].
Qed.

(** C2, as stated, fails.  A read-only parameter kept in memory accessed
    through the VPM is hazard-free although no address expression is
    recorded for it; so is an object whose list of access ranges is empty. *)
Lemma crossItemDependency_not_iff :
  (isSharedReadWrite RAM_READ_WRITE_VPM = true
   /\ mayHaveCrossWorkItemMemoryDependency readOnlyBuffer
        {| accessType := RAM_READ_WRITE_VPM; ranges := None |} = Some false
   /\ hasRecordedExpression {| accessType := RAM_READ_WRITE_VPM; ranges := None |}
      = false)
  /\ (mayHaveCrossWorkItemMemoryDependency buffer
        {| accessType := RAM_READ_WRITE_VPM; ranges := Some [] |} = Some false
      /\ hasRecordedExpression {| accessType := RAM_READ_WRITE_VPM; ranges := Some [] |}
         = false).
Proof. repeat split. Qed.

(** C2, amended.  A constant global, a read-only parameter and an object
    whose classification is load-only, register-resident or per-QPU
    scratchpad are hazard-free.  When no recorded expression shifts a
    constant by an identity value, an object is classified hazard-free
    exactly when it is one of these, or access ranges are recorded for it,
    each of them with at least one dynamic address expression, every
    expression is an identity value, or an identity value times a constant
    or shifted left by a constant below 32 in a read or a write, and the
    largest width touched does not exceed the smallest factor; an identity
    value itself counts with the vector width of the object as factor and
    as width.  The function returns when no recorded expression shifts by
    32 bits or more.  So [global_id * 4] and [global_id << 2] with width 4
    are hazard-free, with width 8 they are hazardous, and so are missing
    ranges and an expression that cannot be analysed. *)
Theorem crossItemDependency_spec :
  forall (memoryObject : Local) (info : MemoryInfo),
    (isConstantMemory memoryObject = true \/ isSharedReadWrite (accessType info) = false ->
     mayHaveCrossWorkItemMemoryDependency memoryObject info = Some false)
    /\ (noShiftedConstant info = true ->
        (mayHaveCrossWorkItemMemoryDependency memoryObject info = Some false <->
         isConstantMemory memoryObject = true
         \/ isSharedReadWrite (accessType info) = false
         \/ exists rs a,
              ranges info = Some rs /\ analysed rs a /\ maxWidthOf a <= minFactorOf a))
    /\ (definedShifts info = true ->
        exists b, mayHaveCrossWorkItemMemoryDependency memoryObject info = Some b)
    /\ mayHaveCrossWorkItemMemoryDependency buffer (writtenAtGlobalIdTimes4 4) = Some false
    /\ mayHaveCrossWorkItemMemoryDependency buffer (writtenAtGlobalIdTimes4 8) = Some true
    /\ mayHaveCrossWorkItemMemoryDependency buffer (writtenAtGlobalIdShifted 2 4)
       = Some false
    /\ mayHaveCrossWorkItemMemoryDependency buffer (writtenAtGlobalIdShifted 2 8)
       = Some true
    /\ mayHaveCrossWorkItemMemoryDependency buffer
         {| accessType := accessType info; ranges := None |}
       = Some (isSharedReadWrite (accessType info))
    /\ mayHaveCrossWorkItemMemoryDependency buffer unanalysable = Some true.
Proof.
  intros obj info.
  assert (Hfree : isConstantMemory obj = true \/ isSharedReadWrite (accessType info) = false ->
                  mayHaveCrossWorkItemMemoryDependency obj info = Some false).
  { unfold mayHaveCrossWorkItemMemoryDependency. intros [H | H].
    - rewrite H. reflexivity.
    - destruct (isConstantMemory obj); [reflexivity |].
      destruct (accessType info); try discriminate H; reflexivity. }
  split; [exact Hfree |].
  split; [| split; [| repeat split; destruct (accessType info); reflexivity]].
  - intros Hplain. split.
    + intros H.
      destruct (isConstantMemory obj) eqn:Ec; [left; reflexivity |].
      destruct (isSharedReadWrite (accessType info)) eqn:Es; [| right; left; reflexivity].
      right; right. unfold mayHaveCrossWorkItemMemoryDependency in H. rewrite Ec in H.
      unfold noShiftedConstant, everyPart in Hplain.
      destruct (ranges info) as [rs |];
        [| destruct (accessType info); discriminate].
      destruct (all_of hasOnlyAddressesDerivateOfLocalId rs (UINT_MAX, 0))
        as [[ok [mn mx]] |] eqn:Ea;
        [| destruct (accessType info); discriminate].
      assert (Hok : ok && (mx <=? mn) = true).
      { destruct (ok && (mx <=? mn)); [reflexivity |].
        destruct (accessType info); discriminate. }
      apply andb_prop in Hok. destruct Hok as [-> Hle]. apply Z.leb_le in Hle.
      destruct (ranges_true _ _ _ Hplain Ea) as [a Ha].
      exists rs, a. repeat split; [exact Ha |].
      rewrite (ranges_analysed _ _ Ha), boundsAfter_initial in Ea.
      injection Ea as <- <-. exact Hle.
    + intros [H | [H | (rs & a & Hrs & Ha & Hle)]];
        [apply Hfree; left; exact H | apply Hfree; right; exact H |].
      unfold mayHaveCrossWorkItemMemoryDependency.
      rewrite Hrs, (ranges_analysed _ _ Ha), boundsAfter_initial.
      apply Z.leb_le in Hle. rewrite Hle.
      destruct (isConstantMemory obj); [reflexivity |].
      destruct (accessType info); reflexivity.
  - intros Hdef. unfold mayHaveCrossWorkItemMemoryDependency.
    destruct (isConstantMemory obj); [eexists; reflexivity |].
    unfold definedShifts, everyPart in Hdef.
    destruct (ranges info) as [rs |];
      [| destruct (accessType info); eexists; reflexivity].
    destruct (ranges_defined rs (UINT_MAX, 0) Hdef) as [[ok [mn mx]] ->].
    destruct (accessType info); eexists; reflexivity.
Qed.

Lemma crossItemDependency_spec_witness :
  noShiftedConstant (writtenAtGlobalIdShifted 2 4) = true
  /\ (mayHaveCrossWorkItemMemoryDependency buffer (writtenAtGlobalIdShifted 2 4)
      = Some false <->
      isConstantMemory buffer = true
      \/ isSharedReadWrite (accessType (writtenAtGlobalIdShifted 2 4)) = false
      \/ exists rs a,
           ranges (writtenAtGlobalIdShifted 2 4) = Some rs
           /\ analysed rs a /\ maxWidthOf a <= minFactorOf a).
Proof.
  split; [reflexivity |].
  destruct (crossItemDependency_spec buffer (writtenAtGlobalIdShifted 2 4))
    as (_ & H & _).
  exact (H eq_refl).
Defined.

End MemoryAccessFacts.

(** ** optimization/Eliminator.cpp: constant folding *)

Module ConstantFoldingFacts.

Import IR.
Local Open Scope Z_scope.
Import ConstantFolding.

Lemma wrap32_range (z : Z) : 0 <= wrap32 z < 2 ^ 32.
Proof. unfold wrap32. apply Z.mod_pos_bound. lia. Qed.

Lemma land_range (a b : Z) :
  0 <= a < 2 ^ 32 -> 0 <= b < 2 ^ 32 -> 0 <= Z.land a b < 2 ^ 32.
Proof.
  intros Ha Hb. split; [apply Z.land_nonneg; lia |].
  destruct (Z.eq_dec (Z.land a b) 0) as [-> | Hne]; [lia |].
  apply Z.log2_lt_pow2; [pose proof (Z.land_nonneg a b); lia |].
  destruct (Z.eq_dec a 0) as [-> | Ha0]; [rewrite Z.land_0_l in Hne; contradiction |].
  destruct (Z.eq_dec b 0) as [-> | Hb0]; [rewrite Z.land_0_r in Hne; contradiction |].
  pose proof (Z.log2_land a b ltac:(lia) ltac:(lia)) as H.
  assert (Z.log2 a < 32) by (apply Z.log2_lt_pow2; lia).
  lia.
Qed.

Lemma lor_range (a b : Z) :
  0 <= a < 2 ^ 32 -> 0 <= b < 2 ^ 32 -> 0 <= Z.lor a b < 2 ^ 32.
Proof.
  intros Ha Hb. split; [apply Z.lor_nonneg; lia |].
  destruct (Z.eq_dec (Z.lor a b) 0) as [-> | Hne]; [lia |].
  apply Z.log2_lt_pow2; [pose proof (proj2 (Z.lor_nonneg a b)); lia |].
  rewrite Z.log2_lor by lia.
  destruct (Z.eq_dec a 0) as [-> | Ha0]; destruct (Z.eq_dec b 0) as [-> | Hb0];
    try (rewrite Z.lor_0_l in Hne); try (rewrite Z.lor_0_r in Hne); try contradiction.
  - cbn. apply Z.max_lub_lt; [lia | apply Z.log2_lt_pow2; lia].
  - cbn. apply Z.max_lub_lt; [apply Z.log2_lt_pow2; lia | lia].
  - apply Z.max_lub_lt; apply Z.log2_lt_pow2; lia.
Qed.

Lemma lxor_range (a b : Z) :
  0 <= a < 2 ^ 32 -> 0 <= b < 2 ^ 32 -> 0 <= Z.lxor a b < 2 ^ 32.
Proof.
  intros Ha Hb. split; [apply Z.lxor_nonneg; lia |].
  destruct (Z.eq_dec (Z.lxor a b) 0) as [-> | Hne]; [lia |].
  apply Z.log2_lt_pow2; [pose proof (proj2 (Z.lxor_nonneg a b)); lia |].
  pose proof (Z.log2_lxor a b ltac:(lia) ltac:(lia)) as H.
  assert (Z.max (Z.log2 a) (Z.log2 b) < 32).
  { apply Z.max_lub_lt.
    - destruct (Z.eq_dec a 0) as [-> | ?]; [cbn; lia | apply Z.log2_lt_pow2; lia].
    - destruct (Z.eq_dec b 0) as [-> | ?]; [cbn; lia | apply Z.log2_lt_pow2; lia]. }
  lia.
Qed.

(** The commutative and associative op-codes give a 32-bit value on every
    pair of literals, whatever the order of the two. *)
Lemma evaluate_commutative (evaluateOther : OpCode -> Z -> option Z -> option Z)
    (code : OpCode) (a b : Z) :
  commutativeAssociative code = true ->
  exists v, evaluate evaluateOther code a (Some b) = Some v
            /\ 0 <= v < 2 ^ 32
            /\ evaluate evaluateOther code b (Some a) = Some v.
Proof.
  pose proof (wrap32_range a) as Ha. pose proof (wrap32_range b) as Hb.
  destruct code; try discriminate; intros _; cbn [evaluate]; eexists;
    (split; [reflexivity | split]).
  - apply land_range; assumption.
  - rewrite Z.land_comm. reflexivity.
  - apply lor_range; assumption.
  - rewrite Z.lor_comm. reflexivity.
  - apply lxor_range; assumption.
  - rewrite Z.lxor_comm. reflexivity.
  - apply wrap32_range.
  - rewrite Z.add_comm. reflexivity.
  - apply wrap32_range.
  - rewrite Z.mul_comm. reflexivity.
Qed.

(** C6, as stated, fails: the unconditional self-XOR [xor out, 5, 5] is not
    left unchanged, it is folded to a move of 0. *)
Lemma foldConstants_folds_self_xor :
  isSelfXor xorExample = true
  /\ foldConstants literalOf (precalculateLiterals literalOf notEvaluated)
                   (Some (Single xorExample))
     = Cursor (Some (Single (moveWithExtras (ref (plainLocal "out"))
                                            (LiteralValue 0) xorExample)))
  /\ Cursor (Some (Single (moveWithExtras (ref (plainLocal "out"))
                                          (LiteralValue 0) xorExample)))
     <> Cursor (Some (Single xorExample)).
Proof. repeat split. discriminate. Qed.

(** C6, amended.  An operation that sets no flags, has no pack or unpack
    mode, writes an output and whose operands resolve to the literals [x]
    and [y] is left unchanged when it is a conditionally executed self-XOR
    or carries the constant-load decoration; otherwise (an unconditional
    self-XOR included) it is replaced by a move, to the same output, of
    the literal that evaluating the op-code on [x] and [y] gives, and left
    unchanged when the evaluation gives none.  A commutative and
    associative op-code gives a 32-bit literal on every pair of literals,
    the same in either order: [and out, 0xFF, 0x0F] becomes a move of
    0x0F. *)
Theorem foldConstants_spec :
  forall (constantLiteral : Value -> option Z)
         (evaluateOther : OpCode -> Z -> option Z -> option Z)
         (op : Op) (code : OpCode) (out : Value) (x : Z) (y : option Z),
    kind op = Operation code ->
    setFlags op = false -> packMode op = false -> unpackMode op = false ->
    output op = Some out ->
    literalOperands constantLiteral op = Some (x, y) ->
    foldConstants constantLiteral (precalculateLiterals constantLiteral evaluateOther)
                  (Some (Single op))
    = (if (conditionalExecution op && isSelfXor op) || CONSTANT_LOAD (decoration op)
       then Cursor (Some (Single op))
       else match evaluate evaluateOther code x y with
            | Some v => Cursor (Some (Single (moveWithExtras out (LiteralValue v) op)))
            | None => Cursor (Some (Single op))
            end)
    /\ (commutativeAssociative code = true ->
        forall b, y = Some b ->
          exists v, evaluate evaluateOther code x y = Some v
                    /\ 0 <= v < 2 ^ 32
                    /\ evaluate evaluateOther code b (Some x) = Some v).
Proof.
  intros cl other op code out x y Hk Hf Hp Hu Hout Hlit.
  split; [| intros Hca b ->; apply evaluate_commutative; exact Hca].
  unfold foldConstants, precalculateLiterals, isSelfXor.
  rewrite Hlit, Hk, Hf, Hp, Hu, Hout. cbn [negb andb].
  unfold literalOperands in Hlit.
  destruct (arguments op) as [| firstArg others]; [discriminate |].
  destruct (cl firstArg) as [x' |]; [| discriminate].
  assert (H2 : match hd_error others with
               | None => true
               | Some second => match cl second with Some _ => true | None => false end
               end = true).
  { destruct (hd_error others) as [second |]; [| reflexivity].
    destruct (cl second); [reflexivity | discriminate]. }
  rewrite H2. cbn [andb].
  destruct (conditionalExecution op
            && OpCode_eqb code OP_XOR && sameAsFirst (hd_error others) firstArg) eqn:E.
  - rewrite <- andb_assoc in E. rewrite E. reflexivity.
  - rewrite <- andb_assoc in E. rewrite E. cbn [orb].
    destruct (CONSTANT_LOAD (decoration op)); [reflexivity |].
    destruct (evaluate other code x y); reflexivity.
Qed.

Lemma foldConstants_spec_witness :
  foldConstants literalOf (precalculateLiterals literalOf notEvaluated)
                (Some (Single andExample))
  = Cursor (Some (Single (moveWithExtras (ref (plainLocal "out"))
                                         (LiteralValue 15) andExample)))
  /\ (commutativeAssociative OP_AND = true ->
      forall b, Some 15 = Some b ->
        exists v, evaluate notEvaluated OP_AND 255 (Some 15) = Some v
                  /\ 0 <= v < 2 ^ 32
                  /\ evaluate notEvaluated OP_AND b (Some 255) = Some v).
Proof.
  apply (foldConstants_spec literalOf notEvaluated andExample OP_AND
           (ref (plainLocal "out")) 255 (Some 15)); reflexivity.
Defined.

End ConstantFoldingFacts.

(** ** optimization/Eliminator.cpp: dead-code elimination *)

Module DeadCodeFacts.

Import IR.
Import DeadCode.

Lemma countInstructions_shape (m : Method) :
  countInstructions m = list_sum (shape m).
Proof.
  unfold countInstructions, shape.
  induction (basicBlocks m) as [| b bs IH]; simpl; [reflexivity | rewrite IH; reflexivity].
Qed.

Lemma shape_length (m : Method) : List.length (shape m) = List.length (basicBlocks m).
Proof. unfold shape. apply length_map. Qed.

Lemma nth_error_shape (m : Method) (w : Walker) :
  nth_error (shape m) (wblock w)
  = option_map (fun b => List.length (instructions b)) (blockAt m w).
Proof. unfold shape, blockAt. apply nth_error_map. Qed.

Lemma skipn_nth_error {A : Type} (l : list A) :
  forall i x, nth_error l i = Some x -> skipn i l = x :: skipn (S i) l.
Proof.
  induction l as [| a l IH]; intros [| i] x H; simpl in *; try discriminate.
  - injection H as ->. reflexivity.
  - apply IH. exact H.
Qed.

Lemma remaining_bound (sh : list nat) (w : Walker) :
  remaining sh w <= weight sh.
Proof.
  unfold remaining. destruct w as [b p]; cbn [wblock wpos].
  revert b. induction sh as [| n sh IH]; intros [| b];
    cbn [nth_error skipn weight fold_right]; try lia.
  specialize (IH b). destruct (nth_error sh b); [| lia].
  cbn [skipn] in IH. unfold weight in *. lia.
Qed.

Lemma weight_sum (sh : list nat) : weight sh = list_sum sh + 2 * List.length sh.
Proof. induction sh as [| n sh IH]; simpl; [reflexivity | lia]. Qed.

Lemma remaining_walk_next (sh : list nat) (b : nat) :
  S b < List.length sh ->
  remaining sh (walk (S b)) = weight (skipn (S b) sh).
Proof.
  intros Hlt. unfold remaining, walk; cbn [wblock wpos].
  destruct (nth_error sh (S b)) as [n' |] eqn:En.
  - rewrite (skipn_nth_error _ _ _ En). unfold weight. cbn [fold_right]. lia.
  - apply nth_error_None in En. lia.
Qed.

Lemma isEndOfBlock_at (m : Method) (w : Walker) (b : BasicBlock) (p : nat) :
  blockAt m w = Some b ->
  isEndOfBlock m {| wblock := wblock w; wpos := p |}
  = Nat.leb (List.length (instructions b)) p.
Proof.
  intros Eb. unfold isEndOfBlock, blockAt in *. cbn [wblock wpos]. rewrite Eb.
  reflexivity.
Qed.

Lemma nextInMethod_remaining (m : Method) (w : Walker) :
  isEndOfMethod m w = false ->
  remaining (shape m) (nextInMethod m w) < remaining (shape m) w.
Proof.
  intros He. unfold isEndOfMethod in He.
  destruct (blockAt m w) as [b |] eqn:Eb; [| discriminate].
  pose proof (nth_error_shape m w) as Hs. rewrite Eb in Hs. cbn [option_map] in Hs.
  pose proof (isEndOfBlock_at m w b (wpos w) Eb) as E0.
  pose proof (isEndOfBlock_at m w b (S (wpos w)) Eb) as E1.
  replace {| wblock := wblock w; wpos := wpos w |} with w in E0 by (destruct w; reflexivity).
  fold (nextInBlock w) in E1.
  set (n := List.length (instructions b)) in *.
  assert (Hb : wblock w < List.length (shape m))
    by (apply nth_error_Some; rewrite Hs; discriminate).
  assert (Hrem : forall p, remaining (shape m) {| wblock := wblock w; wpos := p |}
                           = S n - p + 1 + weight (skipn (S (wblock w)) (shape m))).
  { intros p. unfold remaining; cbn [wblock wpos]. rewrite Hs. reflexivity. }
  pose proof (Hrem (wpos w)) as R0. pose proof (Hrem (S (wpos w))) as R1.
  replace {| wblock := wblock w; wpos := wpos w |} with w in R0 by (destruct w; reflexivity).
  fold (nextInBlock w) in R1.
  rewrite E0 in He. unfold nextInMethod. rewrite E0.
  rewrite <- (shape_length m) in *.
  destruct (Nat.leb_spec n (wpos w)) as [Hend | Hmid].
  - cbn [andb] in He. apply Nat.eqb_neq in He.
    rewrite E0. destruct (Nat.leb_spec n (wpos w)); [| lia]. cbn [andb].
    destruct (Nat.ltb_spec (S (wblock w)) (List.length (shape m))); [| lia].
    rewrite remaining_walk_next by assumption. lia.
  - rewrite E1. cbn [nextInBlock wblock].
    destruct (Nat.leb_spec n (S (wpos w))) as [Hnow | Hnot]; cbn [andb].
    + destruct (Nat.ltb_spec (S (wblock w)) (List.length (shape m))) as [Hlt | Hge].
      * rewrite remaining_walk_next by assumption. lia.
      * fold (nextInBlock w). lia.
    + fold (nextInBlock w). lia.
Qed.

Lemma get_onEntry (m : Method) (w : Walker) (i : Instruction) :
  get m w = Some i -> onEntry (shape m) w.
Proof.
  unfold get, onEntry. rewrite nth_error_shape.
  destruct (blockAt m w) as [b |]; [| discriminate].
  intros H. exists (List.length (instructions b)). split; [reflexivity |].
  apply nth_error_Some. destruct (nth_error (instructions b) (wpos w)); congruence.
Qed.

Lemma getOp_onEntry (m : Method) (w : Walker) (o : Op) :
  getOp m w = Some o -> onEntry (shape m) w.
Proof.
  unfold getOp. destruct (get m w) as [i |] eqn:E; [| discriminate].
  intros _. exact (get_onEntry _ _ _ E).
Qed.

Lemma removeNth_length {A : Type} (l : list A) :
  forall p, p < List.length l -> List.length (removeNth p l) = Nat.pred (List.length l).
Proof.
  induction l as [| a l IH]; intros [| p] H; simpl in *; try lia.
  rewrite IH by lia. destruct l; simpl in *; lia.
Qed.

Lemma shape_eraseAt (m : Method) (w : Walker) :
  onEntry (shape m) w ->
  shape (eraseAt m w) = updateNth (wblock w) Nat.pred (shape m).
Proof.
  unfold onEntry, shape, eraseAt, setBlocks; simpl.
  generalize (wblock w) as i. induction (basicBlocks m) as [| b bs IH];
    intros [| i] (n & Hn & Hp); simpl in *; try discriminate.
  - injection Hn as <-. rewrite removeNth_length by exact Hp. reflexivity.
  - rewrite IH; [reflexivity | exists n; split; assumption].
Qed.

Lemma list_sum_updateNth_pred (sh : list nat) :
  forall i n, nth_error sh i = Some n -> 0 < n ->
    list_sum (updateNth i Nat.pred sh) + 1 = list_sum sh.
Proof.
  induction sh as [| x sh IH]; intros [| i] n H Hn; simpl in *; try discriminate.
  - injection H as ->. lia.
  - specialize (IH i n H Hn). lia.
Qed.

Lemma nth_error_updateNth {A : Type} (f : A -> A) (l : list A) :
  forall i, nth_error (updateNth i f l) i = option_map f (nth_error l i).
Proof.
  induction l as [| a l IH]; intros [| i]; simpl; try reflexivity. apply IH.
Qed.

Lemma skipn_updateNth {A : Type} (f : A -> A) (l : list A) :
  forall i, skipn (S i) (updateNth i f l) = skipn (S i) l.
Proof.
  induction l as [| a l IH]; intros [| i]; try reflexivity.
  cbn [updateNth]. change (skipn (S (S i)) (a :: updateNth i f l))
    with (skipn (S i) (updateNth i f l)).
  rewrite IH. reflexivity.
Qed.

Lemma remaining_updateNth_pred (sh : list nat) (w : Walker) :
  onEntry sh w ->
  remaining (updateNth (wblock w) Nat.pred sh) w + 1 = remaining sh w.
Proof.
  intros (n & Hn & Hp). unfold remaining.
  rewrite nth_error_updateNth, skipn_updateNth, Hn. cbn [option_map]. lia.
Qed.

Lemma remaining_previous (sh : list nat) (w : Walker) :
  remaining sh (previousInBlock w) <= remaining sh w + 1.
Proof.
  unfold remaining, previousInBlock; cbn [wblock wpos].
  destruct (nth_error sh (wblock w)); lia.
Qed.

Lemma shape_mergeLocals (m : Method) (a b : Local) :
  shape (mergeLocals m a b) = shape m.
Proof.
  unfold shape, mergeLocals, setBlocks; simpl. rewrite map_map.
  apply map_ext. intros x; simpl. apply length_map.
Qed.

Lemma shape_disableUniform (m : Method) (bit : N) :
  shape (disableUniform m bit) = shape m.
Proof. reflexivity. Qed.

Lemma measure_erasedAndBack (s : State) :
  onEntry (shape (method s)) (it s) -> measure (erasedAndBack s) < measure s.
Proof.
  intros Hv. unfold measure, erasedAndBack; cbn [method it].
  rewrite (shape_eraseAt _ _ Hv).
  pose proof (remaining_updateNth_pred _ _ Hv) as H1.
  pose proof (remaining_previous (updateNth (wblock (it s)) Nat.pred (shape (method s)))
                                 (it s)) as H2.
  destruct Hv as (n & Hn & Hp).
  pose proof (list_sum_updateNth_pred _ _ _ Hn ltac:(lia)) as H3.
  lia.
Qed.

Lemma measure_erased (s : State) (m' : Method) :
  shape m' = shape (method s) ->
  onEntry (shape (method s)) (it s) -> measure (erased m' s) < measure s.
Proof.
  intros Hs Hv. unfold measure, erased; cbn [method it].
  rewrite <- Hs in Hv. rewrite (shape_eraseAt _ _ Hv). rewrite Hs in *.
  pose proof (remaining_updateNth_pred _ _ Hv) as H1.
  destruct Hv as (n & Hn & Hp).
  pose proof (list_sum_updateNth_pred _ _ _ Hn ltac:(lia)) as H3.
  lia.
Qed.

Lemma measure_advance (s : State) :
  isEndOfMethod (method s) (it s) = false -> measure (advance s) < measure s.
Proof.
  intros He. unfold measure, advance; cbn [method it].
  pose proof (nextInMethod_remaining _ _ He). lia.
Qed.

Lemma ruleNeverRead_kind (s : State) (instr : Op) (s' : State) :
  ruleNeverRead s instr = Some s' -> s' = erasedAndBack s.
Proof.
  unfold ruleNeverRead. destruct (checkOutputLocal instr); [| discriminate].
  destruct (_ && _); [| discriminate]. intros [= <-]. reflexivity.
Qed.

Lemma ruleMove_kind (s : State) (instr : Op) (s' : State) :
  ruleMove s instr = Some s' ->
  exists m', shape m' = shape (method s) /\ s' = erased m' s.
Proof.
  unfold ruleMove. destruct (checkOutputLocal instr) as [outLoc |]; [| discriminate].
  destruct (isMove instr); [| discriminate].
  destruct (hd_error (arguments instr)) as [source |]; [| discriminate].
  destruct (checkLocal source) as [inLoc |].
  - destruct (simpleMove instr); [| discriminate].
    destruct (_ && _); [| discriminate]. intros [= <-].
    eexists; split; [apply shape_mergeLocals | reflexivity].
  - destruct (_ && _); [| discriminate].
    destruct (asBuiltin outLoc) as [t |]; [| discriminate].
    destruct (negb _); [| discriminate].
    destruct (disableBit t) as [bit |]; [| discriminate]. intros [= <-].
    eexists; split; [apply shape_disableUniform | reflexivity].
Qed.

Lemma ruleRegister_kind (s : State) (instr : Op) (s' : State) :
  ruleRegister s instr = Some s' -> s' = erased (method s) s.
Proof.
  unfold ruleRegister. destruct (_ && _ && _); [| discriminate].
  destruct (_ && _); [| discriminate]. intros [= <-]. reflexivity.
Qed.

Lemma ruleOverwritten_kind (s : State) (instr : Op) (s' : State) :
  ruleOverwritten s instr = Some s' -> s' = erased (method s) s.
Proof.
  unfold ruleOverwritten. destruct (checkOutputLocal instr) as [loc |]; [| discriminate].
  destruct (_ && _); [| discriminate].
  destruct (scanForLocal _ _) as [checkIt |]; [| discriminate].
  destruct (negb _); [| discriminate]. intros [= <-]. reflexivity.
Qed.

Lemma step_kind (s : State) : stepKind s (step s).
Proof.
  unfold step.
  destruct (getOp (method s) (it s)) as [instr |] eqn:Eg; [| apply step_advance].
  pose proof (getOp_onEntry _ _ _ Eg) as Hv.
  destruct (ruleNeverRead s instr) as [s1 |] eqn:E1.
  { rewrite (ruleNeverRead_kind _ _ _ E1). apply step_erasedAndBack. exact Hv. }
  destruct (if isCandidate instr then ruleMove s instr else None) as [s2 |] eqn:E2.
  { destruct (isCandidate instr); [| discriminate].
    destruct (ruleMove_kind _ _ _ E2) as (m' & Hs & ->).
    apply step_erased; assumption. }
  destruct (ruleRegister s instr) as [s3 |] eqn:E3.
  { rewrite (ruleRegister_kind _ _ _ E3). apply step_erased; [exact Hv | reflexivity]. }
  destruct (ruleOverwritten s instr) as [s4 |] eqn:E4.
  { rewrite (ruleOverwritten_kind _ _ _ E4). apply step_erased; [exact Hv | reflexivity]. }
  apply step_advance.
Qed.

Lemma step_decreases (s : State) :
  isEndOfMethod (method s) (it s) = false -> measure (step s) < measure s.
Proof.
  intros He. destruct (step_kind s) as [Hv | m' Hv Hs |].
  - apply measure_erasedAndBack; exact Hv.
  - apply measure_erased; assumption.
  - apply measure_advance; exact He.
Qed.

Lemma run_total (fuel : nat) :
  forall s, measure s < fuel -> exists s', run fuel s = Some s'.
Proof.
  induction fuel as [| fuel IH]; intros s H; [lia |].
  simpl. destruct (isEndOfMethod (method s) (it s)) eqn:He; [eexists; reflexivity |].
  apply IH. pose proof (step_decreases s He). lia.
Qed.

Lemma countInstructions_eraseAt (m : Method) (w : Walker) :
  onEntry (shape m) w -> countInstructions (eraseAt m w) + 1 = countInstructions m.
Proof.
  intros Hv. rewrite !countInstructions_shape, (shape_eraseAt _ _ Hv).
  destruct Hv as (n & Hn & Hp). apply (list_sum_updateNth_pred _ _ _ Hn). lia.
Qed.

(** An iteration that does not report a change leaves the method alone; one
    that reports a change has erased an instruction. *)
Lemma step_effect (s : State) :
  (hasChanged (step s) = hasChanged s /\ method (step s) = method s)
  \/ (hasChanged (step s) = true
      /\ countInstructions (method (step s)) < countInstructions (method s)).
Proof.
  destruct (step_kind s) as [Hv | m' Hv Hs |].
  - right. split; [reflexivity |]. cbn [erasedAndBack method].
    pose proof (countInstructions_eraseAt _ _ Hv). lia.
  - right. split; [reflexivity |]. cbn [erased method].
    assert (Hv' : onEntry (shape m') (it s)) by (rewrite Hs; exact Hv).
    pose proof (countInstructions_eraseAt _ _ Hv') as H.
    rewrite !countInstructions_shape in *. rewrite Hs in H. lia.
  - left. split; reflexivity.
Qed.

Lemma step_keeps_changed (s : State) :
  hasChanged s = true -> hasChanged (step s) = true.
Proof.
  intros H. destruct (step_kind s); [reflexivity | reflexivity | exact H].
Qed.

Lemma run_effect (fuel : nat) :
  forall s s',
    run fuel s = Some s' ->
    countInstructions (method s') <= countInstructions (method s)
    /\ (hasChanged s = true -> hasChanged s' = true)
    /\ (hasChanged s' = false -> method s' = method s)
    /\ (hasChanged s' = true ->
        hasChanged s = true
        \/ countInstructions (method s') < countInstructions (method s)).
Proof.
  induction fuel as [| fuel IH]; intros s s' H; [discriminate |].
  simpl in H. destruct (isEndOfMethod (method s) (it s)).
  - injection H as <-. repeat split; auto.
  - apply IH in H. destruct H as (H1 & H2 & H3 & H4).
    pose proof (step_keeps_changed s) as Hk.
    destruct (step_effect s) as [[E1 E2] | [E1 E2]].
    + rewrite E1, E2 in *. repeat split; auto.
    + repeat split.
      * lia.
      * intros _. apply H2. exact E1.
      * intros Hf. rewrite (H2 E1) in Hf. discriminate.
      * intros _. right. lia.
Qed.

Lemma fuelFor_enough (m : Method) (w : Walker) (c : bool) :
  measure {| method := m; it := w; hasChanged := c |} < fuelFor m.
Proof.
  unfold measure, fuelFor; cbn [method it].
  pose proof (remaining_bound (shape m) w) as H.
  rewrite weight_sum, shape_length in H.
  rewrite countInstructions_shape. lia.
Qed.

(** ** Facts on the instruction at the cursor *)

Lemma getOp_get (m : Method) (w : Walker) (o : Op) :
  getOp m w = Some o -> get m w = Some (Single o).
Proof.
  unfold getOp. destruct (get m w) as [[o' | ? ? ?] |]; try discriminate.
  intros [= ->]. reflexivity.
Qed.

Lemma getOp_not_end (m : Method) (w : Walker) (o : Op) :
  getOp m w = Some o -> isEndOfMethod m w = false.
Proof.
  intros H. destruct (getOp_onEntry _ _ _ H) as (n & Hn & Hp).
  rewrite nth_error_shape in Hn. unfold isEndOfMethod, isEndOfBlock.
  destruct (blockAt m w) as [b |]; [| discriminate].
  injection Hn as <-. destruct (Nat.leb_spec (List.length (instructions b)) (wpos w));
    [lia | reflexivity].
Qed.

Lemma getOp_allOps (m : Method) (w : Walker) (o : Op) :
  getOp m w = Some o -> In o (allOps m).
Proof.
  intros H. apply getOp_get in H. unfold get, blockAt in H.
  destruct (nth_error (basicBlocks m) (wblock w)) as [b |] eqn:Eb; [| discriminate].
  destruct (nth_error (instructions b) (wpos w)) as [i |] eqn:Ei; [| discriminate].
  subst i. unfold allOps. apply in_flat_map. exists b.
  split; [exact (nth_error_In _ _ Eb) |].
  apply in_flat_map. exists (Some (Single o)).
  split; [exact (nth_error_In _ _ Ei) | left; reflexivity].
Qed.

Lemma sameLocal_refl (l : Local) : sameLocal l l = true.
Proof. unfold sameLocal. apply String.eqb_refl. Qed.

Lemma checkOutputLocal_writes (o : Op) (l : Local) :
  checkOutputLocal o = Some l ->
  writesLocal o l = true /\ checkOutputRegister o = false.
Proof.
  unfold checkOutputLocal, writesLocal, checkOutputRegister.
  destruct (output o) as [[l' t | r | z |] |]; simpl; try discriminate.
  intros [= ->]. split; [apply sameLocal_refl | reflexivity].
Qed.

Lemma written_hasUsers (m : Method) (w : Walker) (o : Op) (l : Local) :
  getOp m w = Some o -> checkOutputLocal o = Some l -> hasUsers m l WRITER = true.
Proof.
  intros Hg Ho. unfold hasUsers. apply existsb_exists. exists o.
  split; [exact (getOp_allOps _ _ _ Hg) |].
  simpl. exact (proj1 (checkOutputLocal_writes _ _ Ho)).
Qed.

(** The move at the cursor writes its output, so the output has a writer
    and the locals are not merged: the rule can only drop an unused
    UNIFORM. *)
Lemma ruleMove_at_cursor (s : State) (instr : Op) (s' : State) :
  getOp (method s) (it s) = Some instr ->
  ruleMove s instr = Some s' ->
  exists bit, s' = erased (disableUniform (method s) bit) s.
Proof.
  intros Hg. unfold ruleMove.
  destruct (checkOutputLocal instr) as [outLoc |] eqn:Eo; [| discriminate].
  rewrite (written_hasUsers _ _ _ _ Hg Eo).
  destruct (isMove instr); [| discriminate].
  destruct (hd_error (arguments instr)) as [source |]; [| discriminate].
  destruct (checkLocal source) as [inLoc |].
  - destruct (simpleMove instr); discriminate.
  - destruct (_ && _); [| discriminate].
    destruct (asBuiltin outLoc) as [t |]; [| discriminate].
    destruct (negb _); [| discriminate].
    destruct (disableBit t) as [bit |]; [| discriminate]. intros [= <-].
    exists bit. reflexivity.
Qed.

Lemma nth_error_removeNth_before {A : Type} (l : list A) :
  forall p q, q < p -> nth_error (removeNth p l) q = nth_error l q.
Proof.
  induction l as [| a l IH]; intros [| p] [| q] H; simpl; try lia; try reflexivity.
  apply IH. lia.
Qed.

Lemma get_eraseAt_before (m : Method) (w : Walker) (q : nat) :
  q < wpos w ->
  get (eraseAt m w) {| wblock := wblock w; wpos := q |}
  = get m {| wblock := wblock w; wpos := q |}.
Proof.
  intros Hq. unfold get, blockAt, eraseAt, setBlocks; cbn [basicBlocks wblock wpos].
  rewrite nth_error_updateNth.
  destruct (nth_error (basicBlocks m) (wblock w)) as [b |]; [| reflexivity].
  cbn [option_map instructions].
  rewrite nth_error_removeNth_before by exact Hq. reflexivity.
Qed.

(** The scan of the third rule stops on an overwrite that does not read. *)
Lemma scanForLocal_overwritten (loc : Local) (over : option Instruction)
    (after : list (option Instruction)) :
  entryReadsLocal over loc = false ->
  entryWritesLocal over loc = true ->
  entryConditional over = false ->
  forall before,
    (forall x, In x before -> entryReadsLocal x loc = false) ->
    exists checkIt,
      scanForLocal (before ++ over :: after) loc = Some checkIt
      /\ entryReadsLocal checkIt loc = false.
Proof.
  intros Hr Hw Hc. induction before as [| x before IH]; intros Hb; simpl.
  - rewrite Hr, Hw, Hc. simpl. exists over. split; [reflexivity | exact Hr].
  - rewrite (Hb x (or_introl eq_refl)).
    destruct (entryWritesLocal x loc && negb (entryConditional x)).
    + exists x. split; [reflexivity | exact (Hb x (or_introl eq_refl))].
    + apply IH. intros y Hy. apply Hb. right. exact Hy.
Qed.

(** C3, as stated, fails: in [readElsewhere] the write of [x] has no side
    effects and [x] is not read before the end of the block, but the write
    is kept (the local is read in the next block). *)
Lemma eliminateDeadCode_keeps_write_read_later :
  (exists instr,
     getOp readElsewhere {| wblock := 0; wpos := 1 |} = Some instr
     /\ isCandidate instr = true /\ sideEffects instr = false
     /\ checkOutputLocal instr = Some (plainLocal "x"))
  /\ neverReadInRestOfBlock readElsewhere {| wblock := 0; wpos := 1 |} (plainLocal "x")
     = true
  /\ eliminateDeadCode readElsewhere = Some (readElsewhere, false).
Proof.
  split; [eexists; repeat split; reflexivity |].
  split; vm_compute; reflexivity.
Qed.

(** C4, as stated, fails: in [paramWrite] the load has no side effects and
    its output has no reader, but the output is a parameter and the load is
    kept. *)
Lemma eliminateDeadCode_keeps_parameter_write :
  (exists instr,
     getOp paramWrite {| wblock := 0; wpos := 1 |} = Some instr
     /\ isCandidate instr = true /\ sideEffects instr = false
     /\ checkOutputLocal instr = Some parameterP)
  /\ hasUsers paramWrite parameterP READER = false
  /\ eliminateDeadCode paramWrite = Some (paramWrite, false).
Proof.
  split; [eexists; repeat split; reflexivity |].
  split; vm_compute; reflexivity.
Qed.

(** C5, as stated, fails: the first run on [twoPass] erases the move and
    keeps the load of [a], the cursor having stepped back onto the no-op
    only; the second run erases the load. *)
Lemma eliminateDeadCode_not_idempotent :
  eliminateDeadCode twoPass = Some (twoPassOnce, true)
  /\ eliminateDeadCode twoPassOnce = Some (twoPassTwice, true)
  /\ twoPassOnce <> twoPassTwice.
Proof.
  split; [vm_compute; reflexivity |].
  split; [vm_compute; reflexivity | discriminate].
Qed.

(** C5, amended.  [eliminateDeadCode] terminates, and it returns [false]
    exactly when it leaves the method as it found it; when it returns
    [true] the method has lost at least one instruction.  So a run that
    returns [false] is a fixed point: running the pass again returns the
    same method.  A single run need not reach it. *)
Theorem eliminateDeadCode_fixed_point :
  forall m : Method,
    exists (m' : Method) (changed : bool),
      eliminateDeadCode m = Some (m', changed)
      /\ (changed = false <-> m' = m)
      /\ (changed = true -> countInstructions m' < countInstructions m)
      /\ (changed = false -> eliminateDeadCode m' = Some (m', false)).
Proof.
  intros m. unfold eliminateDeadCode.
  destruct (run_total (fuelFor m) (startOf m (walkAllInstructions m))
              (fuelFor_enough m _ false)) as [s' Hrun].
  unfold startOf in Hrun. rewrite Hrun.
  destruct (run_effect _ _ _ Hrun) as (H1 & _ & H3 & H4). cbn [method hasChanged] in *.
  exists (method s'), (hasChanged s').
  assert (Hiff : hasChanged s' = false <-> method s' = m).
  { split; [exact H3 |]. intros Hm.
    destruct (hasChanged s') eqn:Ec; [| reflexivity].
    destruct (H4 eq_refl) as [? | Hlt]; [discriminate |]. rewrite Hm in Hlt. lia. }
  repeat split.
  - apply Hiff.
  - apply Hiff.
  - intros Hc. destruct (H4 Hc) as [? | Hlt]; [discriminate | exact Hlt].
  - intros Hc. rewrite (H3 Hc), Hrun. rewrite (H3 Hc), Hc. reflexivity.
Qed.

End DeadCodeFacts.

(** ** optimization/Eliminator.cpp: what dead-code elimination leaves *)

Module DeadCodeInvariantsFacts.

Import IR.
Import DeadCode.
Import DeadCodeFacts.
Import DeadCodeInvariants.

Lemma thinned_refl (l : list (option Instruction)) : thinned l l.
Proof. induction l; constructor; assumption. Qed.

Lemma thinned_trans (a b : list (option Instruction)) :
  thinned a b -> forall c, thinned b c -> thinned a c.
Proof.
  induction 1 as [| x l l' H IH | o l l' Ho H IH]; intros c Hc.
  - exact Hc.
  - inversion Hc; subst.
    + apply thinned_keep. apply IH. assumption.
    + apply thinned_drop; [assumption | apply IH; assumption].
  - apply thinned_drop; [exact Ho | apply IH; exact Hc].
Qed.

Lemma thinned_removeNth (l : list (option Instruction)) :
  forall p o, nth_error l p = Some (Some (Single o)) -> erasable o = true ->
    thinned l (removeNth p l).
Proof.
  induction l as [| x l IH]; intros [| p] o H He; simpl in *; try discriminate.
  - injection H as ->. apply thinned_drop; [exact He | apply thinned_refl].
  - apply thinned_keep. exact (IH p o H He).
Qed.

Lemma prunedFrom_refl (m : Method) : prunedFrom m m.
Proof.
  unfold prunedFrom. induction (basicBlocks m); constructor;
    [split; [reflexivity | apply thinned_refl] | assumption].
Qed.

Lemma prunedFrom_trans (a b c : Method) :
  prunedFrom a b -> prunedFrom b c -> prunedFrom a c.
Proof.
  unfold prunedFrom. generalize (basicBlocks a), (basicBlocks b), (basicBlocks c).
  intros la lb lc H. revert lc.
  induction H as [| x y la lb [Hxy Ht] H IH]; intros lc Hc; inversion Hc; subst.
  - constructor.
  - constructor; [| apply IH; assumption].
    destruct H2 as [Hyz Ht']. split; [congruence | exact (thinned_trans _ _ Ht _ Ht')].
Qed.

Lemma prunedFrom_eraseAt (m : Method) (w : Walker) (o : Op) :
  getOp m w = Some o -> erasable o = true -> prunedFrom m (eraseAt m w).
Proof.
  intros Hg He. apply getOp_get in Hg. unfold get, blockAt in Hg.
  unfold prunedFrom, eraseAt, setBlocks; cbn [basicBlocks].
  revert Hg. generalize (wblock w) as i.
  induction (basicBlocks m) as [| b bs IH]; intros [| i] Hg; simpl in *;
    try discriminate.
  - constructor.
    + split; [reflexivity |]. cbn [instructions].
      destruct (nth_error (instructions b) (wpos w)) as [e |] eqn:Ee; [| discriminate].
      subst e. exact (thinned_removeNth _ _ _ Ee He).
    + clear. induction bs; constructor;
        [split; [reflexivity | apply thinned_refl] | assumption].
  - constructor; [split; [reflexivity | apply thinned_refl] | apply IH; exact Hg].
Qed.

Lemma checkOutputLocal_writesLocalOrRegister (o : Op) (l : Local) :
  checkOutputLocal o = Some l -> writesLocalOrRegister o = true.
Proof.
  unfold checkOutputLocal, writesLocalOrRegister.
  destruct (output o) as [[? ? | ? | ? |] |]; simpl; congruence.
Qed.

Lemma checkOutputRegister_writesLocalOrRegister (o : Op) :
  checkOutputRegister o = true -> writesLocalOrRegister o = true.
Proof.
  unfold checkOutputRegister, writesLocalOrRegister.
  destruct (output o) as [[? ? | ? | ? |] |]; simpl; congruence.
Qed.

Lemma step_method (s : State) : stepMethod s (method (step s)).
Proof.
  unfold step.
  destruct (getOp (method s) (it s)) as [instr |] eqn:Eg; [| exact (stepMethod_same s)].
  destruct (ruleNeverRead s instr) as [s1 |] eqn:E1.
  { rewrite (ruleNeverRead_kind _ _ _ E1). cbn [erasedAndBack method].
    apply (stepMethod_erased s instr Eg).
    unfold ruleNeverRead in E1.
    destruct (checkOutputLocal instr) as [dest |] eqn:Eo; [| discriminate].
    destruct (isCandidate instr) eqn:Ec; [| discriminate].
    destruct (sideEffects instr) eqn:Es; [discriminate |].
    unfold erasable.
    rewrite Ec, Es, (checkOutputLocal_writesLocalOrRegister _ _ Eo). reflexivity. }
  destruct (if isCandidate instr then ruleMove s instr else None) as [s2 |] eqn:E2.
  { destruct (isCandidate instr) eqn:Ec; [| discriminate].
    unfold ruleMove in E2.
    destruct (checkOutputLocal instr) as [outLoc |] eqn:Eo; [| discriminate].
    rewrite (written_hasUsers _ _ _ _ Eg Eo) in E2.
    destruct (isMove instr) eqn:Em; [| discriminate].
    destruct (hd_error (arguments instr)) as [source |] eqn:Eh; [| discriminate].
    destruct (checkLocal source) as [inLoc |].
    { destruct (simpleMove instr); discriminate. }
    destruct (hasRegister source REG_UNIFORM) eqn:Eu; [| discriminate].
    destruct (signalSideEffects instr) eqn:Esig; [discriminate |].
    cbn [negb andb] in E2.
    destruct (asBuiltin outLoc) as [t |] eqn:Eb; [| discriminate].
    destruct (negb _); [| discriminate].
    destruct (disableBit t) as [bit |] eqn:Ebit; [| discriminate].
    injection E2 as <-. cbn [erased method].
    apply (stepMethod_uniform s instr t bit Eg); [| exact Ebit].
    unfold erasable, movesUniform, writesBuiltin.
    rewrite Ec, Em, Eh, Eu, Esig, Eo, Eb. cbn. apply orb_true_r. }
  destruct (ruleRegister s instr) as [s3 |] eqn:E3.
  { rewrite (ruleRegister_kind _ _ _ E3). cbn [erased method].
    apply (stepMethod_erased s instr Eg).
    unfold ruleRegister in E3.
    destruct (isCandidate instr) eqn:Ec; [| discriminate].
    destruct (checkOutputRegister instr) eqn:Er; [| discriminate].
    destruct (sideEffects instr) eqn:Es; [discriminate |].
    unfold erasable.
    rewrite Ec, Es, (checkOutputRegister_writesLocalOrRegister _ Er). reflexivity. }
  destruct (ruleOverwritten s instr) as [s4 |] eqn:E4.
  { rewrite (ruleOverwritten_kind _ _ _ E4). cbn [erased method].
    apply (stepMethod_erased s instr Eg).
    unfold ruleOverwritten in E4.
    destruct (checkOutputLocal instr) as [loc |] eqn:Eo; [| discriminate].
    destruct (isCandidate instr) eqn:Ec; [| discriminate].
    destruct (sideEffects instr) eqn:Es; [discriminate |].
    unfold erasable.
    rewrite Ec, Es, (checkOutputLocal_writesLocalOrRegister _ _ Eo). reflexivity. }
  exact (stepMethod_same s).
Qed.

Lemma uniformsOnlyCleared_refl (md : KernelMetaData.KernelMetaData) :
  uniformsOnlyCleared md md.
Proof. repeat split; auto. Qed.

Lemma uniformsOnlyCleared_trans (a b c : KernelMetaData.KernelMetaData) :
  uniformsOnlyCleared a b -> uniformsOnlyCleared b c -> uniformsOnlyCleared a c.
Proof.
  intros (A1 & A2 & A3 & A4 & A5) (B1 & B2 & B3 & B4 & B5).
  repeat split; try congruence.
  - intros bit H. apply A1, B1, H.
  - intros bit H. rewrite (B2 bit H). apply A2, H.
Qed.

Lemma disableBit_low (t : BuiltinType) (bit : N) :
  disableBit t = Some bit -> (bit < 13)%N.
Proof. destruct t; simpl; intros [= <-]; reflexivity. Qed.

Lemma uniformsOnlyCleared_disable (m : Method) (t : BuiltinType) (bit : N) :
  disableBit t = Some bit ->
  uniformsOnlyCleared (metaData m) (metaData (disableUniform m bit)).
Proof.
  intros Hb. apply disableBit_low in Hb.
  unfold uniformsOnlyCleared, disableUniform; cbn [metaData KernelMetaData.uniformsUsed
    KernelMetaData.workGroupSizes KernelMetaData.workGroupSizeHints
    KernelMetaData.mergedWorkItemsFactor].
  repeat split.
  - intros k H. destruct (N.eq_dec bit k) as [<- | Hne].
    + rewrite N.clearbit_eq in H. discriminate.
    + rewrite N.clearbit_neq in H by exact Hne. exact H.
  - intros k Hk. apply N.clearbit_neq. lia.
Qed.

(** An iteration erases nothing but an erasable instruction and sets no flag. *)
Lemma step_invariant (s : State) :
  prunedFrom (method s) (method (step s))
  /\ uniformsOnlyCleared (metaData (method s)) (metaData (method (step s))).
Proof.
  destruct (step_method s) as [| o Hg He | o t bit Hg He Hb].
  - split; [apply prunedFrom_refl | apply uniformsOnlyCleared_refl].
  - split; [exact (prunedFrom_eraseAt _ _ _ Hg He) | apply uniformsOnlyCleared_refl].
  - split.
    + exact (prunedFrom_eraseAt (disableUniform (method s) bit) _ _ Hg He).
    + exact (uniformsOnlyCleared_disable _ _ _ Hb).
Qed.

Lemma run_invariant (fuel : nat) :
  forall s s', run fuel s = Some s' ->
    prunedFrom (method s) (method s')
    /\ uniformsOnlyCleared (metaData (method s)) (metaData (method s')).
Proof.
  induction fuel as [| fuel IH]; intros s s' H; [discriminate |].
  simpl in H. destruct (isEndOfMethod (method s) (it s)).
  - injection H as <-. split; [apply prunedFrom_refl | apply uniformsOnlyCleared_refl].
  - destruct (IH _ _ H) as [P U]. destruct (step_invariant s) as [P0 U0]. split.
    + exact (prunedFrom_trans _ _ _ P0 P).
    + exact (uniformsOnlyCleared_trans _ _ _ U0 U).
Qed.

Lemma eliminateDeadCode_invariant (m m' : Method) (changed : bool) :
  eliminateDeadCode m = Some (m', changed) ->
  prunedFrom m m' /\ uniformsOnlyCleared (metaData m) (metaData m').
Proof.
  unfold eliminateDeadCode.
  destruct (run _ _) as [s' |] eqn:Hrun; [| discriminate].
  intros [= <- <-]. exact (run_invariant _ _ _ Hrun).
Qed.

Lemma eliminateDeadCode_returns (m : Method) :
  exists m' changed, eliminateDeadCode m = Some (m', changed).
Proof.
  unfold eliminateDeadCode.
  destruct (run_total (fuelFor m) (startOf m (walkAllInstructions m))
              (fuelFor_enough m _ false)) as [s' Hrun].
  unfold startOf in Hrun. rewrite Hrun. eexists; eexists; reflexivity.
Qed.

Lemma label_not_erasable (o : Op) (l : Local) :
  kind o = BranchLabel l -> erasable o = false.
Proof. intros H. unfold erasable, isCandidate. rewrite H. reflexivity. Qed.

Lemma thinned_blockLabel (b b' : BasicBlock) :
  thinned (instructions b) (instructions b') ->
  blockLabel b <> None -> blockLabel b' = blockLabel b.
Proof.
  unfold blockLabel. intros H.
  inversion H as [| x l l' Ht E1 E2 | o l l' Ho Ht E1 E2].
  - reflexivity.
  - reflexivity.
  - destruct (kind o) eqn:Ek; try (intros F; exfalso; apply F; reflexivity).
    rewrite (label_not_erasable _ _ Ek) in Ho. discriminate.
Qed.

Lemma findBlockFrom_pruned (bs bs' : list BasicBlock) :
  Forall2 (fun b b' => blockAddress b' = blockAddress b
                       /\ thinned (instructions b) (instructions b')) bs bs' ->
  (forall b, In b bs -> blockLabel b <> None) ->
  (forall b, In b bs' -> blockLabel b <> None)
  /\ forall i l, findBlockFrom i bs' l = findBlockFrom i bs l.
Proof.
  induction 1 as [| b b' bs bs' [_ Ht] H IH]; intros Hl.
  - split; [intros b [] | reflexivity].
  - pose proof (thinned_blockLabel _ _ Ht (Hl b (or_introl eq_refl))) as E.
    destruct IH as [IH1 IH2]; [intros x Hx; apply Hl; right; exact Hx |].
    split.
    + intros x [<- | Hx]; [rewrite E; apply Hl; left; reflexivity | apply IH1, Hx].
    + intros i l. simpl. rewrite E.
      destruct (blockLabel b) as [k |]; [| apply IH2].
      destruct (sameLocal k l); [reflexivity | apply IH2].
Qed.

(** X1.  [eliminateDeadCode] returns, and every block of the method it
    leaves is the block of before, with the same identity, without some
    instructions: each erased instruction is an operation, move, immediate
    load or code address that writes a local or a register and has no side
    effects, or a move of the UNIFORM register to a built-in local whose
    signal has no side effects.  Every other entry (labels, branches,
    instructions with side effects, combined operations, empty entries) is
    still there, unchanged and in the same order. *)
Theorem eliminateDeadCode_only_erases :
  forall m : Method,
    exists (m' : Method) (changed : bool),
      eliminateDeadCode m = Some (m', changed) /\ prunedFrom m m'.
Proof.
  intros m. destruct (eliminateDeadCode_returns m) as (m' & changed & H).
  exists m', changed. split; [exact H |].
  exact (proj1 (eliminateDeadCode_invariant _ _ _ H)).
Qed.

(** X2.  In a method whose blocks all start with their label,
    [eliminateDeadCode] erases no label: the blocks still start with their
    label and [findBasicBlock] finds every label in the block it was in, so
    no branch loses its target. *)
Theorem eliminateDeadCode_keeps_targets :
  forall (m m' : Method) (changed : bool),
    allLabelled m ->
    eliminateDeadCode m = Some (m', changed) ->
    allLabelled m'
    /\ forall label, findBasicBlock m' label = findBasicBlock m label.
Proof.
  intros m m' changed Hl H.
  destruct (eliminateDeadCode_invariant _ _ _ H) as [P _].
  destruct (findBlockFrom_pruned _ _ P Hl) as [H1 H2].
  split; [exact H1 | intros l; apply H2].
Qed.

Lemma eliminateDeadCode_keeps_targets_witness :
  allLabelled kernelAfter
  /\ forall label, findBasicBlock kernelAfter label = findBasicBlock kernel label.
Proof.
  apply (eliminateDeadCode_keeps_targets kernel kernelAfter true).
  - intros b [<- | [<- | []]]; discriminate.
  - vm_compute. reflexivity.
Defined.

Lemma filter_length_le {A : Type} (f g : A -> bool) (l : list A) :
  (forall x, f x = true -> g x = true) ->
  (List.length (filter f l) <= List.length (filter g l))%nat.
Proof.
  intros H. induction l as [| x l IH]; cbn [filter]; [lia |].
  destruct (f x) eqn:Ef.
  - rewrite (H x Ef). cbn [List.length]. lia.
  - destruct (g x); cbn [List.length]; lia.
Qed.

(** X3.  [eliminateDeadCode] returns, and it sets no flag of the implicit
    UNIFORMs: a flag set afterwards was set before, the flags from
    [UniformAddressUsed] on are as before, and the work-group sizes, their
    hints and the merge factor are as before.  So [countUniforms], the
    number of implicit UNIFORMs the kernel is passed, does not grow. *)
Theorem eliminateDeadCode_uniforms :
  forall m : Method,
    exists (m' : Method) (changed : bool),
      eliminateDeadCode m = Some (m', changed)
      /\ uniformsOnlyCleared (metaData m) (metaData m')
      /\ (KernelLimits.countUniforms (KernelMetaData.uniformsUsed (metaData m'))
          <= KernelLimits.countUniforms (KernelMetaData.uniformsUsed (metaData m)))%nat.
Proof.
  intros m. destruct (eliminateDeadCode_returns m) as (m' & changed & H).
  exists m', changed. split; [exact H |].
  pose proof (proj2 (eliminateDeadCode_invariant _ _ _ H)) as U.
  split; [exact U |].
  unfold KernelLimits.countUniforms. apply filter_length_le. exact (proj1 U).
Qed.

(** ** The users of the locals *)

Lemma sameLocal_right (a b x : Local) :
  sameLocal a b = true -> sameLocal x a = sameLocal x b.
Proof.
  unfold sameLocal. intros H. apply String.eqb_eq in H. rewrite H. reflexivity.
Qed.

Lemma usesAs_sameLocal (t : UseType) (o : Op) (a b : Local) :
  sameLocal a b = true -> usesAs t o a = usesAs t o b.
Proof.
  intros H. destruct t; cbn [usesAs].
  - unfold readsLocal. induction (arguments o) as [| v l IH]; [reflexivity |].
    cbn [existsb]. rewrite IH. f_equal.
    destruct v; cbn [hasLocal]; try reflexivity. apply sameLocal_right. exact H.
  - unfold writesLocal. destruct (output o) as [v |]; [| reflexivity].
    destruct v; cbn [hasLocal]; try reflexivity. apply sameLocal_right. exact H.
Qed.

Lemma hasUsers_sameLocal (m : Method) (t : UseType) (a b : Local) :
  sameLocal a b = true -> hasUsers m a t = hasUsers m b t.
Proof.
  intros H. unfold hasUsers. induction (allOps m) as [| o l IH]; [reflexivity |].
  cbn [existsb]. rewrite IH, (usesAs_sameLocal t o a b H). reflexivity.
Qed.

Lemma thinned_In (l l' : list (option Instruction)) :
  thinned l l' -> forall e, In e l' -> In e l.
Proof.
  induction 1 as [| x l l' H IH | o l l' Ho H IH]; intros e He.
  - exact He.
  - destruct He as [<- | He]; [left; reflexivity | right; apply IH; exact He].
  - right. apply IH. exact He.
Qed.

Lemma prunedFrom_allOps (m m' : Method) :
  prunedFrom m m' -> forall o, In o (allOps m') -> In o (allOps m).
Proof.
  unfold prunedFrom, allOps.
  induction 1 as [| b b' bs bs' [_ Ht] H IH]; intros o Ho; [exact Ho |].
  cbn [flat_map] in *. apply in_app_or in Ho. apply in_or_app.
  destruct Ho as [Ho | Ho]; [left | right; apply IH; exact Ho].
  apply in_flat_map in Ho. destruct Ho as (e & He & Hoe).
  apply in_flat_map. exists e. split; [exact (thinned_In _ _ Ht e He) | exact Hoe].
Qed.

Lemma prunedFrom_hasUsers (m m' : Method) (loc : Local) (t : UseType) :
  prunedFrom m m' -> hasUsers m' loc t = true -> hasUsers m loc t = true.
Proof.
  intros Hp H. unfold hasUsers in *. apply existsb_exists in H.
  destruct H as (o & Ho & Hu). apply existsb_exists. exists o.
  split; [exact (prunedFrom_allOps _ _ Hp o Ho) | exact Hu].
Qed.

(** The entries of a block, the one at [p] apart, are there after
    [removeNth]. *)
Lemma removeNth_In {A : Type} (l : list A) :
  forall p x e, nth_error l p = Some x -> In e l -> In e (removeNth p l) \/ e = x.
Proof.
  induction l as [| a l IH]; intros [| p] x e H He; cbn in *; try discriminate.
  - injection H as ->. destruct He as [-> | He]; [right; reflexivity | left; exact He].
  - destruct He as [-> | He]; [left; left; reflexivity |].
    destruct (IH p x e H He) as [Hin | ->]; [left; right; exact Hin | right; reflexivity].
Qed.

Lemma removeNth_skipn_In {A : Type} (l : list A) :
  forall p e, In e (skipn (S p) l) -> In e (removeNth p l).
Proof.
  induction l as [| a l IH]; intros [| p] e He; cbn in *; try contradiction.
  - exact He.
  - right. apply IH. exact He.
Qed.

Lemma allOps_eraseAt (m : Method) (w : Walker) (o o' : Op) :
  get m w = Some (Single o) -> In o' (allOps m) ->
  In o' (allOps (eraseAt m w)) \/ o' = o.
Proof.
  unfold get, blockAt, allOps, eraseAt. cbn [setBlocks basicBlocks].
  generalize (wblock w) as i.
  induction (basicBlocks m) as [| b bs IH]; intros [| i] Hg Ho;
    cbn [nth_error updateNth flat_map] in *; try discriminate.
  - apply in_app_or in Ho. destruct Ho as [Ho | Ho].
    + apply in_flat_map in Ho. destruct Ho as (e & He & Hoe). cbn [instructions].
      destruct (nth_error (instructions b) (wpos w)) as [x |] eqn:Ex; [| discriminate].
      subst x.
      destruct (removeNth_In _ _ _ e Ex He) as [Hin | ->].
      * left. apply in_or_app. left. apply in_flat_map. exists e. split; assumption.
      * right. cbn in Hoe. destruct Hoe as [<- | []]. reflexivity.
    + left. apply in_or_app. right. exact Ho.
  - apply in_app_or in Ho. destruct Ho as [Ho | Ho].
    + left. apply in_or_app. left. exact Ho.
    + destruct (IH i Hg Ho) as [Hin | ->]; [left; apply in_or_app; right; exact Hin |].
      right. reflexivity.
Qed.

Lemma restOfBlock_eraseAt (m : Method) (w : Walker) (e : option Instruction) (o : Op) :
  In e (restOfBlock m w) -> In o (opsOf e) -> In o (allOps (eraseAt m w)).
Proof.
  unfold restOfBlock, blockAt, allOps, eraseAt. cbn [setBlocks basicBlocks].
  generalize (wblock w) as i.
  induction (basicBlocks m) as [| b bs IH]; intros [| i] He Ho;
    cbn [nth_error updateNth flat_map] in *; try contradiction.
  - apply in_or_app. left. apply in_flat_map. exists e. cbn [instructions].
    split; [apply removeNth_skipn_In; exact He | exact Ho].
  - apply in_or_app. right. apply (IH i He Ho).
Qed.

Lemma scanForLocal_found (loc : Local) (rest : list (option Instruction))
    (checkIt : option Instruction) :
  scanForLocal rest loc = Some checkIt ->
  In checkIt rest
  /\ (entryReadsLocal checkIt loc = true \/ entryWritesLocal checkIt loc = true).
Proof.
  induction rest as [| i rest IH]; cbn [scanForLocal]; [discriminate |].
  destruct (entryReadsLocal i loc) eqn:Er.
  - intros [= <-]. split; [left; reflexivity | left; exact Er].
  - destruct (entryWritesLocal i loc) eqn:Ew; cbn [andb].
    + destruct (negb (entryConditional i)).
      * intros [= <-]. split; [left; reflexivity | right; exact Ew].
      * intros H. destruct (IH H) as [H1 H2]. split; [right; exact H1 | exact H2].
    + intros H. destruct (IH H) as [H1 H2]. split; [right; exact H1 | exact H2].
Qed.

Lemma checkOutputLocal_writesLocal (o : Op) (dest loc : Local) :
  checkOutputLocal o = Some dest -> writesLocal o loc = sameLocal dest loc.
Proof.
  unfold checkOutputLocal, writesLocal.
  destruct (output o) as [[l t | r | z |] |]; cbn; try discriminate.
  intros [= ->]. reflexivity.
Qed.

Lemma checkOutputRegister_writesLocal (o : Op) (loc : Local) :
  checkOutputRegister o = true -> writesLocal o loc = false.
Proof.
  unfold checkOutputRegister, writesLocal.
  destruct (output o) as [[l t | r | z |] |]; cbn; try discriminate. reflexivity.
Qed.

Lemma removeNth_subset {A : Type} (l : list A) :
  forall p e, In e (removeNth p l) -> In e l.
Proof.
  induction l as [| a l IH]; intros [| p] e He; cbn in *; try contradiction.
  - right. exact He.
  - destruct He as [-> | He]; [left; reflexivity | right; exact (IH p e He)].
Qed.

Lemma allOps_eraseAt_subset (m : Method) (w : Walker) (o : Op) :
  In o (allOps (eraseAt m w)) -> In o (allOps m).
Proof.
  unfold allOps, eraseAt. cbn [setBlocks basicBlocks].
  generalize (wblock w) as i.
  induction (basicBlocks m) as [| b bs IH]; intros [| i] Ho;
    cbn [updateNth flat_map] in *; try contradiction.
  - apply in_app_or in Ho. apply in_or_app. destruct Ho as [Ho | Ho]; [left | right; exact Ho].
    apply in_flat_map in Ho. destruct Ho as (e & He & Hoe). cbn [instructions] in He.
    apply in_flat_map. exists e. split; [exact (removeNth_subset _ _ _ He) | exact Hoe].
  - apply in_app_or in Ho. apply in_or_app.
    destruct Ho as [Ho | Ho]; [left; exact Ho | right; exact (IH i Ho)].
Qed.

Lemma hasUsers_eraseAt (m : Method) (w : Walker) (loc : Local) (t : UseType) :
  hasUsers (eraseAt m w) loc t = true -> hasUsers m loc t = true.
Proof.
  unfold hasUsers. intros H. apply existsb_exists in H. destruct H as (o & Ho & Hu).
  apply existsb_exists. exists o. split; [exact (allOps_eraseAt_subset _ _ _ Ho) | exact Hu].
Qed.

(** Erasing a write whose local nobody reads. *)
Lemma eraseAt_unread (m : Method) (w : Walker) (o : Op) :
  get m w = Some (Single o) ->
  (forall loc, writesLocal o loc = true -> hasUsers m loc READER = false) ->
  keepsWriters m (eraseAt m w).
Proof.
  intros Hg Hun loc Hr Hw.
  unfold hasUsers in Hw. apply existsb_exists in Hw. destruct Hw as (o' & Ho' & Hw').
  destruct (allOps_eraseAt _ _ _ _ Hg Ho') as [Hin | ->].
  - unfold hasUsers. apply existsb_exists. exists o'. split; assumption.
  - exfalso. cbn [usesAs] in Hw'. specialize (Hun loc Hw').
    rewrite (hasUsers_eraseAt _ _ _ _ Hr) in Hun. discriminate.
Qed.

(** Erasing a write that is overwritten later in its block. *)
Lemma eraseAt_overwritten (m : Method) (w : Walker) (o : Op) (loc0 : Local)
    (checkIt : option Instruction) :
  get m w = Some (Single o) ->
  checkOutputLocal o = Some loc0 ->
  scanForLocal (restOfBlock m w) loc0 = Some checkIt ->
  entryReadsLocal checkIt loc0 = false ->
  keepsWriters m (eraseAt m w).
Proof.
  intros Hg Ho Hscan Hno loc _ Hw.
  unfold hasUsers in Hw. apply existsb_exists in Hw. destruct Hw as (o' & Ho' & Hw').
  destruct (allOps_eraseAt _ _ _ _ Hg Ho') as [Hin | ->].
  - unfold hasUsers. apply existsb_exists. exists o'. split; assumption.
  - cbn [usesAs] in Hw'. rewrite (checkOutputLocal_writesLocal _ _ loc Ho) in Hw'.
    rewrite <- (hasUsers_sameLocal _ WRITER _ _ Hw').
    destruct (scanForLocal_found _ _ _ Hscan) as [Hin [Hr | Hwr]]; [congruence |].
    unfold entryWritesLocal in Hwr. apply existsb_exists in Hwr.
    destruct Hwr as (o2 & Ho2 & Hw2).
    unfold hasUsers. apply existsb_exists. exists o2.
    split; [exact (restOfBlock_eraseAt _ _ _ _ Hin Ho2) | exact Hw2].
Qed.

(** An iteration leaves no read local without its writers. *)
Lemma step_keeps_writers (s : State) :
  keepsWriters (method s) (method (step s)).
Proof.
  assert (Hrefl : keepsWriters (method s) (method s)) by (intros loc _ H; exact H).
  unfold step.
  destruct (getOp (method s) (it s)) as [instr |] eqn:Eg; [| exact Hrefl].
  pose proof (getOp_get _ _ _ Eg) as Hget.
  destruct (ruleNeverRead s instr) as [s1 |] eqn:E1.
  { rewrite (ruleNeverRead_kind _ _ _ E1). cbn [erasedAndBack method].
    apply (eraseAt_unread _ _ instr Hget). intros loc Hw.
    unfold ruleNeverRead in E1.
    destruct (checkOutputLocal instr) as [dest |] eqn:Eo; [| discriminate].
    rewrite (checkOutputLocal_writesLocal _ _ loc Eo) in Hw.
    rewrite <- (hasUsers_sameLocal _ READER _ _ Hw).
    destruct (hasUsers (method s) dest READER); [| reflexivity].
    rewrite !andb_false_r in E1. discriminate. }
  destruct (if isCandidate instr then ruleMove s instr else None) as [s2 |] eqn:E2.
  { destruct (isCandidate instr); [| discriminate].
    unfold ruleMove in E2.
    destruct (checkOutputLocal instr) as [outLoc |] eqn:Eo; [| discriminate].
    rewrite (written_hasUsers _ _ _ _ Eg Eo) in E2.
    destruct (isMove instr); [| discriminate].
    destruct (hd_error (arguments instr)) as [source |]; [| discriminate].
    destruct (checkLocal source) as [inLoc |].
    { destruct (simpleMove instr); discriminate. }
    destruct (_ && _); [| discriminate].
    destruct (asBuiltin outLoc) as [t |]; [| discriminate].
    destruct (hasUsers (method s) outLoc READER) eqn:Er; [discriminate |].
    cbn [negb] in E2.
    destruct (disableBit t) as [bit |]; [| discriminate].
    injection E2 as <-. cbn [erased method].
    apply (eraseAt_unread (disableUniform (method s) bit) _ instr Hget). intros loc Hw.
    rewrite (checkOutputLocal_writesLocal _ _ loc Eo) in Hw.
    change (hasUsers (method s) loc READER = false).
    rewrite <- (hasUsers_sameLocal _ READER _ _ Hw). exact Er. }
  destruct (ruleRegister s instr) as [s3 |] eqn:E3.
  { rewrite (ruleRegister_kind _ _ _ E3). cbn [erased method].
    apply (eraseAt_unread _ _ instr Hget). intros loc Hw.
    unfold ruleRegister in E3.
    destruct (isCandidate instr); [| discriminate].
    destruct (checkOutputRegister instr) eqn:Er; [| discriminate].
    rewrite (checkOutputRegister_writesLocal _ loc Er) in Hw. discriminate. }
  destruct (ruleOverwritten s instr) as [s4 |] eqn:E4.
  { rewrite (ruleOverwritten_kind _ _ _ E4). cbn [erased method].
    unfold ruleOverwritten in E4.
    destruct (checkOutputLocal instr) as [loc0 |] eqn:Eo; [| discriminate].
    destruct (_ && _); [| discriminate].
    destruct (scanForLocal _ loc0) as [checkIt |] eqn:Escan; [| discriminate].
    destruct (entryReadsLocal checkIt loc0) eqn:Er; [discriminate |].
    exact (eraseAt_overwritten _ _ _ _ _ Hget Eo Escan Er). }
  exact Hrefl.
Qed.

Lemma run_keeps_writers (fuel : nat) :
  forall s s', run fuel s = Some s' -> keepsWriters (method s) (method s').
Proof.
  induction fuel as [| fuel IH]; intros s s' H; [discriminate |].
  cbn [run] in H. destruct (isEndOfMethod (method s) (it s)).
  - injection H as <-. intros loc _ Hw. exact Hw.
  - intros loc Hr Hw. apply (IH _ _ H loc Hr).
    apply (step_keeps_writers s loc); [| exact Hw].
    exact (prunedFrom_hasUsers _ _ _ _ (proj1 (run_invariant _ _ _ H)) Hr).
Qed.

(** X22.  [eliminateDeadCode] returns and takes the last write of no local
    that is still read: a local that has a reader afterwards and had a
    writer before has a writer afterwards.  It adds no user: a reader or
    writer of a local afterwards was one before. *)
Theorem eliminateDeadCode_keeps_writers :
  forall m : Method,
    exists (m' : Method) (changed : bool),
      eliminateDeadCode m = Some (m', changed)
      /\ keepsWriters m m'
      /\ (forall loc t, hasUsers m' loc t = true -> hasUsers m loc t = true).
Proof.
  intros m. destruct (eliminateDeadCode_returns m) as (m' & changed & H).
  exists m', changed. split; [exact H |].
  pose proof (proj1 (eliminateDeadCode_invariant _ _ _ H)) as Hp.
  split; [| intros loc t; apply prunedFrom_hasUsers; exact Hp].
  unfold eliminateDeadCode in H.
  destruct (run _ _) as [s' |] eqn:Hrun; [| discriminate].
  injection H as <- _. exact (run_keeps_writers _ _ _ Hrun).
Qed.

End DeadCodeInvariantsFacts.

(** ** Method.cpp, normalization/MemoryAccess.cpp: the stack frames *)

Module StackFramesFacts.

Local Open Scope Z_scope.
Import StackLayout.
Import StackLayoutFacts.
Import StackFrames.

Lemma sameShape_refl (a : StackAllocation) : sameShape a a.
Proof. repeat split. Qed.

Lemma setOffset_sameShape (a b : StackAllocation) (o : Z) :
  sameShape a b -> setOffset a o = setOffset b o.
Proof.
  intros (N1 & N2 & N3 & N4). unfold setOffset. rewrite N1, N2, N3, N4. reflexivity.
Qed.

(** A pass gives the same offsets to allocations of the same shapes. *)
Lemma layoutPass_agree (lowered : bool) (base : Z) (l k : list StackAllocation) :
  Forall2 sameShape l k ->
  forall cur,
    snd (layoutPass lowered base cur l) = snd (layoutPass lowered base cur k)
    /\ Forall2 (agreeOn lowered) (fst (layoutPass lowered base cur l))
                                 (fst (layoutPass lowered base cur k)).
Proof.
  induction 1 as [| a b l k Hab _ IH]; intros cur; [split; [reflexivity | constructor] |].
  pose proof Hab as (N1 & N2 & N3 & N4).
  cbn [layoutPass]. rewrite N3, N4, N2.
  destruct (Bool.eqb (isLowered a) lowered) eqn:E.
  - specialize (IH (wrapSize (alignOffset base cur (alignment a) + size a))).
    destruct (layoutPass lowered base _ l) as [l' c], (layoutPass lowered base _ k) as [k' d].
    cbn [fst snd] in *. destruct IH as [IH1 IH2]. split; [exact IH1 |].
    constructor; [| exact IH2].
    rewrite (setOffset_sameShape _ _ _ Hab). split; [apply sameShape_refl | reflexivity].
  - specialize (IH cur).
    destruct (layoutPass lowered base cur l) as [l' c], (layoutPass lowered base cur k) as [k' d].
    cbn [fst snd] in *. destruct IH as [IH1 IH2]. split; [exact IH1 |].
    constructor; [| exact IH2].
    split; [exact Hab |]. intros Hl. rewrite Hl, Bool.eqb_reflx in E. discriminate.
Qed.

(** The second pass makes lists equal that agree on what the first pass has
    assigned. *)
Lemma layoutPass_equal (lowered : bool) (base : Z) (l k : list StackAllocation) :
  Forall2 (agreeOn (negb lowered)) l k ->
  forall cur, layoutPass lowered base cur l = layoutPass lowered base cur k.
Proof.
  induction 1 as [| a b l k [Hab Heq] _ IH]; intros cur; [reflexivity |].
  pose proof Hab as (N1 & N2 & N3 & N4).
  cbn [layoutPass]. rewrite N3, N4, N2.
  destruct (Bool.eqb (isLowered a) lowered) eqn:E.
  - rewrite IH, (setOffset_sameShape _ _ _ Hab). reflexivity.
  - rewrite IH. rewrite Heq; [reflexivity |].
    destruct (isLowered a), lowered; simpl in *; congruence.
Qed.

Lemma getStackBaseOffset_sameShape (g : Z) (l k : list StackAllocation) :
  Forall2 sameShape l k -> getStackBaseOffset g l = getStackBaseOffset g k.
Proof.
  intros H. unfold getStackBaseOffset.
  destruct H as [| a b l k (_ & _ & N3 & _) _]; [reflexivity |]. rewrite N3. reflexivity.
Qed.

Lemma calculateStackOffsets_sameShape (g : Z) (l k : list StackAllocation) :
  Forall2 sameShape l k -> calculateStackOffsets g l = calculateStackOffsets g k.
Proof.
  intros H. unfold calculateStackOffsets.
  rewrite <- (getStackBaseOffset_sameShape g l k H).
  destruct (layoutPass_agree false (getStackBaseOffset g l) l k H 0) as [E1 E2].
  destruct (layoutPass false _ 0 l) as [l1 c1], (layoutPass false _ 0 k) as [k1 d1].
  cbn [fst snd] in *. subst d1.
  rewrite (layoutPass_equal true _ l1 k1 E2). reflexivity.
Qed.

(** A pass changes offsets only. *)
Lemma layoutPass_shape (lowered : bool) (base : Z) (l : list StackAllocation) :
  forall cur, Forall2 sameShape l (fst (layoutPass lowered base cur l)).
Proof.
  induction l as [| a l IH]; intros cur; [constructor |].
  cbn [layoutPass]. destruct (Bool.eqb (isLowered a) lowered).
  - specialize (IH (wrapSize (alignOffset base cur (alignment a) + size a))).
    destruct (layoutPass lowered base _ l) as [l' c]. cbn [fst] in *.
    constructor; [repeat split | exact IH].
  - specialize (IH cur). destruct (layoutPass lowered base cur l) as [l' c].
    cbn [fst] in *. constructor; [apply sameShape_refl | exact IH].
Qed.

Lemma sameShape_trans (l k r : list StackAllocation) :
  Forall2 sameShape l k -> Forall2 sameShape k r -> Forall2 sameShape l r.
Proof.
  intros H. revert r. induction H as [| a b l k Hab _ IH]; intros r Hr;
    inversion Hr as [| ? c ? r' Hbc Hr']; subst; constructor; [| apply IH; exact Hr'].
  destruct Hab as (N1 & N2 & N3 & N4), Hbc as (M1 & M2 & M3 & M4).
  repeat split; congruence.
Qed.

Lemma calculateStackOffsets_shape (g : Z) (l : list StackAllocation) :
  Forall2 sameShape l (calculateStackOffsets g l).
Proof.
  unfold calculateStackOffsets.
  pose proof (layoutPass_shape false (getStackBaseOffset g l) l 0) as H1.
  destruct (layoutPass false _ 0 l) as [l1 c1]. cbn [fst] in H1.
  exact (sameShape_trans _ _ _ H1 (layoutPass_shape true _ l1 c1)).
Qed.

(** X4.  [calculateStackOffsets] reads no offset: it changes nothing but
    the offsets, allocations that differ in their offsets only get the same
    layout, and laying out again what is laid out changes nothing. *)
Theorem calculateStackOffsets_idempotent :
  forall (globalDataOffset : Z) (l : list StackAllocation),
    Forall2 sameShape l (calculateStackOffsets globalDataOffset l)
    /\ (forall k, Forall2 sameShape l k ->
                  calculateStackOffsets globalDataOffset k
                  = calculateStackOffsets globalDataOffset l)
    /\ calculateStackOffsets globalDataOffset (calculateStackOffsets globalDataOffset l)
       = calculateStackOffsets globalDataOffset l.
Proof.
  intros g l. split; [apply calculateStackOffsets_shape | split].
  - intros k H. symmetry. apply calculateStackOffsets_sameShape. exact H.
  - symmetry. apply calculateStackOffsets_sameShape. apply calculateStackOffsets_shape.
Qed.

(** ** The stack base *)

Lemma wrapped_roundUp (a x : Z) :
  0 < a -> 0 <= x -> x + a < SIZE_MODULUS ->
  (if negb (x mod a =? 0) then wrapSize (x + wrapSize (a - x mod a)) else x)
  = roundUp a x.
Proof.
  intros Ha Hx Hb. rewrite (roundUp_spec _ _ Ha Hx).
  pose proof (Z.mod_pos_bound x a Ha).
  destruct (x mod a =? 0); cbn [negb]; [reflexivity |].
  rewrite (wrapSize_small (a - _)) by lia.
  apply wrapSize_small; lia.
Qed.

Lemma multiple_of_both (a x : Z) :
  0 < a -> (a mod 8 = 0 \/ 8 mod a = 0) ->
  roundUp 8 (roundUp a x) mod 8 = 0 -> roundUp a x mod a = 0 ->
  roundUp 8 (roundUp a x) = roundUp a x \/ 8 mod a = 0.
Proof.
  intros Ha [H | H] _ Hm; [left | right; exact H].
  assert (H8 : roundUp a x mod 8 = 0).
  { apply Z.mod_divide; [lia |].
    apply Z.divide_trans with a; apply Z.mod_divide; lia || assumption. }
  unfold roundUp at 1.
  apply Z.mod_divide in H8; [| lia]. destruct H8 as [q Hq]. rewrite Hq.
  replace (q * 8 + 8 - 1) with (7 + q * 8) by lia.
  rewrite Z.div_add by lia. rewrite (Z.div_small 7 8) by lia. lia.
Qed.

Lemma roundUp_twice_aligned (a x : Z) :
  0 < a -> 0 <= x -> (a mod 8 = 0 \/ 8 mod a = 0) ->
  roundUp 8 (roundUp a x) mod a = 0.
Proof.
  intros Ha Hx Hd.
  destruct (roundUp_bounds a x Ha Hx) as [[B1 B2] B3].
  destruct (roundUp_bounds 8 (roundUp a x) ltac:(lia) ltac:(lia)) as [_ C3].
  destruct (multiple_of_both a x Ha Hd C3 B3) as [E | E].
  - rewrite E. exact B3.
  - apply Z.mod_divide; [lia |].
    apply Z.divide_trans with 8; apply Z.mod_divide; lia || assumption.
Qed.

Lemma getStackBaseOffset_value (g : Z) (l : list StackAllocation) :
  let a := match l with [] => 1 | first :: _ => alignment first end in
  0 <= g -> 0 < a -> g + a + 8 < SIZE_MODULUS ->
  getStackBaseOffset g l = roundUp 8 (roundUp a g).
Proof.
  intros a Hg Ha Hb. unfold getStackBaseOffset. fold a.
  rewrite (wrapped_roundUp a g Ha Hg) by lia.
  destruct (roundUp_bounds a g Ha Hg) as [[B1 B2] _].
  apply wrapped_roundUp; lia.
Qed.

(** X5.  [getStackBaseOffset] is the global data offset rounded up to the
    alignment of the first stack allocation and then to 8 bytes: it is a
    multiple of 8, not below the global data offset and less than the
    alignment plus 8 above it.  It is a multiple of that alignment as well
    when the alignment divides 8 or is a multiple of 8. *)
Theorem getStackBaseOffset_aligned :
  forall (globalDataOffset : Z) (l : list StackAllocation),
    let maxAlignment := match l with [] => 1 | first :: _ => alignment first end in
    0 <= globalDataOffset ->
    0 < maxAlignment ->
    globalDataOffset + maxAlignment + 8 < SIZE_MODULUS ->
    getStackBaseOffset globalDataOffset l mod 8 = 0
    /\ globalDataOffset <= getStackBaseOffset globalDataOffset l
       < globalDataOffset + maxAlignment + 8
    /\ (maxAlignment mod 8 = 0 \/ 8 mod maxAlignment = 0 ->
        getStackBaseOffset globalDataOffset l mod maxAlignment = 0).
Proof.
  intros g l a Hg Ha Hb.
  rewrite (getStackBaseOffset_value g l Hg Ha Hb). fold a.
  destruct (roundUp_bounds a g Ha Hg) as [[B1 B2] _].
  destruct (roundUp_bounds 8 (roundUp a g) ltac:(lia) ltac:(lia)) as [[C1 C2] C3].
  split; [exact C3 | split; [lia |]].
  intros Hd. apply roundUp_twice_aligned; assumption.
Qed.

Lemma getStackBaseOffset_aligned_witness :
  getStackBaseOffset 100 exampleLaidOut = 112
  /\ getStackBaseOffset 100 exampleLaidOut mod 8 = 0
  /\ 100 <= getStackBaseOffset 100 exampleLaidOut < 100 + 16 + 8
  /\ (16 mod 8 = 0 \/ 8 mod 16 = 0 -> getStackBaseOffset 100 exampleLaidOut mod 16 = 0).
Proof.
  split; [reflexivity |].
  apply (getStackBaseOffset_aligned 100 exampleLaidOut); [lia | reflexivity | reflexivity].
Defined.

(** ** The layout and the size of the frame *)

Lemma budgetOf_le_budget (lowered : bool) (l : list StackAllocation) :
  Forall wellFormed l -> budgetOf lowered l <= budget l.
Proof.
  intros H. rewrite budget_split.
  pose proof (budgetOf_nonneg false l H). pose proof (budgetOf_nonneg true l H).
  destruct lowered; lia.
Qed.

Lemma largestAlignment_le_budget (l : list StackAllocation) :
  Forall wellFormed l -> 1 <= largestAlignment l <= budget l + 1.
Proof.
  unfold budget, largestAlignment.
  induction 1 as [| s rest [Hs Ha] _ IH]; cbn [fold_right]; lia.
Qed.

Lemma largestAlignment_sameShape (l k : list StackAllocation) :
  Forall2 sameShape l k -> largestAlignment k = largestAlignment l.
Proof.
  induction 1 as [| a b l k (_ & _ & N3 & _) _ IH]; simpl; [reflexivity |].
  rewrite N3, IH. reflexivity.
Qed.

Lemma largestAlignmentFirst_sameShape (l k : list StackAllocation) :
  Forall2 sameShape l k -> largestAlignmentFirst l -> largestAlignmentFirst k.
Proof.
  intros H. destruct H as [| a b l k Hab H]; [trivial |].
  unfold largestAlignmentFirst. intros Hl.
  assert (HF : Forall2 sameShape (a :: l) (b :: k)) by (constructor; assumption).
  destruct Hab as (_ & _ & N3 & _). rewrite N3. clear N3.
  induction HF as [| x y l' k' (_ & _ & M3 & _) _ IH]; [constructor |].
  inversion Hl; subst. constructor; [lia | apply IH; assumption].
Qed.

Lemma wellFormed_sameShape (l k : list StackAllocation) :
  Forall2 sameShape l k -> Forall wellFormed l -> Forall wellFormed k.
Proof.
  induction 1 as [| a b l k (_ & N2 & N3 & _) _ IH]; intros Hwf; [constructor |].
  inversion Hwf as [| ? ? [W1 W2] Wrest]; subst.
  constructor; [split; lia | apply IH; exact Wrest].
Qed.

Lemma highestEnd_le (l : list StackAllocation) (hi : Z) :
  0 <= hi ->
  (forall a, In a l -> isLowered a = false -> offset a + size a <= hi) ->
  highestEnd l <= hi.
Proof.
  intros Hhi. induction l as [| s rest IH]; simpl; intros H; [exact Hhi |].
  assert (IH' : highestEnd rest <= hi) by (apply IH; intros a Ha; apply H; right; exact Ha).
  destruct (isLowered s) eqn:E; [exact IH' |].
  pose proof (H s (or_introl eq_refl) E). lia.
Qed.

(** What the two passes leave: the allocations that are not lowered lie one
    after the other from 0 to [c1], the lowered ones from [c1] to [c2]. *)
Lemma calculateStackOffsets_layout (g : Z) (l : list StackAllocation) :
  0 <= g -> Forall wellFormed l ->
  getStackBaseOffset g l + budget l < SIZE_MODULUS ->
  exists c1 c2,
    chained false (getStackBaseOffset g l) 0 (calculateStackOffsets g l) c1
    /\ chained true (getStackBaseOffset g l) c1 (calculateStackOffsets g l) c2
    /\ 0 <= c1 <= budgetOf false l.
Proof.
  intros Hg Hwf Hbound.
  pose proof (getStackBaseOffset_nonneg g l Hg) as Hb.
  pose proof (budget_split l) as Hsplit.
  pose proof (budgetOf_nonneg false l Hwf) as Hn0.
  pose proof (budgetOf_nonneg true l Hwf) as Hn1.
  unfold calculateStackOffsets.
  set (base := getStackBaseOffset g l) in *.
  destruct (layoutPass_spec false base Hb l 0 ltac:(lia) Hwf ltac:(lia))
    as (S1 & C1 & B1).
  destruct (layoutPass false base 0 l) as [l1 c1]. cbn [fst snd] in S1, C1, B1.
  pose proof (sameButOffset_wellFormed _ _ _ S1 Hwf) as Hwf1.
  pose proof (chained_le _ _ _ Hwf1 _ _ C1) as Hc1.
  pose proof (sameButOffset_budgetOf false true _ _ S1) as Hbud.
  destruct (layoutPass_spec true base Hb l1 c1 Hc1 Hwf1 ltac:(lia))
    as (S2 & C2 & B2).
  exists c1, (snd (layoutPass true base c1 l1)).
  split; [exact (chained_preserved false base l1 _ S2 _ _ C1) | split; [exact C2 | lia]].
Qed.

Lemma calculateStackSize_rounds (l : list StackAllocation) :
  Forall wellFormed l ->
  Forall (fun s => 0 <= offset s) l ->
  largestAlignmentFirst l ->
  highestEnd l + largestAlignment l + 8 < SIZE_MODULUS ->
  calculateStackSize l =
    (if forallb isLowered l then 0
     else roundUp 8 (roundUp (largestAlignment l) (highestEnd l))).
Proof.
  intros Hwf Hoff Hfirst Hbound.
  destruct l as [| first rest]; [reflexivity |].
  assert (Hfa : 0 < alignment first)
    by (inversion Hwf as [| ? ? [_ W] _]; exact W).
  rewrite (largestAlignment_first first rest Hfa Hfirst) in *.
  pose proof (highestEnd_nonneg (first :: rest)) as Hnn.
  assert (Hrange : Forall endInRange (first :: rest)).
  { apply Forall_forall. intros s Hin Hl.
    pose proof (highestEnd_upper _ _ Hin Hl) as Hup.
    rewrite Forall_forall in Hwf, Hoff.
    destruct (Hwf s Hin) as [W1 W2]. specialize (Hoff s Hin). cbn beta in Hoff. lia. }
  pose proof (findHighest_spec _ Hrange None ltac:(discriminate)) as Hspec.
  unfold calculateStackSize.
  destruct (findHighest None (first :: rest)) as [r |].
  - destruct Hspec as (Lr & Er & Hnot). rewrite (Hnot eq_refl), Lr.
    cbn [endOf] in Er. rewrite Z.max_r in Er by lia. rewrite Er.
    set (h := highestEnd (first :: rest)) in *.
    rewrite (wrapSize_small h) by lia.
    rewrite (wrapped_roundUp (alignment first) h Hfa Hnn) by lia.
    destruct (roundUp_bounds (alignment first) h Hfa Hnn) as [[B1 B2] _].
    apply wrapped_roundUp; lia.
  - destruct Hspec as [_ Hall]. rewrite Hall. reflexivity.
Qed.

Lemma calculateStackSize_after_layout (g : Z) (l : list StackAllocation) :
  0 <= g -> Forall wellFormed l -> largestAlignmentFirst l ->
  getStackBaseOffset g l + 2 * budget l + 9 < SIZE_MODULUS ->
  Forall wellFormed (calculateStackOffsets g l)
  /\ (exists c1,
        chained false (getStackBaseOffset g l) 0 (calculateStackOffsets g l) c1)
  /\ calculateStackSize (calculateStackOffsets g l)
     = (if forallb isLowered (calculateStackOffsets g l) then 0
        else roundUp 8 (roundUp (largestAlignment l)
                                (highestEnd (calculateStackOffsets g l))))
  /\ highestEnd (calculateStackOffsets g l) <= budget l.
Proof.
  intros Hg Hwf Hfirst Hbound.
  pose proof (getStackBaseOffset_nonneg g l Hg) as Hb.
  pose proof (calculateStackOffsets_shape g l) as Hshape.
  pose proof (wellFormed_sameShape _ _ Hshape Hwf) as Hwfr.
  pose proof (largestAlignment_le_budget l Hwf) as HA.
  pose proof (budgetOf_le_budget false l Hwf) as HB.
  destruct (calculateStackOffsets_layout g l Hg Hwf ltac:(lia)) as (c1 & c2 & C1 & C2 & Hc1).
  set (r := calculateStackOffsets g l) in *.
  assert (Hhi : highestEnd r <= c1).
  { apply highestEnd_le; [lia |]. intros a Ha La.
    destruct (chained_In _ _ _ Hwfr _ _ _ C1 Ha La) as (_ & A2 & _). exact A2. }
  split; [exact Hwfr | split; [exists c1; exact C1 | split; [| lia]]].
  rewrite <- (largestAlignment_sameShape _ _ Hshape).
  apply calculateStackSize_rounds.
  - exact Hwfr.
  - apply Forall_forall. intros a Ha. destruct (isLowered a) eqn:La.
    + destruct (chained_In _ _ _ Hwfr _ _ _ C2 Ha La) as (A1 & _). lia.
    + destruct (chained_In _ _ _ Hwfr _ _ _ C1 Ha La) as (A1 & _). lia.
  - exact (largestAlignmentFirst_sameShape _ _ Hshape Hfirst).
  - rewrite (largestAlignment_sameShape _ _ Hshape). lia.
Qed.

(** X6.  The stack size computed after [calculateStackOffsets] holds the
    frame: every allocation that is not lowered lies between 0 and
    [calculateStackSize], which is a multiple of 8 and, when the largest
    alignment divides 8 or is a multiple of 8, of the largest alignment, so
    that the frame of the next QPU is aligned like the first one.  The
    container keeps the allocation with the largest alignment first. *)
Theorem calculateStackSize_holds_frame :
  forall (globalDataOffset : Z) (l : list StackAllocation),
    0 <= globalDataOffset ->
    Forall wellFormed l ->
    largestAlignmentFirst l ->
    getStackBaseOffset globalDataOffset l + 2 * budget l + 9 < SIZE_MODULUS ->
    (forall a, In a (calculateStackOffsets globalDataOffset l) ->
               isLowered a = false ->
               0 <= offset a
               /\ offset a + size a
                  <= calculateStackSize (calculateStackOffsets globalDataOffset l))
    /\ calculateStackSize (calculateStackOffsets globalDataOffset l) mod 8 = 0
    /\ (largestAlignment l mod 8 = 0 \/ 8 mod largestAlignment l = 0 ->
        calculateStackSize (calculateStackOffsets globalDataOffset l)
          mod largestAlignment l = 0).
Proof.
  intros g l Hg Hwf Hfirst Hbound.
  destruct (calculateStackSize_after_layout g l Hg Hwf Hfirst Hbound)
    as (Hwfr & (c1 & C1) & ES & Hhi).
  pose proof (largestAlignment_le_budget l Hwf) as HA.
  set (r := calculateStackOffsets g l) in *.
  pose proof (highestEnd_nonneg r) as Hnn.
  destruct (roundUp_bounds (largestAlignment l) (highestEnd r) ltac:(lia) Hnn)
    as [[B1 B2] B3].
  destruct (roundUp_bounds 8 (roundUp (largestAlignment l) (highestEnd r))
              ltac:(lia) ltac:(lia)) as [[D1 D2] D3].
  split; [| split].
  - intros a Ha La.
    destruct (chained_In _ _ _ Hwfr _ _ _ C1 Ha La) as (A1 & _ & _).
    split; [exact A1 |].
    pose proof (highestEnd_upper _ _ Ha La) as Hup.
    rewrite ES. destruct (forallb isLowered r) eqn:Eall; [| lia].
    rewrite forallb_forall in Eall. rewrite (Eall a Ha) in La. discriminate.
  - rewrite ES. destruct (forallb isLowered r); [reflexivity | exact D3].
  - intros Hd. rewrite ES. destruct (forallb isLowered r).
    + apply Z.mod_0_l. lia.
    + apply roundUp_twice_aligned; [lia | exact Hnn | exact Hd].
Qed.

Lemma calculateStackSize_holds_frame_witness :
  calculateStackSize (calculateStackOffsets 100 exampleLaidOut) = 32
  /\ (forall a, In a (calculateStackOffsets 100 exampleLaidOut) ->
                isLowered a = false ->
                0 <= offset a
                /\ offset a + size a
                   <= calculateStackSize (calculateStackOffsets 100 exampleLaidOut)).
Proof.
  split; [reflexivity |].
  apply (calculateStackSize_holds_frame 100 exampleLaidOut).
  - lia.
  - repeat constructor; simpl; lia.
  - repeat constructor; simpl; lia.
  - vm_compute; reflexivity.
Defined.

(** ** The addresses on the QPUs *)

Lemma wrap32_small (z : Z) : 0 <= z < WORD -> wrap32 z = z.
Proof. intros H. unfold wrap32. apply Z.mod_small. exact H. Qed.

Lemma stackAddress_value (gda q S base : Z) (a : StackAllocation) :
  0 <= gda -> 0 <= base -> 0 <= offset a -> 0 <= S < 2 ^ 24 -> 0 <= q < 2 ^ 24 ->
  gda + base + q * S + offset a < WORD ->
  stackAddress gda q S base a = gda + base + q * S + offset a.
Proof.
  intros Hg Hb Ho HS Hq Hfit.
  assert (HW : WORD = 2 ^ 32) by reflexivity.
  assert (HM : SIZE_MODULUS = 2 ^ 64) by reflexivity.
  assert (Hqs : 0 <= q * S) by nia.
  unfold stackAddress, add32, mul24.
  rewrite (wrap32_small S) by lia.
  rewrite (Z.mod_small q) by lia. rewrite (Z.mod_small S) by lia.
  rewrite (wrap32_small (q * S)) by lia.
  rewrite (wrap32_small (q * S + gda)) by lia.
  rewrite (wrapSize_small (offset a + base)) by lia.
  rewrite (wrap32_small (offset a + base)) by lia.
  rewrite wrap32_small by lia. lia.
Qed.

(** X7.  The addresses that [resolveStackAllocation] computes keep the
    stack objects apart.  The conditions are those of the layout (offsets
    and addresses that are not negative, allocations with a size and a
    positive alignment, the allocation with the largest alignment first,
    a layout that stays within [size_t]) and three on the sizes: the stack
    size of one QPU is below [2 ^ 24] bytes ([mul24] multiplies the low 24
    bits of its operands only), there are at most [2 ^ 24] QPUs, and the
    frames of all QPUs end below [2 ^ 32], the global data address and the
    stack base included.  Then the address of an allocation that is not
    lowered is the global data address plus the stack base plus the QPU
    number times the stack size plus the offset of the allocation, and the
    bytes of two such allocations do not overlap unless both the QPU and
    the allocation are the same. *)
Theorem stackAddress_apart :
  forall (globalDataOffset globalDataAddress numQPUs : Z) (l : list StackAllocation),
    let r := calculateStackOffsets globalDataOffset l in
    let stackBaseOffset := getStackBaseOffset globalDataOffset r in
    let maximumStackSize := calculateStackSize r in
    0 <= globalDataOffset ->
    0 <= globalDataAddress ->
    Forall wellFormed l ->
    largestAlignmentFirst l ->
    getStackBaseOffset globalDataOffset l + 2 * budget l + 9 < SIZE_MODULUS ->
    maximumStackSize < 2 ^ 24 ->
    numQPUs <= 2 ^ 24 ->
    globalDataAddress + stackBaseOffset + numQPUs * maximumStackSize < WORD ->
    forall q1 q2 i j a b,
      0 <= q1 < numQPUs -> 0 <= q2 < numQPUs ->
      nth_error r i = Some a -> nth_error r j = Some b ->
      isLowered a = false -> isLowered b = false ->
      stackAddress globalDataAddress q1 maximumStackSize stackBaseOffset a
      = globalDataAddress + stackBaseOffset + q1 * maximumStackSize + offset a
      /\ (q1 <> q2 \/ i <> j ->
          apart (stackAddress globalDataAddress q1 maximumStackSize stackBaseOffset a)
                (size a)
                (stackAddress globalDataAddress q2 maximumStackSize stackBaseOffset b)
                (size b)).
Proof.
  intros g gda n l r base S Hg Hgda Hwf Hfirst Hbound HS Hn Hfit
         q1 q2 i j a b Hq1 Hq2 Hi Hj La Lb.
  pose proof (calculateStackOffsets_shape g l) as Hshape. fold r in Hshape.
  assert (Ebase : base = getStackBaseOffset g l).
  { unfold base. symmetry. apply getStackBaseOffset_sameShape. exact Hshape. }
  pose proof (getStackBaseOffset_nonneg g l Hg) as Hb. rewrite <- Ebase in Hb.
  destruct (calculateStackSize_after_layout g l Hg Hwf Hfirst Hbound)
    as (Hwfr & (c1 & C1) & _ & _).
  destruct (calculateStackSize_holds_frame g l Hg Hwf Hfirst Hbound) as (Hin & _ & _).
  fold r in Hwfr, C1, Hin. fold S in Hin.
  pose proof (nth_error_In _ _ Hi) as Ia. pose proof (nth_error_In _ _ Hj) as Ib.
  destruct (Hin a Ia La) as [Oa Ea]. destruct (Hin b Ib Lb) as [Ob Eb].
  assert (Wa : 0 <= size a) by (rewrite Forall_forall in Hwfr; apply (Hwfr a Ia)).
  assert (Wb : 0 <= size b) by (rewrite Forall_forall in Hwfr; apply (Hwfr b Ib)).
  assert (HS0 : 0 <= S) by lia.
  assert (F1 : (q1 + 1) * S <= n * S) by nia.
  assert (F2 : (q2 + 1) * S <= n * S) by nia.
  assert (Va : stackAddress gda q1 S base a = gda + base + q1 * S + offset a)
    by (apply stackAddress_value; lia).
  assert (Vb : stackAddress gda q2 S base b = gda + base + q2 * S + offset b)
    by (apply stackAddress_value; lia).
  split; [exact Va |].
  intros Hne. rewrite Va, Vb. unfold apart.
  destruct (Z.lt_trichotomy q1 q2) as [Lt | [Eq | Gt]].
  - left. assert ((q1 + 1) * S <= q2 * S) by nia. lia.
  - subst q2. destruct Hne as [Hne | Hne]; [congruence |].
    destruct (Nat.lt_ge_cases i j) as [Lij | Gij].
    + pose proof (chained_ordered _ _ _ Hwfr _ _ _ _ _ _ C1 Lij Hi Hj La Lb). left. lia.
    + assert (Lji : (j < i)%nat) by lia.
      pose proof (chained_ordered _ _ _ Hwfr _ _ _ _ _ _ C1 Lji Hj Hi Lb La). right. lia.
  - right. assert ((q2 + 1) * S <= q1 * S) by nia. lia.
Qed.

Lemma stackAddress_apart_witness :
  calculateStackSize (calculateStackOffsets 100 exampleLaidOut) = 32
  /\ forall q1 q2 i j a b,
    0 <= q1 < 12 -> 0 <= q2 < 12 ->
    nth_error (calculateStackOffsets 100 exampleLaidOut) i = Some a ->
    nth_error (calculateStackOffsets 100 exampleLaidOut) j = Some b ->
    isLowered a = false -> isLowered b = false ->
    stackAddress 4096 q1 32 112 a = 4096 + 112 + q1 * 32 + offset a
    /\ (q1 <> q2 \/ i <> j ->
        apart (stackAddress 4096 q1 32 112 a) (size a)
              (stackAddress 4096 q2 32 112 b) (size b)).
Proof.
  split; [reflexivity |].
  apply (stackAddress_apart 100 4096 12 exampleLaidOut).
  - lia.
  - lia.
  - repeat constructor; simpl; lia.
  - repeat constructor; simpl; lia.
  - vm_compute; reflexivity.
  - vm_compute; reflexivity.
  - lia.
  - vm_compute; reflexivity.
Defined.

End StackFramesFacts.

(** ** KernelMetaData.h: the implicit UNIFORMs and the instances *)

Module KernelLimitsFacts.

Local Open Scope N_scope.
Import KernelMetaData.
Import KernelMetaDataFacts.
Import KernelLimits.

Lemma wrap32_bound (n : N) : wrap32 n < 2 ^ 32.
Proof. unfold wrap32. apply N.mod_lt. discriminate. Qed.

Lemma wrap32_id (n : N) : n < 2 ^ 32 -> wrap32 n = n.
Proof. intros H. unfold wrap32. apply N.mod_small. exact H. Qed.

Lemma getFixedWorkGroupSize_bound (md : KernelMetaData) (s : N) :
  getFixedWorkGroupSize md = Some s -> s < 2 ^ 32.
Proof.
  unfold getFixedWorkGroupSize. destruct (any_positive _); [| discriminate].
  intros [= <-]. rewrite accumulate_mul_product. apply wrap32_bound.
Qed.

(** The rounded-up quotient of the source. *)
Lemma ceiling_quotient (s f : N) :
  1 <= f ->
  let c := s / f + (if s mod f =? 0 then 0 else 1) in
  s <= c * f /\ c * f < s + f /\ c <= s.
Proof.
  intros Hf c. subst c.
  pose proof (N.div_mod s f ltac:(lia)) as Hd.
  pose proof (N.mod_lt s f ltac:(lia)) as Hm.
  destruct (N.eqb_spec (s mod f) 0) as [E | E];
    set (r := s mod f) in *; set (q := s / f) in *; clearbody r q; nia.
Qed.

(** X8.  [getMaximumInstancesCount] is the fixed work-group size divided by
    the merge factor (taken as 1 when it is 0), rounded up, without any
    wrap-around: the instances times the factor cover the work-items of the
    group with less than one factor to spare.  Without a fixed size it is
    the number of QPUs.  In both cases the instances times the factor cover
    [getMaximumWorkGroupSize]. *)
Theorem getMaximumInstancesCount_rounds_up :
  forall (NUM_QPUS : N) (md : KernelMetaData),
    let factor := N.max (mergedWorkItemsFactor md) 1 in
    let count := getMaximumInstancesCount NUM_QPUS md in
    match getFixedWorkGroupSize md with
    | Some fixedSize =>
        fixedSize <= count * factor /\ count * factor < fixedSize + factor
        /\ count <= fixedSize
    | None => count = NUM_QPUS
    end
    /\ getMaximumWorkGroupSize NUM_QPUS md <= count * factor.
Proof.
  intros q md factor count. subst count.
  unfold getMaximumInstancesCount, getMaximumWorkGroupSize. fold factor.
  assert (Hf : 1 <= factor) by (unfold factor; lia).
  destruct (getFixedWorkGroupSize md) as [s |] eqn:E.
  - pose proof (getFixedWorkGroupSize_bound _ _ E) as Hs.
    destruct (ceiling_quotient s factor Hf) as (C1 & C2 & C3).
    rewrite wrap32_id by lia. repeat split; assumption.
  - split; [reflexivity |]. unfold wrap32.
    apply N.Div0.mod_le.
Qed.

End KernelLimitsFacts.

(** ** optimization/Eliminator.cpp: the masks of the shifts *)

Module BitOpsFacts.

Local Open Scope Z_scope.
Import BitOps.

Lemma wrap32_word (z : Z) : isWord z -> wrap32 z = z.
Proof. intros H. unfold wrap32. apply Z.mod_small. exact H. Qed.

Lemma low_five_bits (z : Z) : 0 <= Z.land z 31 <= 31.
Proof.
  change 31 with (Z.ones 5) at 1 2. rewrite Z.land_ones by lia.
  pose proof (Z.mod_pos_bound z (2 ^ 5) ltac:(lia)). lia.
Qed.

Lemma shiftedBits_value (lit : Z) :
  isWord lit -> shiftedBits lit = 32 - Z.land lit 31.
Proof.
  intros H. unfold shiftedBits. rewrite (wrap32_word lit H).
  pose proof (low_five_bits lit). apply wrap32_word. unfold isWord, UINT32. lia.
Qed.

Lemma pow2_word (n : Z) : 0 <= n < 32 -> 0 < 2 ^ n < UINT32.
Proof.
  intros H. unfold UINT32. split; [apply Z.pow_pos_nonneg; lia |].
  apply Z.pow_lt_mono_r; lia.
Qed.

(** The mask of [n] shifted bits is [2^n - 1]. *)
Lemma mask_ones (n : Z) :
  0 <= n < 32 -> wrap32 (wrap32 (Z.shiftl 1 n) - 1) = Z.ones n.
Proof.
  intros H. pose proof (pow2_word n H) as Hp.
  rewrite Z.shiftl_1_l. rewrite (wrap32_word (2 ^ n)) by (unfold isWord; lia).
  rewrite Z.ones_equiv, <- Z.sub_1_r. apply wrap32_word. unfold isWord. lia.
Qed.

Lemma shrMask_ones (lit : Z) :
  isWord lit -> shrMask lit = Z.ones (32 - Z.land lit 31).
Proof.
  intros H. unfold shrMask. cbv zeta. rewrite (shiftedBits_value lit H).
  pose proof (low_five_bits lit) as Hk.
  destruct (Z.eqb_spec (32 - Z.land lit 31) 32) as [E | E].
  - rewrite E. reflexivity.
  - apply mask_ones. lia.
Qed.

(** X9.  The rewrite of [(a << k) >> k] to [a & mask] in
    [eliminateRedundantBitOp] keeps the value: with the mask the code
    computes from the offset, a logical right shift of a logical left shift
    by the same offset is the conjunction of the input with the mask, for
    every 32-bit input and offset. *)
Theorem shrMask_sound :
  forall a lit : Z,
    isWord a -> isWord lit ->
    shr32 (shl32 a lit) lit = and32 a (shrMask lit).
Proof.
  intros a lit Ha Hl. rewrite (shrMask_ones lit Hl).
  unfold shr32, shl32, and32, wrap32, UINT32.
  pose proof (low_five_bits lit) as Hk. set (k := Z.land lit 31) in *.
  rewrite Z.land_ones by lia.
  rewrite Z.shiftl_mul_pow2, Z.shiftr_div_pow2 by lia.
  assert (Hp : 0 < 2 ^ k) by (apply Z.pow_pos_nonneg; lia).
  assert (Hq : 0 < 2 ^ (32 - k)) by (apply Z.pow_pos_nonneg; lia).
  replace (2 ^ 32) with (2 ^ (32 - k) * 2 ^ k)
    by (rewrite <- Z.pow_add_r by lia; f_equal; lia).
  rewrite Z.mul_mod_distr_r by lia.
  apply Z.div_mul. lia.
Qed.

Lemma shrMask_sound_witness :
  shrMask 24 = 255 /\ shr32 (shl32 4660 24) 24 = and32 4660 (shrMask 24).
Proof.
  split; [reflexivity |].
  apply (shrMask_sound 4660 24); unfold isWord, UINT32; lia.
Defined.

(** A positive value without a bit in common with its predecessor is a
    power of two. *)
Lemma isPowerTwo_pow2 (v : Z) :
  isPowerTwo v = true -> exists j, 0 <= j /\ v = 2 ^ j.
Proof.
  unfold isPowerTwo. intros H. apply andb_prop in H. destruct H as [Hpos Hland].
  apply Z.ltb_lt in Hpos. apply Z.eqb_eq in Hland.
  exists (Z.log2 v). pose proof (Z.log2_nonneg v) as Hj. split; [exact Hj |].
  destruct (Z.log2_spec v Hpos) as [Hlo Hhi].
  destruct (Z.eq_dec v (2 ^ Z.log2 v)) as [E | E]; [exact E | exfalso].
  assert (Hlog : Z.log2 (v - 1) = Z.log2 v).
  { apply Z.log2_unique; [exact Hj | lia]. }
  assert (B1 : Z.testbit v (Z.log2 v) = true) by (apply Z.bit_log2; exact Hpos).
  assert (B2 : Z.testbit (v - 1) (Z.log2 v) = true).
  { rewrite <- Hlog. apply Z.bit_log2.
    pose proof (Z.pow_pos_nonneg 2 (Z.log2 v) ltac:(lia) Hj). lia. }
  assert (B : Z.testbit (Z.land v (v - 1)) (Z.log2 v) = true)
    by (rewrite Z.land_spec, B1, B2; reflexivity).
  rewrite Hland, Z.bits_0 in B. discriminate.
Qed.

Lemma coveredBy_ones (mask otherLit : Z) :
  isWord otherLit -> coveredBy mask otherLit = true ->
  otherLit <= mask /\ exists j, 0 <= j /\ otherLit = Z.ones j.
Proof.
  unfold coveredBy. intros Ho H. apply andb_prop in H. destruct H as [Hp Hle].
  apply Z.leb_le in Hle. split; [exact Hle |].
  unfold isWord, UINT32 in Ho.
  destruct (Z.eq_dec otherLit (2 ^ 32 - 1)) as [E | E].
  - rewrite E in Hp. vm_compute in Hp. discriminate.
  - rewrite wrap32_word in Hp by (unfold isWord, UINT32; lia).
    destruct (isPowerTwo_pow2 _ Hp) as (j & Hj & Ej).
    exists j. split; [exact Hj |]. rewrite Z.ones_equiv, <- Ej. lia.
Qed.

Lemma mod_pow2_drop (x j n : Z) :
  0 <= j <= n -> (x - 2 ^ n) mod 2 ^ j = x mod 2 ^ j.
Proof.
  intros H.
  replace (2 ^ n) with (2 ^ (n - j) * 2 ^ j)
    by (rewrite <- Z.pow_add_r by lia; f_equal; lia).
  replace (x - 2 ^ (n - j) * 2 ^ j) with (x + (- 2 ^ (n - j)) * 2 ^ j) by lia.
  apply Z.mod_add. pose proof (Z.pow_pos_nonneg 2 j ltac:(lia) ltac:(lia)). lia.
Qed.

Lemma wrap_mod_pow2 (x j : Z) :
  0 <= j <= 32 -> (x mod 2 ^ 32) mod 2 ^ j = x mod 2 ^ j.
Proof.
  intros H.
  assert (P : 2 ^ 32 = 2 ^ (32 - j) * 2 ^ j)
    by (rewrite <- Z.pow_add_r by lia; f_equal; lia).
  pose proof (Z.pow_pos_nonneg 2 j ltac:(lia) ltac:(lia)) as Hp.
  pose proof (Z.pow_pos_nonneg 2 (32 - j) ltac:(lia) ltac:(lia)) as Hq.
  rewrite P. set (b := 2 ^ (32 - j) * 2 ^ j).
  assert (E : x mod b = x + (- (2 ^ (32 - j) * (x / b))) * 2 ^ j).
  { rewrite (Z.mod_eq x b) by (unfold b; lia). unfold b. ring. }
  rewrite E. apply Z.mod_add. lia.
Qed.

(** X10.  The rewrite of an arithmetic right shift to a logical one in
    [eliminateRedundantBitOp] keeps what its readers see: when the mask of
    the shift is defined and a reader masks the shifted value with a
    constant that passes the test of the code (one less than a power of two
    and not above the mask), the conjunction of the constant with the
    arithmetic shift and with the logical shift are the same, for every
    32-bit input. *)
Theorem asrMask_sound :
  forall x lit mask otherLit : Z,
    isWord x -> isWord lit -> isWord otherLit ->
    asrMask lit = Some mask ->
    coveredBy mask otherLit = true ->
    and32 (asr32 x lit) otherLit = and32 (shr32 x lit) otherLit.
Proof.
  intros x lit mask otherLit Hx Hl Ho Hmask Hcov.
  unfold asrMask in Hmask. cbv zeta in Hmask.
  rewrite (shiftedBits_value lit Hl) in Hmask.
  pose proof (low_five_bits lit) as Hk. set (k := Z.land lit 31) in *.
  destruct (Z.ltb_spec (32 - k) 32) as [Hlt | Hge]; [| discriminate].
  rewrite mask_ones in Hmask by lia.
  assert (Em : mask = Z.ones (32 - k)) by congruence. clear Hmask. subst mask.
  destruct (coveredBy_ones _ _ Ho Hcov) as (Hle & j & Hj & ->).
  assert (Hjk : j <= 32 - k).
  { rewrite !Z.ones_equiv in Hle.
    apply (Z.pow_le_mono_r_iff 2); lia. }
  unfold and32, asr32, shr32, signed32, wrap32, UINT32. fold k.
  rewrite !Z.land_ones by exact Hj.
  rewrite !Z.shiftr_div_pow2 by lia.
  rewrite wrap_mod_pow2 by lia.
  destruct (x <? 2 ^ 31); [reflexivity |].
  assert (Hp : 0 < 2 ^ k) by (apply Z.pow_pos_nonneg; lia).
  replace (x - 2 ^ 32) with (x + (- 2 ^ (32 - k)) * 2 ^ k).
  - rewrite Z.div_add by lia.
    replace (x / 2 ^ k + - 2 ^ (32 - k)) with (x / 2 ^ k - 2 ^ (32 - k)) by lia.
    apply mod_pow2_drop. lia.
  - replace (2 ^ 32) with (2 ^ (32 - k) * 2 ^ k)
      by (rewrite <- Z.pow_add_r by lia; f_equal; lia).
    lia.
Qed.

Lemma asrMask_sound_witness :
  asrMask 8 = Some 16777215
  /\ asr32 4278190335 8 <> shr32 4278190335 8
  /\ and32 (asr32 4278190335 8) 65535 = and32 (shr32 4278190335 8) 65535.
Proof.
  split; [reflexivity | split; [vm_compute; discriminate |]].
  apply (asrMask_sound 4278190335 8 16777215 65535);
    first [reflexivity | unfold isWord, UINT32; lia].
Defined.

End BitOpsFacts.

(** ** Method.cpp: inserting blocks and instructions *)

Module MethodEditFacts.

Import IR.
Import DeadCodeInvariants.
Import MethodEdit.

Lemma moveInstructions_app (fromCursor newInstructions : list (option Instruction)) :
  moveInstructions fromCursor newInstructions = newInstructions ++ fromCursor.
Proof.
  revert newInstructions. induction fromCursor as [| i rest IH]; intros n; cbn [moveInstructions].
  - symmetry. apply app_nil_r.
  - rewrite IH, <- app_assoc. reflexivity.
Qed.

Lemma nth_error_split {A : Type} (l : list A) (i : nat) (x : A) :
  nth_error l i = Some x -> l = firstn i l ++ x :: skipn (S i) l.
Proof.
  revert i. induction l as [| a l IH]; intros [| i] H; cbn in *; try discriminate.
  - injection H as ->. reflexivity.
  - f_equal. apply IH. exact H.
Qed.

Lemma skipn_cons_nth {A : Type} (l : list A) (i : nat) (x : A) :
  nth_error l i = Some x -> skipn i l = x :: skipn (S i) l.
Proof.
  revert i. induction l as [| a l IH]; intros [| i] H; cbn in *; try discriminate.
  - injection H as ->. reflexivity.
  - apply IH. exact H.
Qed.

Lemma allInstructions_blocks (m : Method) (bs : list BasicBlock) :
  allInstructions (setBlocks m bs) = concat (map instructions bs).
Proof. reflexivity. Qed.

(** The instructions of the method are those before the cursor followed by
    those from the cursor on. *)
Lemma allInstructions_split (m : Method) (w : Walker) :
  allInstructions m = instructionsBefore m w ++ instructionsFrom m w.
Proof.
  unfold allInstructions, instructionsBefore, instructionsFrom, blockAt.
  destruct (nth_error (basicBlocks m) (wblock w)) as [b |] eqn:E.
  - rewrite (nth_error_split _ _ _ E) at 1.
    rewrite map_app, concat_app. cbn [map concat].
    rewrite <- (firstn_skipn (wpos w) (instructions b)) at 1.
    rewrite <- !app_assoc. reflexivity.
  - apply nth_error_None in E.
    rewrite firstn_all2 by exact E.
    rewrite skipn_all2 by lia. cbn [map concat]. rewrite !app_nil_r. reflexivity.
Qed.

Lemma nth_error_emplaceAt {A : Type} (l : list A) (i : nat) (x : A) :
  i <= List.length l -> nth_error (emplaceAt i x l) i = Some x.
Proof.
  intros H. unfold emplaceAt.
  rewrite nth_error_app2 by (rewrite length_firstn; lia).
  rewrite length_firstn, Nat.min_l by exact H. rewrite Nat.sub_diag. reflexivity.
Qed.

Lemma length_emplaceAt {A : Type} (l : list A) (i : nat) (x : A) :
  List.length (emplaceAt i x l) = S (List.length l).
Proof.
  unfold emplaceAt. rewrite <- (firstn_skipn i l) at 3.
  rewrite !length_app. cbn [List.length]. lia.
Qed.

Lemma length_split_two {A : Type} (l : list A) (i : nat) (x a b : A) :
  nth_error l i = Some x ->
  List.length (firstn i l ++ a :: b :: skipn (S i) l) = S (List.length l).
Proof.
  revert i. induction l as [| y l IH]; intros [| i] H; cbn in *; try discriminate.
  - reflexivity.
  - f_equal. apply IH. exact H.
Qed.

Lemma allLabelled_Forall (m : Method) :
  allLabelled m <-> Forall (fun b => blockLabel b <> None) (basicBlocks m).
Proof. unfold allLabelled. symmetry. apply Forall_forall. Qed.

Lemma blockLabel_newBasicBlock (a : nat) (i : option Instruction) :
  blockLabel (newBasicBlock a i) = asBranchLabel i.
Proof. destruct i as [[o | ? ? ?] |]; reflexivity. Qed.

Lemma Forall_emplaceAt {A : Type} (P : A -> Prop) (l : list A) (i : nat) (x : A) :
  P x -> Forall P l -> Forall P (emplaceAt i x l).
Proof.
  intros Hx Hl. unfold emplaceAt.
  rewrite <- (firstn_skipn i l) in Hl. apply Forall_app in Hl. destruct Hl as [H1 H2].
  apply Forall_app. split; [exact H1 | constructor; assumption].
Qed.

(** X11.  [emplaceLabel] throws exactly when the method has blocks and the
    cursor is on none of them.  Otherwise the method has one block more, the
    instructions of the method are those of before in the same order with
    the label put in at the cursor, and the cursor returned is on the label,
    at the start of the new block.  When the instruction is a label and the
    blocks started with their labels, they still do. *)
Theorem emplaceLabel_splits_block :
  forall (blockAddr : nat) (m : Method) (it : Walker) (labelInstr : option Instruction),
    (emplaceLabel blockAddr m it labelInstr = Threw
     <-> basicBlocks m <> [] /\ blockAt m it = None)
    /\ forall m' w',
         emplaceLabel blockAddr m it labelInstr = Returned (m', w') ->
         allInstructions m'
         = instructionsBefore m it ++ labelInstr :: instructionsFrom m it
         /\ List.length (basicBlocks m') = S (List.length (basicBlocks m))
         /\ get m' w' = labelInstr
         /\ isStartOfBlock w' = true
         /\ (exists b, blockAt m' w' = Some b /\ blockAddress b = blockAddr)
         /\ metaData m' = metaData m
         /\ (asBranchLabel labelInstr <> None -> allLabelled m -> allLabelled m').
Proof.
  intros a m it li. unfold emplaceLabel.
  destruct (basicBlocks m) as [| b0 rest] eqn:Ebs.
  { split.
    - split; [discriminate | intros [H _]; contradiction].
    - intros m' w' [= <- <-].
      unfold instructionsBefore, instructionsFrom, blockAt. rewrite Ebs.
      destruct (wblock it); cbn; destruct li as [i |]; repeat split; try reflexivity;
        try (eexists; split; reflexivity).
      all: intros Hl _ b [<- | []]; rewrite blockLabel_newBasicBlock; exact Hl. }
  rewrite <- Ebs. unfold blockAt.
  destruct (nth_error (basicBlocks m) (wblock it)) as [cur |] eqn:Ecur.
  2:{ split.
      - split; [intros _; split; [rewrite Ebs; discriminate | reflexivity] | reflexivity].
      - intros m' w' H. discriminate. }
  assert (Hlt : wblock it < List.length (basicBlocks m))
    by (apply nth_error_Some; rewrite Ecur; discriminate).
  split.
  { split; [destruct (isStartOfBlock it); discriminate |].
    intros [_ H]. discriminate H. }
  intros m' w' H.
  pose proof (allInstructions_split m it) as Hsplit.
  unfold instructionsBefore, instructionsFrom, blockAt in *. rewrite Ecur in *.
  destruct (isStartOfBlock it) eqn:Estart; injection H as <- <-.
  - unfold isStartOfBlock in Estart. apply Nat.eqb_eq in Estart. rewrite Estart.
    cbn [firstn skipn]. rewrite app_nil_r.
    repeat split.
    + rewrite allInstructions_blocks. unfold emplaceAt.
      rewrite (skipn_cons_nth _ _ _ Ecur).
      rewrite map_app, concat_app. reflexivity.
    + cbn [setBlocks basicBlocks]. apply length_emplaceAt.
    + unfold get, blockAt, walk; cbn [setBlocks basicBlocks wblock wpos].
      rewrite nth_error_emplaceAt by lia. reflexivity.
    + exists (newBasicBlock a li). cbn [setBlocks basicBlocks walk wblock].
      split; [apply nth_error_emplaceAt; lia | reflexivity].
    + intros Hl Hall. apply allLabelled_Forall. apply allLabelled_Forall in Hall.
      cbn [setBlocks basicBlocks]. apply Forall_emplaceAt; [| exact Hall].
      rewrite blockLabel_newBasicBlock. exact Hl.
  - rewrite moveInstructions_app.
    assert (Hlen : List.length (firstn (wblock it) (basicBlocks m)) = wblock it)
      by (rewrite length_firstn; lia).
    repeat split.
    + rewrite allInstructions_blocks, map_app, concat_app. cbn [map concat instructions].
      rewrite <- !app_assoc. reflexivity.
    + match goal with
      | |- List.length (basicBlocks (setBlocks _ ?l)) = _ =>
          change (List.length l = S (List.length (basicBlocks m)))
      end.
      exact (length_split_two _ _ _ _ _ Ecur).
    + unfold get, blockAt, walk; cbn [setBlocks basicBlocks wblock wpos].
      rewrite nth_error_app2 by lia. rewrite Hlen.
      replace (S (wblock it) - wblock it) with 1 by lia. reflexivity.
    + eexists. cbn [setBlocks basicBlocks walk wblock].
      rewrite nth_error_app2 by lia. rewrite Hlen.
      replace (S (wblock it) - wblock it) with 1 by lia. split; reflexivity.
    + intros Hl Hall. apply allLabelled_Forall. apply allLabelled_Forall in Hall.
      cbn [setBlocks basicBlocks].
      rewrite (nth_error_split _ _ _ Ecur) in Hall.
      apply Forall_app in Hall. destruct Hall as [H1 H2].
      inversion H2 as [| ? ? Hcur H3]; subst.
      apply Forall_app. split; [exact H1 |].
      constructor; [| constructor; [| exact H3]].
      * unfold isStartOfBlock in Estart. apply Nat.eqb_neq in Estart.
        unfold blockLabel in *. cbn [instructions].
        destruct (wpos it) as [| p]; [contradiction |].
        destruct (instructions cur); [exact Hcur | exact Hcur].
      * unfold blockLabel. cbn [instructions app].
        destruct li as [[o | ? ? ?] |]; exact Hl.
Qed.

Lemma emplaceLocal_name (locals : list Local) (l : Local) :
  localName (snd (emplaceLocal locals l)) = localName l.
Proof.
  unfold emplaceLocal. destruct (find _ locals) as [e |] eqn:E; [| reflexivity].
  apply find_some in E. destruct E as [_ E]. apply String.eqb_eq. exact E.
Qed.

Lemma appendToLast_instructions (bs : list BasicBlock) (i : option Instruction) :
  bs <> [] ->
  concat (map instructions (appendToLast bs i)) = concat (map instructions bs) ++ [i].
Proof.
  induction bs as [| b rest IH]; intros Hne; [contradiction |].
  destruct rest as [| b' rest'].
  - cbn [appendToLast map concat instructions]. rewrite !app_nil_r. reflexivity.
  - change (appendToLast (b :: b' :: rest') i) with (b :: appendToLast (b' :: rest') i).
    cbn [map concat]. rewrite IH by discriminate. apply app_assoc.
Qed.

Lemma appendToLast_labelled (bs : list BasicBlock) (i : option Instruction) :
  Forall (fun b => blockLabel b <> None) bs ->
  Forall (fun b => blockLabel b <> None) (appendToLast bs i).
Proof.
  induction 1 as [| b rest Hb Hrest IH]; [constructor |].
  destruct rest as [| b' rest'].
  - cbn [appendToLast]. constructor; [| constructor].
    unfold blockLabel in *. cbn [instructions].
    destruct (instructions b); [contradiction | exact Hb].
  - change (appendToLast (b :: b' :: rest') i) with (b :: appendToLast (b' :: rest') i).
    constructor; assumption.
Qed.

(** X12.  [appendToEnd] puts the instruction at the end of the method and
    changes nothing else: the instructions of the method are those of
    before followed by the new one.  Only in a method without blocks an
    instruction that is no label comes after the label of a new default
    block.  Blocks that started with their labels still do. *)
Theorem appendToEnd_appends :
  forall (blockAddr labelAddr : nat) (DEFAULT_BLOCK : string)
         (locals : list Local) (m : Method) (i : option Instruction),
    let m' := snd (appendToEnd blockAddr labelAddr DEFAULT_BLOCK locals m i) in
    match basicBlocks m, asBranchLabel i with
    | [], None =>
        exists l, localName l = DEFAULT_BLOCK
                  /\ allInstructions m' = [label labelAddr l; i]
    | _, _ => allInstructions m' = allInstructions m ++ [i]
    end
    /\ (allLabelled m -> allLabelled m')
    /\ metaData m' = metaData m.
Proof.
  intros a la D locals m i m'. subst m'.
  unfold appendToEnd, checkAndCreateDefaultBasicBlock.
  destruct (asBranchLabel i) as [l |] eqn:El.
  - cbn [snd]. split; [| split; [| reflexivity]].
    + assert (E : allInstructions (setBlocks m (basicBlocks m ++ [newBasicBlock a i]))
                  = allInstructions m ++ [i]).
      { rewrite allInstructions_blocks, map_app, concat_app. reflexivity. }
      destruct (basicBlocks m); exact E.
    + intros Hall. apply allLabelled_Forall. apply allLabelled_Forall in Hall.
      cbn [setBlocks basicBlocks]. apply Forall_app. split; [exact Hall |].
      constructor; [| constructor]. rewrite blockLabel_newBasicBlock, El. discriminate.
  - destruct (basicBlocks m) as [| b rest] eqn:Ebs.
    + pose proof (emplaceLocal_name locals (newLabelLocal D)) as Hn.
      destruct (emplaceLocal locals (newLabelLocal D)) as [locals' newLabel].
      cbn [snd] in *. split; [| split; [| reflexivity]].
      * exists newLabel. split; [exact Hn | reflexivity].
      * intros _. apply allLabelled_Forall. cbn. constructor; [discriminate | constructor].
    + cbn [snd]. rewrite Ebs. split; [| split; [| reflexivity]].
      * rewrite allInstructions_blocks, appendToLast_instructions by discriminate.
        unfold allInstructions. rewrite Ebs. reflexivity.
      * intros Hall. apply allLabelled_Forall. apply allLabelled_Forall in Hall.
        cbn [setBlocks basicBlocks]. rewrite Ebs in Hall.
        apply appendToLast_labelled. exact Hall.
Qed.

(** ** Looking up blocks *)

Lemma findBlockFrom_spec (label : Local) (bs : list BasicBlock) :
  forall k,
    match findBlockFrom k bs label with
    | Some i => exists j, i = k + j /\ firstAt (labelIs label) bs j
    | None => forall b, In b bs -> labelIs label b = false
    end.
Proof.
  induction bs as [| b rest IH]; intros k; cbn [findBlockFrom]; [intros b [] |].
  assert (Hstep : labelIs label b = false ->
            match findBlockFrom (S k) rest label with
            | Some i => exists j, i = k + j /\ firstAt (labelIs label) (b :: rest) j
            | None => forall x, In x (b :: rest) -> labelIs label x = false
            end).
  { intros Hb. specialize (IH (S k)).
    destruct (findBlockFrom (S k) rest label) as [i |].
    - destruct IH as (j & -> & (x & Hx & Px) & Hbefore).
      exists (S j). split; [lia |]. split; [exists x; split; assumption |].
      intros [| j'] y Hj Hy; cbn in Hy.
      + injection Hy as <-. exact Hb.
      + apply (Hbefore j' y); [lia | exact Hy].
    - intros x [<- | Hx]; [exact Hb | apply IH; exact Hx]. }
  unfold labelIs in Hstep at 1.
  destruct (blockLabel b) as [l |] eqn:El; [| apply Hstep; reflexivity].
  destruct (sameLocal l label) eqn:Es; [| apply Hstep; reflexivity].
  exists 0. split; [lia |]. split.
  - exists b. split; [reflexivity |]. unfold labelIs. rewrite El. exact Es.
  - intros j y Hj. lia.
Qed.

(** X13.  [findBasicBlock] gives the first block of the method that starts
    with the label asked for, and no block exactly when no block starts with
    that label (a block that does not start with a label is passed over). *)
Theorem findBasicBlock_first :
  forall (m : Method) (label : Local),
    match findBasicBlock m label with
    | Some i => firstAt (labelIs label) (basicBlocks m) i
    | None => forall b, In b (basicBlocks m) -> labelIs label b = false
    end.
Proof.
  intros m label. unfold findBasicBlock.
  pose proof (findBlockFrom_spec label (basicBlocks m) 0) as H.
  destruct (findBlockFrom 0 (basicBlocks m) label) as [i |]; [| exact H].
  destruct H as (j & -> & H). exact H.
Qed.

Lemma findBasicBlock_resolves (m : Method) (label : Local) :
  findBasicBlock m label <> None
  <-> exists b, In b (basicBlocks m) /\ labelIs label b = true.
Proof.
  unfold findBasicBlock.
  pose proof (findBlockFrom_spec label (basicBlocks m) 0) as H.
  destruct (findBlockFrom 0 (basicBlocks m) label) as [i |].
  - destruct H as (j & _ & (x & Hx & Px) & _).
    split; [intros _ | discriminate].
    exists x. split; [exact (nth_error_In _ _ Hx) | exact Px].
  - split; [intros F; contradiction |].
    intros (b & Hb & Pb). rewrite (H b Hb) in Pb. discriminate.
Qed.

(** ** Removing a block and the branches *)

Lemma NoDup_map_injective {A B : Type} (f : A -> B) (l : list A) (x y : A) :
  NoDup (map f l) -> In x l -> In y l -> f x = f y -> x = y.
Proof.
  induction l as [| a l IH]; cbn [map]; intros Hnd Hx Hy E; [contradiction |].
  inversion Hnd as [| ? ? Hnot Hnd']; subst.
  destruct Hx as [-> | Hx], Hy as [-> | Hy].
  - reflexivity.
  - exfalso. apply Hnot. rewrite E. apply in_map. exact Hy.
  - exfalso. apply Hnot. rewrite <- E. apply in_map. exact Hx.
  - exact (IH Hnd' Hx Hy E).
Qed.

Lemma sameLocal_sym (a b : Local) : sameLocal a b = sameLocal b a.
Proof. unfold sameLocal. apply String.eqb_sym. Qed.

Lemma sameLocal_trans (a b c : Local) :
  sameLocal a b = true -> sameLocal b c = true -> sameLocal a c = true.
Proof.
  unfold sameLocal. rewrite !String.eqb_eq. congruence.
Qed.

(** An explicit branch to the label of [block] is what [removeBlock]
    counts. *)
Lemma branchTarget_explicit (m : Method) (block : BasicBlock) (target : Local) :
  branchTarget m target -> labelIs target block = true ->
  BlockRemoval.explicitlyBranchedTo m block = true.
Proof.
  intros (b & o & targets & u & Hb & Ho & Hk & Ht) Hl.
  unfold labelIs in Hl. unfold BlockRemoval.explicitlyBranchedTo.
  destruct (blockLabel block) as [l |]; [| discriminate].
  apply existsb_exists. exists b. split; [exact Hb |].
  apply existsb_exists. exists (Some (Single o)). split; [exact Ho |].
  unfold BlockRemoval.branchesTo. rewrite Hk.
  unfold BlockRemoval.targetsHold. apply existsb_exists.
  exists target. split; [exact Ht |]. rewrite sameLocal_sym. exact Hl.
Qed.

(** X14.  Without the override flag [removeBlock] leaves no branch without
    its target: in a method whose blocks are distinct objects, when it
    removes a block of the method, every label that a branch of the method
    names afterwards and that [findBasicBlock] found before is still
    found. *)
Theorem removeBlock_keeps_branch_targets :
  forall (fallsThrough : BasicBlock -> bool) (m : Method) (block : BasicBlock)
         (m' : Method),
    NoDup (map blockAddress (basicBlocks m)) ->
    In block (basicBlocks m) ->
    BlockRemoval.removeBlock fallsThrough m block false = (true, m') ->
    forall target,
      branchTarget m' target ->
      findBasicBlock m target <> None ->
      findBasicBlock m' target <> None.
Proof.
  intros ft m block m' Hnd Hin H target Hbranch Hfound.
  unfold BlockRemoval.removeBlock in H.
  rewrite BlockRemovalFacts.countExplicitJumps_pos in H. cbn [negb andb] in H.
  destruct (negb (BlockRemoval.empty block)); [discriminate |].
  destruct (BlockRemoval.explicitlyBranchedTo m block) eqn:Eexp; [discriminate |].
  destruct (BlockRemoval.eraseBlock (basicBlocks m) (blockAddress block)) as [bs |] eqn:E;
    [| discriminate].
  injection H as <-.
  destruct (BlockRemovalFacts.eraseBlock_Some _ _ _ E)
    as (before & b & after & Hbs & Hbs' & Hb & _).
  assert (Eb : b = block).
  { apply (NoDup_map_injective blockAddress (basicBlocks m)); try assumption.
    rewrite Hbs. apply in_or_app. right. left. reflexivity. }
  subst b.
  assert (Hsub : forall x, In x bs -> In x (basicBlocks m)).
  { intros x Hx. rewrite Hbs. rewrite Hbs' in Hx.
    apply in_app_or in Hx. apply in_or_app. destruct Hx; [left | right; right]; assumption. }
  assert (Hbranch0 : branchTarget m target).
  { destruct Hbranch as (c & o & targets & u & Hc & Ho & Hk & Ht).
    exists c, o, targets, u. repeat split; try assumption. apply Hsub. exact Hc. }
  apply findBasicBlock_resolves in Hfound. destruct Hfound as (c & Hc & Pc).
  apply findBasicBlock_resolves.
  destruct (labelIs target block) eqn:Lb.
  - rewrite (branchTarget_explicit _ _ _ Hbranch0 Lb) in Eexp. discriminate.
  - exists c. split; [| exact Pc].
    cbn [setBlocks basicBlocks]. rewrite Hbs'. rewrite Hbs in Hc.
    apply in_app_or in Hc. apply in_or_app.
    destruct Hc as [Hc | [Hc | Hc]]; [left; exact Hc | | right; exact Hc].
    subst c. rewrite Pc in Lb. discriminate.
Qed.

Lemma removeBlock_keeps_branch_targets_witness :
  findBasicBlock (methodOf (firstn 2 (basicBlocks BlockRemoval.threeBlocks)))
    (labelLocal "L1") = Some 1
  /\ forall target,
    branchTarget
      (methodOf (firstn 2 (basicBlocks BlockRemoval.threeBlocks))) target ->
    findBasicBlock BlockRemoval.threeBlocks target <> None ->
    findBasicBlock (methodOf (firstn 2 (basicBlocks BlockRemoval.threeBlocks))) target
    <> None.
Proof.
  split; [reflexivity |].
  apply (removeBlock_keeps_branch_targets (fun _ => true) BlockRemoval.threeBlocks
           {| blockAddress := 102; instructions := [ label 3 (labelLocal "L2") ] |}).
  - repeat constructor; cbn; intuition discriminate.
  - right. right. left. reflexivity.
  - reflexivity.
Defined.

(** X15.  [removeBlock] never removes a block that is not a block of the
    method: it returns [false] and leaves the method as it is, whatever the
    override flag.  With the override flag it removes a block of the method
    whatever the block holds and whoever branches to it: it returns [true]
    and the method has lost exactly that block. *)
Theorem removeBlock_override :
  forall (fallsThrough : BasicBlock -> bool) (m : Method) (block : BasicBlock),
    (BlockRemoval.belongsTo m block = false ->
     forall overwriteUsages,
       BlockRemoval.removeBlock fallsThrough m block overwriteUsages = (false, m))
    /\ (BlockRemoval.belongsTo m block = true ->
        exists m',
          BlockRemoval.removeBlock fallsThrough m block true = (true, m')
          /\ BlockRemoval.withoutBlock (basicBlocks m) (basicBlocks m')
                                       (blockAddress block)
          /\ metaData m' = metaData m).
Proof.
  intros ft m block. split.
  - intros Hn flag. unfold BlockRemoval.removeBlock.
    destruct (BlockRemoval.eraseBlock (basicBlocks m) (blockAddress block)) as [bs |] eqn:E.
    + assert (Hb : BlockRemoval.belongsTo m block = true)
        by (apply BlockRemovalFacts.eraseBlock_belongs; exists bs; exact E).
      congruence.
    + destruct (negb flag && negb (BlockRemoval.empty block)); [reflexivity |].
      destruct (negb flag && _); reflexivity.
  - intros Hb. apply BlockRemovalFacts.eraseBlock_belongs in Hb. destruct Hb as [bs E].
    exists (setBlocks m bs). unfold BlockRemoval.removeBlock. cbn [negb andb]. rewrite E.
    split; [reflexivity | split; [| reflexivity]].
    exact (BlockRemovalFacts.eraseBlock_Some _ _ _ E).
Qed.

Lemma nextBlockFrom_spec (block : nat) (bs : list BasicBlock) :
  forall k,
    match nextBlockFrom k false bs block with
    | Some j =>
        exists i, j = k + S i /\ S i < List.length bs /\ firstAt (isBlock block) bs i
    | None =>
        (forall b, In b bs -> isBlock block b = false)
        \/ (exists i, S i = List.length bs /\ firstAt (isBlock block) bs i)
    end.
Proof.
  induction bs as [| b rest IH]; intros k; cbn [nextBlockFrom].
  - left. intros b [].
  - fold (isBlock block b). destruct (isBlock block b) eqn:Eb.
    + assert (Hfirst : firstAt (isBlock block) (b :: rest) 0).
      { split; [exists b; split; [reflexivity | exact Eb] | intros j y Hj; lia]. }
      destruct rest as [| b' rest']; cbn [nextBlockFrom].
      * right. exists 0. split; [reflexivity | exact Hfirst].
      * exists 0. split; [lia | split; [cbn; lia | exact Hfirst]].
    + specialize (IH (S k)).
      destruct (nextBlockFrom (S k) false rest block) as [j |].
      * destruct IH as (i & -> & Hlen & (x & Hx & Px) & Hbefore).
        exists (S i). split; [lia | split; [cbn [List.length]; lia |]].
        split; [exists x; split; assumption |].
        intros [| j'] y Hj Hy; cbn in Hy.
        -- injection Hy as <-. exact Eb.
        -- apply (Hbefore j' y); [lia | exact Hy].
      * destruct IH as [Hnone | (i & Hlen & (x & Hx & Px) & Hbefore)].
        -- left. intros y [<- | Hy]; [exact Eb | apply Hnone; exact Hy].
        -- right. exists (S i). split; [cbn [List.length]; lia |].
           split; [exists x; split; assumption |].
           intros [| j'] y Hj Hy; cbn in Hy.
           ++ injection Hy as <-. exact Eb.
           ++ apply (Hbefore j' y); [lia | exact Hy].
Qed.

(** X16.  [getNextBlockAfter] gives the block that follows the first block
    of the method that is the given one.  It gives no block exactly when the
    given block is not in the method or nothing follows it. *)
Theorem getNextBlockAfter_follows :
  forall (m : Method) (block : nat),
    match getNextBlockAfter m block with
    | Some j =>
        exists i, j = S i /\ j < List.length (basicBlocks m)
                  /\ firstAt (isBlock block) (basicBlocks m) i
    | None =>
        (forall b, In b (basicBlocks m) -> isBlock block b = false)
        \/ (exists i, S i = List.length (basicBlocks m)
                      /\ firstAt (isBlock block) (basicBlocks m) i)
    end.
Proof.
  intros m block. unfold getNextBlockAfter.
  pose proof (nextBlockFrom_spec block (basicBlocks m) 0) as H.
  destruct (nextBlockFrom 0 false (basicBlocks m) block) as [j |]; [| exact H].
  destruct H as (i & -> & Hlen & H). exists i. repeat split; try lia; apply H.
Qed.

End MethodEditFacts.

(** ** optimization/Eliminator.cpp: replacing the returns *)

Module ReturnEliminationFacts.

Import IR.
Import MethodEdit.
Import ReturnElimination.

Lemma findBlockByNameFrom_labels (labelName : string) (bs bs' : list BasicBlock) :
  map blockLabel bs = map blockLabel bs' ->
  forall k, findBlockByNameFrom k bs labelName = findBlockByNameFrom k bs' labelName.
Proof.
  revert bs'. induction bs as [| b rest IH]; intros [| b' rest'] H k; try discriminate;
    [reflexivity |].
  cbn [map] in H. injection H as Hb Hrest. cbn [findBlockByNameFrom].
  rewrite Hb, (IH rest' Hrest). reflexivity.
Qed.

Lemma findBlockByNameFrom_none (labelName : string) (bs : list BasicBlock) :
  forall k, findBlockByNameFrom k bs labelName = None ->
            forall b, In b bs -> labelNamed labelName b = false.
Proof.
  induction bs as [| b rest IH]; intros k H x Hx; [contradiction |].
  cbn [findBlockByNameFrom] in H. unfold labelNamed.
  destruct Hx as [<- | Hx].
  - destruct (blockLabel b) as [l |]; [| reflexivity].
    destruct (String.eqb (localName l) labelName); [discriminate | reflexivity].
  - apply (IH (S k)); [| exact Hx].
    destruct (blockLabel b) as [l |]; [| exact H].
    destruct (String.eqb (localName l) labelName); [discriminate | exact H].
Qed.

Lemma findBlockByNameFrom_some (labelName : string) (bs : list BasicBlock) :
  forall k i, findBlockByNameFrom k bs labelName = Some i ->
    exists j b, i = k + j /\ nth_error bs j = Some b /\ labelNamed labelName b = true.
Proof.
  induction bs as [| b rest IH]; intros k i H; [discriminate |].
  cbn [findBlockByNameFrom] in H.
  assert (Hrec : findBlockByNameFrom (S k) rest labelName = Some i ->
                 exists j x, i = k + j /\ nth_error (b :: rest) j = Some x
                             /\ labelNamed labelName x = true).
  { intros H'. destruct (IH _ _ H') as (j & x & -> & Hx & Px).
    exists (S j), x. repeat split; [lia | exact Hx | exact Px]. }
  destruct (blockLabel b) as [l |] eqn:El; [| exact (Hrec H)].
  destruct (String.eqb (localName l) labelName) eqn:En; [| exact (Hrec H)].
  injection H as <-. exists 0, b. repeat split; [lia |].
  unfold labelNamed. rewrite El. exact En.
Qed.

(** A new block at the end is found when no block before has the name. *)
Lemma findBlockByNameFrom_last (labelName : string) (bs : list BasicBlock)
    (b : BasicBlock) :
  labelNamed labelName b = true ->
  forall k, findBlockByNameFrom k bs labelName = None ->
            findBlockByNameFrom k (bs ++ [b]) labelName = Some (k + List.length bs).
Proof.
  intros Hb. induction bs as [| x rest IH]; intros k H.
  - cbn [app findBlockByNameFrom List.length]. unfold labelNamed in Hb.
    destruct (blockLabel b) as [l |]; [| discriminate]. rewrite Hb. f_equal. lia.
  - cbn [app findBlockByNameFrom List.length] in *.
    destruct (blockLabel x) as [l |].
    + destruct (String.eqb (localName l) labelName); [discriminate |].
      rewrite (IH (S k) H). f_equal. lia.
    + rewrite (IH (S k) H). f_equal. lia.
Qed.

(** Looking a label up by its local is looking it up by its name. *)
Lemma findBlockFrom_byName (label : Local) (bs : list BasicBlock) :
  forall k, findBlockFrom k bs label = findBlockByNameFrom k bs (localName label).
Proof.
  induction bs as [| b rest IH]; intros k; [reflexivity |].
  cbn [findBlockFrom findBlockByNameFrom]. rewrite IH. reflexivity.
Qed.

Lemma getReturn_get (m : Method) (w : Walker) (o : Op) :
  getReturn m w = Some o -> get m w = Some (Single o) /\ kind o = Return.
Proof.
  unfold getReturn. destruct (getOp m w) as [o' |] eqn:E; [| discriminate].
  destruct (kind o') eqn:Ek; try discriminate. intros [= <-].
  split; [exact (DeadCodeFacts.getOp_get _ _ _ E) | exact Ek].
Qed.

Lemma updateNth_head {A : Type} (f : A -> A) (l : list A) (p : nat) :
  0 < p -> hd_error (DeadCode.updateNth p f l) = hd_error l.
Proof. destruct l as [| a l], p as [| p]; intros H; try lia; reflexivity. Qed.

(** Replacing an instruction that is no label by a branch changes the label
    of no block. *)
Lemma resetAt_labels (m : Method) (w : Walker) (a : nat) (l : Local) (o : Op) :
  get m w = Some (Single o) -> kind o = Return ->
  map blockLabel (basicBlocks (resetAt m w (newBranch a l)))
  = map blockLabel (basicBlocks m).
Proof.
  unfold get, blockAt, resetAt. cbn [setBlocks basicBlocks].
  generalize (wblock w) as i.
  induction (basicBlocks m) as [| b rest IH]; intros [| i] Hg Hk;
    cbn [nth_error DeadCode.updateNth map] in *; try discriminate.
  - f_equal. unfold blockLabel. cbn [instructions].
    destruct (instructions b) as [| x xs]; [destruct (wpos w); discriminate |].
    destruct (wpos w) as [| p]; cbn [nth_error DeadCode.updateNth] in *; [| reflexivity].
    subst x. rewrite Hk. reflexivity.
  - f_equal. apply IH; assumption.
Qed.

Lemma get_resetAt (m : Method) (w : Walker) (i : option Instruction) (x : Instruction) :
  get m w = Some x -> get (resetAt m w i) w = i.
Proof.
  unfold get, blockAt, resetAt. cbn [setBlocks basicBlocks].
  rewrite DeadCodeFacts.nth_error_updateNth.
  destruct (nth_error (basicBlocks m) (wblock w)) as [b |]; [| discriminate].
  cbn [option_map instructions]. rewrite DeadCodeFacts.nth_error_updateNth.
  destruct (nth_error (instructions b) (wpos w)); [reflexivity | discriminate].
Qed.

Lemma length_updateNth {A : Type} (f : A -> A) (l : list A) :
  forall i, List.length (DeadCode.updateNth i f l) = List.length l.
Proof. induction l as [| a l IH]; intros [| i]; cbn; auto. Qed.

Lemma get_emplace_end (m : Method) (w : Walker) (b : BasicBlock) (x : Instruction) :
  get m w = Some x ->
  get (setBlocks m (emplaceAt (List.length (basicBlocks m)) b (basicBlocks m))) w
  = Some x.
Proof.
  unfold get, blockAt, emplaceAt. cbn [setBlocks basicBlocks].
  rewrite firstn_all, skipn_all. intros H.
  destruct (nth_error (basicBlocks m) (wblock w)) as [c |] eqn:E; [| discriminate].
  rewrite nth_error_app1 by (apply nth_error_Some; rewrite E; discriminate).
  rewrite E. exact H.
Qed.

(** X17.  [eliminateReturn] leaves a cursor that is not on a return alone.
    On a return it never fails: the return is replaced by an unconditional
    branch to a label named [LAST_BLOCK], and that label is the start of a
    block of the method afterwards, found by [findBasicBlock].  The block
    is created, at the end of the method, only when no block had that name:
    the method has one block more in that case and as many as before
    otherwise, so all returns of a method branch to one block. *)
Theorem eliminateReturn_branches_to_last_block :
  forall (blockAddr labelAddr branchAddr : nat) (LAST_BLOCK : string)
         (locals : list Local) (m : Method) (it : Walker),
    exists locals' m',
      eliminateReturn blockAddr labelAddr branchAddr LAST_BLOCK locals m it
      = Returned (locals', m')
      /\ match getReturn m it with
         | None => locals' = locals /\ m' = m
         | Some _ =>
             exists l target,
               localName l = LAST_BLOCK
               /\ get m' it = newBranch branchAddr l
               /\ findBasicBlock m' l = Some target
               /\ findBasicBlockByName m' LAST_BLOCK = Some target
               /\ List.length (basicBlocks m')
                  = List.length (basicBlocks m)
                    + match findBasicBlockByName m LAST_BLOCK with
                      | Some _ => 0
                      | None => 1
                      end
               /\ metaData m' = metaData m
         end.
Proof.
  intros ba la bra LAST locals m it. unfold eliminateReturn.
  destruct (getReturn m it) as [o |] eqn:Er;
    [| exists locals, m; split; [reflexivity | split; reflexivity]].
  destruct (getReturn_get _ _ _ Er) as [Hget Hkind].
  assert (Hname : forall (m' : Method) (l : Local) target,
            localName l = LAST ->
            findBasicBlockByName m' LAST = Some target ->
            findBasicBlock m' l = Some target).
  { intros m' l target Hl Hf. unfold findBasicBlock.
    rewrite findBlockFrom_byName, Hl. exact Hf. }
  destruct (findBasicBlockByName m LAST) as [target |] eqn:Ef.
  - unfold findBasicBlockByName in Ef.
    destruct (findBlockByNameFrom_some _ _ _ _ Ef) as (j & b & -> & Hb & Pb).
    cbn [Nat.add] in *. rewrite Hb. unfold labelNamed in Pb.
    destruct (blockLabel b) as [l |]; [| discriminate].
    apply String.eqb_eq in Pb.
    assert (Hfind : findBasicBlockByName (resetAt m it (newBranch bra l)) LAST = Some j).
    { unfold findBasicBlockByName.
      rewrite (findBlockByNameFrom_labels LAST _ _ (resetAt_labels m it bra l o Hget Hkind)).
      exact Ef. }
    eexists; eexists. split; [reflexivity |].
    exists l, j. repeat split.
    + exact Pb.
    + exact (get_resetAt _ _ _ _ Hget).
    + exact (Hname _ _ _ Pb Hfind).
    + exact Hfind.
    + unfold resetAt. cbn [setBlocks basicBlocks]. rewrite length_updateNth. lia.
  - unfold createAndInsertNewBlock.
    pose proof (MethodEditFacts.emplaceLocal_name locals (newLabelLocal LAST)) as Hn.
    destruct (emplaceLocal locals (newLabelLocal LAST)) as [locals' newLabel].
    cbn [snd newLabelLocal localName] in Hn.
    rewrite Nat.min_id.
    set (nb := newBasicBlock ba (label la newLabel)).
    set (m1 := setBlocks m (emplaceAt (List.length (basicBlocks m)) nb (basicBlocks m))).
    assert (Hnth : nth_error (basicBlocks m1) (List.length (basicBlocks m)) = Some nb)
      by (apply MethodEditFacts.nth_error_emplaceAt; lia).
    rewrite Hnth. cbn [nb newBasicBlock blockLabel instructions label instr plainOp kind].
    assert (Hget1 : get m1 it = Some (Single o)) by (apply get_emplace_end; exact Hget).
    assert (Hfind : findBasicBlockByName (resetAt m1 it (newBranch bra newLabel)) LAST
                    = Some (List.length (basicBlocks m))).
    { unfold findBasicBlockByName.
      rewrite (findBlockByNameFrom_labels LAST _ _
                 (resetAt_labels m1 it bra newLabel o Hget1 Hkind)).
      unfold m1, emplaceAt. cbn [setBlocks basicBlocks].
      rewrite firstn_all, skipn_all.
      apply (findBlockByNameFrom_last LAST (basicBlocks m) nb); [| exact Ef].
      unfold labelNamed. cbn. apply String.eqb_eq. exact Hn. }
    eexists; eexists. split; [reflexivity |].
    exists newLabel, (List.length (basicBlocks m)). repeat split.
    + exact Hn.
    + exact (get_resetAt _ _ _ _ Hget1).
    + exact (Hname _ _ _ Hn Hfind).
    + exact Hfind.
    + unfold resetAt, m1. cbn [setBlocks basicBlocks].
      rewrite length_updateNth, MethodEditFacts.length_emplaceAt. lia.
Qed.

End ReturnEliminationFacts.

(** ** Method.cpp: the names of new locals *)

Module LocalNamesFacts.

Import Ascii.
Local Open Scope string_scope.
Import LocalNames.

Lemma to_string_injective (n k : N) : to_string n = to_string k -> n = k.
Proof.
  unfold to_string. intros H.
  apply DecimalN.Unsigned.to_uint_inj.
  assert (E : Some (N.to_uint n) = Some (N.to_uint k)).
  { rewrite <- !DecimalString.NilEmpty.usu. rewrite H. reflexivity. }
  injection E as E. exact E.
Qed.

Lemma append_injective (p a b : string) : p ++ a = p ++ b -> a = b.
Proof.
  induction p as [| c p IH]; cbn [String.append]; intros H; [exact H |].
  injection H as H. exact (IH H).
Qed.

(** X18.  The numbered names of [createLocalName] are fresh: for one
    prefix and no postfix, different values of the counter give different
    names, and the call moves the counter on by one.  With a postfix the
    counter is neither read nor moved.  Without a prefix (or with the
    prefix "%") the name starts with a percent sign. *)
Theorem createLocalName_fresh :
  forall (prefix : string) (i j : N),
    (i <> j ->
     fst (createLocalName prefix "" i) <> fst (createLocalName prefix "" j))
    /\ snd (createLocalName prefix "" i) = increment i
    /\ (forall postfix, postfix <> "" ->
          createLocalName prefix postfix i
          = (fst (createLocalName prefix postfix j), i))
    /\ (anonymous prefix = true ->
        forall postfix,
          exists rest, fst (createLocalName prefix postfix i) = String "%"%char rest).
Proof.
  intros prefix i j. unfold createLocalName, anonymous.
  destruct (empty prefix || String.eqb prefix "%") eqn:Ea; cbn [andb empty fst snd].
  - split; [| split; [reflexivity | split]].
    + intros Hne H. apply append_injective, to_string_injective in H. contradiction.
    + intros postfix Hp. destruct postfix as [| c postfix]; [contradiction |].
      cbn [empty]. destruct (startsWithPercent (String c postfix)); reflexivity.
    + intros _ postfix. destruct postfix as [| c postfix]; cbn [empty].
      * eexists. reflexivity.
      * cbn [startsWithPercent]. destruct (Ascii.eqb_spec c "%"%char) as [-> | Hc].
        -- eexists. reflexivity.
        -- eexists. reflexivity.
  - split; [| split; [reflexivity | split; [| discriminate]]].
    + intros Hne H. apply append_injective, to_string_injective in H. contradiction.
    + intros postfix Hp. destruct postfix as [| c postfix]; [contradiction |].
      reflexivity.
Qed.

End LocalNamesFacts.

(** ** Method.cpp: thresholds that do not fit into [int32_t] *)

Module ThresholdFacts.

Import IR.
Import MethodCpp.
Import MethodCppFacts.
Local Open Scope Z_scope.

Lemma toInt32_negative (threshold : Z) :
  2 ^ 31 <= threshold mod 2 ^ 32 -> toInt32 threshold < 0.
Proof.
  intros H. unfold toInt32. cbv zeta.
  pose proof (Z.mod_pos_bound threshold (2 ^ 32) ltac:(lia)) as Hb.
  destruct (Z.ltb_spec (threshold mod 2 ^ 32) (2 ^ 31)); lia.
Qed.

(** X19.  [isLocallyLimited] casts the threshold to [int32_t]: with a
    threshold whose low 32 bits are [2^31] or more (the largest
    [std::size_t] for one) the range left is negative from the start, no
    instruction is looked at, and the answer is [true] exactly when every
    user of the local is the instruction right before the cursor. *)
Theorem isLocallyLimited_large_threshold :
  forall (m : Method) (curIt : Walker) (locale : Local) (threshold : Z),
    2 ^ 31 <= threshold mod 2 ^ 32 ->
    exists b,
      isLocallyLimited m curIt locale threshold = Some b
      /\ (b = true <-> forall u, In u (getUsers m locale) -> isPrevious m curIt u).
Proof.
  intros m curIt locale threshold Hbig.
  pose proof (toInt32_negative threshold Hbig) as Hneg.
  unfold isLocallyLimited. cbv zeta.
  set (rem := if negb (isStartOfBlock curIt)
              then snd (removeUser (getUsers m locale) (get m (previousInBlock curIt)))
              else getUsers m locale).
  cbn [limitedLoop].
  destruct (Z.leb_spec 0 (toInt32 threshold)) as [Hge | _]; [lia |].
  cbn [andb]. eexists. split; [reflexivity |].
  assert (Hrem : forall u, In u rem <->
                   In u (getUsers m locale) /\ ~ isPrevious m curIt u).
  { intros u. subst rem. unfold isPrevious.
    destruct (isStartOfBlock curIt); cbn [negb].
    - split; [intros Hu; split; [exact Hu | intros [? _]; discriminate] | intros [Hu _]; exact Hu].
    - rewrite removeUser_In. split; intros [H1 H2]; (split; [exact H1 |]).
      + intros [_ ?]; contradiction.
      + intros Hk. apply H2. split; [reflexivity | exact Hk]. }
  clearbody rem. split.
  - intros Hb u Hu. destruct rem as [| x rest]; [| discriminate].
    assert (Hdec : isPrevious m curIt u \/ ~ isPrevious m curIt u).
    { unfold isPrevious.
      destruct (isStartOfBlock curIt);
        [right; intros [? _]; discriminate |].
      destruct (in_dec Nat.eq_dec u (keysOf (get m (previousInBlock curIt))))
        as [Hk | Hk]; [left; split; [reflexivity | exact Hk] | right; intros [_ ?]; contradiction]. }
    destruct Hdec as [Hp | Hn]; [exact Hp | exfalso].
    apply (proj2 (Hrem u)). split; assumption.
  - intros Hall. destruct rem as [| x rest]; [reflexivity | exfalso].
    destruct (proj1 (Hrem x) (or_introl eq_refl)) as [H1 H2]. exact (H2 (Hall x H1)).
Qed.

Lemma isLocallyLimited_large_threshold_witness :
  exists b,
    isLocallyLimited usedBefore {| wblock := 0; wpos := 2 |} (plainLocal "x")
                     (2 ^ 64 - 1) = Some b
    /\ (b = true <->
        forall u, In u (getUsers usedBefore (plainLocal "x")) ->
                  isPrevious usedBefore {| wblock := 0; wpos := 2 |} u).
Proof.
  apply (isLocallyLimited_large_threshold usedBefore {| wblock := 0; wpos := 2 |}
           (plainLocal "x") (2 ^ 64 - 1)).
  vm_compute. discriminate.
Defined.

End ThresholdFacts.

(** ** Method.cpp: removing the empty instructions *)

Module EmptyInstructionsFacts.

Import IR.
Import DeadCode.
Import DeadCodeFacts.
Import EmptyInstructions.

(** ** Lists *)

Lemma nth_error_updateNth_other {A : Type} (f : A -> A) (l : list A) :
  forall i j, i <> j -> nth_error (updateNth i f l) j = nth_error l j.
Proof.
  induction l as [| a l IH]; intros [| i] [| j] H; cbn; try reflexivity; try lia.
  apply IH. lia.
Qed.

Lemma firstn_removeNth {A : Type} (l : list A) :
  forall p, firstn p (removeNth p l) = firstn p l.
Proof.
  induction l as [| a l IH]; intros [| p]; cbn; try reflexivity.
  f_equal. apply IH.
Qed.

Lemma filter_removeNth {A : Type} (f : A -> bool) (l : list A) :
  forall p x, nth_error l p = Some x -> f x = false ->
              filter f (removeNth p l) = filter f l.
Proof.
  induction l as [| a l IH]; intros [| p] x H Hx; cbn in *; try discriminate.
  - injection H as ->. rewrite Hx. reflexivity.
  - rewrite (IH p x H Hx). reflexivity.
Qed.

Lemma filter_removeNth_count {A : Type} (f : A -> bool) (l : list A) :
  forall p x, nth_error l p = Some x -> f x = true ->
              S (List.length (filter f (removeNth p l))) = List.length (filter f l).
Proof.
  induction l as [| a l IH]; intros [| p] x H Hx; cbn in *; try discriminate.
  - injection H as ->. rewrite Hx. reflexivity.
  - specialize (IH p x H Hx). destruct (f a); cbn [List.length]; lia.
Qed.

Lemma clean_all (l : list (option Instruction)) :
  clean l -> filter isInstruction l = l
             /\ filter (fun i => negb (isInstruction i)) l = [].
Proof.
  unfold clean. induction l as [| a l IH]; cbn; [split; reflexivity |].
  intros H. apply andb_prop in H. destruct H as [Ha Hl].
  rewrite Ha. cbn. destruct (IH Hl) as [I1 I2]. rewrite I1, I2. split; reflexivity.
Qed.

Lemma clean_firstn_all (l : list (option Instruction)) (p : nat) :
  List.length l <= p -> clean (firstn p l) -> clean l.
Proof. intros H. rewrite firstn_all2 by exact H. trivial. Qed.

Lemma clean_snoc (l : list (option Instruction)) (p : nat) (x : Instruction) :
  nth_error l p = Some (Some x) -> clean (firstn p l) -> clean (firstn (S p) l).
Proof.
  unfold clean. revert p. induction l as [| a l IH]; intros [| p] H Hc; cbn in *;
    try discriminate.
  - injection H as ->. destruct l; reflexivity.
  - apply andb_prop in Hc. destruct Hc as [Ha Hl]. rewrite Ha. cbn.
    exact (IH p H Hl).
Qed.

(** ** The cursor *)

Lemma onEntry_entry (m : Method) (w : Walker) :
  onEntry (shape m) w ->
  exists B e, blockAt m w = Some B
              /\ nth_error (instructions B) (wpos w) = Some e
              /\ get m w = e.
Proof.
  intros (n & Hn & Hp). rewrite nth_error_shape in Hn. unfold get.
  destruct (blockAt m w) as [B |]; [| discriminate]. injection Hn as <-.
  destruct (nth_error (instructions B) (wpos w)) as [e |] eqn:E.
  - exists B, e. repeat split. exact E.
  - apply nth_error_None in E. lia.
Qed.

Lemma blockAt_onEntry (m : Method) (w : Walker) (B : BasicBlock) :
  blockAt m w = Some B -> wpos w < List.length (instructions B) ->
  onEntry (shape m) w.
Proof.
  intros HB Hp. exists (List.length (instructions B)). split; [| exact Hp].
  rewrite nth_error_shape, HB. reflexivity.
Qed.

Lemma isEndOfBlock_length (m : Method) (w : Walker) (B : BasicBlock) :
  blockAt m w = Some B ->
  isEndOfBlock m w = Nat.leb (List.length (instructions B)) (wpos w).
Proof. intros HB. unfold isEndOfBlock. rewrite HB. reflexivity. Qed.

Lemma blockAt_walk (m : Method) (w : Walker) (p : nat) :
  blockAt m {| wblock := wblock w; wpos := p |} = blockAt m w.
Proof. reflexivity. Qed.

(** Where [nextInMethod] goes from the end of a block. *)
Lemma nextInMethod_end (m : Method) (w : Walker) (B : BasicBlock) :
  blockAt m w = Some B -> List.length (instructions B) <= wpos w ->
  nextInMethod m w
  = if Nat.ltb (S (wblock w)) (List.length (basicBlocks m))
    then walk (S (wblock w)) else w.
Proof.
  intros HB Hp. unfold nextInMethod.
  rewrite (isEndOfBlock_length _ _ _ HB).
  destruct (Nat.leb_spec (List.length (instructions B)) (wpos w)); [| lia].
  rewrite (isEndOfBlock_length _ _ _ HB).
  destruct (Nat.leb_spec (List.length (instructions B)) (wpos w)); [| lia].
  reflexivity.
Qed.

(** Where [nextInMethod] goes from an entry of a block. *)
Lemma nextInMethod_entry (m : Method) (w : Walker) (B : BasicBlock) :
  blockAt m w = Some B -> wpos w < List.length (instructions B) ->
  nextInMethod m w
  = if Nat.eqb (S (wpos w)) (List.length (instructions B))
       && Nat.ltb (S (wblock w)) (List.length (basicBlocks m))
    then walk (S (wblock w)) else nextInBlock w.
Proof.
  intros HB Hp. unfold nextInMethod.
  rewrite (isEndOfBlock_length _ _ _ HB).
  destruct (Nat.leb_spec (List.length (instructions B)) (wpos w)); [lia |].
  assert (HB' : blockAt m (nextInBlock w) = Some B) by exact HB.
  rewrite (isEndOfBlock_length _ _ _ HB'). cbn [nextInBlock wpos wblock].
  destruct (Nat.eqb_spec (S (wpos w)) (List.length (instructions B))) as [E | E];
    destruct (Nat.leb_spec (List.length (instructions B)) (S (wpos w))); try lia;
    reflexivity.
Qed.

Lemma isEndOfMethod_last (m : Method) (w : Walker) (B : BasicBlock) :
  blockAt m w = Some B -> List.length (instructions B) <= wpos w ->
  S (wblock w) = List.length (basicBlocks m) -> isEndOfMethod m w = true.
Proof.
  intros HB Hp Hl. unfold isEndOfMethod. rewrite HB, (isEndOfBlock_length _ _ _ HB).
  apply andb_true_intro. split; [apply Nat.leb_le; exact Hp | apply Nat.eqb_eq; exact Hl].
Qed.

Lemma blockAt_length (m : Method) (w : Walker) (B : BasicBlock) :
  blockAt m w = Some B -> wblock w < List.length (basicBlocks m).
Proof. intros H. apply nth_error_Some. unfold blockAt in H. rewrite H. discriminate. Qed.

Lemma headed_walk (m : Method) (b : nat) :
  Forall headed (basicBlocks m) -> b < List.length (basicBlocks m) ->
  onEntry (shape m) (walk b).
Proof.
  intros Hh Hb. destruct (nth_error (basicBlocks m) b) as [B |] eqn:E.
  - apply (blockAt_onEntry m (walk b) B); [exact E |].
    rewrite Forall_forall in Hh. pose proof (Hh B (nth_error_In _ _ E)) as H.
    unfold headed in H. cbn [walk wpos].
    destruct (instructions B) as [| [x |] l]; [contradiction | cbn; lia | contradiction].
  - apply nth_error_None in E. lia.
Qed.

(** ** Erasing an entry *)

Lemma blockAt_eraseAt (m : Method) (w : Walker) (B : BasicBlock) :
  blockAt m w = Some B ->
  blockAt (eraseAt m w) w
  = Some {| blockAddress := blockAddress B;
            instructions := removeNth (wpos w) (instructions B) |}.
Proof.
  unfold blockAt, eraseAt. cbn [setBlocks basicBlocks]. intros H.
  rewrite nth_error_updateNth, H. reflexivity.
Qed.

Lemma nth_error_eraseAt_other (m : Method) (w : Walker) (j : nat) :
  j <> wblock w ->
  nth_error (basicBlocks (eraseAt m w)) j = nth_error (basicBlocks m) j.
Proof.
  intros H. unfold eraseAt. cbn [setBlocks basicBlocks].
  apply nth_error_updateNth_other. lia.
Qed.

Lemma length_eraseAt (m : Method) (w : Walker) :
  List.length (basicBlocks (eraseAt m w)) = List.length (basicBlocks m).
Proof.
  unfold eraseAt. cbn [setBlocks basicBlocks]. apply ReturnEliminationFacts.length_updateNth.
Qed.

Lemma map_updateNth_same {A B : Type} (g : A -> B) (f : A -> A) (l : list A) :
  forall i, (forall x, nth_error l i = Some x -> g (f x) = g x) ->
            map g (updateNth i f l) = map g l.
Proof.
  induction l as [| a l IH]; intros [| i] H; cbn; try reflexivity.
  - rewrite (H a eq_refl). reflexivity.
  - f_equal. apply IH. exact H.
Qed.

Lemma list_sum_updateNth_succ {A : Type} (g : A -> nat) (f : A -> A) (l : list A) :
  forall i x, nth_error l i = Some x -> S (g (f x)) = g x ->
              S (list_sum (map g (updateNth i f l))) = list_sum (map g l).
Proof.
  unfold list_sum.
  induction l as [| a l IH]; intros [| i] x H Hx;
    cbn [map updateNth nth_error fold_right] in *; try discriminate.
  - injection H as ->. lia.
  - specialize (IH i x H Hx). lia.
Qed.

Lemma Forall_updateNth {A : Type} (P : A -> Prop) (f : A -> A) (l : list A) :
  forall i, (forall x, nth_error l i = Some x -> P x -> P (f x)) ->
            Forall P l -> Forall P (updateNth i f l).
Proof.
  induction l as [| a l IH]; intros [| i] H Hl; cbn; inversion Hl; subst;
    constructor; auto.
Qed.

(** ** An iteration keeps the invariant *)

Lemma cleanedBefore_next_block (m : Method) (w : Walker) (B : BasicBlock) :
  blockAt m w = Some B ->
  cleanedBefore m w -> clean (instructions B) ->
  cleanedBefore m (walk (S (wblock w))).
Proof.
  intros HB [H1 H2] Hc. split.
  - intros j B' Hj HB'. cbn [walk wblock] in Hj.
    destruct (Nat.eq_dec j (wblock w)) as [-> | Hne].
    + unfold blockAt in HB. rewrite HB in HB'. injection HB' as <-. exact Hc.
    + apply (H1 j B'); [lia | exact HB'].
  - intros B' _. reflexivity.
Qed.

Lemma step_instruction (m0 : Method) (s : State) (x : Instruction) :
  invariant m0 s ->
  onEntry (shape (method s)) (it s) ->
  get (method s) (it s) = Some x ->
  invariant m0 (step s).
Proof.
  intros [Hh _ Hcl Hsame Hmeta Hnum] Hv Hget.
  destruct (onEntry_entry _ _ Hv) as (B & e & HB & He & Hge).
  rewrite Hget in Hge. subst e.
  assert (Hlen : wpos (it s) < List.length (instructions B))
    by (apply nth_error_Some; rewrite He; discriminate).
  pose proof (blockAt_length _ _ _ HB) as Hb.
  pose proof (clean_snoc _ _ _ He (proj2 Hcl B HB)) as Hsnoc.
  unfold step. rewrite Hget.
  rewrite (nextInMethod_entry _ _ _ HB Hlen).
  destruct (Nat.eqb_spec (S (wpos (it s))) (List.length (instructions B))) as [El | El];
    destruct (Nat.ltb_spec (S (wblock (it s))) (List.length (basicBlocks (method s))))
      as [Lt | Ge]; cbn [andb].
  - constructor; cbn [method it num]; try assumption.
    + right. apply headed_walk; assumption.
    + apply (cleanedBefore_next_block _ _ B HB Hcl).
      apply (clean_firstn_all _ (S (wpos (it s)))); [lia | exact Hsnoc].
  - constructor; cbn [method it num]; try assumption.
    + left. apply (isEndOfMethod_last _ _ B); [exact HB | cbn; lia | cbn; lia].
    + split; [exact (proj1 Hcl) |].
      intros B' HB'. change (blockAt (method s) (it s) = Some B') in HB'.
      rewrite HB in HB'. injection HB' as <-. exact Hsnoc.
  - constructor; cbn [method it num]; try assumption.
    + right. apply (blockAt_onEntry _ _ B); [exact HB | cbn; lia].
    + split; [exact (proj1 Hcl) |].
      intros B' HB'. change (blockAt (method s) (it s) = Some B') in HB'.
      rewrite HB in HB'. injection HB' as <-. exact Hsnoc.
  - constructor; cbn [method it num]; try assumption.
    + right. apply (blockAt_onEntry _ _ B); [exact HB | cbn; lia].
    + split; [exact (proj1 Hcl) |].
      intros B' HB'. change (blockAt (method s) (it s) = Some B') in HB'.
      rewrite HB in HB'. injection HB' as <-. exact Hsnoc.
Qed.

Lemma headed_removeNth (B : BasicBlock) (p : nat) :
  headed B -> nth_error (instructions B) p = Some None ->
  0 < p
  /\ headed {| blockAddress := blockAddress B;
               instructions := removeNth p (instructions B) |}.
Proof.
  unfold headed. cbn [instructions].
  destruct (instructions B) as [| [x |] l]; try contradiction.
  intros _ H. destruct p as [| p]; [discriminate |]. split; [lia | exact I].
Qed.

Lemma step_empty (m0 : Method) (s : State) :
  invariant m0 s ->
  onEntry (shape (method s)) (it s) ->
  get (method s) (it s) = None ->
  invariant m0 (step s).
Proof.
  intros [Hh _ Hcl Hsame Hmeta Hnum] Hv Hget.
  destruct (onEntry_entry _ _ Hv) as (B & e & HB & He & Hge).
  rewrite Hget in Hge. subst e.
  assert (Hlen : wpos (it s) < List.length (instructions B))
    by (apply nth_error_Some; rewrite He; discriminate).
  pose proof (blockAt_length _ _ _ HB) as Hb.
  assert (HhB : headed B).
  { rewrite Forall_forall in Hh. apply Hh. exact (nth_error_In _ _ HB). }
  destruct (headed_removeNth B _ HhB He) as [Hpos HhB'].
  set (m' := eraseAt (method s) (it s)).
  set (B' := {| blockAddress := blockAddress B;
                instructions := removeNth (wpos (it s)) (instructions B) |}) in *.
  assert (HB' : blockAt m' (it s) = Some B') by (apply blockAt_eraseAt; exact HB).
  assert (Hlen' : List.length (instructions B') = Nat.pred (List.length (instructions B)))
    by (apply removeNth_length; exact Hlen).
  assert (Hblocks : List.length (basicBlocks m') = List.length (basicBlocks (method s)))
    by apply length_eraseAt.
  assert (Hh' : Forall headed (basicBlocks m')).
  { unfold m', eraseAt. cbn [setBlocks basicBlocks].
    apply Forall_updateNth; [| exact Hh].
    intros x Hx _. unfold blockAt in HB. rewrite HB in Hx. injection Hx as <-. exact HhB'. }
  assert (Hsame' : map withoutEmpty (basicBlocks m') = map withoutEmpty (basicBlocks m0)).
  { rewrite <- Hsame. unfold m', eraseAt. cbn [setBlocks basicBlocks].
    apply map_updateNth_same.
    intros x Hx. unfold blockAt in HB. rewrite HB in Hx. injection Hx as <-.
    unfold withoutEmpty. cbn [blockAddress instructions].
    rewrite (filter_removeNth isInstruction _ _ _ He eq_refl). reflexivity. }
  assert (Hnum' : S (num s) + countEmpty m' = countEmpty m0).
  { rewrite <- Hnum. unfold countEmpty, m', eraseAt. cbn [setBlocks basicBlocks].
    pose proof (list_sum_updateNth_succ
                  (fun b => List.length (filter (fun i => negb (isInstruction i))
                                                (instructions b)))
                  (fun b => {| blockAddress := blockAddress b;
                               instructions := removeNth (wpos (it s)) (instructions b) |})
                  (basicBlocks (method s)) (wblock (it s)) B HB
                  (filter_removeNth_count (fun i => negb (isInstruction i)) _ _ _
                                          He eq_refl)) as Hsum.
    lia. }
  assert (Hfirst : clean (firstn (wpos (it s)) (instructions B'))).
  { unfold B'. cbn [instructions]. rewrite firstn_removeNth. exact (proj2 Hcl B HB). }
  assert (Hbefore : forall j X, j < wblock (it s) ->
                      nth_error (basicBlocks m') j = Some X -> clean (instructions X)).
  { intros j X Hj HX. unfold m' in HX.
    rewrite nth_error_eraseAt_other in HX by lia. exact (proj1 Hcl j X Hj HX). }
  assert (Hstay : cleanedBefore m' (it s)).
  { split; [exact Hbefore |]. intros X HX. rewrite HB' in HX. injection HX as <-.
    exact Hfirst. }
  unfold step. rewrite Hget. fold m'.
  rewrite (isEndOfBlock_length _ _ _ HB').
  destruct (Nat.leb_spec (List.length (instructions B')) (wpos (it s))) as [Hend | Hmid].
  - rewrite (nextInMethod_end _ _ _ HB' Hend). rewrite Hblocks.
    destruct (Nat.ltb_spec (S (wblock (it s))) (List.length (basicBlocks (method s))))
      as [Lt | Ge].
    + constructor; cbn [method it num]; try assumption.
      * right. apply headed_walk; [exact Hh' | lia].
      * apply (cleanedBefore_next_block _ _ B' HB' Hstay).
        apply (clean_firstn_all _ (wpos (it s))); [exact Hend | exact Hfirst].
    + constructor; cbn [method it num]; try assumption.
      left. apply (isEndOfMethod_last _ _ B'); [exact HB' | exact Hend | lia].
  - constructor; cbn [method it num]; try assumption.
    right. apply (blockAt_onEntry _ _ B'); [exact HB' | exact Hmid].
Qed.

(** ** The loop ends *)

Lemma step_measure (m0 : Method) (s : State) :
  invariant m0 s ->
  isEndOfMethod (method s) (it s) = false ->
  invariant m0 (step s) /\ measure (step s) < measure s.
Proof.
  intros Hinv He.
  assert (Hv : onEntry (shape (method s)) (it s)).
  { destruct (inv_cursor _ _ Hinv) as [H | H]; [congruence | exact H]. }
  destruct (get (method s) (it s)) as [x |] eqn:Hget.
  - split; [exact (step_instruction _ _ _ Hinv Hv Hget) |].
    unfold step, measure. rewrite Hget. cbn [method it].
    pose proof (nextInMethod_remaining _ _ He). lia.
  - split; [exact (step_empty _ _ Hinv Hv Hget) |].
    pose proof (shape_eraseAt _ _ Hv) as Hshape.
    pose proof (remaining_updateNth_pred _ _ Hv) as Hrem.
    destruct Hv as (n & Hn & Hp).
    pose proof (list_sum_updateNth_pred _ _ _ Hn ltac:(lia)) as Hsum.
    unfold step, measure. rewrite Hget. cbn [method it].
    set (m' := eraseAt (method s) (it s)) in *. rewrite Hshape.
    destruct (isEndOfBlock m' (it s)) eqn:Eb; [| lia].
    destruct (isEndOfMethod m' (it s)) eqn:Em.
    + assert (Enext : nextInMethod m' (it s) = it s).
      { unfold nextInMethod. rewrite Eb, Eb. cbn [andb].
        destruct (Nat.ltb_spec (S (wblock (it s))) (List.length (basicBlocks m')))
          as [Lt | Ge]; [exfalso | reflexivity].
        unfold isEndOfMethod in Em.
        destruct (blockAt m' (it s)) eqn:EB.
        - rewrite Eb in Em. cbn [andb] in Em. apply Nat.eqb_eq in Em. lia.
        - unfold blockAt in EB. apply nth_error_None in EB. lia. }
      rewrite Enext. lia.
    + pose proof (nextInMethod_remaining _ _ Em) as Hnext. rewrite Hshape in Hnext. lia.
Qed.

Lemma cleaning_invariant (m0 : Method) (fuel : nat) :
  forall s, invariant m0 s -> measure s < fuel ->
    exists s', run fuel s = Some s' /\ invariant m0 s'
               /\ isEndOfMethod (method s') (it s') = true.
Proof.
  induction fuel as [| fuel IH]; intros s Hinv Hm; [lia |].
  cbn [run]. destruct (isEndOfMethod (method s) (it s)) eqn:He.
  - exists s. split; [reflexivity | split; assumption].
  - destruct (step_measure _ _ Hinv He) as [Hinv' Hlt].
    apply IH; [exact Hinv' | lia].
Qed.

(** ** The result *)

Lemma withoutEmpty_clean (b : BasicBlock) :
  clean (instructions b) -> withoutEmpty b = b.
Proof.
  intros H. unfold withoutEmpty. rewrite (proj1 (clean_all _ H)).
  destruct b; reflexivity.
Qed.

Lemma cleaned_at_end (m : Method) (w : Walker) :
  isEndOfMethod m w = true -> cleanedBefore m w ->
  forall b, In b (basicBlocks m) -> clean (instructions b).
Proof.
  intros He [H1 H2] b Hb. apply In_nth_error in Hb. destruct Hb as [j Hj].
  unfold isEndOfMethod in He.
  destruct (blockAt m w) as [B |] eqn:EB.
  - apply andb_prop in He. destruct He as [Hend Hlast].
    rewrite (isEndOfBlock_length _ _ _ EB) in Hend.
    apply Nat.leb_le in Hend. apply Nat.eqb_eq in Hlast.
    assert (Hlt : j < List.length (basicBlocks m))
      by (apply nth_error_Some; rewrite Hj; discriminate).
    destruct (Nat.eq_dec j (wblock w)) as [-> | Hne].
    + unfold blockAt in EB. rewrite EB in Hj. injection Hj as <-.
      apply (clean_firstn_all _ (wpos w)); [exact Hend | exact (H2 B eq_refl)].
    + apply (H1 j b); [lia | exact Hj].
  - unfold blockAt in EB. apply nth_error_None in EB.
    apply (H1 j b); [| exact Hj].
    assert (Hlt : j < List.length (basicBlocks m))
      by (apply nth_error_Some; rewrite Hj; discriminate).
    lia.
Qed.

Lemma map_id_on {A : Type} (f : A -> A) (l : list A) :
  (forall x, In x l -> f x = x) -> map f l = l.
Proof.
  induction l as [| a l IH]; intros H; cbn; [reflexivity |].
  rewrite (H a (or_introl eq_refl)), IH; [reflexivity |].
  intros x Hx. apply H. right. exact Hx.
Qed.

Lemma countEmpty_clean (m : Method) :
  (forall b, In b (basicBlocks m) -> clean (instructions b)) -> countEmpty m = 0.
Proof.
  unfold countEmpty. induction (basicBlocks m) as [| b bs IH]; intros H; [reflexivity |].
  cbn [map list_sum fold_right].
  rewrite (proj2 (clean_all _ (H b (or_introl eq_refl)))).
  change (list_sum ?l) with (fold_right Nat.add 0 l) in IH.
  rewrite IH; [reflexivity |]. intros x Hx. apply H. right. exact Hx.
Qed.

(** X20.  On a method whose blocks start with an instruction,
    [cleanEmptyInstructions] returns: the method it leaves is the method of
    before without its empty entries, everything else in place, and the
    number returned is the number of entries removed. *)
Theorem cleanEmptyInstructions_removes_empty :
  forall m : Method,
    Forall headed (basicBlocks m) ->
    cleanEmptyInstructions m
    = Some (setBlocks m (map withoutEmpty (basicBlocks m)), countEmpty m).
Proof.
  intros m Hh. unfold cleanEmptyInstructions.
  set (s0 := {| method := m; it := walkAllInstructions m; num := 0 |}).
  assert (Hinv : invariant m s0).
  { constructor; cbn [s0 method it num]; try reflexivity.
    - exact Hh.
    - destruct (Nat.eq_dec (List.length (basicBlocks m)) 0) as [E | E].
      + left. unfold isEndOfMethod, blockAt.
        destruct (basicBlocks m); [reflexivity | discriminate].
      + right. apply headed_walk; [exact Hh | lia].
    - split; [intros j b Hj; cbn in Hj; lia | intros b _; reflexivity]. }
  assert (Hfuel : measure s0 < fuelFor m)
    by exact (fuelFor_enough m (walkAllInstructions m) false).
  destruct (cleaning_invariant m (fuelFor m) s0 Hinv Hfuel) as (s' & Hrun & Hinv' & Hend).
  rewrite Hrun.
  pose proof (cleaned_at_end _ _ Hend (inv_cleaned _ _ Hinv')) as Hclean.
  pose proof (inv_same _ _ Hinv') as Hsame.
  rewrite (map_id_on withoutEmpty) in Hsame
    by (intros b Hb; apply withoutEmpty_clean, Hclean, Hb).
  pose proof (inv_num _ _ Hinv') as Hnum.
  rewrite (countEmpty_clean _ Hclean), Nat.add_0_r in Hnum.
  pose proof (inv_meta _ _ Hinv') as Hmeta.
  f_equal. f_equal; [| exact Hnum].
  destruct (method s') as [bs md]. cbn [basicBlocks metaData] in *. subst.
  reflexivity.
Qed.

Lemma cleanEmptyInstructions_removes_empty_witness :
  cleanEmptyInstructions sparse
  = Some (setBlocks sparse (map withoutEmpty (basicBlocks sparse)), countEmpty sparse).
Proof.
  apply (cleanEmptyInstructions_removes_empty sparse).
  repeat constructor.
Defined.

End EmptyInstructionsFacts.

(** ** Method.cpp: the built-in locals *)

Module BuiltinsFacts.

Import IR.
Import MethodEdit.
Import Builtins.

Lemma builtinName_injective (t t' : BuiltinType) :
  builtinName t = builtinName t' -> t = t'.
Proof. destruct t, t'; intros H; try reflexivity; discriminate H. Qed.

Lemma findBuiltin_nth_error (indexOf : BuiltinType -> nat) (table : Table)
    (t : BuiltinType) :
  findBuiltin indexOf table t
  = match nth_error table (indexOf t) with Some e => e | None => None end.
Proof.
  unfold findBuiltin.
  destruct (Nat.leb_spec (List.length table) (indexOf t)) as [H | H].
  - apply nth_error_None in H. rewrite H. reflexivity.
  - destruct (nth_error table (indexOf t)) as [e |] eqn:E.
    + exact (nth_error_nth _ _ _ E).
    + apply nth_error_None in E. lia.
Qed.

Lemma nth_error_resize (n : nat) (table : Table) (i : nat) :
  match nth_error (resize n table) i with Some e => e | None => None end
  = match nth_error table i with Some e => e | None => None end.
Proof.
  unfold resize. destruct (Nat.lt_ge_cases i (List.length table)) as [H | H].
  - rewrite nth_error_app1 by exact H. reflexivity.
  - rewrite nth_error_app2 by exact H.
    rewrite (proj2 (nth_error_None table i) H).
    destruct (nth_error (repeat None (n - List.length table)) (i - List.length table))
      as [e |] eqn:E; [| reflexivity].
    apply nth_error_In, repeat_spec in E. exact E.
Qed.

Lemma length_resize (n : nat) (table : Table) :
  List.length table < n -> List.length (resize n table) = n.
Proof. intros H. unfold resize. rewrite length_app, repeat_length. lia. Qed.

(** X21.  [findOrCreateBuiltin] creates a built-in local once: for a type
    inside the table it returns the local the table holds for the type, or
    a new one with the name and the type of the [switch], puts it into the
    table and leaves the entries of the other types alone.  [findBuiltin]
    then finds it and a second call returns the same local and changes
    nothing.  No two types share a name. *)
Theorem findOrCreateBuiltin_creates_once :
  forall (NUM_LOCALS : nat) (indexOf : BuiltinType -> nat)
         (builtinLocals : Table) (t : BuiltinType),
    indexOf t < NUM_LOCALS ->
    exists table' l,
      findOrCreateBuiltin NUM_LOCALS indexOf builtinLocals t = Returned (table', l)
      /\ findBuiltin indexOf table' t = Some l
      /\ l = match findBuiltin indexOf builtinLocals t with
             | Some old => old
             | None => newBuiltin t
             end
      /\ findOrCreateBuiltin NUM_LOCALS indexOf table' t = Returned (table', l)
      /\ (forall t', indexOf t' <> indexOf t ->
                     findBuiltin indexOf table' t' = findBuiltin indexOf builtinLocals t')
      /\ (forall t', sameLocal (newBuiltin t') (newBuiltin t) = true -> t' = t).
Proof.
  intros NUM indexOf table t Hidx. unfold findOrCreateBuiltin.
  assert (Hnames : forall t', sameLocal (newBuiltin t') (newBuiltin t) = true -> t' = t).
  { intros t' H. apply builtinName_injective. apply String.eqb_eq. exact H. }
  set (T := if Nat.ltb (List.length table) NUM then resize NUM table else table).
  assert (HlenT : NUM <= List.length T).
  { unfold T. destruct (Nat.ltb_spec (List.length table) NUM) as [H | H];
      [rewrite length_resize by exact H; lia | exact H]. }
  assert (Hlook : forall i,
            match nth_error T i with Some e => e | None => None end
            = match nth_error table i with Some e => e | None => None end).
  { intros i. unfold T. destruct (Nat.ltb (List.length table) NUM);
      [apply nth_error_resize | reflexivity]. }
  assert (Hfind : forall t', findBuiltin indexOf T t' = findBuiltin indexOf table t').
  { intros t'. rewrite !findBuiltin_nth_error. apply Hlook. }
  assert (Hstable : forall T', List.length T' = List.length T ->
            (if Nat.ltb (List.length T') NUM then resize NUM T' else T') = T').
  { intros T' HT'. destruct (Nat.ltb_spec (List.length T') NUM); [lia | reflexivity]. }
  destruct (nth_error T (indexOf t)) as [[entry |] |] eqn:E.
  - exists T, entry. split; [reflexivity |].
    assert (F : findBuiltin indexOf T t = Some entry)
      by (rewrite findBuiltin_nth_error, E; reflexivity).
    repeat split.
    + exact F.
    + rewrite <- Hfind, F. reflexivity.
    + cbv zeta. rewrite (Hstable T eq_refl), E. reflexivity.
    + intros t' _. apply Hfind.
    + exact Hnames.
  - set (T' := DeadCode.updateNth (indexOf t) (fun _ => Some (newBuiltin t)) T).
    assert (HlenT' : List.length T' = List.length T)
      by apply ReturnEliminationFacts.length_updateNth.
    assert (E' : nth_error T' (indexOf t) = Some (Some (newBuiltin t))).
    { unfold T'. rewrite DeadCodeFacts.nth_error_updateNth, E. reflexivity. }
    exists T', (newBuiltin t). split; [reflexivity |].
    repeat split.
    + rewrite findBuiltin_nth_error, E'. reflexivity.
    + rewrite <- Hfind, findBuiltin_nth_error, E. reflexivity.
    + cbv zeta. rewrite (Hstable T' HlenT'), E'. reflexivity.
    + intros t' Hne. rewrite <- Hfind, !findBuiltin_nth_error. unfold T'.
      rewrite EmptyInstructionsFacts.nth_error_updateNth_other by lia. reflexivity.
    + exact Hnames.
  - apply nth_error_None in E. lia.
Qed.

Lemma findOrCreateBuiltin_creates_once_witness :
  exists table' l,
    findOrCreateBuiltin 18 switchOrder [] GLOBAL_DATA_ADDRESS = Returned (table', l)
    /\ findBuiltin switchOrder table' GLOBAL_DATA_ADDRESS = Some l
    /\ l = match findBuiltin switchOrder [] GLOBAL_DATA_ADDRESS with
           | Some old => old
           | None => newBuiltin GLOBAL_DATA_ADDRESS
           end
    /\ findOrCreateBuiltin 18 switchOrder table' GLOBAL_DATA_ADDRESS
       = Returned (table', l)
    /\ (forall t', switchOrder t' <> switchOrder GLOBAL_DATA_ADDRESS ->
                   findBuiltin switchOrder table' t' = findBuiltin switchOrder [] t')
    /\ (forall t', sameLocal (newBuiltin t') (newBuiltin GLOBAL_DATA_ADDRESS) = true ->
                   t' = GLOBAL_DATA_ADDRESS).
Proof.
  apply (findOrCreateBuiltin_creates_once 18 switchOrder [] GLOBAL_DATA_ADDRESS).
  cbn. lia.
Defined.

End BuiltinsFacts.

(** ** optimization/Eliminator.cpp: calls of the SFU with a constant *)

Module ConstantSFUFacts.

Import IR.
Import MethodEdit.
Import ConstantSFU.

Section WithHardware.

Variable writesSFU : Op -> bool.
Variable otherSideEffects : Op -> bool.
Variable precalculateSFU : Op -> option Value.
Variable waitsForSFU : Op -> bool.
Variable REG_SFU_OUT : Register.

Lemma eraseDelays_zero (l : list (option Instruction)) :
  eraseDelays waitsForSFU 0 l = ([], l).
Proof. destruct l; reflexivity. Qed.

(** The first loop steps over what is no delay and erases the delay. *)
Lemma eraseDelays_delay (n : nat) (a : list (option Instruction))
    (d : option Instruction) (rest : list (option Instruction)) :
  forallb (noDelay waitsForSFU) a = true -> isDelay waitsForSFU d = true ->
  eraseDelays waitsForSFU (S n) (a ++ d :: rest)
  = (a ++ fst (eraseDelays waitsForSFU n rest), snd (eraseDelays waitsForSFU n rest)).
Proof.
  intros Ha Hd. induction a as [| x a IH]; cbn [app ConstantSFU.eraseDelays].
  - rewrite Hd. destruct (eraseDelays waitsForSFU n rest); reflexivity.
  - cbn [forallb] in Ha. apply andb_prop in Ha. destruct Ha as [Hx Ha].
    apply negb_true_iff in Hx. rewrite Hx, (IH Ha). reflexivity.
Qed.

Lemma eraseDelays_found (n : nat) (l passed remaining : list (option Instruction)) :
  eraseDelays waitsForSFU (S n) l = (passed, remaining) -> remaining <> [] ->
  exists a d rest,
    l = a ++ d :: rest
    /\ forallb (noDelay waitsForSFU) a = true /\ isDelay waitsForSFU d = true
    /\ passed = a ++ fst (eraseDelays waitsForSFU n rest)
    /\ remaining = snd (eraseDelays waitsForSFU n rest).
Proof.
  revert passed. induction l as [| x l IH]; intros passed H Hne;
    cbn [ConstantSFU.eraseDelays] in H.
  - injection H as _ <-. contradiction.
  - destruct (isDelay waitsForSFU x) eqn:Ex.
    + exists [], x, l. rewrite H. repeat split; assumption.
    + destruct (eraseDelays waitsForSFU (S n) l) as [p r] eqn:E. injection H as <- <-.
      destruct (IH p eq_refl Hne) as (a & d & rest & -> & Ha & Hd & -> & Hr).
      exists (x :: a), d, rest. cbn [forallb app]. unfold noDelay at 1.
      rewrite Ex, Ha. repeat split; assumption.
Qed.

(** The second loop steps over the instructions that do not read the
    result and rewrites the first reader. *)
Lemma rewriteReader_reader (result : Value) (c : list (option Instruction))
    (reader : Op) (out : Value) (rest : list (option Instruction)) :
  forallb (passedOver REG_SFU_OUT) c = true ->
  readsResult REG_SFU_OUT (Single reader) = true ->
  output reader = Some out ->
  rewriteReader REG_SFU_OUT result (c ++ Some (Single reader) :: rest)
  = Rewritten c (Some (Single (ConstantFolding.moveWithExtras out result reader)) :: rest).
Proof.
  intros Hc Hr Ho. induction c as [| x c IH]; cbn [app ConstantSFU.rewriteReader].
  - rewrite Hr, Ho. reflexivity.
  - cbn [forallb] in Hc. apply andb_prop in Hc. destruct Hc as [Hx Hc].
    destruct x as [x |]; [| discriminate]. cbn [passedOver] in Hx.
    apply negb_true_iff in Hx. rewrite Hx, (IH Hc). reflexivity.
Qed.

Lemma rewriteReader_empty (result : Value) (c rest : list (option Instruction)) :
  forallb (passedOver REG_SFU_OUT) c = true ->
  rewriteReader REG_SFU_OUT result (c ++ None :: rest) = EmptyEntry.
Proof.
  intros Hc. induction c as [| x c IH]; cbn [app ConstantSFU.rewriteReader];
    [reflexivity |].
  cbn [forallb] in Hc. apply andb_prop in Hc. destruct Hc as [Hx Hc].
  destruct x as [x |]; [| discriminate]. cbn [passedOver] in Hx.
  apply negb_true_iff in Hx. rewrite Hx, (IH Hc). reflexivity.
Qed.

Lemma rewriteReader_found (result : Value)
    (l passed fromReader : list (option Instruction)) :
  rewriteReader REG_SFU_OUT result l = Rewritten passed fromReader ->
  exists reader out rest,
    l = passed ++ Some (Single reader) :: rest
    /\ forallb (passedOver REG_SFU_OUT) passed = true
    /\ readsResult REG_SFU_OUT (Single reader) = true
    /\ output reader = Some out
    /\ fromReader
       = Some (Single (ConstantFolding.moveWithExtras out result reader)) :: rest.
Proof.
  revert passed. induction l as [| x l IH]; intros passed H;
    cbn [ConstantSFU.rewriteReader] in H; [discriminate |].
  destruct x as [x |]; [| discriminate].
  destruct (readsResult REG_SFU_OUT x) eqn:Ex.
  - destruct x as [reader | ? ? ?]; [| discriminate].
    destruct (output reader) as [out |] eqn:Eo; [| discriminate].
    injection H as <- <-. exists reader, out, l. repeat split; assumption.
  - destruct (rewriteReader REG_SFU_OUT result l) as [| | | p fr] eqn:E; try discriminate.
    injection H as <- <-.
    destruct (IH p eq_refl) as (reader & out & rest & -> & Hp & Hr & Ho & ->).
    exists reader, out, rest. cbn [forallb app passedOver]. rewrite Ex, Hp.
    repeat split; assumption.
Qed.

Lemma rewriteReader_undefined (result : Value) (l : list (option Instruction)) :
  rewriteReader REG_SFU_OUT result l = EmptyEntry ->
  exists c rest, l = c ++ None :: rest /\ forallb (passedOver REG_SFU_OUT) c = true.
Proof.
  induction l as [| x l IH]; intros H; cbn [ConstantSFU.rewriteReader] in H;
    [discriminate |].
  destruct x as [x |]; [| exists [], l; split; reflexivity].
  destruct (readsResult REG_SFU_OUT x) eqn:Ex.
  - destruct x as [reader | ? ? ?]; [| discriminate].
    destruct (output reader); discriminate.
  - destruct (rewriteReader REG_SFU_OUT result l) as [| | | p fr] eqn:E; try discriminate.
    destruct (IH eq_refl) as (c & rest & -> & Hc).
    exists (Some x :: c), rest. cbn [forallb app passedOver]. rewrite Ex, Hc.
    split; reflexivity.
Qed.

(** ** The two loops and the patterns *)

(** On the pattern of a call the loops erase the delays and rewrite the
    reader. *)
Lemma loops_call (result : Value) (afterCall after : list (option Instruction))
    (n : nat) :
  callPattern waitsForSFU REG_SFU_OUT result afterCall after n ->
  exists passed afterDelays passedToo fromReader,
    eraseDelays waitsForSFU 2 afterCall = (passed, afterDelays)
    /\ afterDelays <> []
    /\ rewriteReader REG_SFU_OUT result afterDelays = Rewritten passedToo fromReader
    /\ after = passed ++ passedToo ++ fromReader
    /\ n = List.length passed + List.length passedToo.
Proof.
  intros H. inversion H as [a d1 b d2 c reader out rest Hd1 Hd2 Hab Hc Hr Ho]; subst.
  rewrite forallb_app in Hab. apply andb_prop in Hab. destruct Hab as [Ha Hb].
  exists (a ++ b), (c ++ Some (Single reader) :: rest), c,
         (Some (Single (ConstantFolding.moveWithExtras out result reader)) :: rest).
  repeat split.
  - rewrite (eraseDelays_delay 1 a d1 _ Ha Hd1).
    rewrite (eraseDelays_delay 0 b d2 _ Hb Hd2).
    rewrite eraseDelays_zero. cbn [fst snd]. rewrite app_nil_r. reflexivity.
  - destruct c; discriminate.
  - exact (rewriteReader_reader result c reader out rest Hc Hr Ho).
  - rewrite <- !app_assoc. reflexivity.
  - rewrite !length_app. lia.
Qed.

(** On an entry without instruction behind the delays the second loop
    leaves defined behaviour. *)
Lemma loops_empty (result : Value) (afterCall : list (option Instruction)) :
  emptyPattern waitsForSFU REG_SFU_OUT afterCall ->
  exists passed afterDelays,
    eraseDelays waitsForSFU 2 afterCall = (passed, afterDelays)
    /\ afterDelays <> []
    /\ rewriteReader REG_SFU_OUT result afterDelays = EmptyEntry.
Proof.
  intros H. inversion H as [a d1 b d2 c rest Hd1 Hd2 Hab Hc]; subst.
  rewrite forallb_app in Hab. apply andb_prop in Hab. destruct Hab as [Ha Hb].
  exists (a ++ b), (c ++ None :: rest). repeat split.
  - rewrite (eraseDelays_delay 1 a d1 _ Ha Hd1).
    rewrite (eraseDelays_delay 0 b d2 _ Hb Hd2).
    rewrite eraseDelays_zero. cbn [fst snd]. rewrite app_nil_r. reflexivity.
  - destruct c; discriminate.
  - exact (rewriteReader_empty result c rest Hc).
Qed.

(** Both delays have been found. *)
Lemma eraseDelays_both (l passed remaining : list (option Instruction)) :
  eraseDelays waitsForSFU 2 l = (passed, remaining) -> remaining <> [] ->
  exists a d1 b d2,
    l = a ++ d1 :: b ++ d2 :: remaining /\ passed = a ++ b
    /\ isDelay waitsForSFU d1 = true /\ isDelay waitsForSFU d2 = true
    /\ forallb (noDelay waitsForSFU) (a ++ b) = true.
Proof.
  intros E1 Hne.
  destruct (eraseDelays_found 1 _ _ _ E1 Hne) as (a & d1 & r1 & -> & Ha & Hd1 & -> & Hrem).
  destruct (eraseDelays waitsForSFU 1 r1) as [p1 rem1] eqn:E3. cbn [fst snd] in *.
  subst rem1.
  destruct (eraseDelays_found 0 _ _ _ E3 Hne) as (b & d2 & r2 & -> & Hb & Hd2 & -> & Hrem2).
  rewrite eraseDelays_zero in Hrem2 |- *. cbn [fst snd] in *. subst remaining.
  exists a, d1, b, d2. rewrite app_nil_r, forallb_app, Ha, Hb.
  repeat split; assumption.
Qed.

(** The two loops find the patterns, and only the patterns. *)
Lemma loops_pattern (result : Value) (afterCall : list (option Instruction)) :
  let (passed, afterDelays) := eraseDelays waitsForSFU 2 afterCall in
  match afterDelays with
  | [] =>
      (forall after n, ~ callPattern waitsForSFU REG_SFU_OUT result afterCall after n)
      /\ ~ emptyPattern waitsForSFU REG_SFU_OUT afterCall
  | _ :: _ =>
      match rewriteReader REG_SFU_OUT result afterDelays with
      | Rewritten passedToo fromReader =>
          callPattern waitsForSFU REG_SFU_OUT result afterCall
                      (passed ++ passedToo ++ fromReader)
                      (List.length passed + List.length passedToo)
      | EmptyEntry => emptyPattern waitsForSFU REG_SFU_OUT afterCall
      | _ =>
          (forall after n,
              ~ callPattern waitsForSFU REG_SFU_OUT result afterCall after n)
          /\ ~ emptyPattern waitsForSFU REG_SFU_OUT afterCall
      end
  end.
Proof.
  destruct (eraseDelays waitsForSFU 2 afterCall) as [passed afterDelays] eqn:E1.
  assert (Hno : forall s,
            (afterDelays = [] \/ rewriteReader REG_SFU_OUT result afterDelays = s) ->
            (forall p fr, s <> Rewritten p fr) -> s <> EmptyEntry ->
            (forall after n,
                ~ callPattern waitsForSFU REG_SFU_OUT result afterCall after n)
            /\ ~ emptyPattern waitsForSFU REG_SFU_OUT afterCall).
  { intros s Hs Hnr Hne. split.
    - intros after n H.
      destruct (loops_call _ _ _ _ H) as (p & ad & p2 & fr & E & Hn & Er & _).
      rewrite E1 in E. injection E as <- <-.
      destruct Hs as [Hs | Hs]; [contradiction |].
      rewrite Er in Hs. exact (Hnr _ _ (eq_sym Hs)).
    - intros H. destruct (loops_empty result _ H) as (p & ad & E & Hn & Er).
      rewrite E1 in E. injection E as <- <-.
      destruct Hs as [Hs | Hs]; [contradiction |].
      rewrite Er in Hs. exact (Hne (eq_sym Hs)). }
  destruct afterDelays as [| x afterDelays'].
  - apply (Hno EndOfBlock); [left; reflexivity | discriminate | discriminate].
  - set (afterDelays := x :: afterDelays') in *.
    assert (Hne : afterDelays <> []) by discriminate.
    destruct (eraseDelays_both _ _ _ E1 Hne) as (a & d1 & b & d2 & -> & -> & Hd1 & Hd2 & Hab).
    destruct (rewriteReader REG_SFU_OUT result afterDelays)
      as [| | | passedToo fromReader] eqn:E2.
    + apply (Hno EndOfBlock); [right; reflexivity | discriminate | discriminate].
    + destruct (rewriteReader_undefined _ _ E2) as (c & rest & -> & Hc).
      apply emptyPattern_intro; assumption.
    + apply (Hno NoOutput); [right; reflexivity | discriminate | discriminate].
    + destruct (rewriteReader_found result _ _ _ E2)
        as (reader & out & rest & -> & Hp & Hr & Ho & ->).
      rewrite <- app_assoc, <- length_app.
      replace (List.length ((a ++ b) ++ passedToo))
        with (List.length (a ++ b ++ passedToo)) by (rewrite app_assoc; reflexivity).
      apply callPattern_intro; assumption.
Qed.

Lemma countInstructions_replaced (m : Method) (i : nat) (b b' : BasicBlock) (k : nat) :
  nth_error (basicBlocks m) i = Some b ->
  List.length (instructions b') + k = List.length (instructions b) ->
  DeadCode.countInstructions
    (setBlocks m (DeadCode.updateNth i (fun _ => b') (basicBlocks m))) + k
  = DeadCode.countInstructions m.
Proof.
  unfold DeadCode.countInstructions. cbn [setBlocks basicBlocks].
  revert i. induction (basicBlocks m) as [| x l IH]; intros [| i] Hb Hk;
    cbn [nth_error DeadCode.updateNth fold_right] in *; try discriminate.
  - injection Hb as ->. lia.
  - specialize (IH i Hb Hk). lia.
Qed.

Lemma callPattern_length (result : Value) (l after : list (option Instruction))
    (n : nat) :
  callPattern waitsForSFU REG_SFU_OUT result l after n ->
  List.length after + 2 = List.length l.
Proof.
  intros H. inversion H; subst.
  repeat (rewrite ?length_app; cbn [List.length]). lia.
Qed.

(** X23.  [rewriteConstantSFUCall] returns the method and the cursor as
    they are unless the cursor is on a call of the SFU that passes the
    tests and has a constant result.  On such a call it depends on the
    instructions behind the call in the block.  When they hold two delays
    for the SFU and behind them, after instructions that do not read the
    result, an instruction with an output that reads it, the function
    returns: the block has lost the call and the two delays, the reader has
    become a move of the constant to its output, every other instruction
    of the method is in its place (three instructions less), and the cursor
    is on the instruction before the move.  When an entry without
    instruction comes before the reader, the null pointer is dereferenced.
    In every other case the function throws. *)
Theorem rewriteConstantSFUCall_rewrites :
  forall (m : Method) (it : Walker),
    let rewritten := rewriteConstantSFUCall writesSFU otherSideEffects precalculateSFU
                                            waitsForSFU REG_SFU_OUT m it in
    ((forall o result b,
         ~ constantCall writesSFU otherSideEffects precalculateSFU m it o result b) ->
     rewritten = Some (Returned (m, it)))
    /\ (forall o result b,
          constantCall writesSFU otherSideEffects precalculateSFU m it o result b ->
          let afterCall := skipn (S (wpos it)) (instructions b) in
          (forall after n,
              callPattern waitsForSFU REG_SFU_OUT result afterCall after n ->
              exists m',
                rewritten
                = Some (Returned
                          (m', previousInBlock {| wblock := wblock it;
                                                  wpos := wpos it + n |}))
                /\ blockAt m' it
                   = Some {| blockAddress := blockAddress b;
                             instructions := firstn (wpos it) (instructions b) ++ after |}
                /\ (forall j, j <> wblock it ->
                              nth_error (basicBlocks m') j = nth_error (basicBlocks m) j)
                /\ metaData m' = metaData m
                /\ DeadCode.countInstructions m' + 3 = DeadCode.countInstructions m)
          /\ (emptyPattern waitsForSFU REG_SFU_OUT afterCall -> rewritten = None)
          /\ ((forall after n,
                  ~ callPattern waitsForSFU REG_SFU_OUT result afterCall after n) ->
              ~ emptyPattern waitsForSFU REG_SFU_OUT afterCall ->
              rewritten = Some Threw)).
Proof.
  intros m it rewritten. subst rewritten. unfold rewriteConstantSFUCall. split.
  - intros Hnone.
    destruct (get m it) as [[o | ? ? ?] |] eqn:Hget; try reflexivity.
    destruct (blockAt m it) as [b |] eqn:Hb; [| reflexivity].
    destruct (isConstantCall writesSFU otherSideEffects o) eqn:Hc; [| reflexivity].
    destruct (precalculateSFU o) as [result |] eqn:Hr; [| reflexivity].
    exfalso. apply (Hnone o result b). repeat split; assumption.
  - intros o result b Hcall. destruct Hcall as (Hget & Hb & Hc & Hr).
    rewrite Hget, Hb, Hc, Hr.
    set (afterCall := skipn (S (wpos it)) (instructions b)).
    pose proof (loops_pattern result afterCall) as Hp.
    assert (Hentry : nth_error (instructions b) (wpos it) = Some (Some (Single o))).
    { unfold get in Hget. rewrite Hb in Hget.
      destruct (nth_error (instructions b) (wpos it)) as [e |]; [| discriminate].
      subst e. reflexivity. }
    assert (Hlen : List.length (firstn (wpos it) (instructions b)) = wpos it).
    { apply firstn_length_le. apply Nat.lt_le_incl. apply nth_error_Some.
      rewrite Hentry. discriminate. }
    split; [| split].
    + intros after n Hpat.
      destruct (loops_call _ _ _ _ Hpat)
        as (passed & afterDelays & passedToo & fromReader & E1 & Hne & E2 & -> & ->).
      rewrite E1. destruct afterDelays as [| x rest]; [contradiction |].
      rewrite E2. rewrite Hlen, <- Nat.add_assoc.
      eexists. split; [reflexivity |]. repeat split.
      * unfold blockAt. cbn [setBlocks basicBlocks].
        rewrite DeadCodeFacts.nth_error_updateNth. unfold blockAt in Hb. rewrite Hb.
        reflexivity.
      * intros j Hj. cbn [setBlocks basicBlocks].
        apply EmptyInstructionsFacts.nth_error_updateNth_other. lia.
      * apply countInstructions_replaced with (b := b); [exact Hb |].
        cbn [instructions]. pose proof (callPattern_length _ _ _ _ Hpat) as Hl.
        rewrite (MethodEditFacts.nth_error_split _ _ _ Hentry) at 2.
        fold afterCall. rewrite !length_app in *. cbn [List.length]. lia.
    + intros Hempty.
      destruct (loops_empty result _ Hempty) as (passed & afterDelays & E1 & Hne & E2).
      rewrite E1. destruct afterDelays as [| x rest]; [contradiction |].
      rewrite E2. reflexivity.
    + intros Hnc Hnp.
      destruct (eraseDelays waitsForSFU 2 afterCall) as [passed afterDelays].
      destruct afterDelays as [| x rest]; [reflexivity |].
      destruct (rewriteReader REG_SFU_OUT result (x :: rest)) as [| | | p fr];
        try reflexivity.
      * contradiction.
      * exfalso. exact (Hnc _ _ Hp).
Qed.

End WithHardware.

End ConstantSFUFacts.

(** ** optimization/Eliminator.cpp: what dead-code elimination deletes *)

Module DeadCodePassFacts.

Import IR.
Import DeadCode.
Import DeadCodeFacts.
Import DeadCodeInvariants.
Import DeadCodeInvariantsFacts.
Import DeadCodePass.

(** ** Lists *)

Lemma removeNth_app_before {A : Type} (l r : list A) :
  forall p, p < List.length l -> removeNth p (l ++ r) = removeNth p l ++ r.
Proof.
  induction l as [| a l IH]; intros [| p] H; cbn in *; try lia; [reflexivity |].
  f_equal. apply IH. lia.
Qed.

Lemma removeNth_app_at {A : Type} (l r : list A) (x : A) :
  removeNth (List.length l) (l ++ x :: r) = l ++ r.
Proof. induction l as [| a l IH]; cbn; [reflexivity | f_equal; exact IH]. Qed.

Lemma skipn_app_at {A : Type} (l r : list A) (x : A) :
  skipn (S (List.length l)) (l ++ x :: r) = r.
Proof. induction l as [| a l IH]; cbn; [reflexivity | exact IH]. Qed.

Lemma thinned_app (a a' b b' : list (option Instruction)) :
  thinned a a' -> thinned b b' -> thinned (a ++ b) (a' ++ b').
Proof.
  intros Ha Hb. induction Ha as [| x l l' H IH | o l l' Ho H IH]; cbn.
  - exact Hb.
  - apply thinned_keep. exact IH.
  - apply thinned_drop; [exact Ho | exact IH].
Qed.

Lemma thinned_length (l l' : list (option Instruction)) :
  thinned l l' -> List.length l' <= List.length l.
Proof. induction 1; cbn; lia. Qed.

Lemma prunedFrom_blocks (m0 m m' : Method) :
  basicBlocks m' = basicBlocks m -> prunedFrom m0 m -> prunedFrom m0 m'.
Proof. unfold prunedFrom. intros ->. exact (fun H => H). Qed.

(** ** What an iteration does to the method and to the cursor *)

Lemma erasedAtCursor_back (s : State) : erasedAtCursor s (erasedAndBack s).
Proof. repeat split. right. reflexivity. Qed.

Lemma erasedAtCursor_stay (s : State) (m1 : Method) :
  basicBlocks m1 = basicBlocks (method s) -> erasedAtCursor s (erased m1 s).
Proof.
  intros E. unfold erasedAtCursor, erased, eraseAt, setBlocks; cbn [method it hasChanged basicBlocks].
  rewrite E. repeat split. left. reflexivity.
Qed.

(** An iteration moves the cursor on, or it erases the erasable instruction
    at the cursor. *)
Lemma step_cases (s : State) :
  step s = advance s
  \/ exists o, getOp (method s) (it s) = Some o /\ erasable o = true
               /\ erasedAtCursor s (step s).
Proof.
  pose proof (step_method s) as Hm. unfold step in *.
  destruct (getOp (method s) (it s)) as [instr |] eqn:Eg; [| left; reflexivity].
  assert (Herasable : forall m1, m1 <> method s -> stepMethod s m1 -> erasable instr = true).
  { intros m1 Hne H. inversion H as [E | o Ho He E | o t bit Ho He Hb E].
    - congruence.
    - congruence.
    - congruence. }
  assert (Hneq : forall m1, basicBlocks m1 = basicBlocks (method s) ->
                            eraseAt m1 (it s) <> method s).
  { intros m1 E F. apply (f_equal countInstructions) in F.
    pose proof (getOp_onEntry _ _ _ Eg) as Hv.
    assert (Hv1 : onEntry (shape m1) (it s)) by (unfold shape; rewrite E; exact Hv).
    pose proof (countInstructions_eraseAt _ _ Hv1) as Hc.
    unfold countInstructions in *. rewrite E in Hc. lia. }
  destruct (ruleNeverRead s instr) as [s1 |] eqn:E1.
  { rewrite (ruleNeverRead_kind _ _ _ E1) in *. right. exists instr.
    split; [reflexivity | split; [| apply erasedAtCursor_back]].
    apply (Herasable _ (Hneq (method s) eq_refl) Hm). }
  destruct (if isCandidate instr then ruleMove s instr else None) as [s2 |] eqn:E2.
  { destruct (isCandidate instr); [| discriminate].
    destruct (ruleMove_at_cursor _ _ _ Eg E2) as [bit ->]. right. exists instr.
    split; [reflexivity | split; [| apply erasedAtCursor_stay; reflexivity]].
    apply (Herasable _ (Hneq (disableUniform (method s) bit) eq_refl) Hm). }
  destruct (ruleRegister s instr) as [s3 |] eqn:E3.
  { rewrite (ruleRegister_kind _ _ _ E3) in *. right. exists instr.
    split; [reflexivity | split; [| apply erasedAtCursor_stay; reflexivity]].
    apply (Herasable _ (Hneq (method s) eq_refl) Hm). }
  destruct (ruleOverwritten s instr) as [s4 |] eqn:E4.
  { rewrite (ruleOverwritten_kind _ _ _ E4) in *. right. exists instr.
    split; [reflexivity | split; [| apply erasedAtCursor_stay; reflexivity]].
    apply (Herasable _ (Hneq (method s) eq_refl) Hm). }
  left. reflexivity.
Qed.

(** ** The cursor comes to every instruction *)

Lemma nextInMethod_block (m : Method) (w : Walker) :
  wblock (nextInMethod m w) = wblock w \/ nextInMethod m w = walk (S (wblock w)).
Proof.
  unfold nextInMethod.
  destruct (isEndOfBlock m w);
    match goal with
    | |- context [if ?c then _ else _] => destruct c
    end; cbn [wblock nextInBlock]; auto.
Qed.

Lemma nextInMethod_within (m : Method) (w : Walker) (B : BasicBlock) :
  blockAt m w = Some B -> S (wpos w) < List.length (instructions B) ->
  nextInMethod m w = nextInBlock w.
Proof.
  intros HB Hlt. unfold nextInMethod.
  assert (E1 : isEndOfBlock m w = false).
  { unfold isEndOfBlock. rewrite HB. apply Nat.leb_gt. lia. }
  assert (E2 : isEndOfBlock m (nextInBlock w) = false).
  { unfold isEndOfBlock, blockAt in *. cbn [nextInBlock wblock wpos]. rewrite HB.
    apply Nat.leb_gt. lia. }
  rewrite E1, E2. reflexivity.
Qed.

Lemma Walker_eq_dec (a b : Walker) : a = b \/ a <> b.
Proof.
  destruct a as [ab ap], b as [bb bp].
  destruct (Nat.eq_dec ab bb) as [-> | H]; [| right; congruence].
  destruct (Nat.eq_dec ap bp) as [-> | H]; [left; reflexivity | right; congruence].
Qed.

Section Target.

Variable m0 : Method.
Variable bi : nat.
Variable pre : list (option Instruction).
Variable x : option Instruction.
Variable rest : list (option Instruction).

Lemma pending_not_end (s : State) (pre' : list (option Instruction)) :
  pending m0 bi pre x rest s pre' -> isEndOfMethod (method s) (it s) = false.
Proof.
  intros (_ & _ & (B & HB & HI) & Hc).
  assert (Hbi : bi < List.length (basicBlocks (method s)))
    by (apply nth_error_Some; rewrite HB; discriminate).
  unfold isEndOfMethod, isEndOfBlock, blockAt.
  destruct Hc as [Hlt | [Heq Hle]].
  - destruct (nth_error (basicBlocks (method s)) (wblock (it s))) as [b |] eqn:Eb.
    + apply andb_false_iff. right. apply Nat.eqb_neq. lia.
    + apply nth_error_None in Eb. lia.
  - rewrite Heq, HB, HI. apply andb_false_iff. left. apply Nat.leb_gt.
    rewrite length_app. cbn [List.length]. lia.
Qed.

Lemma pending_advance (s : State) (pre' : list (option Instruction)) :
  pending m0 bi pre x rest s pre' ->
  it s <> {| wblock := bi; wpos := List.length pre' |} ->
  pending m0 bi pre x rest (advance s) pre'.
Proof.
  intros (Hp & Ht & (B & HB & HI) & Hc) Hne.
  split; [exact Hp | split; [exact Ht | split; [exists B; split; assumption |]]].
  cbn [advance it method].
  destruct Hc as [Hlt | [Heq Hle]].
  - destruct (nextInMethod_block (method s) (it s)) as [E | E].
    + left. rewrite E. exact Hlt.
    + rewrite E. cbn [walk wblock wpos].
      destruct (Nat.eq_dec (S (wblock (it s))) bi) as [Eb | Eb];
        [right; split; [exact Eb | lia] | left; lia].
  - right.
    assert (Hlt : wpos (it s) < List.length pre').
    { destruct (Nat.eq_dec (wpos (it s)) (List.length pre')) as [E | E]; [| lia].
      exfalso. apply Hne. destruct (it s) as [wb wp]. cbn in *. congruence. }
    rewrite (nextInMethod_within (method s) (it s) B).
    + cbn [nextInBlock wblock wpos]. split; [exact Heq | lia].
    + unfold blockAt. rewrite Heq. exact HB.
    + rewrite HI, length_app. cbn [List.length]. lia.
Qed.

Lemma pending_erased (s s' : State) (pre' : list (option Instruction)) (o : Op) :
  pending m0 bi pre x rest s pre' ->
  it s <> {| wblock := bi; wpos := List.length pre' |} ->
  getOp (method s) (it s) = Some o -> erasable o = true ->
  erasedAtCursor s s' ->
  exists pre'', pending m0 bi pre x rest s' pre''.
Proof.
  intros (Hp & Ht & (B & HB & HI) & Hc) Hne Hg He (Eb & _ & Hit).
  assert (Hp' : prunedFrom m0 (method s')).
  { apply (prunedFrom_blocks _ (eraseAt (method s) (it s))); [exact Eb |].
    exact (prunedFrom_trans _ _ _ Hp (prunedFrom_eraseAt _ _ _ Hg He)). }
  assert (Hw : wblock (it s') = wblock (it s) /\ wpos (it s') <= wpos (it s)).
  { destruct Hit as [-> | ->]; cbn [previousInBlock wblock wpos]; split; lia. }
  destruct Hc as [Hlt | [Heq Hle]].
  - exists pre'. split; [exact Hp' | split; [exact Ht | split]].
    + exists B. split; [| exact HI]. rewrite Eb.
      unfold eraseAt, setBlocks; cbn [basicBlocks].
      rewrite EmptyInstructionsFacts.nth_error_updateNth_other by lia. exact HB.
    + left. lia.
  - assert (Hlt : wpos (it s) < List.length pre').
    { destruct (Nat.eq_dec (wpos (it s)) (List.length pre')) as [E | E]; [| lia].
      exfalso. apply Hne. destruct (it s) as [wb wp]. cbn in *. congruence. }
    assert (Hentry : nth_error pre' (wpos (it s)) = Some (Some (Single o))).
    { apply getOp_get in Hg. unfold get, blockAt in Hg. rewrite Heq, HB, HI in Hg.
      rewrite nth_error_app1 in Hg by exact Hlt.
      destruct (nth_error pre' (wpos (it s))) as [e |]; [| discriminate].
      subst e. reflexivity. }
    exists (removeNth (wpos (it s)) pre').
    split; [exact Hp' | split; [| split]].
    + exact (thinned_trans _ _ Ht _ (thinned_removeNth _ _ _ Hentry He)).
    + eexists. split.
      * rewrite Eb. unfold eraseAt, setBlocks; cbn [basicBlocks].
        rewrite Heq, nth_error_updateNth, HB. reflexivity.
      * cbn [instructions]. rewrite HI. apply removeNth_app_before. exact Hlt.
    + right. rewrite removeNth_length by exact Hlt. split; [lia | lia].
Qed.

Lemma pending_step (s : State) (pre' : list (option Instruction)) :
  pending m0 bi pre x rest s pre' ->
  it s <> {| wblock := bi; wpos := List.length pre' |} ->
  exists pre'', pending m0 bi pre x rest (step s) pre''.
Proof.
  intros Hp Hne. destruct (step_cases s) as [-> | (o & Hg & He & Hs)].
  - exists pre'. apply pending_advance; assumption.
  - exact (pending_erased _ _ _ _ Hp Hne Hg He Hs).
Qed.

(** The loop comes to [x]: a run from a state that has [x] in front of it
    passes a state whose cursor is on [x]. *)
Lemma run_arrives (fuel : nat) :
  forall s s' pre',
    pending m0 bi pre x rest s pre' ->
    run fuel s = Some s' ->
    exists s1 pre1 fuel1,
      arrived m0 bi pre x rest s1 pre1 /\ run fuel1 (step s1) = Some s'.
Proof.
  induction fuel as [| fuel IH]; intros s s' pre' Hp Hrun; [discriminate |].
  cbn [run] in Hrun. rewrite (pending_not_end _ _ Hp) in Hrun.
  destruct (Walker_eq_dec (it s) {| wblock := bi; wpos := List.length pre' |}) as [E | E].
  - exists s, pre', fuel. split; [split; assumption | exact Hrun].
  - destruct (pending_step _ _ Hp E) as [pre'' Hp']. exact (IH _ _ _ Hp' Hrun).
Qed.

End Target.

(** ** Methods pruned block by block *)

Lemma Forall2_pointwise {A B : Type} (R : A -> B -> Prop) (l : list A) (l' : list B) :
  Forall2 R l l' <->
  List.length l = List.length l'
  /\ forall i a b, nth_error l i = Some a -> nth_error l' i = Some b -> R a b.
Proof.
  split.
  - induction 1 as [| a b l l' Hab H [IH1 IH2]]; split; try reflexivity.
    + intros [| i]; discriminate.
    + cbn. lia.
    + intros [| i] a' b' Ha Hb; cbn in *.
      * injection Ha as <-. injection Hb as <-. exact Hab.
      * exact (IH2 i a' b' Ha Hb).
  - revert l'. induction l as [| a l IH]; intros [| b l'] [Hlen H]; cbn in Hlen;
      try lia; constructor.
    + exact (H 0 a b eq_refl eq_refl).
    + apply IH. split; [lia |]. intros i a' b' Ha Hb. exact (H (S i) a' b' Ha Hb).
Qed.

Lemma eraseAt_length (m : Method) (w : Walker) :
  List.length (basicBlocks (eraseAt m w)) = List.length (basicBlocks m).
Proof.
  unfold eraseAt, setBlocks; cbn [basicBlocks].
  apply ReturnEliminationFacts.length_updateNth.
Qed.

Lemma eraseAt_other (m : Method) (w : Walker) (i : nat) :
  i <> wblock w ->
  nth_error (basicBlocks (eraseAt m w)) i = nth_error (basicBlocks m) i.
Proof.
  intros H. unfold eraseAt, setBlocks; cbn [basicBlocks].
  apply EmptyInstructionsFacts.nth_error_updateNth_other. lia.
Qed.

Lemma eraseAt_at (m : Method) (w : Walker) (b : BasicBlock) :
  nth_error (basicBlocks m) (wblock w) = Some b ->
  nth_error (basicBlocks (eraseAt m w)) (wblock w)
  = Some {| blockAddress := blockAddress b;
            instructions := removeNth (wpos w) (instructions b) |}.
Proof.
  intros H. unfold eraseAt, setBlocks; cbn [basicBlocks].
  rewrite nth_error_updateNth, H. reflexivity.
Qed.

(** Two methods that differ from a method and a method pruned from it in
    the block [bi] only, where the one is pruned from the other. *)
Lemma prunedFrom_local (m0 m m0' m' : Method) (bi : nat) :
  prunedFrom m0 m ->
  List.length (basicBlocks m0') = List.length (basicBlocks m0) ->
  List.length (basicBlocks m') = List.length (basicBlocks m) ->
  (forall i, i <> bi -> nth_error (basicBlocks m0') i = nth_error (basicBlocks m0) i) ->
  (forall i, i <> bi -> nth_error (basicBlocks m') i = nth_error (basicBlocks m) i) ->
  (forall b B, nth_error (basicBlocks m0) bi = Some b ->
               nth_error (basicBlocks m) bi = Some B ->
               exists b' B',
                 nth_error (basicBlocks m0') bi = Some b'
                 /\ nth_error (basicBlocks m') bi = Some B'
                 /\ blockAddress b' = blockAddress b /\ blockAddress B' = blockAddress B
                 /\ thinned (instructions b') (instructions B')) ->
  prunedFrom m0' m'.
Proof.
  unfold prunedFrom. intros Hp L0 L1 O0 O1 Hat.
  apply Forall2_pointwise in Hp. destruct Hp as [Hlen Hp].
  apply Forall2_pointwise. split; [congruence |].
  intros i a c Ha Hc. destruct (Nat.eq_dec i bi) as [-> | Hne].
  - assert (Hb : exists b, nth_error (basicBlocks m0) bi = Some b).
    { destruct (nth_error (basicBlocks m0) bi) as [b |] eqn:E; [exists b; reflexivity |].
      apply nth_error_None in E.
      assert (bi < List.length (basicBlocks m0'))
        by (apply nth_error_Some; rewrite Ha; discriminate). lia. }
    assert (HB : exists B, nth_error (basicBlocks m) bi = Some B).
    { destruct (nth_error (basicBlocks m) bi) as [B |] eqn:E; [exists B; reflexivity |].
      apply nth_error_None in E.
      assert (bi < List.length (basicBlocks m'))
        by (apply nth_error_Some; rewrite Hc; discriminate). lia. }
    destruct Hb as [b Hb]. destruct HB as [B HB].
    destruct (Hat b B Hb HB) as (b' & B' & E0 & E1 & A0 & A1 & Ht).
    rewrite E0 in Ha. rewrite E1 in Hc. injection Ha as <-. injection Hc as <-.
    destruct (Hp bi b B Hb HB) as [Hadr _]. split; [congruence | exact Ht].
  - rewrite (O0 i Hne) in Ha. rewrite (O1 i Hne) in Hc. exact (Hp i a c Ha Hc).
Qed.

(** The instruction [x] erased on both sides. *)
Lemma eraseAt_aligned (m0 m : Method) (bi : nat) (b B : BasicBlock)
    (pre pre' rest rest' : list (option Instruction)) (x : option Instruction) :
  prunedFrom m0 m ->
  nth_error (basicBlocks m0) bi = Some b -> instructions b = pre ++ x :: rest ->
  nth_error (basicBlocks m) bi = Some B -> instructions B = pre' ++ x :: rest' ->
  thinned pre pre' -> thinned rest rest' ->
  prunedFrom (eraseAt m0 {| wblock := bi; wpos := List.length pre |})
             (eraseAt m {| wblock := bi; wpos := List.length pre' |}).
Proof.
  intros Hp Hb Hi HB HI Tp Tr.
  apply (prunedFrom_local m0 m _ _ bi Hp); try apply eraseAt_length.
  - intros i Hne. apply eraseAt_other. exact Hne.
  - intros i Hne. apply eraseAt_other. exact Hne.
  - intros b1 B1 E0 E1. rewrite Hb in E0. rewrite HB in E1.
    injection E0 as <-. injection E1 as <-.
    eexists. eexists.
    split; [exact (eraseAt_at m0 {| wblock := bi; wpos := List.length pre |} b Hb) |].
    split; [exact (eraseAt_at m {| wblock := bi; wpos := List.length pre' |} B HB) |].
    cbn [blockAddress instructions wpos]. rewrite Hi, HI, !removeNth_app_at.
    repeat split. apply thinned_app; assumption.
Qed.

(** ** The rules at the cursor *)

(** The first rule erases an instruction without side effects whose output
    is a local that is no parameter and has no reader, and steps back. *)
Lemma step_unread (s : State) (instr : Op) (dest : Local) :
  getOp (method s) (it s) = Some instr ->
  isCandidate instr = true ->
  sideEffects instr = false ->
  checkOutputLocal instr = Some dest ->
  isParameter dest = false ->
  hasUsers (method s) dest READER = false ->
  step s = erasedAndBack s.
Proof.
  intros Hg Hc Hs Ho Hp Hu.
  unfold step, ruleNeverRead. rewrite Hg, Ho, Hc, Hs, Hp, Hu. reflexivity.
Qed.

(** An iteration erases a write without side effects that is overwritten in
    the rest of its block before it is read. *)
Lemma step_overwritten (s : State) (instr : Op) (loc : Local)
    (before after : list (option Instruction)) (over : option Instruction) :
  getOp (method s) (it s) = Some instr ->
  isCandidate instr = true ->
  sideEffects instr = false ->
  checkOutputLocal instr = Some loc ->
  restOfBlock (method s) (it s) = before ++ over :: after ->
  (forall e, In e before -> entryReadsLocal e loc = false) ->
  entryReadsLocal over loc = false ->
  entryWritesLocal over loc = true ->
  entryConditional over = false ->
  erasedAtCursor s (step s).
Proof.
  intros Hg Hc Hs Ho Hrest Hb Hr Hw Hcond.
  unfold step. rewrite Hg.
  destruct (ruleNeverRead s instr) as [s1 |] eqn:E1.
  { rewrite (ruleNeverRead_kind _ _ _ E1). apply erasedAtCursor_back. }
  rewrite Hc.
  destruct (ruleMove s instr) as [s2 |] eqn:E2.
  { destruct (ruleMove_at_cursor _ _ _ Hg E2) as [bit ->].
    apply erasedAtCursor_stay. reflexivity. }
  assert (E3 : ruleRegister s instr = None).
  { unfold ruleRegister.
    rewrite (proj2 (checkOutputLocal_writes _ _ Ho)), andb_false_r. reflexivity. }
  rewrite E3.
  destruct (scanForLocal_overwritten loc over after Hr Hw Hcond before Hb)
    as (checkIt & Hscan & Hno).
  unfold ruleOverwritten. rewrite Ho, Hc, Hs, Hrest, Hscan, Hno. cbn.
  apply erasedAtCursor_stay. reflexivity.
Qed.

(** ** The pass and the instruction *)

(** The instruction of the method at [w], with what is before it and
    behind it in its block. *)
Lemma getOp_split (m : Method) (w : Walker) (o : Op) :
  getOp m w = Some o ->
  exists b,
    nth_error (basicBlocks m) (wblock w) = Some b
    /\ instructions b
       = firstn (wpos w) (instructions b) ++ Some (Single o) :: restOfBlock m w
    /\ List.length (firstn (wpos w) (instructions b)) = wpos w.
Proof.
  intros Hg. apply getOp_get in Hg. unfold get, restOfBlock, blockAt in *.
  destruct (nth_error (basicBlocks m) (wblock w)) as [b |]; [| discriminate].
  destruct (nth_error (instructions b) (wpos w)) as [e |] eqn:Ee; [| discriminate].
  subst e. exists b. split; [reflexivity | split].
  - exact (MethodEditFacts.nth_error_split _ _ _ Ee).
  - apply firstn_length_le. apply Nat.lt_le_incl. apply nth_error_Some.
    rewrite Ee. discriminate.
Qed.

Lemma pending_start (m : Method) (bi : nat) (b : BasicBlock)
    (pre rest : list (option Instruction)) (x : option Instruction) (c : bool) :
  nth_error (basicBlocks m) bi = Some b -> instructions b = pre ++ x :: rest ->
  pending m bi pre x rest
          {| method := m; it := walkAllInstructions m; hasChanged := c |} pre.
Proof.
  intros Hb Hi. split; [apply prunedFrom_refl | split; [apply thinned_refl | split]].
  - exists b. split; assumption.
  - cbn [it walkAllInstructions walk wblock wpos].
    destruct bi; [right; split; [reflexivity | lia] | left; lia].
Qed.

Lemma arrived_cursor (m0 : Method) (bi : nat) (pre rest : list (option Instruction))
    (o : Op) (s : State) (pre' : list (option Instruction)) :
  arrived m0 bi pre (Some (Single o)) rest s pre' ->
  getOp (method s) (it s) = Some o /\ restOfBlock (method s) (it s) = rest.
Proof.
  intros [(_ & _ & (B & HB & HI) & _) Hit].
  unfold getOp, get, restOfBlock, blockAt. rewrite Hit. cbn [wblock wpos].
  rewrite HB, HI. split.
  - rewrite nth_error_app2 by lia. rewrite Nat.sub_diag. reflexivity.
  - apply skipn_app_at.
Qed.

(** The run of the loop from the first instruction on. *)
Lemma eliminateDeadCode_run (m : Method) :
  exists s',
    run (fuelFor m) {| method := m; it := walkAllInstructions m; hasChanged := false |}
    = Some s'
    /\ eliminateDeadCode m = Some (method s', hasChanged s').
Proof.
  destruct (run_total (fuelFor m) (startOf m (walkAllInstructions m))
              (fuelFor_enough m _ false)) as [s' Hrun].
  exists s'. unfold eliminateDeadCode. unfold startOf in Hrun. rewrite Hrun.
  split; reflexivity.
Qed.

(** An instruction that an iteration erases when the cursor comes to it for
    the first time is not in the method that the pass leaves. *)
Lemma erased_on_arrival (m : Method) (w : Walker) (o : Op) (s' : State) :
  getOp m w = Some o ->
  erasable o = true ->
  (forall s pre',
      arrived m (wblock w) (firstn (wpos w)
                              (match nth_error (basicBlocks m) (wblock w) with
                               | Some b => instructions b
                               | None => []
                               end))
              (Some (Single o)) (restOfBlock m w) s pre' ->
      erasedAtCursor s (step s)) ->
  run (fuelFor m) {| method := m; it := walkAllInstructions m; hasChanged := false |}
  = Some s' ->
  prunedFrom (eraseAt m w) (method s') /\ hasChanged s' = true.
Proof.
  intros Hg He Hfire Hrun.
  destruct (getOp_split _ _ _ Hg) as (b & Hb & Hi & Hlen).
  rewrite Hb in Hfire.
  set (pre := firstn (wpos w) (instructions b)) in *.
  pose proof (pending_start m (wblock w) b pre (restOfBlock m w) (Some (Single o)) false
                Hb Hi) as Hp.
  destruct (run_arrives _ _ _ _ _ _ _ _ _ Hp Hrun) as (s1 & pre1 & fuel1 & Ha & Hrun1).
  destruct (Hfire _ _ Ha) as (Eb & Hch & _).
  destruct Ha as [(Hp1 & Ht1 & (B & HB & HI) & _) Hit].
  destruct (run_invariant _ _ _ Hrun1) as [Hpr _].
  destruct (run_effect _ _ _ Hrun1) as (_ & Hc & _).
  split; [| exact (Hc Hch)].
  apply (prunedFrom_trans _ (method (step s1))); [| exact Hpr].
  apply (prunedFrom_blocks _ (eraseAt (method s1) (it s1))); [exact Eb |].
  rewrite Hit. replace w with {| wblock := wblock w; wpos := List.length pre |}
    by (destruct w; cbn in *; congruence).
  cbn [wblock].
  exact (eraseAt_aligned m (method s1) (wblock w) b B pre pre1 _ _ _
           Hp1 Hb Hi HB HI Ht1 (thinned_refl _)).
Qed.

Lemma firstn_succ_nth {A : Type} (l : list A) :
  forall p e, nth_error l p = Some e -> firstn (S p) l = firstn p l ++ [e].
Proof.
  induction l as [| a l IH]; intros [| p] e H; cbn in *; try discriminate.
  - injection H as ->. reflexivity.
  - f_equal. exact (IH p e H).
Qed.

Lemma thinned_nil_inv (l : list (option Instruction)) : thinned [] l -> l = [].
Proof. intros H. inversion H. reflexivity. Qed.

(** The last instruction of a thinned list is kept or dropped. *)
Lemma thinned_snoc_inv (l : list (option Instruction)) (e : option Instruction) :
  forall l', thinned (l ++ [e]) l' ->
             (exists l1, l' = l1 ++ [e] /\ thinned l l1) \/ thinned l l'.
Proof.
  induction l as [| a l IH]; intros l' H; cbn [app] in H.
  - inversion H as [| y t t' Ht | o t t' Ho Ht]; subst.
    + apply thinned_nil_inv in Ht. subst t'. left. exists []. split; [reflexivity | constructor].
    + apply thinned_nil_inv in Ht. subst l'. right. constructor.
  - inversion H as [| y t t' Ht | o t t' Ho Ht]; subst.
    + destruct (IH _ Ht) as [(l1 & -> & T) | T].
      * left. exists (a :: l1). split; [reflexivity | apply thinned_keep; exact T].
      * right. apply thinned_keep. exact T.
    + destruct (IH _ Ht) as [(l1 & -> & T) | T].
      * left. exists l1. split; [reflexivity | apply thinned_drop; assumption].
      * right. apply thinned_drop; assumption.
Qed.

Lemma prunedFrom_count (m m' : Method) :
  prunedFrom m m' -> countInstructions m' <= countInstructions m.
Proof.
  unfold prunedFrom, countInstructions.
  induction 1 as [| b b' bs bs' [_ Ht] H IH]; cbn [fold_right]; [lia |].
  pose proof (thinned_length _ _ Ht). lia.
Qed.

Lemma candidate_erasable (o : Op) (dest : Local) :
  isCandidate o = true -> sideEffects o = false -> checkOutputLocal o = Some dest ->
  erasable o = true.
Proof.
  intros Hc Hs Ho. unfold erasable.
  rewrite Hc, Hs, (checkOutputLocal_writesLocalOrRegister _ _ Ho). reflexivity.
Qed.

Lemma unread_pruned (m m' : Method) (dest : Local) :
  prunedFrom m m' -> hasUsers m dest READER = false -> hasUsers m' dest READER = false.
Proof.
  intros Hp Hu. destruct (hasUsers m' dest READER) eqn:E; [| reflexivity].
  rewrite (prunedFrom_hasUsers _ _ _ _ Hp E) in Hu. discriminate.
Qed.

(** C3, amended.  The pass deletes a write that is overwritten: an
    operation, move, immediate load or code address of the method that
    writes a local and has no side effects, and behind which its block holds
    an unconditional write of the local that does not read it, with no read
    of the local in between, is not in the method that [eliminateDeadCode]
    leaves.  That method is the given one without this instruction and
    without some other instructions that the pass may erase, and the pass
    returns [true]. *)
Theorem eliminateDeadCode_overwritten_write :
  forall (m : Method) (w : Walker) (instr : Op) (loc : Local)
         (before after : list (option Instruction)) (over : option Instruction),
    getOp m w = Some instr ->
    isCandidate instr = true ->
    sideEffects instr = false ->
    checkOutputLocal instr = Some loc ->
    restOfBlock m w = before ++ over :: after ->
    (forall e, In e before -> entryReadsLocal e loc = false) ->
    entryReadsLocal over loc = false ->
    entryWritesLocal over loc = true ->
    entryConditional over = false ->
    exists m',
      eliminateDeadCode m = Some (m', true)
      /\ prunedFrom (eraseAt m w) m'
      /\ countInstructions m' < countInstructions m.
Proof.
  intros m w instr loc before after over Hg Hc Hs Ho Hrest Hb Hr Hw Hcond.
  destruct (eliminateDeadCode_run m) as (s' & Hrun & E).
  assert (H : prunedFrom (eraseAt m w) (method s') /\ hasChanged s' = true).
  { apply (erased_on_arrival m w instr s' Hg (candidate_erasable _ _ Hc Hs Ho)); [| exact Hrun].
    intros s pre' Ha. destruct (arrived_cursor _ _ _ _ _ _ _ Ha) as [Hg1 Hrest1].
    apply (step_overwritten s instr loc before after over); try assumption.
    rewrite Hrest1. exact Hrest. }
  destruct H as [Hp Hch]. exists (method s'). rewrite E, Hch.
  split; [reflexivity | split; [exact Hp |]].
  pose proof (prunedFrom_count _ _ Hp) as Hle.
  pose proof (countInstructions_eraseAt _ _ (getOp_onEntry _ _ _ Hg)). lia.
Qed.

Lemma eliminateDeadCode_overwritten_write_witness :
  eliminateDeadCode writtenTwice
  = Some (methodOf
            [ blockOf 100
                [ label 0 (labelLocal "L0");
                  instr 2 LoadImmediate (Some (ref (plainLocal "x"))) [LiteralValue 2];
                  instr 3 OtherInstruction None [ref (plainLocal "x")] ] ],
          true)
  /\ exists m',
       eliminateDeadCode writtenTwice = Some (m', true)
       /\ prunedFrom (eraseAt writtenTwice {| wblock := 0; wpos := 1 |}) m'
       /\ countInstructions m' < countInstructions writtenTwice.
Proof.
  split; [vm_compute; reflexivity |].
  apply (eliminateDeadCode_overwritten_write
           writtenTwice {| wblock := 0; wpos := 1 |}
           (plainOp 1 LoadImmediate (Some (ref (plainLocal "x"))) [LiteralValue 1])
           (plainLocal "x") []
           [instr 3 OtherInstruction None [ref (plainLocal "x")]]
           (instr 2 LoadImmediate (Some (ref (plainLocal "x"))) [LiteralValue 2]));
    try reflexivity.
  intros e [].
Defined.

(** The instruction before an erased one is looked at again: when the
    first rule erases the instruction at [w] and the instruction before it
    in the block writes a local that only the erased instruction has read,
    the pass erases that instruction as well. *)
Lemma erased_with_predecessor (m : Method) (w : Walker) (o prev : Op)
    (dest d : Local) (s' : State) :
  getOp m w = Some o ->
  isCandidate o = true -> sideEffects o = false ->
  checkOutputLocal o = Some dest -> isParameter dest = false ->
  hasUsers m dest READER = false ->
  0 < wpos w ->
  getOp m (previousInBlock w) = Some prev ->
  isCandidate prev = true -> sideEffects prev = false ->
  checkOutputLocal prev = Some d -> isParameter d = false ->
  hasUsers (eraseAt m w) d READER = false ->
  run (fuelFor m) {| method := m; it := walkAllInstructions m; hasChanged := false |}
  = Some s' ->
  prunedFrom (eraseAt (eraseAt m w) (previousInBlock w)) (method s').
Proof.
  intros Hg Hc Hs Ho Hp Hu Hpos Hgp Hcp Hsp Hop Hpp Hup Hrun.
  destruct (getOp_split _ _ _ Hg) as (b & Hb & Hi & Hlen).
  destruct w as [bi q]. unfold previousInBlock in *. cbn [wblock wpos] in *.
  destruct q as [| p]; [lia |]. cbn [Nat.pred] in *.
  assert (Hprev : nth_error (instructions b) p = Some (Some (Single prev))).
  { apply getOp_get in Hgp. unfold get, blockAt in Hgp. cbn [wblock wpos] in Hgp.
    rewrite Hb in Hgp.
    destruct (nth_error (instructions b) p) as [e |]; [| discriminate].
    subst e. reflexivity. }
  set (pre := firstn p (instructions b)) in *.
  set (rest := restOfBlock m {| wblock := bi; wpos := S p |}) in *.
  assert (Hlp : List.length pre = p).
  { subst pre. apply firstn_length_le. apply Nat.lt_le_incl. apply nth_error_Some.
    rewrite Hprev. discriminate. }
  rewrite (firstn_succ_nth _ _ _ Hprev) in Hi, Hlen. fold pre in Hi, Hlen.
  pose proof (pending_start m bi b _ rest (Some (Single o)) false Hb Hi) as Hpend.
  destruct (run_arrives _ _ _ _ _ _ _ _ _ Hpend Hrun) as (s1 & pre1 & fuel1 & Ha & Hrun1).
  destruct (arrived_cursor _ _ _ _ _ _ _ Ha) as [Hg1 _].
  destruct Ha as [(Hp1 & Ht1 & (B & HB & HI) & _) Hit].
  assert (E1 : step s1 = erasedAndBack s1).
  { apply (step_unread s1 o dest); try assumption.
    exact (unread_pruned _ _ _ Hp1 Hu). }
  rewrite E1 in Hrun1.
  assert (Hm2 : prunedFrom (eraseAt m {| wblock := bi; wpos := S p |})
                           (method (erasedAndBack s1))).
  { cbn [erasedAndBack method]. rewrite Hit. rewrite <- Hlen.
    exact (eraseAt_aligned m (method s1) bi b B _ pre1 _ _ _
             Hp1 Hb Hi HB HI Ht1 (thinned_refl _)). }
  assert (Hb1 : nth_error (basicBlocks (eraseAt m {| wblock := bi; wpos := S p |})) bi
                = Some {| blockAddress := blockAddress b;
                          instructions := pre ++ Some (Single prev) :: rest |}).
  { pose proof (eraseAt_at m {| wblock := bi; wpos := S p |} b Hb) as E.
    cbn [wblock wpos] in E. rewrite E.
    rewrite Hi, <- Hlen, removeNth_app_at, <- app_assoc. reflexivity. }
  assert (HB2 : nth_error (basicBlocks (method (erasedAndBack s1))) bi
                = Some {| blockAddress := blockAddress B; instructions := pre1 ++ rest |}).
  { cbn [erasedAndBack method]. rewrite Hit.
    pose proof (eraseAt_at (method s1) {| wblock := bi; wpos := List.length pre1 |} B HB)
      as E.
    cbn [wblock wpos] in E. rewrite E, HI, removeNth_app_at. reflexivity. }
  destruct (thinned_snoc_inv _ _ _ Ht1) as [(l1 & -> & T) | T].
  - (* the predecessor is there: the cursor is on it *)
    set (s2 := erasedAndBack s1) in *.
    assert (Hit2 : it s2 = {| wblock := bi; wpos := List.length l1 |}).
    { subst s2. cbn [erasedAndBack it]. rewrite Hit. unfold previousInBlock.
      cbn [wblock wpos]. rewrite length_app. cbn [List.length].
      replace (List.length l1 + 1) with (S (List.length l1)) by lia. reflexivity. }
    rewrite <- app_assoc in HB2. cbn [app] in HB2.
    assert (Hg2 : getOp (method s2) (it s2) = Some prev).
    { unfold getOp, get, blockAt. rewrite Hit2. cbn [wblock wpos]. rewrite HB2.
      cbn [instructions]. rewrite nth_error_app2 by lia. rewrite Nat.sub_diag.
      reflexivity. }
    assert (E2 : step s2 = erasedAndBack s2).
    { apply (step_unread s2 prev d); try assumption.
      exact (unread_pruned _ _ _ Hm2 Hup). }
    destruct fuel1 as [| fuel2]; [discriminate |].
    cbn [run] in Hrun1. rewrite (getOp_not_end _ _ _ Hg2), E2 in Hrun1.
    destruct (run_invariant _ _ _ Hrun1) as [Hpr _].
    apply (prunedFrom_trans _ (method (erasedAndBack s2))); [| exact Hpr].
    cbn [erasedAndBack method]. rewrite Hit2.
    replace {| wblock := bi; wpos := p |}
      with {| wblock := bi; wpos := List.length pre |} by (rewrite Hlp; reflexivity).
    exact (eraseAt_aligned _ (method s2) bi _ _ pre l1 rest rest _
             Hm2 Hb1 eq_refl HB2 eq_refl T (thinned_refl _)).
  - (* the predecessor has been erased before *)
    destruct (run_invariant _ _ _ Hrun1) as [Hpr _].
    apply (prunedFrom_trans _ (method (erasedAndBack s1))); [| exact Hpr].
    apply (prunedFrom_local _ _ _ _ bi Hm2).
    + apply eraseAt_length.
    + reflexivity.
    + intros i Hne. apply eraseAt_other. exact Hne.
    + reflexivity.
    + intros b1 B1 F0 F1. rewrite Hb1 in F0. rewrite HB2 in F1.
      injection F0 as <-. injection F1 as <-.
      eexists. eexists.
      split; [exact (eraseAt_at _ {| wblock := bi; wpos := p |} _ Hb1) |].
      split; [exact HB2 |].
      cbn [blockAddress instructions wpos]. rewrite <- Hlp, removeNth_app_at.
      repeat split. apply thinned_app; [exact T | apply thinned_refl].
Qed.

(** C4, amended.  The pass deletes what is never read: every operation,
    move, immediate load or code address of the method that has no side
    effects and whose output is a local that is not a parameter and has no
    reader anywhere in the method is not in the method that
    [eliminateDeadCode] leaves, and the pass returns [true].  After the
    deletion the cursor steps back, so that the instruction before is looked
    at again in the same pass: when that instruction has no side effects
    either and writes a local, no parameter, that only the deleted
    instruction has read, it is deleted as well. *)
Theorem eliminateDeadCode_never_read :
  forall m : Method,
    exists (m' : Method) (changed : bool),
      eliminateDeadCode m = Some (m', changed)
      /\ forall (w : Walker) (instr : Op) (dest : Local),
           getOp m w = Some instr ->
           isCandidate instr = true ->
           sideEffects instr = false ->
           checkOutputLocal instr = Some dest ->
           isParameter dest = false ->
           hasUsers m dest READER = false ->
           changed = true
           /\ prunedFrom (eraseAt m w) m'
           /\ forall (prev : Op) (d : Local),
                0 < wpos w ->
                getOp m (previousInBlock w) = Some prev ->
                isCandidate prev = true ->
                sideEffects prev = false ->
                checkOutputLocal prev = Some d ->
                isParameter d = false ->
                hasUsers (eraseAt m w) d READER = false ->
                prunedFrom (eraseAt (eraseAt m w) (previousInBlock w)) m'.
Proof.
  intros m. destruct (eliminateDeadCode_run m) as (s' & Hrun & E).
  exists (method s'), (hasChanged s'). split; [exact E |].
  intros w instr dest Hg Hc Hs Ho Hp Hu.
  assert (H : prunedFrom (eraseAt m w) (method s') /\ hasChanged s' = true).
  { apply (erased_on_arrival m w instr s' Hg (candidate_erasable _ _ Hc Hs Ho)); [| exact Hrun].
    intros s pre' Ha. destruct (arrived_cursor _ _ _ _ _ _ _ Ha) as [Hg1 _].
    destruct Ha as [(Hp1 & _) _].
    rewrite (step_unread s instr dest Hg1 Hc Hs Ho Hp (unread_pruned _ _ _ Hp1 Hu)).
    apply erasedAtCursor_back. }
  destruct H as [Hpr Hch]. split; [exact Hch | split; [exact Hpr |]].
  intros prev d Hpos Hgp Hcp Hsp Hop Hpp Hup.
  exact (erased_with_predecessor m w instr prev dest d s'
           Hg Hc Hs Ho Hp Hu Hpos Hgp Hcp Hsp Hop Hpp Hup Hrun).
Qed.

Lemma eliminateDeadCode_never_read_witness :
  eliminateDeadCode chain
  = Some (methodOf [ blockOf 100 [ label 0 (labelLocal "L0") ] ], true)
  /\ prunedFrom (eraseAt (eraseAt chain {| wblock := 0; wpos := 2 |})
                         {| wblock := 0; wpos := 1 |})
                (methodOf [ blockOf 100 [ label 0 (labelLocal "L0") ] ]).
Proof.
  assert (E0 : eliminateDeadCode chain
               = Some (methodOf [ blockOf 100 [ label 0 (labelLocal "L0") ] ], true))
    by (vm_compute; reflexivity).
  split; [exact E0 |].
  destruct (eliminateDeadCode_never_read chain) as (m' & changed & E & H).
  rewrite E0 in E. injection E as <- <-.
  destruct (H {| wblock := 0; wpos := 2 |}
              (plainOp 2 MoveOperation (Some (ref (plainLocal "b"))) [ref (plainLocal "a")])
              (plainLocal "b") eq_refl eq_refl eq_refl eq_refl eq_refl eq_refl)
    as (_ & _ & Hprev).
  apply (Hprev (plainOp 1 LoadImmediate (Some (ref (plainLocal "a"))) [LiteralValue 1])
               (plainLocal "a")); try reflexivity.
  cbn. lia.
Defined.

End DeadCodePassFacts.
